(** * AWT founder extension: memory graph, conversation store, sync and
      webhook dispatcher

    A shallow embedding of the in-browser core of the extension
    (memory-graph.js, memory-extractor.js, memory-sync.js, storage.js and the
    service worker's job pump) together with the properties its
    specification states about it.

    Modelling conventions.
    - A JavaScript [Map] is a [gmap]; a JavaScript [Set] of ids is a
      duplicate-free list in insertion order ([set_add] appends,
      [set_delete] filters), so that loops over a set are folds over a list.
    - Numbers that the code treats as scalars in [0,1] (importance,
      confidence, decay, weight, search scores) are exact rationals [Q];
      time stamps and counters are integers [Z].  IEEE rounding is not
      modelled.
    - [Date.now()] and the random part of a generated identifier are
      inputs of the operation that reads them: every mutation takes the
      clock reading [now] and, where it creates an object, the generated
      identifier [fresh].
    - Objects held in a [Map] and handed out by reference (the node returned
      by [addNode], the active session) are represented by their key in that
      map.
    - JavaScript strings are Rocq strings (sequences of code units below 256);
      [String.length] is [.length] and [nat_of_ascii] is [charCodeAt]. *)

From Stdlib Require Import ZArith QArith Qminmax Lqa String Ascii List Lia.
From stdpp Require Import gmap strings list fin_maps pretty.

Local Open Scope string_scope.

(** ** JavaScript string primitives *)

Module JS.

Definition truthy_string (s : string) : bool :=
  match s with EmptyString => false | _ => true end.

Definition truthyZ (z : Z) : bool := negb (z =? 0)%Z.

Definition truthyQ (q : Q) : bool := negb (Qeq_bool q 0).

(** [a || d] on an optional string property. *)
Definition or_string (o : option string) (d : string) : string :=
  match o with
  | Some s => if truthy_string s then s else d
  | None => d
  end.

(** [a || null] on an optional string property. *)
Definition or_null (o : option string) : option string :=
  match o with
  | Some s => if truthy_string s then Some s else None
  | None => None
  end.

(** [a || d] on an optional number property. *)
Definition or_Q (o : option Q) (d : Q) : Q :=
  match o with
  | Some q => if truthyQ q then q else d
  | None => d
  end.

Definition or_Z (o : option Z) (d : Z) : Z :=
  match o with
  | Some z => if truthyZ z then z else d
  | None => d
  end.

(** [a < b] and [a <= b] on numbers. *)
Definition Qltb (a b : Q) : bool :=
  match (a ?= b)%Q with Lt => true | _ => false end.

Definition Qleb (a b : Q) : bool :=
  match (a ?= b)%Q with Gt => false | _ => true end.

Definition charCode (c : ascii) : Z := Z.of_nat (nat_of_ascii c).

Definition is_upper (c : ascii) : bool :=
  ((65 <=? nat_of_ascii c) && (nat_of_ascii c <=? 90))%nat.

Definition is_lower (c : ascii) : bool :=
  ((97 <=? nat_of_ascii c) && (nat_of_ascii c <=? 122))%nat.

Definition is_digit (c : ascii) : bool :=
  ((48 <=? nat_of_ascii c) && (nat_of_ascii c <=? 57))%nat.

(** The class [\w] of a regular expression without the [u] flag. *)
Definition is_word (c : ascii) : bool :=
  is_upper c || is_lower c || is_digit c || (nat_of_ascii c =? 95)%nat.

Definition is_space (c : ascii) : bool :=
  let n := nat_of_ascii c in
  ((n =? 32) || ((9 <=? n) && (n <=? 13)) || (n =? 160))%nat.

(** The upper-case letters above ASCII among the code units below 256: the
    range from 192 to 222 but for the multiplication sign, 215. *)
Definition is_upper_latin1 (c : ascii) : bool :=
  let n := nat_of_ascii c in
  ((192 <=? n) && (n <=? 222) && negb (n =? 215))%nat.

Definition lower_char (c : ascii) : ascii :=
  if is_upper c || is_upper_latin1 c
  then ascii_of_nat (nat_of_ascii c + 32) else c.

Fixpoint toLowerCase (s : string) : string :=
  match s with
  | EmptyString => EmptyString
  | String c r => String (lower_char c) (toLowerCase r)
  end.

Fixpoint startsWith (s p : string) : bool :=
  match p, s with
  | EmptyString, _ => true
  | String _ _, EmptyString => false
  | String a p', String b s' => Ascii.eqb a b && startsWith s' p'
  end.

(** [s.includes(sub)] *)
Fixpoint includes (s sub : string) : bool :=
  startsWith s sub ||
  match s with
  | EmptyString => false
  | String _ r => includes r sub
  end.

Fixpoint take (n : nat) (s : string) : string :=
  match n, s with
  | O, _ => EmptyString
  | S _, EmptyString => EmptyString
  | S k, String c r => String c (take k r)
  end.

Fixpoint drop (n : nat) (s : string) : string :=
  match n, s with
  | O, _ => s
  | S _, EmptyString => EmptyString
  | S k, String _ r => drop k r
  end.

Fixpoint trimStart (s : string) : string :=
  match s with
  | EmptyString => EmptyString
  | String c r => if is_space c then trimStart r else s
  end.

Fixpoint rev_string (s acc : string) : string :=
  match s with
  | EmptyString => acc
  | String c r => rev_string r (String c acc)
  end.

Definition trim (s : string) : string :=
  rev_string (trimStart (rev_string (trimStart s) "")) "".

(** [new RegExp("\\b" + t).test(s)] for a token [t] that starts with a
    word character: [t] occurs in [s] at a position that is the start of
    [s] or follows a character outside [\w]. *)
Fixpoint wordStart_from (prev_word : bool) (s t : string) : bool :=
  (negb prev_word && startsWith s t) ||
  match s with
  | EmptyString => false
  | String c r => wordStart_from (is_word c) r t
  end.

Definition wordStart (s t : string) : bool := wordStart_from false s t.

Definition dquote : ascii := ascii_of_nat 34.

Definition hex_digit (n : nat) : ascii :=
  ascii_of_nat (if (n <? 10)%nat then 48 + n else 87 + n).

(** The escape [JSON.stringify] writes for one code unit of a string. *)
Definition json_escape (c : ascii) : string :=
  let n := nat_of_ascii c in
  if (n =? 34)%nat then String "\" (String dquote EmptyString)
  else if (n =? 92)%nat then "\\"
  else if (n =? 8)%nat then "\b"
  else if (n =? 12)%nat then "\f"
  else if (n =? 10)%nat then "\n"
  else if (n =? 13)%nat then "\r"
  else if (n =? 9)%nat then "\t"
  else if (n <? 32)%nat then
    "\u00" ++ String (hex_digit (n / 16)) (String (hex_digit (n mod 16)) "")
  else String c "".

Fixpoint json_string_body (s : string) : string :=
  match s with
  | EmptyString => EmptyString
  | String c r => json_escape c ++ json_string_body r
  end.

(** [JSON.stringify(s)] for a string [s]. *)
Definition JSON_stringify (s : string) : string :=
  String dquote (json_string_body s ++ String dquote EmptyString).

(** [ToInt32]: the value a bitwise operator sees and returns. *)
Definition toInt32 (z : Z) : Z := ((z + 2147483648) mod 4294967296 - 2147483648)%Z.

Definition digit36 (d : Z) : ascii :=
  ascii_of_nat (Z.to_nat (if (d <? 10)%Z then 48 + d else 87 + d)%Z).

Fixpoint digits36 (fuel : nat) (z : Z) (acc : string) : string :=
  match fuel with
  | O => acc
  | S k =>
      let acc' := String (digit36 (z mod 36)) acc in
      if (z / 36 =? 0)%Z then acc' else digits36 k (z / 36) acc'
  end.

(** [n.toString(36)] for a 32-bit integer [n] (seven digits suffice). *)
Definition toString36 (z : Z) : string :=
  if (z <? 0)%Z then String "-" (digits36 7 (- z) "") else digits36 7 z "".

End JS.


(** ** Memory graph (memory-graph.js) *)

(** A JavaScript [Set] of identifiers, in insertion order. *)
Definition set_add (x : string) (l : list string) : list string :=
  if decide (x ∈ l) then l else l ++ [x].

Definition set_delete (x : string) (l : list string) : list string :=
  filter (λ y, y ≠ x) l.

(** [m.get(k)?.add(x)] and [m.get(k)?.delete(x)] on a map of sets. *)
Definition adj_add (k x : string) (m : gmap string (list string)) :=
  alter (set_add x) k m.

Definition adj_delete (k x : string) (m : gmap string (list string)) :=
  alter (set_delete x) k m.

(** [if (!m.has(k)) m.set(k, new Set()); m.get(k).add(x)] *)
Definition index_add (k x : string) (m : gmap string (list string)) :=
  <[k := set_add x (default [] (m !! k))]> m.

(** The [metadata] argument of [addNode]: the keys the code reads, and the
    free-form rest. *)
Record Metadata := {
  md_importance : option Q;
  md_confidence : option Q;
  md_source : option string;
  md_platform : option string;
  md_sessionId : option string;
  md_extra : list (string * string)
}.

Definition no_metadata : Metadata :=
  {| md_importance := None; md_confidence := None; md_source := None;
     md_platform := None; md_sessionId := None; md_extra := [] |}.

(** [{...metadata, sessionId: sid}] *)
Definition with_sessionId (md : Metadata) (sid : option string) : Metadata :=
  {| md_importance := md_importance md; md_confidence := md_confidence md;
     md_source := md_source md; md_platform := md_platform md;
     md_sessionId := sid; md_extra := md_extra md |}.

(** [node.metadata]: the given keys, then the four keys the constructor
    writes after the spread. *)
Record NodeMetadata := {
  nm_given : Metadata;
  createdAt : Z;
  updatedAt : Z;
  accessCount : Z;
  lastAccessedAt : option Z
}.

Record MemoryNode := {
  n_id : string;
  n_type : string;
  n_content : string;
  n_metadata : NodeMetadata;
  importance : Q;
  confidence : Q;
  decay : Q;
  embedding : option (list Q);
  n_source : string;
  n_platform : string;
  n_sessionId : option string
}.

(** [new MemoryNode(type, content, metadata)]; [fresh] is [_generateId()]. *)
Definition MemoryNode_new (now : Z) (fresh : string)
    (type content : string) (metadata : Metadata) : MemoryNode :=
  {| n_id := fresh;
     n_type := type;
     n_content := content;
     n_metadata := {| nm_given := metadata; createdAt := now; updatedAt := now;
                      accessCount := 0; lastAccessedAt := None |};
     importance := JS.or_Q (md_importance metadata) (1 # 2);
     confidence := JS.or_Q (md_confidence metadata) (4 # 5);
     decay := 1;
     embedding := None;
     n_source := JS.or_string (md_source metadata) "unknown";
     n_platform := JS.or_string (md_platform metadata) "unknown";
     n_sessionId := JS.or_null (md_sessionId metadata) |}.

Definition set_importance (v : Q) (n : MemoryNode) : MemoryNode :=
  {| n_id := n_id n; n_type := n_type n; n_content := n_content n;
     n_metadata := n_metadata n; importance := v; confidence := confidence n;
     decay := decay n; embedding := embedding n; n_source := n_source n;
     n_platform := n_platform n; n_sessionId := n_sessionId n |}.

Definition set_confidence (v : Q) (n : MemoryNode) : MemoryNode :=
  {| n_id := n_id n; n_type := n_type n; n_content := n_content n;
     n_metadata := n_metadata n; importance := importance n; confidence := v;
     decay := decay n; embedding := embedding n; n_source := n_source n;
     n_platform := n_platform n; n_sessionId := n_sessionId n |}.

Definition set_decay (v : Q) (n : MemoryNode) : MemoryNode :=
  {| n_id := n_id n; n_type := n_type n; n_content := n_content n;
     n_metadata := n_metadata n; importance := importance n;
     confidence := confidence n; decay := v; embedding := embedding n;
     n_source := n_source n; n_platform := n_platform n;
     n_sessionId := n_sessionId n |}.

(** [MemoryNode.touch] *)
Definition touch (now : Z) (n : MemoryNode) : MemoryNode :=
  {| n_id := n_id n; n_type := n_type n; n_content := n_content n;
     n_metadata :=
       {| nm_given := nm_given (n_metadata n);
          createdAt := createdAt (n_metadata n);
          updatedAt := now;
          accessCount := accessCount (n_metadata n) + 1;
          lastAccessedAt := Some now |};
     importance := importance n; confidence := confidence n;
     decay := Qmin 1 (decay n + (1 # 10));
     embedding := embedding n; n_source := n_source n;
     n_platform := n_platform n; n_sessionId := n_sessionId n |}.

(** [MemoryNode.updateContent] *)
Definition updateContent (now : Z) (newContent : string) (n : MemoryNode)
    : MemoryNode :=
  {| n_id := n_id n; n_type := n_type n; n_content := newContent;
     n_metadata :=
       {| nm_given := nm_given (n_metadata n);
          createdAt := createdAt (n_metadata n);
          updatedAt := now;
          accessCount := accessCount (n_metadata n);
          lastAccessedAt := lastAccessedAt (n_metadata n) |};
     importance := importance n; confidence := confidence n;
     decay := decay n; embedding := embedding n; n_source := n_source n;
     n_platform := n_platform n; n_sessionId := n_sessionId n |}.

(** [MemoryNode.toJSON] copies every field, so the JSON form of a node is
    the record itself. *)
Definition MemoryNode_toJSON (n : MemoryNode) : MemoryNode := n.

(** [MemoryNode.fromJSON]: the constructor runs on [json.metadata] and so
    writes [createdAt], [updatedAt], [accessCount] and [lastAccessedAt]
    anew; the assignments after it restore the other fields (the identifier
    the constructor generates is overwritten at once). *)
Definition MemoryNode_fromJSON (now : Z) (json : MemoryNode) : MemoryNode :=
  let node :=
    MemoryNode_new now (n_id json) (n_type json) (n_content json)
                   (nm_given (n_metadata json)) in
  {| n_id := n_id json; n_type := n_type node; n_content := n_content node;
     n_metadata := n_metadata node;
     importance := importance json; confidence := confidence json;
     decay := decay json; embedding := embedding json;
     n_source := n_source json; n_platform := n_platform json;
     n_sessionId := n_sessionId json |}.

(** The [metadata] argument of [addEdge]. *)
Record EdgeOptions := {
  eo_weight : option Q;
  eo_bidirectional : option bool;
  eo_extra : list (string * string)
}.

Definition no_edge_options : EdgeOptions :=
  {| eo_weight := None; eo_bidirectional := None; eo_extra := [] |}.

Record EdgeMetadata := {
  em_given : EdgeOptions;
  e_createdAt : Z;
  e_updatedAt : Z
}.

Record MemoryEdge := {
  e_id : string;
  sourceId : string;
  targetId : string;
  e_type : string;
  weight : Q;
  e_metadata : EdgeMetadata;
  bidirectional : bool
}.

(** [new MemoryEdge(sourceId, targetId, type, metadata)] *)
Definition MemoryEdge_new (now : Z) (fresh : string)
    (src tgt type : string) (metadata : EdgeOptions) : MemoryEdge :=
  {| e_id := fresh; sourceId := src; targetId := tgt; e_type := type;
     weight := JS.or_Q (eo_weight metadata) 1;
     e_metadata := {| em_given := metadata; e_createdAt := now;
                      e_updatedAt := now |};
     bidirectional := default false (eo_bidirectional metadata) |}.

(** [MemoryEdge.reinforce(amount = 0.1)] *)
Definition reinforce (now : Z) (e : MemoryEdge) : MemoryEdge :=
  {| e_id := e_id e; sourceId := sourceId e; targetId := targetId e;
     e_type := e_type e;
     weight := Qmin 2 (weight e + (1 # 10));
     e_metadata := {| em_given := em_given (e_metadata e);
                      e_createdAt := e_createdAt (e_metadata e);
                      e_updatedAt := now |};
     bidirectional := bidirectional e |}.

Definition MemoryEdge_toJSON (e : MemoryEdge) : MemoryEdge := e.

(** [MemoryEdge.fromJSON] *)
Definition MemoryEdge_fromJSON (now : Z) (json : MemoryEdge) : MemoryEdge :=
  let edge :=
    MemoryEdge_new now (e_id json) (sourceId json) (targetId json)
                   (e_type json) (em_given (e_metadata json)) in
  {| e_id := e_id json; sourceId := sourceId edge; targetId := targetId edge;
     e_type := e_type edge; weight := weight json;
     e_metadata := e_metadata edge; bidirectional := bidirectional json |}.

(** The [metadata] argument of [startSession]. *)
Record SessionOptions := {
  so_platform : option string;
  so_url : option string;
  so_title : option string;
  so_description : option string;
  so_tags : option (list string)
}.

Record WorkSession := {
  s_id : string;
  startedAt : Z;
  endedAt : option Z;
  s_platform : string;
  s_url : option string;
  s_title : string;
  s_description : string;
  s_tags : list string;
  nodeIds : list string;
  promptCount : Z;
  responseCount : Z;
  codeBlockCount : Z;
  errorCount : Z;
  primaryLanguage : option string;
  primaryFramework : option string;
  primaryTopic : option string;
  isActive : bool
}.

(** [new WorkSession(metadata)] *)
Definition WorkSession_new (now : Z) (fresh : string) (metadata : SessionOptions)
    : WorkSession :=
  {| s_id := fresh; startedAt := now; endedAt := None;
     s_platform := JS.or_string (so_platform metadata) "unknown";
     s_url := JS.or_null (so_url metadata);
     s_title := JS.or_string (so_title metadata) "Untitled Session";
     s_description := JS.or_string (so_description metadata) "";
     s_tags := default [] (so_tags metadata);
     nodeIds := [];
     promptCount := 0; responseCount := 0; codeBlockCount := 0;
     errorCount := 0;
     primaryLanguage := None; primaryFramework := None; primaryTopic := None;
     isActive := true |}.

Definition set_nodeIds (ids : list string) (s : WorkSession) : WorkSession :=
  {| s_id := s_id s; startedAt := startedAt s; endedAt := endedAt s;
     s_platform := s_platform s; s_url := s_url s; s_title := s_title s;
     s_description := s_description s; s_tags := s_tags s; nodeIds := ids;
     promptCount := promptCount s; responseCount := responseCount s;
     codeBlockCount := codeBlockCount s; errorCount := errorCount s;
     primaryLanguage := primaryLanguage s;
     primaryFramework := primaryFramework s; primaryTopic := primaryTopic s;
     isActive := isActive s |}.

(** [WorkSession.addNode] and [WorkSession.removeNode] *)
Definition session_addNode (nodeId : string) (s : WorkSession) : WorkSession :=
  set_nodeIds (set_add nodeId (nodeIds s)) s.

Definition session_removeNode (nodeId : string) (s : WorkSession) : WorkSession :=
  set_nodeIds (set_delete nodeId (nodeIds s)) s.

(** [WorkSession.end] *)
Definition session_end (now : Z) (s : WorkSession) : WorkSession :=
  {| s_id := s_id s; startedAt := startedAt s; endedAt := Some now;
     s_platform := s_platform s; s_url := s_url s; s_title := s_title s;
     s_description := s_description s; s_tags := s_tags s;
     nodeIds := nodeIds s;
     promptCount := promptCount s; responseCount := responseCount s;
     codeBlockCount := codeBlockCount s; errorCount := errorCount s;
     primaryLanguage := primaryLanguage s;
     primaryFramework := primaryFramework s; primaryTopic := primaryTopic s;
     isActive := false |}.

(** [WorkSession.toJSON]: [nodeIds] becomes an array, which is the list. *)
Definition WorkSession_toJSON (s : WorkSession) : WorkSession := s.

(** [WorkSession.fromJSON]: five keys go through the constructor and its
    defaults, every other field is assigned from the JSON; [new Set(array)]
    drops repeated ids. *)
Definition WorkSession_fromJSON (now : Z) (json : WorkSession) : WorkSession :=
  let session :=
    WorkSession_new now (s_id json)
      {| so_platform := Some (s_platform json); so_url := s_url json;
         so_title := Some (s_title json);
         so_description := Some (s_description json);
         so_tags := Some (s_tags json) |} in
  {| s_id := s_id json; startedAt := startedAt json; endedAt := endedAt json;
     s_platform := s_platform session; s_url := s_url session;
     s_title := s_title session; s_description := s_description session;
     s_tags := s_tags session;
     nodeIds := foldl (λ acc x, set_add x acc) [] (nodeIds json);
     promptCount := promptCount json; responseCount := responseCount json;
     codeBlockCount := codeBlockCount json; errorCount := errorCount json;
     primaryLanguage := primaryLanguage json;
     primaryFramework := primaryFramework json;
     primaryTopic := primaryTopic json;
     isActive := isActive json |}.

Record Stats := {
  totalNodes : Z;
  totalEdges : Z;
  st_createdAt : Z;
  lastModified : Z
}.

(** The graph.  [activeSession] is a reference to a session object that is
    also stored in [sessions]; it is kept as that session's key. *)
Record MemoryGraph := {
  nodes : gmap string MemoryNode;
  edges : gmap string MemoryEdge;
  outgoing : gmap string (list string);
  incoming : gmap string (list string);
  nodesByType : gmap string (list string);
  edgesByType : gmap string (list string);
  contentIndex : gmap string string;
  sessions : gmap string WorkSession;
  activeSession : option string;
  stats : Stats
}.

(** [new MemoryGraph()] *)
Definition MemoryGraph_new (now : Z) : MemoryGraph :=
  {| nodes := ∅; edges := ∅; outgoing := ∅; incoming := ∅;
     nodesByType := ∅; edgesByType := ∅; contentIndex := ∅;
     sessions := ∅; activeSession := None;
     stats := {| totalNodes := 0; totalEdges := 0; st_createdAt := now;
                 lastModified := now |} |}.

(** The session object [this.activeSession] refers to. *)
Definition activeSessionObj (g : MemoryGraph) : option WorkSession :=
  activeSession g ≫= λ k, sessions g !! k.

Fixpoint hash_loop (str : string) (hash : Z) : Z :=
  match str with
  | EmptyString => hash
  | String c r =>
      let hash1 := (JS.toInt32 (Z.shiftl hash 5) - hash + JS.charCode c)%Z in
      hash_loop r (JS.toInt32 hash1)
  end.

(** [MemoryGraph._hashContent] *)
Definition _hashContent (type content : string) : string :=
  let str := type ++ ":" ++ JS.JSON_stringify content in
  JS.toString36 (hash_loop str 0).

Definition set_stats_lastModified (now : Z) (st : Stats) : Stats :=
  {| totalNodes := totalNodes st; totalEdges := totalEdges st;
     st_createdAt := st_createdAt st; lastModified := now |}.

(** What [addNode] does to a node found through the content index:
    [existingNode.touch()], then the importance is raised when the given one
    is truthy and greater. *)
Definition merge_existing (now : Z) (metadata : Metadata) (n : MemoryNode)
    : MemoryNode :=
  let touched := touch now n in
  match md_importance metadata with
  | Some v =>
      if JS.truthyQ v && JS.Qltb (importance touched) v
      then set_importance v touched else touched
  | None => touched
  end.

(** [MemoryGraph.addNode(type, content, metadata)].  The result is the key of
    the node object the method returns, and the graph after the call. *)
Definition addNode (now : Z) (fresh : string) (type content : string)
    (metadata : Metadata) (g : MemoryGraph) : string * MemoryGraph :=
  let hash := _hashContent type content in
  let existing :=
    contentIndex g !! hash ≫= λ existingId,
      nodes g !! existingId ≫= λ existingNode, Some (existingId, existingNode) in
  match existing with
  | Some (existingId, existingNode) =>
      let merged := merge_existing now metadata existingNode in
      (existingId,
       {| nodes := <[existingId := merged]> (nodes g); edges := edges g;
          outgoing := outgoing g; incoming := incoming g;
          nodesByType := nodesByType g; edgesByType := edgesByType g;
          contentIndex := contentIndex g; sessions := sessions g;
          activeSession := activeSession g; stats := stats g |})
  | None =>
      let node :=
        MemoryNode_new now fresh type content
          (with_sessionId metadata (s_id <$> activeSessionObj g)) in
      (n_id node,
       {| nodes := <[n_id node := node]> (nodes g);
          edges := edges g;
          outgoing := <[n_id node := []]> (outgoing g);
          incoming := <[n_id node := []]> (incoming g);
          nodesByType := index_add type (n_id node) (nodesByType g);
          edgesByType := edgesByType g;
          contentIndex := <[hash := n_id node]> (contentIndex g);
          sessions :=
            match activeSession g with
            | Some k => alter (session_addNode (n_id node)) k (sessions g)
            | None => sessions g
            end;
          activeSession := activeSession g;
          stats := {| totalNodes := totalNodes (stats g) + 1;
                      totalEdges := totalEdges (stats g);
                      st_createdAt := st_createdAt (stats g);
                      lastModified := now |} |})
  end.

(** [MemoryGraph.getNode] *)
Definition getNode (nodeId : string) (g : MemoryGraph) : option MemoryNode :=
  nodes g !! nodeId.

(** The [updates] argument of [updateNode]. *)
Record NodeUpdates := {
  u_content : option string;
  u_importance : option Q;
  u_confidence : option Q
}.

(** [MemoryGraph.updateNode(nodeId, updates)]; [None] is the [null] the
    method returns for an unknown id. *)
Definition updateNode (now : Z) (nodeId : string) (updates : NodeUpdates)
    (g : MemoryGraph) : option MemoryGraph :=
  match nodes g !! nodeId with
  | None => None
  | Some node =>
      let '(node1, index1) :=
        match u_content updates with
        | Some c =>
            let oldHash := _hashContent (n_type node) (n_content node) in
            let newHash := _hashContent (n_type node) c in
            (updateContent now c node,
             <[newHash := nodeId]> (delete oldHash (contentIndex g)))
        | None => (node, contentIndex g)
        end in
      let node2 :=
        match u_importance updates with
        | Some v => set_importance v node1
        | None => node1
        end in
      let node3 :=
        match u_confidence updates with
        | Some v => set_confidence v node2
        | None => node2
        end in
      Some {| nodes := <[nodeId := node3]> (nodes g); edges := edges g;
              outgoing := outgoing g; incoming := incoming g;
              nodesByType := nodesByType g; edgesByType := edgesByType g;
              contentIndex := index1; sessions := sessions g;
              activeSession := activeSession g;
              stats := set_stats_lastModified now (stats g) |}
  end.

(** [MemoryGraph._removeEdgeInternal(edgeId)] *)
Definition _removeEdgeInternal (edgeId : string) (g : MemoryGraph) : MemoryGraph :=
  match edges g !! edgeId with
  | None => g
  | Some edge =>
      let out1 := adj_delete (sourceId edge) edgeId (outgoing g) in
      let in1 := adj_delete (targetId edge) edgeId (incoming g) in
      let out2 :=
        if bidirectional edge then adj_delete (targetId edge) edgeId out1
        else out1 in
      let in2 :=
        if bidirectional edge then adj_delete (sourceId edge) edgeId in1
        else in1 in
      {| nodes := nodes g;
         edges := delete edgeId (edges g);
         outgoing := out2; incoming := in2;
         nodesByType := nodesByType g;
         edgesByType := adj_delete (e_type edge) edgeId (edgesByType g);
         contentIndex := contentIndex g; sessions := sessions g;
         activeSession := activeSession g;
         stats := {| totalNodes := totalNodes (stats g);
                     totalEdges := totalEdges (stats g) - 1;
                     st_createdAt := st_createdAt (stats g);
                     lastModified := lastModified (stats g) |} |}
  end.

(** [for (const edgeId of ids) this._removeEdgeInternal(edgeId)] *)
Definition removeEdges (ids : list string) (g : MemoryGraph) : MemoryGraph :=
  foldl (λ acc edgeId, _removeEdgeInternal edgeId acc) g ids.

(** [MemoryGraph.removeNode(nodeId)].  [inEdges] is a live set: the second
    loop sees it as the first loop left it. *)
Definition removeNode (now : Z) (nodeId : string) (g : MemoryGraph)
    : bool * MemoryGraph :=
  match nodes g !! nodeId with
  | None => (false, g)
  | Some node =>
      let outEdges := default [] (outgoing g !! nodeId) in
      let g1 := removeEdges outEdges g in
      let inEdges := default [] (incoming g1 !! nodeId) in
      let g2 := removeEdges inEdges g1 in
      let hash := _hashContent (n_type node) (n_content node) in
      (true,
       {| nodes := delete nodeId (nodes g2);
          edges := edges g2;
          outgoing := delete nodeId (outgoing g2);
          incoming := delete nodeId (incoming g2);
          nodesByType := adj_delete (n_type node) nodeId (nodesByType g2);
          edgesByType := edgesByType g2;
          contentIndex := delete hash (contentIndex g2);
          sessions := session_removeNode nodeId <$> sessions g2;
          activeSession := activeSession g2;
          stats := {| totalNodes := totalNodes (stats g2) - 1;
                      totalEdges := totalEdges (stats g2);
                      st_createdAt := st_createdAt (stats g2);
                      lastModified := now |} |})
  end.

(** [MemoryGraph.findEdge(sourceId, targetId, type)]: the key of the first
    matching edge of [outgoing.get(sourceId)]. *)
Definition findEdge (src tgt type : string) (g : MemoryGraph) : option string :=
  match outgoing g !! src with
  | None => None
  | Some outEdges =>
      find
        (λ edgeId,
           match edges g !! edgeId with
           | Some edge =>
               bool_decide (targetId edge = tgt) &&
               bool_decide (e_type edge = type)
           | None => false
           end) outEdges
  end.

(** [MemoryGraph.addEdge(sourceId, targetId, type, metadata)]; the first
    component is the key of the returned edge, [None] for [null]. *)
Definition addEdge (now : Z) (fresh : string) (src tgt type : string)
    (metadata : EdgeOptions) (g : MemoryGraph) : option string * MemoryGraph :=
  match nodes g !! src, nodes g !! tgt with
  | Some _, Some _ =>
      match findEdge src tgt type g with
      | Some existingEdge =>
          (Some existingEdge,
           {| nodes := nodes g;
              edges := alter (reinforce now) existingEdge (edges g);
              outgoing := outgoing g; incoming := incoming g;
              nodesByType := nodesByType g; edgesByType := edgesByType g;
              contentIndex := contentIndex g; sessions := sessions g;
              activeSession := activeSession g; stats := stats g |})
      | None =>
          let edge := MemoryEdge_new now fresh src tgt type metadata in
          let out1 := adj_add src (e_id edge) (outgoing g) in
          let in1 := adj_add tgt (e_id edge) (incoming g) in
          (Some (e_id edge),
           {| nodes := nodes g;
              edges := <[e_id edge := edge]> (edges g);
              outgoing :=
                if bidirectional edge then adj_add tgt (e_id edge) out1
                else out1;
              incoming :=
                if bidirectional edge then adj_add src (e_id edge) in1
                else in1;
              nodesByType := nodesByType g;
              edgesByType := index_add type (e_id edge) (edgesByType g);
              contentIndex := contentIndex g; sessions := sessions g;
              activeSession := activeSession g;
              stats := {| totalNodes := totalNodes (stats g);
                          totalEdges := totalEdges (stats g) + 1;
                          st_createdAt := st_createdAt (stats g);
                          lastModified := now |} |})
      end
  | _, _ => (None, g)
  end.

(** [MemoryGraph.endSession()] *)
Definition endSession (now : Z) (g : MemoryGraph) : MemoryGraph :=
  match activeSession g with
  | Some k =>
      {| nodes := nodes g; edges := edges g; outgoing := outgoing g;
         incoming := incoming g; nodesByType := nodesByType g;
         edgesByType := edgesByType g; contentIndex := contentIndex g;
         sessions := alter (session_end now) k (sessions g);
         activeSession := None; stats := stats g |}
  | None => g
  end.

(** [MemoryGraph.startSession(metadata)] *)
Definition startSession (now : Z) (fresh : string) (metadata : SessionOptions)
    (g : MemoryGraph) : string * MemoryGraph :=
  let g1 := endSession now g in
  let session := WorkSession_new now fresh metadata in
  (s_id session,
   {| nodes := nodes g1; edges := edges g1; outgoing := outgoing g1;
      incoming := incoming g1; nodesByType := nodesByType g1;
      edgesByType := edgesByType g1; contentIndex := contentIndex g1;
      sessions := <[s_id session := session]> (sessions g1);
      activeSession := Some (s_id session); stats := stats g1 |}).

(** [MemoryGraph.applyDecay(decayAmount)] *)
Definition applyDecay (decayAmount : Q) (g : MemoryGraph) : MemoryGraph :=
  {| nodes := (λ n, set_decay (Qmax (1 # 10) (decay n - decayAmount)) n)
                <$> nodes g;
     edges := edges g; outgoing := outgoing g; incoming := incoming g;
     nodesByType := nodesByType g; edgesByType := edgesByType g;
     contentIndex := contentIndex g; sessions := sessions g;
     activeSession := activeSession g; stats := stats g |}.

(** [MemoryGraph.prune(minRelevance, minAge)].  [getRelevanceScore] uses
    [Math.pow], [Math.exp] and [Math.log]; it is a parameter [score] here. *)
Definition prune (score : MemoryNode → Z → Q) (now : Z) (minRelevance : Q)
    (minAge : Z) (g : MemoryGraph) : nat * MemoryGraph :=
  let toRemove :=
    n_id <$>
      filter (λ node,
                (minAge < now - createdAt (n_metadata node))%Z ∧
                JS.Qltb (score node now) minRelevance = true)
             (snd <$> map_to_list (nodes g)) in
  (length toRemove,
   foldl (λ acc nodeId, (removeNode now nodeId acc).2) g toRemove).

(** What [MemoryGraph.toJSON] returns. *)
Record GraphJSON := {
  j_nodes : list MemoryNode;
  j_edges : list MemoryEdge;
  j_sessions : list WorkSession;
  j_stats : option Stats
}.

(** [MemoryGraph.toJSON]; the arrays are in the order of the keys, not of
    insertion. *)
Definition toJSON (g : MemoryGraph) : GraphJSON :=
  {| j_nodes := MemoryNode_toJSON <$> (snd <$> map_to_list (nodes g));
     j_edges := MemoryEdge_toJSON <$> (snd <$> map_to_list (edges g));
     j_sessions := WorkSession_toJSON <$> (snd <$> map_to_list (sessions g));
     j_stats := Some (stats g) |}.

(** The three loops of [MemoryGraph.fromJSON]. *)
Definition restoreNode (now : Z) (graph : MemoryGraph) (nodeData : MemoryNode)
    : MemoryGraph :=
  let node := MemoryNode_fromJSON now nodeData in
  let hash := _hashContent (n_type node) (n_content node) in
  {| nodes := <[n_id node := node]> (nodes graph);
     edges := edges graph;
     outgoing := <[n_id node := []]> (outgoing graph);
     incoming := <[n_id node := []]> (incoming graph);
     nodesByType := index_add (n_type node) (n_id node) (nodesByType graph);
     edgesByType := edgesByType graph;
     contentIndex := <[hash := n_id node]> (contentIndex graph);
     sessions := sessions graph; activeSession := activeSession graph;
     stats := stats graph |}.

Definition restoreEdge (now : Z) (graph : MemoryGraph) (edgeData : MemoryEdge)
    : MemoryGraph :=
  let edge := MemoryEdge_fromJSON now edgeData in
  let out1 := adj_add (sourceId edge) (e_id edge) (outgoing graph) in
  let in1 := adj_add (targetId edge) (e_id edge) (incoming graph) in
  {| nodes := nodes graph;
     edges := <[e_id edge := edge]> (edges graph);
     outgoing :=
       if bidirectional edge then adj_add (targetId edge) (e_id edge) out1
       else out1;
     incoming :=
       if bidirectional edge then adj_add (sourceId edge) (e_id edge) in1
       else in1;
     nodesByType := nodesByType graph;
     edgesByType := index_add (e_type edge) (e_id edge) (edgesByType graph);
     contentIndex := contentIndex graph;
     sessions := sessions graph; activeSession := activeSession graph;
     stats := stats graph |}.

Definition restoreSession (now : Z) (graph : MemoryGraph)
    (sessionData : WorkSession) : MemoryGraph :=
  let session := WorkSession_fromJSON now sessionData in
  {| nodes := nodes graph; edges := edges graph;
     outgoing := outgoing graph; incoming := incoming graph;
     nodesByType := nodesByType graph; edgesByType := edgesByType graph;
     contentIndex := contentIndex graph;
     sessions := <[s_id session := session]> (sessions graph);
     activeSession := activeSession graph; stats := stats graph |}.

(** [MemoryGraph.fromJSON(json)] *)
Definition fromJSON (now : Z) (json : GraphJSON) : MemoryGraph :=
  let g0 := MemoryGraph_new now in
  let g1 := foldl (restoreNode now) g0 (j_nodes json) in
  let g2 := foldl (restoreEdge now) g1 (j_edges json) in
  let g3 := foldl (restoreSession now) g2 (j_sessions json) in
  let st := default (stats g3) (j_stats json) in
  {| nodes := nodes g3; edges := edges g3; outgoing := outgoing g3;
     incoming := incoming g3; nodesByType := nodesByType g3;
     edgesByType := edgesByType g3; contentIndex := contentIndex g3;
     sessions := sessions g3; activeSession := activeSession g3;
     stats := {| totalNodes := Z.of_nat (size (nodes g3));
                 totalEdges := Z.of_nat (size (edges g3));
                 st_createdAt := st_createdAt st;
                 lastModified := lastModified st |} |}.

(** ** Index consistency and reachable graphs *)

(** [x] is a member of the set stored under [k]. *)
Definition adj_mem (m : gmap string (list string)) (k x : string) : Prop :=
  ∃ ids, m !! k = Some ids ∧ x ∈ ids.

(** Referential integrity and index consistency: every node has its two
    adjacency sets; every edge joins live nodes and is listed under its
    source and under its target; the type index and the content index only
    list live nodes, under their own type and their own hash. *)
Record graph_wf (g : MemoryGraph) : Prop := {
  wf_adjacency : ∀ k,
    is_Some (nodes g !! k) →
    is_Some (outgoing g !! k) ∧ is_Some (incoming g !! k);
  wf_endpoints : ∀ k e,
    edges g !! k = Some e →
    is_Some (nodes g !! sourceId e) ∧ is_Some (nodes g !! targetId e);
  wf_edges_listed : ∀ k e,
    edges g !! k = Some e →
    adj_mem (outgoing g) (sourceId e) k ∧ adj_mem (incoming g) (targetId e) k;
  wf_type_index : ∀ t k,
    adj_mem (nodesByType g) t k →
    ∃ n, nodes g !! k = Some n ∧ n_type n = t;
  wf_content_index : ∀ h k,
    contentIndex g !! h = Some k →
    ∃ n, nodes g !! k = Some n ∧ _hashContent (n_type n) (n_content n) = h
}.

(** The mutation operations of the graph, with what each reads from its
    environment. *)
Inductive GraphOp :=
| OpAddNode (now : Z) (fresh type content : string) (metadata : Metadata)
| OpUpdateNode (now : Z) (nodeId : string) (updates : NodeUpdates)
| OpRemoveNode (now : Z) (nodeId : string)
| OpAddEdge (now : Z) (fresh src tgt type : string) (metadata : EdgeOptions)
| OpStartSession (now : Z) (fresh : string) (metadata : SessionOptions)
| OpEndSession (now : Z)
| OpApplyDecay (decayAmount : Q)
| OpPrune (score : MemoryNode → Z → Q) (now : Z) (minRelevance : Q) (minAge : Z).

Definition apply_op (op : GraphOp) (g : MemoryGraph) : MemoryGraph :=
  match op with
  | OpAddNode now fresh type content metadata =>
      (addNode now fresh type content metadata g).2
  | OpUpdateNode now nodeId updates => default g (updateNode now nodeId updates g)
  | OpRemoveNode now nodeId => (removeNode now nodeId g).2
  | OpAddEdge now fresh src tgt type metadata =>
      (addEdge now fresh src tgt type metadata g).2
  | OpStartSession now fresh metadata => (startSession now fresh metadata g).2
  | OpEndSession now => endSession now g
  | OpApplyDecay decayAmount => applyDecay decayAmount g
  | OpPrune score now minRelevance minAge =>
      (prune score now minRelevance minAge g).2
  end.

(** A generated identifier is taken not to collide with one in use. *)
Definition op_fresh (op : GraphOp) (g : MemoryGraph) : Prop :=
  match op with
  | OpAddNode _ fresh _ _ _ => nodes g !! fresh = None
  | OpAddEdge _ fresh _ _ _ _ => edges g !! fresh = None
  | OpStartSession _ fresh _ => sessions g !! fresh = None
  | _ => True
  end.

(** The graphs a sequence of mutations builds from a new graph. *)
Inductive reachable : MemoryGraph → Prop :=
| reachable_new (now : Z) : reachable (MemoryGraph_new now)
| reachable_step (g : MemoryGraph) (op : GraphOp) :
    reachable g → op_fresh op g → reachable (apply_op op g).

(** Node uniqueness by content: two live nodes with the same type and the
    same content hash are one node. *)
Definition unique_by_content (g : MemoryGraph) : Prop :=
  ∀ k1 k2 n1 n2,
    nodes g !! k1 = Some n1 → nodes g !! k2 = Some n2 →
    n_type n1 = n_type n2 →
    _hashContent (n_type n1) (n_content n1) =
      _hashContent (n_type n2) (n_content n2) →
    k1 = k2.

(** Nodes, edges and sessions are stored under their own ids. *)
Definition keyed_by_id (g : MemoryGraph) : Prop :=
  (∀ k n, nodes g !! k = Some n → n_id n = k) ∧
  (∀ k e, edges g !! k = Some e → e_id e = k) ∧
  (∀ k s, sessions g !! k = Some s → s_id s = k).

(** Every live node is found through the content index. *)
Definition index_complete (g : MemoryGraph) : Prop :=
  ∀ k n, nodes g !! k = Some n →
         contentIndex g !! _hashContent (n_type n) (n_content n) = Some k.

(** An [updateNode] that sets a content whose hash no other node holds. *)
Definition update_is_new (op : GraphOp) (g : MemoryGraph) : Prop :=
  match op with
  | OpUpdateNode _ nodeId updates =>
      match u_content updates, nodes g !! nodeId with
      | Some c, Some node =>
          ∀ k, contentIndex g !! _hashContent (n_type node) c = Some k →
               k = nodeId
      | _, _ => True
      end
  | _ => True
  end.

(** The graphs built by mutations in which no [updateNode] sets the content
    of a node to that of another. *)
Inductive reachable_without_collision : MemoryGraph → Prop :=
| without_collision_new (now : Z) :
    reachable_without_collision (MemoryGraph_new now)
| without_collision_step (g : MemoryGraph) (op : GraphOp) :
    reachable_without_collision g → op_fresh op g → update_is_new op g →
    reachable_without_collision (apply_op op g).

(** ** Results of functions that may throw *)

Inductive outcome (A : Type) :=
| Returned (a : A)
| Thrown (message : string).

Arguments Returned {A} a.
Arguments Thrown {A} message.

(** ** Conversation store (storage.js) *)

(** The two components of [new URL(u)] the code reads. *)
Record URL := {
  origin : string;
  pathname : string
}.

Record Message := {
  m_role : string;
  m_text : string
}.

(** A conversation object.  [None] is an absent (or [undefined]) property;
    [c_tags] is [None] also when the property is not an array, and
    [c_pinned] holds the truthiness of the property. *)
Record Conversation := {
  c_id : option string;
  c_title : option string;
  c_url : option string;
  c_ts : option Z;
  c_messages : option (list Message);
  c_text : option string;
  c_hash : option string;
  c_tags : option (list string);
  c_pinned : option bool;
  c_notes : option string;
  c_createdAt : option Z;
  c_updatedAt : option Z
}.

(** The object [{}]. *)
Definition empty_conversation : Conversation :=
  {| c_id := None; c_title := None; c_url := None; c_ts := None;
     c_messages := None; c_text := None; c_hash := None; c_tags := None;
     c_pinned := None; c_notes := None; c_createdAt := None;
     c_updatedAt := None |}.

(** The stored document [{byId, order, urlToId}]. *)
Record ConversationStore := {
  byId : gmap string Conversation;
  order : list string;
  urlToId : gmap string string
}.

(** What [getConversationStore] returns when nothing is stored. *)
Definition empty_store : ConversationStore :=
  {| byId := ∅; order := []; urlToId := ∅ |}.

Definition is_id_char (c : ascii) : bool :=
  JS.is_word c || (nat_of_ascii c =? 45)%nat.

Fixpoint take_while (p : ascii → bool) (s : string) : string :=
  match s with
  | EmptyString => EmptyString
  | String c r => if p c then String c (take_while p r) else EmptyString
  end.

(** [pathname.match(/\/c\/([a-zA-Z0-9_-]+)/)?.[1]]: the capture of the
    leftmost match. *)
Fixpoint match_c_segment (path : string) : option string :=
  let here :=
    if JS.startsWith path "/c/"
    then take_while is_id_char (JS.drop 3 path) else EmptyString in
  if JS.truthy_string here then Some here
  else match path with
       | EmptyString => None
       | String _ r => match_c_segment r
       end.

(** A conversation's last-change time, [Number(c.updatedAt || c.ts || 0)]. *)
Definition conv_updatedAt (c : Conversation) : Z :=
  match c_updatedAt c with
  | Some z => if JS.truthyZ z then z else JS.or_Z (c_ts c) 0
  | None => JS.or_Z (c_ts c) 0
  end.

Section Storage.

(** The platform's URL parser ([None] when [new URL(u)] throws) and the
    length of [JSON.stringify(store)]. *)
Variable parseURL : string → option URL.
Variable stringified_length : ConversationStore → Z.

(** [approxSize] *)
Definition approxSize (obj : ConversationStore) : Z := stringified_length obj.

(** [normalizeUrl] *)
Definition normalizeUrl (u : option string) : string :=
  match u with
  | Some s =>
      match parseURL s with
      | Some url => origin url ++ pathname url
      | None => s
      end
  | None => EmptyString
  end.

(** [stableIdFromUrl] *)
Definition stableIdFromUrl (u : option string) : option string :=
  match u ≫= parseURL with
  | Some url =>
      match match_c_segment (pathname url) with
      | Some m => Some ("c_" ++ m)
      | None => None
      end
  | None => None
  end.

(** [const drop = store.order.pop(); if (drop) delete store.byId[drop]] *)
Definition pop_tail (store : ConversationStore) : ConversationStore :=
  match last (order store) with
  | Some drop =>
      {| byId := if JS.truthy_string drop then delete drop (byId store)
                 else byId store;
         order := removelast (order store);
         urlToId := urlToId store |}
  | None => store
  end.

(** [while (store.order.length > maxItems) ...]; every turn shortens
    [order], so its length bounds the number of turns. *)
Fixpoint evict_count (turns : nat) (maxItems : nat) (store : ConversationStore)
    : ConversationStore :=
  match turns with
  | O => store
  | S k =>
      if (maxItems <? length (order store))%nat
      then evict_count k maxItems (pop_tail store) else store
  end.

(** [while (approxSize(store) > maxBytes && store.order.length > 1) ...] *)
Fixpoint evict_bytes (turns : nat) (maxBytes : Z) (store : ConversationStore)
    : ConversationStore :=
  match turns with
  | O => store
  | S k =>
      if (maxBytes <? approxSize store)%Z && (1 <? length (order store))%nat
      then evict_bytes k maxBytes (pop_tail store) else store
  end.

(** The record [saveConversation] writes under the canonical id. *)
Definition merge_conversation (now : Z) (canonicalId : string)
    (prev conversation : Conversation) : Conversation :=
  let pick {A} (f : Conversation → option A) :=
    match f conversation with Some v => Some v | None => f prev end in
  {| c_id := Some canonicalId;
     c_title := pick c_title;
     c_url := pick c_url;
     c_ts := pick c_ts;
     c_messages := pick c_messages;
     c_text := pick c_text;
     c_hash := pick c_hash;
     c_tags := Some (default [] (pick c_tags));
     c_pinned := Some (default false (pick c_pinned));
     c_notes := pick c_notes;
     c_createdAt :=
       Some (JS.or_Z (c_createdAt prev) (JS.or_Z (c_createdAt conversation) now));
     c_updatedAt := Some now |}.

(** [if (store.byId[from] && !store.byId[to]) store.byId[to] = store.byId[from];
     delete store.byId[from]; store.order = store.order.filter(x => x !== from)] *)
Definition migrate (from to : string) (store : ConversationStore)
    : ConversationStore :=
  let moved :=
    match byId store !! from, byId store !! to with
    | Some rec, None => <[to := rec]> (byId store)
    | _, _ => byId store
    end in
  {| byId := delete from moved;
     order := filter (λ x, x ≠ from) (order store);
     urlToId := urlToId store |}.

(** The first migration: the URL was mapped to another id and a stable id
    is at hand. *)
Definition migrate_previous (normalizedUrl : string) (stable : option string)
    (canonicalId : string) (store : ConversationStore) : ConversationStore :=
  match JS.or_null (urlToId store !! normalizedUrl), stable with
  | Some prevForUrl, Some _ =>
      if bool_decide (prevForUrl ≠ canonicalId)
      then migrate prevForUrl canonicalId store else store
  | _, _ => store
  end.

(** The second migration: a record stored under the incoming id. *)
Definition migrate_incoming (incomingId canonicalId : string)
    (store : ConversationStore) : ConversationStore :=
  if bool_decide (incomingId ≠ canonicalId) &&
     bool_decide (is_Some (byId store !! incomingId))
  then migrate incomingId canonicalId store else store.

(** Merge with the previous record, write it, map the URL, move the id to
    the front. *)
Definition write_canonical (now : Z) (normalizedUrl canonicalId : string)
    (conversation : Conversation) (store : ConversationStore)
    : ConversationStore :=
  let prev := default empty_conversation (byId store !! canonicalId) in
  let toSave := merge_conversation now canonicalId prev conversation in
  {| byId := <[canonicalId := toSave]> (byId store);
     order := canonicalId :: filter (λ x, x ≠ canonicalId) (order store);
     urlToId :=
       if JS.truthy_string normalizedUrl
       then <[normalizedUrl := canonicalId]> (urlToId store)
       else urlToId store |}.

(** The two eviction loops. *)
Definition enforce_caps (maxItems : nat) (maxBytes : Z)
    (store : ConversationStore) : ConversationStore :=
  let store1 := evict_count (length (order store)) maxItems store in
  evict_bytes (length (order store1)) maxBytes store1.

(** [saveConversation(conversation, {maxItems, maxBytes})] on the stored
    document [store]; the result is the document written back. *)
Definition saveConversation (now : Z) (conversation : Conversation)
    (maxItems : nat) (maxBytes : Z) (store : ConversationStore)
    : outcome ConversationStore :=
  let normalizedUrl := normalizeUrl (c_url conversation) in
  let stable := stableIdFromUrl (c_url conversation) in
  match JS.or_null (c_id conversation) with
  | None => Thrown "Missing conversation.id"
  | Some incomingId =>
      let canonicalId := default incomingId stable in
      Returned
        (enforce_caps maxItems maxBytes
           (write_canonical now normalizedUrl canonicalId conversation
              (migrate_incoming incomingId canonicalId
                 (migrate_previous normalizedUrl stable canonicalId store))))
  end.

(** [deleteConversation(id)] *)
Definition deleteConversation (id : string) (store : ConversationStore)
    : ConversationStore :=
  {| byId := delete id (byId store);
     order := filter (λ x, x ≠ id) (order store);
     urlToId := filter (λ uv, uv.2 ≠ id) (urlToId store) |}.

End Storage.

(** *** Ranked search *)

(** The [filters] argument of [listConversations], after the coercions at
    the head of the function. *)
Record Filters := {
  pinnedOnly : bool;
  hasCodeOnly : bool;
  f_tag : option string;
  f_tags : option (list string);
  since : option Z;
  until : option Z
}.

Definition no_filters : Filters :=
  {| pinnedOnly := false; hasCodeOnly := false; f_tag := None;
     f_tags := None; since := None; until := None |}.

Definition stop_words : list string :=
  ["the"; "a"; "an"; "and"; "or"; "to"; "of"; "in"; "on"; "for"; "with";
   "is"; "are"; "was"; "were"; "be"; "as"; "at"; "by"; "from"].

(** [q.split(/[^a-z0-9_]+/i).filter(Boolean)]: the maximal runs of word
    characters; [cur] is the run being read, reversed. *)
Fixpoint split_words (s : string) (cur : string) : list string :=
  let flush rest :=
    if JS.truthy_string cur then JS.rev_string cur EmptyString :: rest
    else rest in
  match s with
  | EmptyString => flush []
  | String c r =>
      if JS.is_word c then split_words r (String c cur)
      else flush (split_words r EmptyString)
  end.

Definition tokenize (q : string) : list string :=
  filter (λ t, t ∉ stop_words) (split_words q EmptyString).

(** [/\b(phrase)\b/.test(s)] for a phrase that starts and ends with a word
    character. *)
Fixpoint wordBounded_from (prev_word : bool) (s phrase : string) : bool :=
  (negb prev_word && JS.startsWith s phrase &&
   match JS.drop (String.length phrase) s with
   | String c _ => negb (JS.is_word c)
   | EmptyString => true
   end) ||
  match s with
  | EmptyString => false
  | String c r => wordBounded_from (JS.is_word c) r phrase
  end.

Definition newline : string := String (ascii_of_nat 10) EmptyString.

(** [hasCode(c)] *)
Definition hasCode (c : Conversation) : bool :=
  let t := JS.or_string (c_text c) EmptyString in
  let lower := JS.toLowerCase t in
  JS.includes t "```" ||
  wordBounded_from false lower "stack trace" ||
  wordBounded_from false lower "traceback" ||
  wordBounded_from false lower "exception".

Definition lower_tags (c : Conversation) : list string :=
  JS.toLowerCase <$> default [] (c_tags c).

Definition twoWeeks : Z := 14 * 24 * 3600 * 1000.

(** The recency boost of [scoreConversation]: up to 20% within 14 days. *)
Definition recency_boost (now : Z) (c : Conversation) : Q :=
  let ageMs := (now - conv_updatedAt c)%Z in
  Qmax 0 (Qmin (1 # 5)
               (inject_Z (twoWeeks - ageMs) / inject_Z twoWeeks * (1 # 5))).

(** [scoreConversation(c)] for the trimmed query [qRaw], its lower-case form
    [q] and its tokens. *)
Definition scoreConversation (now : Z) (qRaw q : string) (tokens : list string)
    (c : Conversation) : Q :=
  if negb (JS.truthy_string qRaw) then 0%Q else
  let title := JS.toLowerCase (JS.or_string (c_title c) EmptyString) in
  let url := JS.toLowerCase (JS.or_string (c_url c) EmptyString) in
  let text := JS.toLowerCase (JS.or_string (c_text c) EmptyString) in
  let tags := lower_tags c in
  let phrase : Q :=
    ((if JS.truthy_string q && JS.includes title q then 40 else 0) +
     (if JS.truthy_string q && JS.includes text q then 10 else 0))%Q in
  let token_score (t : string) : Q :=
    ((if JS.includes title t then 18 else 0) +
     (if existsb (λ x, JS.includes x t) tags then 14 else 0) +
     (if JS.includes url t then 4 else 0) +
     (if JS.includes text t then 4 else 0) +
     (if (3 <=? String.length t)%nat
      then (if JS.wordStart title t then 6 else 0) +
           (if JS.wordStart text t then 2 else 0)
      else 0))%Q in
  let score := foldl (λ acc t, (acc + token_score t)%Q) phrase tokens in
  let boost := recency_boost now c in
  let boosted := (score * (1 + boost))%Q in
  if default false (c_pinned c) then (boosted + 5)%Q else boosted.

(** An entry of [items]: the conversation and its [_score]. *)
Definition Scored : Type := Conversation * Q.

Definition pinned_rank (c : Conversation) : Z :=
  if default false (c_pinned c) then 1 else 0.

(** The comparator of the [recent] sort. *)
Definition compare_recent (a b : Scored) : Q :=
  if negb (pinned_rank b.1 =? pinned_rank a.1)%Z
  then inject_Z (pinned_rank b.1 - pinned_rank a.1)
  else inject_Z (conv_updatedAt b.1 - conv_updatedAt a.1).

(** The comparator of the [relevance] sort. *)
Definition compare_relevance (a b : Scored) : Q :=
  let ds := (b.2 - a.2)%Q in
  if JS.truthyQ ds then ds else compare_recent a b.

(** [Array.prototype.sort] is stable: an element goes after the elements it
    does not strictly precede. *)
Fixpoint sort_insert (cmp : Scored → Scored → Q) (x : Scored)
    (sorted : list Scored) : list Scored :=
  match sorted with
  | [] => [x]
  | y :: rest =>
      if JS.Qltb (cmp y x) 0 then y :: sort_insert cmp x rest
      else x :: y :: rest
  end.

Definition sort_by (cmp : Scored → Scored → Q) (items : list Scored)
    : list Scored :=
  foldr (sort_insert cmp) [] items.

(** [hay]: title, url and the first 8000 characters of the text, on three
    lines, in lower case. *)
Definition haystack (c : Conversation) : string :=
  JS.toLowerCase
    (JS.or_string (c_title c) EmptyString ++ newline ++
     JS.or_string (c_url c) EmptyString ++ newline ++
     JS.take (Z.to_nat 8000) (JS.or_string (c_text c) EmptyString)).

(** The loop of [listConversations] over [store.order]. *)
Fixpoint collect (now : Z) (store : ConversationStore) (filters : Filters)
    (qRaw q : string) (tokens : list string) (limit : nat)
    (ids : list string) (items : list Scored) : list Scored :=
  match ids with
  | [] => items
  | id :: rest =>
      let continue := collect now store filters qRaw q tokens limit rest in
      match byId store !! id with
      | None => continue items
      | Some c =>
          let updatedAt := conv_updatedAt c in
          let ctags := lower_tags c in
          let wantTag :=
            JS.trim (JS.toLowerCase (JS.or_string (f_tag filters) EmptyString)) in
          if pinnedOnly filters && negb (default false (c_pinned c))
          then continue items
          else if hasCodeOnly filters && negb (hasCode c) then continue items
          else if JS.truthyZ (JS.or_Z (since filters) 0) && JS.truthyZ updatedAt
                  && (updatedAt <? JS.or_Z (since filters) 0)%Z
          then continue items
          else if JS.truthyZ (JS.or_Z (until filters) 0) && JS.truthyZ updatedAt
                  && (JS.or_Z (until filters) 0 <? updatedAt)%Z
          then continue items
          else if JS.truthy_string wantTag && negb (bool_decide (wantTag ∈ ctags))
          then continue items
          else if match f_tags filters with
                  | Some wantTags =>
                      negb (forallb (λ t, bool_decide (JS.toLowerCase t ∈ ctags))
                                    wantTags)
                  | None => false
                  end
          then continue items
          else if negb (JS.truthy_string qRaw) then
            let items' := (items ++ [(c, 0%Q)])%list in
            if (limit <=? length items')%nat then items' else continue items'
          else
            let hay := haystack c in
            if negb (JS.includes hay q) && negb (bool_decide (tokens = []))
               && negb (existsb (λ t, JS.includes hay t) tokens)
            then continue items
            else continue
                   (items ++ [(c, scoreConversation now qRaw q tokens c)])%list
      end
  end.

(** [listConversations({query, limit, filters, sort})] on the stored
    document. *)
Definition listConversations (now : Z) (query : string) (limit : nat)
    (filters : Filters) (sort : string) (store : ConversationStore)
    : list Conversation :=
  let qRaw := JS.trim query in
  let q := JS.toLowerCase qRaw in
  let tokens := tokenize q in
  let items := collect now store filters qRaw q tokens limit (order store) [] in
  let sorted :=
    if negb (JS.truthy_string qRaw) || bool_decide (sort = "recent")
    then sort_by compare_recent items
    else sort_by compare_relevance items in
  fst <$> take limit sorted.

(** ** Cross-tab sync (memory-sync.js): remote update handlers *)

(** The graph-update messages, each with its payload. *)
Inductive SyncMessage :=
| NODE_ADDED (nodeData : MemoryNode)
| NODE_UPDATED (nodeData : MemoryNode)
| NODE_REMOVED (nodeId : string)
| EDGE_ADDED (edgeData : MemoryEdge)
| EDGE_REMOVED (edgeId : string)
| SESSION_STARTED (sessionData : WorkSession)
| SESSION_ENDED (sessionId : string).

(** The part of a [MemorySync] object the handlers use. *)
Record MemorySync := {
  sync_graph : option MemoryGraph;
  tabId : string
}.

(** [m.has(k) ? m : m.set(k, new Set())] *)
Definition ensure_set (k : string) (m : gmap string (list string)) :=
  match m !! k with
  | Some _ => m
  | None => <[k := []]> m
  end.

(** memory-sync.js is an ES module (it has [import] and [export] at its
    top level) and the extension loads it as it is, so the identifier
    [require] is bound nowhere: evaluating [require('./memory-graph.js')]
    throws a [ReferenceError]. *)
Definition require_error : string := "ReferenceError: require is not defined".

Definition require (specifier : string) : outcome unit := Thrown require_error.

(** Sequencing of calls that may throw. *)
Definition and_then {A B} (o : outcome A) (f : A → outcome B) : outcome B :=
  match o with
  | Returned a => f a
  | Thrown message => Thrown message
  end.

(** [MemorySync._applyNodeData]: the [require] is its first statement, the
    writes to the graph follow it. *)
Definition _applyNodeData (now : Z) (nodeData : MemoryNode) (g : MemoryGraph)
    : outcome MemoryGraph :=
  and_then (require "./memory-graph.js") (λ _,
    let node := MemoryNode_fromJSON now nodeData in
    let hash := _hashContent (n_type node) (n_content node) in
    Returned
      {| nodes := <[n_id node := node]> (nodes g);
         edges := edges g;
         outgoing := ensure_set (n_id node) (outgoing g);
         incoming := ensure_set (n_id node) (incoming g);
         nodesByType := index_add (n_type node) (n_id node) (nodesByType g);
         edgesByType := edgesByType g;
         contentIndex := <[hash := n_id node]> (contentIndex g);
         sessions := sessions g; activeSession := activeSession g;
         stats := stats g |}).

(** [MemorySync._handleRemoteNodeAdded] *)
Definition _handleRemoteNodeAdded (now : Z) (nodeData : MemoryNode)
    (graph : option MemoryGraph) : outcome (option MemoryGraph) :=
  match graph with
  | None => Returned None
  | Some g =>
      match nodes g !! n_id nodeData with
      | Some existing =>
          if (updatedAt (n_metadata existing) <? updatedAt (n_metadata nodeData))%Z
          then and_then (_applyNodeData now nodeData g)
                        (λ g', Returned (Some g'))
          else Returned (Some g)
      | None =>
          and_then (_applyNodeData now nodeData g) (λ g', Returned (Some g'))
      end
  end.

(** [MemorySync._handleRemoteNodeUpdated] *)
Definition _handleRemoteNodeUpdated (now : Z) (nodeData : MemoryNode)
    (graph : option MemoryGraph) : outcome (option MemoryGraph) :=
  match graph with
  | None => Returned None
  | Some g =>
      match nodes g !! n_id nodeData with
      | Some existing =>
          if (updatedAt (n_metadata existing) <=? updatedAt (n_metadata nodeData))%Z
          then and_then (_applyNodeData now nodeData g)
                        (λ g', Returned (Some g'))
          else Returned (Some g)
      | None => Returned (Some g)
      end
  end.

(** [MemorySync._applyEdgeData]: again the [require] comes first; what
    follows it are the statements of the edge loop of
    [MemoryGraph.fromJSON]. *)
Definition _applyEdgeData (now : Z) (edgeData : MemoryEdge) (g : MemoryGraph)
    : outcome MemoryGraph :=
  and_then (require "./memory-graph.js") (λ _,
    Returned (restoreEdge now g edgeData)).

(** [MemorySync._handleRemoteEdgeAdded] *)
Definition _handleRemoteEdgeAdded (now : Z) (edgeData : MemoryEdge)
    (graph : option MemoryGraph) : outcome (option MemoryGraph) :=
  match graph with
  | None => Returned None
  | Some g =>
      match edges g !! e_id edgeData with
      | Some _ => Returned (Some g)
      | None =>
          and_then (_applyEdgeData now edgeData g) (λ g', Returned (Some g'))
      end
  end.

(** [MemorySync._handleRemoteSessionStarted] *)
Definition _handleRemoteSessionStarted (now : Z) (sessionData : WorkSession)
    (graph : option MemoryGraph) : outcome (option MemoryGraph) :=
  match graph with
  | None => Returned None
  | Some g =>
      match sessions g !! s_id sessionData with
      | Some _ => Returned (Some g)
      | None =>
          and_then (require "./memory-graph.js") (λ _,
            Returned (Some (restoreSession now g sessionData)))
      end
  end.

(** [MemorySync._handleMessage] on a graph-update message sent by the tab
    [sender].  When a handler throws, the exception leaves [_handleMessage]
    and the object is as it was before the message: on each such path the
    [require] comes before the first write. *)
Definition _handleMessage (now : Z) (sender : string) (message : SyncMessage)
    (self : MemorySync) : outcome MemorySync :=
  if bool_decide (sender = tabId self) then Returned self else
  let graph := sync_graph self in
  and_then
    (match message with
    | NODE_ADDED nodeData => _handleRemoteNodeAdded now nodeData graph
    | NODE_UPDATED nodeData => _handleRemoteNodeUpdated now nodeData graph
    | NODE_REMOVED nodeId =>
        Returned ((λ g, (removeNode now nodeId g).2) <$> graph)
    | EDGE_ADDED edgeData => _handleRemoteEdgeAdded now edgeData graph
    | EDGE_REMOVED edgeId => Returned (_removeEdgeInternal edgeId <$> graph)
    | SESSION_STARTED sessionData =>
        _handleRemoteSessionStarted now sessionData graph
    | SESSION_ENDED sessionId =>
        Returned
          ((λ g,
              {| nodes := nodes g; edges := edges g; outgoing := outgoing g;
                 incoming := incoming g; nodesByType := nodesByType g;
                 edgesByType := edgesByType g; contentIndex := contentIndex g;
                 sessions := alter (session_end now) sessionId (sessions g);
                 activeSession := activeSession g; stats := stats g |})
           <$> graph)
    end)
    (λ graph', Returned {| sync_graph := graph'; tabId := tabId self |}).

(** ** Webhook dispatcher (service worker and storage.js) *)

Inductive JobStatus := Queued | Running | Done | Failed.

Record Job := {
  j_id : string;
  j_type : string;
  connectorId : string;
  payload : string;
  headers : list (string * string);
  kind : string;
  status : JobStatus;
  attempts : Z;
  j_createdAt : Z;
  j_updatedAt : Z;
  nextRunAt : option Z;
  lastResponse : option string;
  error : option string;
  result : option Z
}.

(** The stored document [{byId, order}]. *)
Record JobStore := {
  jobs_byId : gmap string Job;
  jobs_order : list string
}.

(** The [patch] argument of [updateJob]: the keys the pump writes. *)
Record JobPatch := {
  p_status : option JobStatus;
  p_attempts : option Z;
  p_error : option string;
  p_lastResponse : option string;
  p_nextRunAt : option Z;
  p_result : option Z
}.

Definition no_patch : JobPatch :=
  {| p_status := None; p_attempts := None; p_error := None;
     p_lastResponse := None; p_nextRunAt := None; p_result := None |}.

(** [{...j, ...patch, updatedAt: Date.now()}] *)
Definition patch_job (now : Z) (patch : JobPatch) (j : Job) : Job :=
  {| j_id := j_id j; j_type := j_type j; connectorId := connectorId j;
     payload := payload j; headers := headers j; kind := kind j;
     status := default (status j) (p_status patch);
     attempts := default (attempts j) (p_attempts patch);
     j_createdAt := j_createdAt j;
     j_updatedAt := now;
     nextRunAt :=
       match p_nextRunAt patch with Some t => Some t | None => nextRunAt j end;
     lastResponse :=
       match p_lastResponse patch with
       | Some t => Some t | None => lastResponse j
       end;
     error := match p_error patch with Some e => Some e | None => error j end;
     result := match p_result patch with Some r => Some r | None => result j end |}.

(** [updateJob(id, patch)] on the stored document. *)
Definition updateJob (now : Z) (id : string) (patch : JobPatch)
    (jobs : JobStore) : JobStore :=
  match jobs_byId jobs !! id with
  | None => jobs
  | Some j =>
      {| jobs_byId := <[id := patch_job now patch j]> (jobs_byId jobs);
         jobs_order := jobs_order jobs |}
  end.

(** [enqueueJob(job)] as the router calls it: [fresh] is the generated id. *)
Definition enqueueJob (now : Z) (fresh : string) (connector : string)
    (body : string) (hdrs : list (string * string)) (knd : string)
    (jobs : JobStore) : Job * JobStore :=
  let j :=
    {| j_id := fresh; j_type := "webhook"; connectorId := connector;
       payload := body; headers := hdrs; kind := knd; status := Queued;
       attempts := 0; j_createdAt := now; j_updatedAt := now;
       nextRunAt := None; lastResponse := None; error := None;
       result := None |} in
  (j, {| jobs_byId := <[fresh := j]> (jobs_byId jobs);
         jobs_order := fresh :: filter (λ x, x ≠ fresh) (jobs_order jobs) |}).

Record Connector := {
  cn_url : string;
  cn_secret : string;
  cn_headers : list (string * string);
  cn_enabled : bool
}.

(** What [sendWebhook] can throw: [fetch] rejects with a [TypeError] (or an
    [AbortError]), [JSON.stringify] throws a [TypeError], and
    [crypto.subtle] throws a [DOMException] or a [TypeError]. *)
Inductive ErrorClass :=
| TypeError
| DOMException (name : ErrorName)
with ErrorName :=
| AbortError | DataError | NotSupportedError | OperationError | NetworkError.

Definition class_name (c : ErrorClass) : string :=
  match c with
  | TypeError => "TypeError"
  | DOMException AbortError => "AbortError"
  | DOMException DataError => "DataError"
  | DOMException NotSupportedError => "NotSupportedError"
  | DOMException OperationError => "OperationError"
  | DOMException NetworkError => "NetworkError"
  end.

Record JSError := {
  err_class : ErrorClass;
  err_message : string
}.

(** [String(e?.message || e)]; [String(e)] of an error whose message is
    empty is its name. *)
Definition error_text (e : JSError) : string :=
  if JS.truthy_string (err_message e) then err_message e
  else class_name (err_class e).

(** How [sendWebhook] ends: a response with its status and body text, or a
    rejection. *)
Inductive SendOutcome :=
| Responded (http_status : Z) (text : string)
| Rejected (e : JSError).

(** [resp.ok] *)
Definition response_ok (http_status : Z) : bool :=
  (200 <=? http_status)%Z && (http_status <=? 299)%Z.

(** What [chrome.permissions.contains] answers. *)
Inductive PermissionAnswer := Granted | Denied | PermissionThrows.

(** What one turn of the pump's loop reads from outside: the clock at the
    head of the turn, the permission answer, the clock inside each
    [updateJob], how the POST ends and the clock when that is handled. *)
Record JobEnv := {
  t_now : Z;
  permission : PermissionAnswer;
  t_running : Z;
  send : SendOutcome;
  t_handled : Z;
  t_final : Z
}.

Definition backoff (attempts : Z) : Z := Z.min (60000 * attempts) (10 * 60000).

Definition decimal (z : Z) : string := pretty z.

(** Lines 458-488 of the pump: mark the job running, POST, record the
    result.  [j] is the job as read at the head of [pumpJobs]. *)
Definition deliver (env : JobEnv) (id : string) (j : Job) (jobs : JobStore)
    : JobStore :=
  let jobs1 :=
    updateJob (t_running env) id
      {| p_status := Some Running;
         p_attempts := Some (JS.or_Z (Some (attempts j)) 0 + 1)%Z;
         p_error := None; p_lastResponse := None; p_nextRunAt := None;
         p_result := None |} jobs in
  let attempts1 := (JS.or_Z (Some (attempts j)) 0 + 1)%Z in
  let retry := if (5 <=? attempts1)%Z then Failed else Queued in
  match send env with
  | Responded http_status text =>
      if response_ok http_status then
        updateJob (t_final env) id
          {| p_status := Some Done; p_attempts := None;
             p_error := Some EmptyString; p_lastResponse := None;
             p_nextRunAt := None; p_result := Some http_status |} jobs1
      else
        updateJob (t_final env) id
          {| p_status := Some retry; p_attempts := None;
             p_error := Some ("http_" ++ decimal http_status);
             p_lastResponse := Some (JS.take (Z.to_nat 2000) text);
             p_nextRunAt := Some (t_handled env + backoff attempts1)%Z;
             p_result := None |} jobs1
  | Rejected e =>
      updateJob (t_final env) id
        {| p_status := Some retry; p_attempts := None;
           p_error := Some (error_text e); p_lastResponse := None;
           p_nextRunAt := Some (t_handled env + backoff attempts1)%Z;
           p_result := None |} jobs1
  end.

(** The POST did not end in a 2xx response. *)
Definition delivery_failed (o : SendOutcome) : Prop :=
  match o with
  | Responded http_status _ => response_ok http_status = false
  | Rejected _ => True
  end.

(** The deliveries of consecutive pump invocations for one job: each reads
    the job as the one before left it. *)
Fixpoint redeliver (envs : list JobEnv) (id : string) (jobs : JobStore)
    : JobStore :=
  match envs with
  | [] => jobs
  | env :: rest =>
      match jobs_byId jobs !! id with
      | Some j => redeliver rest id (deliver env id j jobs)
      | None => jobs
      end
  end.

Section Pump.

Variable parseURL : string → option URL.

(** [sanitizeUrlToHostPattern] *)
Definition sanitizeUrlToHostPattern (u : string) : string :=
  match parseURL u with
  | Some url => origin url ++ "/*"
  | None => EmptyString
  end.

Definition failed_patch (reason : string) : JobPatch :=
  {| p_status := Some Failed; p_attempts := None; p_error := Some reason;
     p_lastResponse := None; p_nextRunAt := None; p_result := None |}.

(** One turn of the loop for the id [id]; the result says whether
    [processed] was incremented. *)
Definition pump_turn (connectorById : gmap string Connector)
    (env : JobEnv) (snapshot : JobStore) (id : string) (jobs : JobStore)
    : bool * JobStore :=
  match jobs_byId snapshot !! id with
  | None => (false, jobs)
  | Some j =>
      match status j with
      | Done | Running => (false, jobs)
      | _ =>
          if JS.truthyZ (JS.or_Z (nextRunAt j) 0) &&
             (t_now env <? JS.or_Z (nextRunAt j) 0)%Z
          then (false, jobs)
          else
            match connectorById !! connectorId j with
            | Some connector =>
                if cn_enabled connector && JS.truthy_string (cn_url connector)
                then
                  let host := sanitizeUrlToHostPattern (cn_url connector) in
                  if JS.truthy_string host &&
                     match permission env with Denied => true | _ => false end
                  then (true, updateJob (t_final env) id
                                (failed_patch "missing_host_permission") jobs)
                  else (true, deliver env id j jobs)
                else (true, updateJob (t_final env) id
                              (failed_patch "missing_connector") jobs)
            | None => (true, updateJob (t_final env) id
                               (failed_patch "missing_connector") jobs)
            end
      end
  end.

(** The loop of [pumpJobs]: at most three jobs are processed. *)
Fixpoint pump_loop (connectorById : gmap string Connector)
    (env : string → JobEnv) (snapshot : JobStore) (ids : list string)
    (processed : nat) (jobs : JobStore) : JobStore :=
  match ids with
  | [] => jobs
  | id :: rest =>
      if (3 <=? processed)%nat then jobs else
      let '(counted, jobs') :=
        pump_turn connectorById (env id) snapshot id jobs in
      pump_loop connectorById env snapshot rest
                (if counted then S processed else processed) jobs'
  end.

(** [pumpJobs()] on the stored job document. *)
Definition pumpJobs (connectorById : gmap string Connector)
    (env : string → JobEnv) (jobs : JobStore) : JobStore :=
  pump_loop connectorById env jobs (rev (jobs_order jobs)) 0 jobs.

End Pump.

(** ** Extractor (memory-extractor.js): the entry point *)

Record Detected := {
  d_name : string;
  d_confidence : Q
}.

Record Entities := {
  languages : list Detected;
  frameworks : list Detected;
  codeBlocks : list string;
  errors : list string;
  topics : list Detected;
  files : list string;
  functions : list string;
  classes : list string;
  urls : list string;
  goals : list string
}.

Record Extraction := {
  x_timestamp : Z;
  x_platform : string;
  x_sessionId : option string;
  entities : Entities;
  x_nodes : list string;
  x_edges : list string
}.

Record MemoryExtractor := {
  x_graph : MemoryGraph;
  lastExtraction : option Extraction;
  extractionCount : Z
}.

(** [WorkSession.updateInferredContext] *)
Definition updateInferredContext (language framework topic : option string)
    (s : WorkSession) : WorkSession :=
  let keep (new old : option string) :=
    match JS.or_null new with Some v => Some v | None => old end in
  {| s_id := s_id s; startedAt := startedAt s; endedAt := endedAt s;
     s_platform := s_platform s; s_url := s_url s; s_title := s_title s;
     s_description := s_description s; s_tags := s_tags s;
     nodeIds := nodeIds s;
     promptCount := promptCount s; responseCount := responseCount s;
     codeBlockCount := codeBlockCount s; errorCount := errorCount s;
     primaryLanguage := keep language (primaryLanguage s);
     primaryFramework := keep framework (primaryFramework s);
     primaryTopic := keep topic (primaryTopic s);
     isActive := isActive s |}.

Section Extractor.

(** The pattern passes and [_buildRelationships] work on the extraction
    report and the graph; their tables of regular expressions are not
    modelled, they are parameters.  [detectPlatform] is what
    [_detectPlatform()] reads from the page address. *)
Variable detectPlatform : string.
Variables _extractLanguages _extractCodeBlocks _extractFrameworks
          _extractErrors _extractTopics _extractEntities _extractGoals
  : string → Metadata → Extraction * MemoryGraph → Extraction * MemoryGraph.
Variable _buildRelationships : Extraction * MemoryGraph → Extraction * MemoryGraph.

(** [MemoryExtractor.extract(text, metadata)]; [text] is [None] for a
    missing argument. *)
Definition extract (now : Z) (text : option string) (metadata : Metadata)
    (self : MemoryExtractor) : option Extraction * MemoryExtractor :=
  match text with
  | None => (None, self)
  | Some text =>
      if negb (JS.truthy_string text) || (String.length text <? 20)%nat
      then (None, self)
      else
        let platform := JS.or_string (md_platform metadata) detectPlatform in
        let sessionId := s_id <$> activeSessionObj (x_graph self) in
        let extraction :=
          {| x_timestamp := now; x_platform := platform;
             x_sessionId := sessionId;
             entities := {| languages := []; frameworks := [];
                            codeBlocks := []; errors := []; topics := [];
                            files := []; functions := []; classes := [];
                            urls := []; goals := [] |};
             x_nodes := []; x_edges := [] |} in
        let s1 := _extractLanguages text metadata (extraction, x_graph self) in
        let s2 := _extractCodeBlocks text metadata s1 in
        let s3 := _extractFrameworks text metadata s2 in
        let s4 := _extractErrors text metadata s3 in
        let s5 := _extractTopics text metadata s4 in
        let s6 := _extractEntities text metadata s5 in
        let s7 := _extractGoals text metadata s6 in
        let '(report, g) := _buildRelationships s7 in
        let g' :=
          match activeSession g, languages (entities report) with
          | Some k, _ :: _ =>
              {| nodes := nodes g; edges := edges g; outgoing := outgoing g;
                 incoming := incoming g; nodesByType := nodesByType g;
                 edgesByType := edgesByType g; contentIndex := contentIndex g;
                 sessions :=
                   alter (updateInferredContext
                            (d_name <$> head (languages (entities report)))
                            (d_name <$> head (frameworks (entities report)))
                            (d_name <$> head (topics (entities report))))
                         k (sessions g);
                 activeSession := activeSession g; stats := stats g |}
          | _, _ => g
          end in
        (Some report,
         {| x_graph := g'; lastExtraction := Some report;
            extractionCount := extractionCount self + 1 |})
  end.

End Extractor.

(** ** Scenarios *)

(** A sequence of mutations, and the condition that each generated
    identifier is new when it is used. *)
Definition run_ops (ops : list GraphOp) (g : MemoryGraph) : MemoryGraph :=
  foldl (λ acc op, apply_op op acc) g ops.

Fixpoint ops_fresh (ops : list GraphOp) (g : MemoryGraph) : Prop :=
  match ops with
  | [] => True
  | op :: rest => op_fresh op g ∧ ops_fresh rest (apply_op op g)
  end.

Definition with_importance (v : Q) : Metadata :=
  {| md_importance := Some v; md_confidence := None; md_source := None;
     md_platform := None; md_sessionId := None; md_extra := [] |}.

Definition content_update (c : string) : NodeUpdates :=
  {| u_content := Some c; u_importance := None; u_confidence := None |}.

Definition bidirectional_edge : EdgeOptions :=
  {| eo_weight := None; eo_bidirectional := Some true; eo_extra := [] |}.

Definition no_session_options : SessionOptions :=
  {| so_platform := None; so_url := None; so_title := None;
     so_description := None; so_tags := None |}.

(** A session, two languages and a framework, an edge each way round. *)
Definition demo_ops : list GraphOp :=
  [ OpStartSession 1000 "session_1" no_session_options;
    OpAddNode 1001 "node_py" "language" "python" no_metadata;
    OpAddNode 1002 "node_dj" "framework" "django" no_metadata;
    OpAddNode 1003 "node_js" "language" "javascript" no_metadata;
    OpAddEdge 1004 "edge_1" "node_dj" "node_py" "part_of" no_edge_options;
    OpAddEdge 1005 "edge_2" "node_py" "node_js" "related_to" bidirectional_edge;
    OpAddNode 1006 "node_xx" "language" "python" (with_importance (9 # 10)) ].

Definition demo_graph : MemoryGraph := run_ops demo_ops (MemoryGraph_new 999).

(** Two topics, then the content of the second is set to that of the first. *)
Definition collision_ops : list GraphOp :=
  [ OpAddNode 1 "node_a" "topic" "alpha" no_metadata;
    OpAddNode 2 "node_b" "topic" "beta" no_metadata;
    OpUpdateNode 3 "node_b" (content_update "alpha") ].

Definition collision_graph : MemoryGraph :=
  run_ops collision_ops (MemoryGraph_new 0).

(** A parser for plain [http://host/path] and [https://host/path]
    addresses, to instantiate [parseURL] in the scenarios. *)
Definition url_stop (c : ascii) : bool :=
  let n := nat_of_ascii c in ((n =? 47) || (n =? 63) || (n =? 35))%nat.

Definition simple_parseURL (u : string) : option URL :=
  let parse scheme rest :=
    let host := take_while (λ c, negb (url_stop c)) rest in
    let after := JS.drop (String.length host) rest in
    let path :=
      take_while (λ c, negb ((nat_of_ascii c =? 63) || (nat_of_ascii c =? 35))%nat)
                 after in
    if JS.truthy_string host
    then Some {| origin := scheme ++ JS.toLowerCase host;
                 pathname := if JS.truthy_string path then path else "/" |}
    else None in
  if JS.startsWith u "https://" then parse "https://" (JS.drop 8 u)
  else if JS.startsWith u "http://" then parse "http://" (JS.drop 7 u)
  else None.

Definition chat_url : string := "https://chatgpt.com/c/abc".

(** [{...base, id, url}] *)
Definition conversation_with (id url : string) (base : Conversation)
    : Conversation :=
  {| c_id := Some id; c_title := c_title base; c_url := Some url;
     c_ts := c_ts base; c_messages := c_messages base; c_text := c_text base;
     c_hash := c_hash base; c_tags := c_tags base; c_pinned := c_pinned base;
     c_notes := c_notes base; c_createdAt := c_createdAt base;
     c_updatedAt := c_updatedAt base |}.

(** [field.toLowerCase().includes(word)] *)
Definition mentions (word field : string) : bool :=
  JS.includes (JS.toLowerCase field) word.

(** Three saved conversations that are equal but for where the query word
    stands: [{...base, id, title, text, tags}]. *)
Definition variant (base : Conversation) (id title text : string)
    (tags : list string) : Conversation :=
  {| c_id := Some id; c_title := Some title; c_url := c_url base;
     c_ts := c_ts base; c_messages := c_messages base; c_text := Some text;
     c_hash := c_hash base; c_tags := Some tags; c_pinned := c_pinned base;
     c_notes := c_notes base; c_createdAt := c_createdAt base;
     c_updatedAt := c_updatedAt base |}.

Definition three_store (a b c : Conversation) : ConversationStore :=
  {| byId := {[ "A" := a; "B" := b; "C" := c ]};
     order := ["A"; "B"; "C"];
     urlToId := ∅ |}.

Definition search_base : Conversation :=
  {| c_id := None; c_title := None; c_url := Some "https://chatgpt.com/";
     c_ts := Some 1000%Z; c_messages := None; c_text := None; c_hash := None;
     c_tags := None; c_pinned := Some false; c_notes := None;
     c_createdAt := Some 1000%Z; c_updatedAt := Some 1000%Z |}.

(** The word django in the title of A, in a tag of B, in the text of C. *)
Definition search_store : ConversationStore :=
  three_store
    (variant search_base "A" "django notes" "hello world" ["work"])
    (variant search_base "B" "notes" "hello world" ["django"])
    (variant search_base "C" "notes" "hello django world" ["work"]).

(** [x] stands before [y] in a list of result ids. *)
Definition ranked_above (ids : list (option string)) (x y : string) : Prop :=
  ∃ i j : nat, ids !! i = Some (Some x) ∧ ids !! j = Some (Some y) ∧ (i < j)%nat.

(** [sep] does not occur in [t]. *)
Fixpoint free_of (sep : ascii) (t : string) : bool :=
  match t with
  | EmptyString => true
  | String c r => negb (Ascii.eqb c sep) && free_of sep r
  end.

(** A queued job and five failing deliveries: four HTTP 500 answers, then a
    network error. *)
Definition demo_job : Job :=
  {| j_id := "job_1"; j_type := "webhook"; connectorId := "hook";
     payload := "{}"; headers := []; kind := "json"; status := Queued;
     attempts := 0; j_createdAt := 10; j_updatedAt := 10; nextRunAt := None;
     lastResponse := None; error := None; result := None |}.

Definition demo_jobs : JobStore :=
  {| jobs_byId := {[ "job_1" := demo_job ]}; jobs_order := ["job_1"] |}.

Definition demo_connectors : gmap string Connector :=
  {[ "hook" := {| cn_url := "https://hooks.example.com/in"; cn_secret := "s";
                  cn_headers := []; cn_enabled := true |} ]}.

Definition failing_env (t : Z) (outcome : SendOutcome) : JobEnv :=
  {| t_now := t; permission := Granted; t_running := t + 1; send := outcome;
     t_handled := t + 2; t_final := t + 3 |}.

Definition five_failures : list JobEnv :=
  [ failing_env 100 (Responded 500 "boom");
    failing_env 70000 (Responded 500 "boom");
    failing_env 200000 (Responded 503 "busy");
    failing_env 400000 (Responded 500 "boom");
    failing_env 700000
      (Rejected {| err_class := TypeError; err_message := "Failed to fetch" |}) ].

(** A node a peer tab sends, and a local graph that holds a node with the
    same id and the same [updatedAt] but another content. *)
Definition remote_node : MemoryNode :=
  MemoryNode_new 5 "node_r" "topic" "beta" no_metadata.

Definition local_graph : MemoryGraph :=
  (addNode 5 "node_r" "topic" "alpha" no_metadata (MemoryGraph_new 0)).2.

Definition local_sync (g : MemoryGraph) : MemorySync :=
  {| sync_graph := Some g; tabId := "tab_1" |}.


(** ** Memory graph: lookups and further invariants *)

(** [MemoryGraph.getNodesByType(type)]; [filter(Boolean)] drops the ids that
    [nodes.get] does not find. *)
Definition getNodesByType (type : string) (g : MemoryGraph) : list MemoryNode :=
  match nodesByType g !! type with
  | None => []
  | Some nodeIds => omap (λ id, nodes g !! id) nodeIds
  end.

(** [MemoryGraph.getOutgoingEdges(nodeId)] *)
Definition getOutgoingEdges (nodeId : string) (g : MemoryGraph)
    : list MemoryEdge :=
  match outgoing g !! nodeId with
  | None => []
  | Some edgeIds => omap (λ id, edges g !! id) edgeIds
  end.

(** [MemoryGraph.getIncomingEdges(nodeId)] *)
Definition getIncomingEdges (nodeId : string) (g : MemoryGraph)
    : list MemoryEdge :=
  match incoming g !! nodeId with
  | None => []
  | Some edgeIds => omap (λ id, edges g !! id) edgeIds
  end.

(** [MemoryGraph.getNeighbors(nodeId, direction)]: the targets of the
    outgoing edges, then the sources of the incoming ones, collected in a
    set. *)
Definition getNeighbors (nodeId direction : string) (g : MemoryGraph)
    : list MemoryNode :=
  let neighbors1 :=
    if bool_decide (direction = "outgoing") || bool_decide (direction = "both")
    then foldl (λ acc edge, set_add (targetId edge) acc) []
               (getOutgoingEdges nodeId g)
    else [] in
  let neighbors2 :=
    if bool_decide (direction = "incoming") || bool_decide (direction = "both")
    then foldl (λ acc edge, set_add (sourceId edge) acc) neighbors1
               (getIncomingEdges nodeId g)
    else neighbors1 in
  omap (λ id, nodes g !! id) neighbors2.

(** The two counts of sessions in what [MemoryGraph.getStats] returns. *)
Definition activeSessions (g : MemoryGraph) : nat :=
  length (filter (λ s, isActive s = true) (snd <$> map_to_list (sessions g))).

Definition totalSessions (g : MemoryGraph) : nat := size (sessions g).

(** The indices list what is stored, and nothing else: every node under its
    type, every edge under its type and, when it is bidirectional, also the
    other way round in the adjacency; an adjacency set of a node holds only
    live edges that touch the node, the edge type index only live edges of
    that type. *)
Record index_exact (g : MemoryGraph) : Prop := {
  ex_nodes_typed : ∀ k n,
    nodes g !! k = Some n → adj_mem (nodesByType g) (n_type n) k;
  ex_edges_typed : ∀ k e,
    edges g !! k = Some e → adj_mem (edgesByType g) (e_type e) k;
  ex_edge_types : ∀ t k,
    adj_mem (edgesByType g) t k → ∃ e, edges g !! k = Some e ∧ e_type e = t;
  ex_bidirectional : ∀ k e,
    edges g !! k = Some e → bidirectional e = true →
    adj_mem (outgoing g) (targetId e) k ∧ adj_mem (incoming g) (sourceId e) k;
  ex_outgoing : ∀ n k,
    adj_mem (outgoing g) n k →
    ∃ e, edges g !! k = Some e ∧
         (sourceId e = n ∨ (bidirectional e = true ∧ targetId e = n));
  ex_incoming : ∀ n k,
    adj_mem (incoming g) n k →
    ∃ e, edges g !! k = Some e ∧
         (targetId e = n ∨ (bidirectional e = true ∧ sourceId e = n))
}.

(** The counters of [stats] are the sizes of the two maps. *)
Definition stats_agree (g : MemoryGraph) : Prop :=
  totalNodes (stats g) = Z.of_nat (size (nodes g)) ∧
  totalEdges (stats g) = Z.of_nat (size (edges g)).

(** No two edges join the same source to the same target with the same
    type. *)
Definition edges_unique (g : MemoryGraph) : Prop :=
  ∀ k1 k2 e1 e2,
    edges g !! k1 = Some e1 → edges g !! k2 = Some e2 →
    sourceId e1 = sourceId e2 → targetId e1 = targetId e2 →
    e_type e1 = e_type e2 → k1 = k2.

(** An [applyDecay] with a negative amount would raise the decay. *)
Definition decay_amount_nonneg (op : GraphOp) : Prop :=
  match op with
  | OpApplyDecay decayAmount => (0 <= decayAmount)%Q
  | _ => True
  end.

(** Sessions: the active session is stored, is marked active and has not
    ended; no other session is marked active; a session lists live nodes
    that carry its id, and a node that carries a session id is listed by
    that session. *)
Record sessions_consistent (g : MemoryGraph) : Prop := {
  sc_active : ∀ k,
    activeSession g = Some k →
    ∃ s, sessions g !! k = Some s ∧ isActive s = true ∧ endedAt s = None;
  sc_single : ∀ k s,
    sessions g !! k = Some s → isActive s = true → activeSession g = Some k;
  sc_listed_live : ∀ k s x,
    sessions g !! k = Some s → x ∈ nodeIds s →
    ∃ n, nodes g !! x = Some n ∧ n_sessionId n = JS.or_null (Some k);
  sc_node_listed : ∀ k n sid,
    nodes g !! k = Some n → n_sessionId n = Some sid →
    ∃ s, sessions g !! sid = Some s ∧ k ∈ nodeIds s
}.

(** The lists that stand for sets hold no id twice. *)
Definition nodup_sets (m : gmap string (list string)) : Prop :=
  ∀ k ids, m !! k = Some ids → NoDup ids.

Definition sets_nodup (g : MemoryGraph) : Prop :=
  nodup_sets (outgoing g) ∧ nodup_sets (incoming g) ∧
  nodup_sets (nodesByType g) ∧ nodup_sets (edgesByType g) ∧
  ∀ k s, sessions g !! k = Some s → NoDup (nodeIds s).

(** Every node's decay lies between the floor of [applyDecay] and the cap
    of [touch]. *)
Definition decay_in_range (g : MemoryGraph) : Prop :=
  ∀ k n, nodes g !! k = Some n → (1 # 10 <= decay n)%Q ∧ (decay n <= 1)%Q.

(** The operations of [demo_ops], then a decay pass. *)
Definition decay_ops : list GraphOp :=
  (demo_ops ++ [OpApplyDecay (1 # 100)])%list.


(** ** Conversation store: lookups and metadata updates *)

(** The [patch] argument of [updateConversationMeta]: [None] is an absent
    key.  [mp_tags] is [Some None] for a [tags] key whose value is not an
    array, and [mp_pinned] holds the truthiness of a [pinned] key. *)
Record MetaPatch := {
  mp_id : option string;
  mp_title : option string;
  mp_url : option string;
  mp_ts : option Z;
  mp_messages : option (list Message);
  mp_text : option string;
  mp_hash : option string;
  mp_tags : option (option (list string));
  mp_pinned : option bool;
  mp_notes : option string;
  mp_createdAt : option Z
}.

Definition no_meta_patch : MetaPatch :=
  {| mp_id := None; mp_title := None; mp_url := None; mp_ts := None;
     mp_messages := None; mp_text := None; mp_hash := None; mp_tags := None;
     mp_pinned := None; mp_notes := None; mp_createdAt := None |}.

(** [{...c, ...patch}], then [tags] and [pinned] normalised when the patch
    has them, then [updatedAt]. *)
Definition apply_meta_patch (now : Z) (patch : MetaPatch) (c : Conversation)
    : Conversation :=
  let over {A} (p old : option A) :=
    match p with Some v => Some v | None => old end in
  {| c_id := over (mp_id patch) (c_id c);
     c_title := over (mp_title patch) (c_title c);
     c_url := over (mp_url patch) (c_url c);
     c_ts := over (mp_ts patch) (c_ts c);
     c_messages := over (mp_messages patch) (c_messages c);
     c_text := over (mp_text patch) (c_text c);
     c_hash := over (mp_hash patch) (c_hash c);
     c_tags :=
       match mp_tags patch with
       | Some (Some tags) => Some tags
       | Some None => Some []
       | None => c_tags c
       end;
     c_pinned := over (mp_pinned patch) (c_pinned c);
     c_notes := over (mp_notes patch) (c_notes c);
     c_createdAt := over (mp_createdAt patch) (c_createdAt c);
     c_updatedAt := Some now |}.

(** [updateConversationMeta(id, patch)] on the stored document: what it
    returns ([None] for [null]) and the document written back. *)
Definition updateConversationMeta (now : Z) (id : string) (patch : MetaPatch)
    (store : ConversationStore) : option Conversation * ConversationStore :=
  match byId store !! id with
  | None => (None, store)
  | Some c =>
      let next := apply_meta_patch now patch c in
      (Some next,
       {| byId := <[id := next]> (byId store);
          order := id :: filter (λ x, x ≠ id) (order store);
          urlToId := urlToId store |})
  end.

(** [getConversationById(id)] *)
Definition getConversationById (id : string) (store : ConversationStore)
    : option Conversation :=
  byId store !! id.

Section Lookup.

Variable parseURL : string → option URL.

(** [getConversationIdForUrl(url)] *)
Definition getConversationIdForUrl (url : string) (store : ConversationStore)
    : option string :=
  match parseURL url with
  | Some u => JS.or_null (urlToId store !! (origin u ++ pathname u))
  | None => None
  end.

End Lookup.

(** The store lists in [order], once each, exactly the ids that have a
    record, and none of them is the empty string. *)
Definition store_wf (store : ConversationStore) : Prop :=
  NoDup (order store) ∧
  (∀ id, id ∈ order store ↔ is_Some (byId store !! id)) ∧
  "" ∉ order store.

(** Every record carries the id it is stored under. *)
Definition records_keyed (store : ConversationStore) : Prop :=
  ∀ id c, byId store !! id = Some c → c_id c = Some id.

(** ** Script matching (storage.js) *)

(** The three components of [new URL(url)] that [urlMatches] reads. *)
Record Location := {
  protocol : string;
  host : string;
  l_pathname : string
}.

(** [s.endsWith(suffix)] *)
Definition endsWith (s suffix : string) : bool :=
  JS.startsWith (JS.rev_string s "") (JS.rev_string suffix "").

(** [p.slice(0, -1)] *)
Definition drop_last (p : string) : string :=
  JS.take (String.length p - 1) p.

Section Matching.

Variable parseLocation : string → option Location.

(** [urlMatches(url, patterns)] *)
Definition urlMatches (url : string) (patterns : list string) : bool :=
  match parseLocation url with
  | Some u =>
      let candidate := protocol u ++ "//" ++ host u ++ l_pathname u in
      existsb (λ p, if negb (endsWith p "/*") then JS.startsWith candidate p
                    else JS.startsWith candidate (drop_last p))
              patterns
  | None => false
  end.

End Matching.

(** ** Job queue (storage.js): removal and listing *)

(** [removeJob(id)] *)
Definition removeJob (id : string) (jobs : JobStore) : JobStore :=
  {| jobs_byId := delete id (jobs_byId jobs);
     jobs_order := filter (λ x, x ≠ id) (jobs_order jobs) |}.

(** The loop of [listJobs]: the test of the limit comes after the push. *)
Fixpoint listJobs_loop (limit : nat) (byId : gmap string Job)
    (ids : list string) (out : list Job) : list Job :=
  match ids with
  | [] => out
  | id :: rest =>
      match byId !! id with
      | None => listJobs_loop limit byId rest out
      | Some j =>
          let out' := (out ++ [j])%list in
          if (limit <=? length out')%nat then out'
          else listJobs_loop limit byId rest out'
      end
  end.

(** [listJobs({limit})] *)
Definition listJobs (limit : nat) (jobs : JobStore) : list Job :=
  listJobs_loop limit (jobs_byId jobs) (jobs_order jobs) [].

(** The job document lists in [order], once each, exactly the ids that have
    a record. *)
Definition jobs_wf (jobs : JobStore) : Prop :=
  NoDup (jobs_order jobs) ∧
  ∀ id, id ∈ jobs_order jobs ↔ is_Some (jobs_byId jobs !! id).

(** A job the pump passes over: done, running, or not yet due. *)
Definition passed_over (now : Z) (j : Job) : Prop :=
  status j = Done ∨ status j = Running ∨
  (JS.truthyZ (JS.or_Z (nextRunAt j) 0) = true ∧
   (now < JS.or_Z (nextRunAt j) 0)%Z).

(** ** Ordering of the recent listing *)

(** [a] may stand before [b]: pinned first, then the later change first. *)
Definition recent_before (a b : Conversation) : Prop :=
  (pinned_rank b < pinned_rank a)%Z ∨
  (pinned_rank a = pinned_rank b ∧ (conv_updatedAt b <= conv_updatedAt a)%Z).

(** Every element may stand before every later one. *)
Fixpoint ordered {A} (R : A → A → Prop) (l : list A) : Prop :=
  match l with
  | [] => True
  | x :: rest => Forall (R x) rest ∧ ordered R rest
  end.

(** What the filters of [listConversations] let through. *)
Definition admitted (filters : Filters) (c : Conversation) : Prop :=
  (pinnedOnly filters = true → default false (c_pinned c) = true) ∧
  (hasCodeOnly filters = true → hasCode c = true) ∧
  (∀ t, since filters = Some t → t ≠ 0%Z → conv_updatedAt c ≠ 0%Z →
        (t <= conv_updatedAt c)%Z) ∧
  (∀ t, until filters = Some t → t ≠ 0%Z → conv_updatedAt c ≠ 0%Z →
        (conv_updatedAt c <= t)%Z) ∧
  (∀ t, f_tag filters = Some t →
        JS.trim (JS.toLowerCase t) ≠ "" →
        JS.trim (JS.toLowerCase t) ∈ lower_tags c) ∧
  (∀ ts, f_tags filters = Some ts →
         ∀ t, t ∈ ts → JS.toLowerCase t ∈ lower_tags c).

(** The invariant of the store but for [to], which may have a record and no
    place in the order yet (the state between a migration and the write). *)
Definition store_wf_but (to : string) (store : ConversationStore) : Prop :=
  NoDup (order store) ∧
  (∀ id, id ∈ order store → is_Some (byId store !! id)) ∧
  (∀ id, is_Some (byId store !! id) → id ∈ order store ∨ id = to) ∧
  "" ∉ order store.

(** ** Scenarios for the store *)

(** An autosave of conversation B that brings a new title and text, and no
    tags, pin or notes. *)
Definition autosave_update : Conversation :=
  {| c_id := Some "B"; c_title := Some "renamed"; c_url := None;
     c_ts := Some 2000%Z; c_messages := None; c_text := Some "hello again";
     c_hash := None; c_tags := None; c_pinned := None; c_notes := None;
     c_createdAt := None; c_updatedAt := None |}.

Definition with_pin (pinned : bool) (updatedAt : Z) (c : Conversation)
    : Conversation :=
  {| c_id := c_id c; c_title := c_title c; c_url := c_url c; c_ts := c_ts c;
     c_messages := c_messages c; c_text := c_text c; c_hash := c_hash c;
     c_tags := c_tags c; c_pinned := Some pinned; c_notes := c_notes c;
     c_createdAt := c_createdAt c; c_updatedAt := Some updatedAt |}.

(** A changed last and not pinned, B pinned, C the oldest. *)
Definition pinned_store : ConversationStore :=
  three_store
    (with_pin false 1500 (variant search_base "A" "a" "text" []))
    (with_pin true 1200 (variant search_base "B" "b" "text" []))
    (with_pin false 1100 (variant search_base "C" "c" "text" [])).

(** ** Scenarios for the job queue *)

(** A job that failed five times and whose next run is due by 900000. *)
Definition failed_job : Job :=
  {| j_id := "job_1"; j_type := "webhook"; connectorId := "hook";
     payload := "{}"; headers := []; kind := "json"; status := Failed;
     attempts := 5; j_createdAt := 10; j_updatedAt := 400003;
     nextRunAt := Some 700000%Z; lastResponse := Some "boom";
     error := Some "http_500"; result := None |}.

(** A job that waits for its next run at 60000. *)
Definition waiting_job : Job :=
  {| j_id := "job_2"; j_type := "webhook"; connectorId := "hook";
     payload := "{}"; headers := []; kind := "json"; status := Queued;
     attempts := 1; j_createdAt := 20; j_updatedAt := 103;
     nextRunAt := Some 60102%Z; lastResponse := Some "boom";
     error := Some "http_500"; result := None |}.

Definition failed_jobs : JobStore :=
  {| jobs_byId := {[ "job_1" := failed_job; "job_2" := waiting_job ]};
     jobs_order := ["job_2"; "job_1"] |}.

Definition waiting_jobs : JobStore :=
  {| jobs_byId := {[ "job_2" := waiting_job ]}; jobs_order := ["job_2"] |}.


(** ** Conversation keys and hashes (conversation.js) *)

(** [s.replace(/[^a-zA-Z0-9_-]/g, "_")] *)
Fixpoint replace_non_id (s : string) : string :=
  match s with
  | EmptyString => EmptyString
  | String c r =>
      String (if is_id_char c then c else "_"%char) (replace_non_id r)
  end.

Section ConversationKey.

(** The platform's URL parser, and the [search] component of the URL it
    parses. *)
Variable parseURL : string → option URL.
Variable search : string → string.

(** [getConversationKeyFromUrl(url)]; [now] is the clock reading of the
    [catch] branch. *)
Definition getConversationKeyFromUrl (now : Z) (url : string) : string :=
  match parseURL url with
  | Some u =>
      match match_c_segment (pathname u) with
      | Some m => "c_" ++ m
      | None =>
          let tmp := JS.take 120 (replace_non_id (pathname u ++ search url)) in
          "tmp_" ++ (if JS.truthy_string tmp then tmp else "new")
      end
  | None => "tmp_" ++ decimal now
  end.

End ConversationKey.

(** [Math.imul(a, b)] *)
Definition imul (a b : Z) : Z := JS.toInt32 (JS.toInt32 a * JS.toInt32 b).

(** The loop of [hashConversation]: [h ^= s.charCodeAt(i)], then
    [h = Math.imul(h, 16777619)]. *)
Fixpoint fnv_loop (s : string) (h : Z) : Z :=
  match s with
  | EmptyString => h
  | String c r =>
      let h1 := Z.lxor (JS.toInt32 h) (JS.toInt32 (JS.charCode c)) in
      fnv_loop r (imul h1 16777619)
  end.

(** [h >>> 0] for the [h] the loop ends with, on the string [s]. *)
Definition hash_value (s : string) : Z :=
  (fnv_loop s 2166136261 mod 4294967296)%Z.

Fixpoint digits16 (fuel : nat) (z : Z) (acc : string) : string :=
  match fuel with
  | O => acc
  | S k =>
      let acc' := String (JS.hex_digit (Z.to_nat (z mod 16))) acc in
      if (z / 16 =? 0)%Z then acc' else digits16 k (z / 16) acc'
  end.

(** [n.toString(16)] for an unsigned 32-bit integer [n] (eight digits
    suffice). *)
Definition toString16 (z : Z) : string := digits16 8 z "".

(** The string [hashConversation] hashes: one [role:text] line for each
    message. *)
Definition hashed_text (conversation : Conversation) : string :=
  String.concat newline
    (map (λ m, m_role m ++ ":" ++ m_text m)
         (default [] (c_messages conversation))).

(** [hashConversation(conversation)] *)
Definition hashConversation (conversation : Conversation) : string :=
  toString16 (hash_value (hashed_text conversation)).

(** What [extractConversation] fills in from the address of the page: the
    key as [id], the address as [url]. *)
Definition extracted_from (key url : string) (c : Conversation) : Prop :=
  c_id c = Some key ∧ c_url c = Some url.

(** ** Script matching (storage.js) *)

(** The string [urlMatches] compares with the patterns. *)
Definition candidate (u : Location) : string :=
  protocol u ++ "//" ++ host u ++ l_pathname u.

(** The character [*]. *)
Definition star : ascii := ascii_of_nat 42.

(** [simple_parseURL] as a parser of locations, to instantiate
    [parseLocation] in the scenarios. *)
Definition simple_parseLocation (u : string) : option Location :=
  match simple_parseURL u with
  | Some url =>
      let secure := JS.startsWith (origin url) "https://" in
      Some {| protocol := if secure then "https:" else "http:";
              host := JS.drop (if secure then 8 else 7) (origin url);
              l_pathname := pathname url |}
  | None => None
  end.

(** What [urlMatches] compares the candidate with, for the pattern [p]. *)
Definition matched_prefix (p : string) : string :=
  if endsWith p "/*" then drop_last p else p.

(** ** Cross-tab sync (memory-sync.js): leader election *)

Module Leader.

(** The fields of a [MemorySync] object that the election reads and
    writes; [heartbeat] says whether the interval that
    [_startLeaderHeartbeat] sets is running. *)
Record state := {
  tabId : string;
  isLeader : bool;
  leaderId : option string;
  leaderLastSeen : option Z;
  heartbeat : bool
}.

(** The messages of the election and the heartbeat.  Each carries the id
    of the tab that sent it; the [timestamp] some of them carry is not
    read by any handler. *)
Inductive kind := LEADER_CLAIM | LEADER_ANNOUNCE | LEADER_QUERY | HEARTBEAT.

Record message := {
  type : kind;
  sender : string
}.

(** The state of a new [MemorySync] object. *)
Definition init (id : string) : state :=
  {| tabId := id; isLeader := false; leaderId := None;
     leaderLastSeen := None; heartbeat := false |}.

(** [_claimLeadership]: the new state and the message it broadcasts. *)
Definition _claimLeadership (now : Z) (self : state) : state * list message :=
  ({| tabId := tabId self; isLeader := true; leaderId := Some (tabId self);
      leaderLastSeen := Some now; heartbeat := true |},
   [{| type := LEADER_CLAIM; sender := tabId self |}]).

(** [_handleLeaderClaim(message)]; [<] on two strings compares them code
    unit by code unit. *)
Definition _handleLeaderClaim (now : Z) (m : message) (self : state) : state :=
  if isLeader self then
    if String.ltb (sender m) (tabId self)
    then {| tabId := tabId self; isLeader := false;
            leaderId := Some (sender m); leaderLastSeen := Some now;
            heartbeat := false |}
    else self
  else {| tabId := tabId self; isLeader := isLeader self;
          leaderId := Some (sender m); leaderLastSeen := Some now;
          heartbeat := heartbeat self |}.

(** [_handleLeaderAnnounce(message)] *)
Definition _handleLeaderAnnounce (now : Z) (m : message) (self : state)
    : state :=
  let yields :=
    isLeader self && negb (bool_decide (tabId self = sender m)) &&
    String.ltb (sender m) (tabId self) in
  {| tabId := tabId self;
     isLeader := if yields then false else isLeader self;
     leaderId := Some (sender m); leaderLastSeen := Some now;
     heartbeat := if yields then false else heartbeat self |}.

(** [_handleMessage(message)] on a message of the election: the new state
    and what the tab broadcasts in answer. *)
Definition _handleMessage (now : Z) (m : message) (self : state)
    : state * list message :=
  if bool_decide (sender m = tabId self) then (self, []) else
  match type m with
  | HEARTBEAT =>
      (if bool_decide (Some (sender m) = leaderId self)
       then {| tabId := tabId self; isLeader := isLeader self;
               leaderId := leaderId self; leaderLastSeen := Some now;
               heartbeat := heartbeat self |}
       else self, [])
  | LEADER_CLAIM => (_handleLeaderClaim now m self, [])
  | LEADER_QUERY =>
      (self,
       if isLeader self
       then [{| type := LEADER_ANNOUNCE; sender := tabId self |}] else [])
  | LEADER_ANNOUNCE => (_handleLeaderAnnounce now m self, [])
  end.

(** A tab handles a sequence of messages, each at its own time. *)
Definition handle_all (msgs : list (Z * message)) (self : state) : state :=
  foldl (λ s tm, (_handleMessage tm.1 tm.2 s).1) self msgs.

(** Two tabs claim leadership, and each then receives what the other has
    broadcast. *)
Definition claim_both (now : Z) (a b : state) : state * state :=
  let '(a1, from_a) := _claimLeadership now a in
  let '(b1, from_b) := _claimLeadership now b in
  (handle_all ((λ m, (now, m)) <$> from_b) a1,
   handle_all ((λ m, (now, m)) <$> from_a) b1).

(** A claim or an announcement by a tab whose id is smaller than [id]. *)
Definition challenges (id : string) (m : message) : bool :=
  match type m with
  | LEADER_CLAIM | LEADER_ANNOUNCE => String.ltb (sender m) id
  | _ => false
  end.

End Leader.


(** ** Merging a loaded graph (memory-api.js) *)

(** The body of the first loop of [Memory._mergeGraph], for one entry of
    [sourceGraph.nodes]. *)
Definition merge_node (graph : MemoryGraph) (entry : string * MemoryNode)
    : MemoryGraph :=
  let '(id, node) := entry in
  match nodes graph !! id with
  | Some _ => graph
  | None =>
      let hash := _hashContent (n_type node) (n_content node) in
      {| nodes := <[id := node]> (nodes graph);
         edges := edges graph;
         outgoing := <[id := []]> (outgoing graph);
         incoming := <[id := []]> (incoming graph);
         nodesByType := index_add (n_type node) id (nodesByType graph);
         edgesByType := edgesByType graph;
         contentIndex := <[hash := id]> (contentIndex graph);
         sessions := sessions graph; activeSession := activeSession graph;
         stats := stats graph |}
  end.

(** The body of the second loop, for one entry of [sourceGraph.edges]. *)
Definition merge_edge (graph : MemoryGraph) (entry : string * MemoryEdge)
    : MemoryGraph :=
  let '(id, edge) := entry in
  match edges graph !! id with
  | Some _ => graph
  | None =>
      let out1 := adj_add (sourceId edge) id (outgoing graph) in
      let in1 := adj_add (targetId edge) id (incoming graph) in
      {| nodes := nodes graph;
         edges := <[id := edge]> (edges graph);
         outgoing :=
           if bidirectional edge then adj_add (targetId edge) id out1
           else out1;
         incoming :=
           if bidirectional edge then adj_add (sourceId edge) id in1
           else in1;
         nodesByType := nodesByType graph;
         edgesByType := index_add (e_type edge) id (edgesByType graph);
         contentIndex := contentIndex graph;
         sessions := sessions graph; activeSession := activeSession graph;
         stats := stats graph |}
  end.

(** The body of the third loop, for one entry of [sourceGraph.sessions]. *)
Definition merge_session (graph : MemoryGraph) (entry : string * WorkSession)
    : MemoryGraph :=
  let '(id, session) := entry in
  match sessions graph !! id with
  | Some _ => graph
  | None =>
      {| nodes := nodes graph; edges := edges graph;
         outgoing := outgoing graph; incoming := incoming graph;
         nodesByType := nodesByType graph; edgesByType := edgesByType graph;
         contentIndex := contentIndex graph;
         sessions := <[id := session]> (sessions graph);
         activeSession := activeSession graph; stats := stats graph |}
  end.

(** [Memory._mergeGraph(sourceGraph)] on the graph [graph] of the memory;
    the three loops run over the entries in the order of the keys. *)
Definition _mergeGraph (sourceGraph graph : MemoryGraph) : MemoryGraph :=
  let g1 := foldl merge_node graph (map_to_list (nodes sourceGraph)) in
  let g2 := foldl merge_edge g1 (map_to_list (edges sourceGraph)) in
  let g3 := foldl merge_session g2 (map_to_list (sessions sourceGraph)) in
  {| nodes := nodes g3; edges := edges g3; outgoing := outgoing g3;
     incoming := incoming g3; nodesByType := nodesByType g3;
     edgesByType := edgesByType g3; contentIndex := contentIndex g3;
     sessions := sessions g3; activeSession := activeSession g3;
     stats := {| totalNodes := Z.of_nat (size (nodes g3));
                 totalEdges := Z.of_nat (size (edges g3));
                 st_createdAt := st_createdAt (stats g3);
                 lastModified := lastModified (stats g3) |} |}.

(** The scenario graph with one more topic, whose id the graph of
    [collision_ops] uses too. *)
Definition overlapping_graph : MemoryGraph :=
  apply_op (OpAddNode 7 "node_a" "topic" "gamma" no_metadata) demo_graph.


(** * Properties *)

(** ** Numbers *)

Lemma Qltb_lt (a b : Q) : JS.Qltb a b = true ↔ (a < b)%Q.
Proof.
  unfold JS.Qltb. rewrite Qlt_alt.
  destruct (a ?= b)%Q; split; intros H; congruence.
Qed.

Lemma Qleb_le (a b : Q) : JS.Qleb a b = true ↔ (a <= b)%Q.
Proof.
  unfold JS.Qleb. rewrite Qle_alt.
  destruct (a ?= b)%Q; split; intros H; congruence.
Qed.

Lemma truthyQ_false (q : Q) : JS.truthyQ q = false → (q == 0)%Q.
Proof.
  unfold JS.truthyQ. intros H. apply Qeq_bool_iff.
  destruct (Qeq_bool q 0); [done | discriminate].
Qed.

(** ** The content hash *)

Lemma toInt32_range (z : Z) :
  (-2147483648 <= JS.toInt32 z < 2147483648)%Z.
Proof.
  unfold JS.toInt32.
  pose proof (Z.mod_pos_bound (z + 2147483648) 4294967296). lia.
Qed.

Lemma toInt32_small (z : Z) :
  (-2147483648 <= z < 2147483648)%Z → JS.toInt32 z = z.
Proof.
  intros H. unfold JS.toInt32. rewrite Z.mod_small; lia.
Qed.

(** The hash of [language:"python"], and the two ends of the 32-bit range in
    base 36. *)
Lemma hashContent_python : _hashContent "language" "python" = "-vehqd6".
Proof. vm_compute. reflexivity. Qed.

Lemma toString36_bounds :
  JS.toString36 (-2147483648) = "-zik0zk" ∧ JS.toString36 2147483647 = "zik0zj".
Proof. split; vm_compute; reflexivity. Qed.

Lemma tokenize_drops_stop_words :
  tokenize "the django rest-api of 2024" = ["django"; "rest"; "api"; "2024"].
Proof. vm_compute. reflexivity. Qed.

(** ** Deduplication in [addNode] *)

Section AddNode.

Variables (now : Z) (fresh type content : string) (metadata : Metadata).

Lemma addNode_existing (g : MemoryGraph) (k : string) (n : MemoryNode) :
  contentIndex g !! _hashContent type content = Some k →
  nodes g !! k = Some n →
  addNode now fresh type content metadata g =
    (k, {| nodes := <[k := merge_existing now metadata n]> (nodes g);
           edges := edges g;
           outgoing := outgoing g; incoming := incoming g;
           nodesByType := nodesByType g; edgesByType := edgesByType g;
           contentIndex := contentIndex g; sessions := sessions g;
           activeSession := activeSession g; stats := stats g |}).
Proof.
  intros Hidx Hnode. unfold addNode. rewrite Hidx. simpl. rewrite Hnode. simpl.
  reflexivity.
Qed.

(** After [addNode] the content index leads to the returned node. *)
Lemma addNode_indexed (g : MemoryGraph) :
  let r := addNode now fresh type content metadata g in
  contentIndex r.2 !! _hashContent type content = Some r.1 ∧
  is_Some (nodes r.2 !! r.1).
Proof.
  unfold addNode.
  destruct (contentIndex g !! _hashContent type content) as [k|] eqn:Hidx; simpl.
  - destruct (nodes g !! k) as [n|] eqn:Hnode; simpl.
    + split; [done|]. rewrite lookup_insert_eq. eauto.
    + rewrite !lookup_insert_eq. eauto.
  - rewrite !lookup_insert_eq. eauto.
Qed.

End AddNode.

Lemma merge_existing_importance (now : Z) (m : Metadata) (n : MemoryNode) :
  (0 <= importance n)%Q →
  (importance (merge_existing now m n) ==
   Qmax (importance n) (default (importance n) (md_importance m)))%Q.
Proof.
  intros Hpos. unfold merge_existing.
  destruct (md_importance m) as [v|]; simpl.
  - destruct (JS.truthyQ v) eqn:Htruthy; simpl.
    + destruct (JS.Qltb (importance n) v) eqn:Hlt; simpl.
      * apply Qltb_lt in Hlt. symmetry. apply Q.max_r. by apply Qlt_le_weak.
      * symmetry. apply Q.max_l. apply Qnot_lt_le. intros H.
        apply Qltb_lt in H. congruence.
    + apply truthyQ_false in Htruthy. symmetry. apply Q.max_l.
      rewrite Htruthy. exact Hpos.
  - symmetry. apply Q.max_l. apply Qle_refl.
Qed.

(** C1.  Adding the same (type, content) a second time returns the node the
    first call returned: the same key and id, no node created, its
    [accessCount] one higher, its [decay] raised by 0.1 and clamped to 1, and
    its [importance] the maximum of what it was and the importance given in
    the second call (unchanged when none is given).  The importance of the
    node is taken in the range of the data model, of which only the lower
    bound 0 is used. *)
Theorem addNode_same_content_touches
    (g : MemoryGraph) (t c : string) (m1 m2 : Metadata)
    (now1 now2 : Z) (fresh1 fresh2 : string) (n : MemoryNode) :
  let r1 := addNode now1 fresh1 t c m1 g in
  let r2 := addNode now2 fresh2 t c m2 r1.2 in
  nodes r1.2 !! r1.1 = Some n →
  (0 <= importance n)%Q →
  r2.1 = r1.1 ∧
  dom (nodes r2.2) = dom (nodes r1.2) ∧
  totalNodes (stats r2.2) = totalNodes (stats r1.2) ∧
  ∃ n', nodes r2.2 !! r2.1 = Some n' ∧
        n_id n' = n_id n ∧ n_type n' = n_type n ∧ n_content n' = n_content n ∧
        accessCount (n_metadata n') = (accessCount (n_metadata n) + 1)%Z ∧
        decay n' = Qmin 1 (decay n + (1 # 10)) ∧
        (importance n' ==
         Qmax (importance n) (default (importance n) (md_importance m2)))%Q.
Proof.
  intros r1 r2 Hn Hpos.
  destruct (addNode_indexed now1 fresh1 t c m1 g) as [Hidx _].
  fold r1 in Hidx.
  assert (Hr2 := addNode_existing now2 fresh2 t c m2 r1.2 r1.1 n Hidx Hn).
  fold r2 in Hr2. rewrite Hr2. simpl.
  split; [done|]. split.
  { rewrite dom_insert_L. apply subseteq_union_1_L, singleton_subseteq_l.
    by apply elem_of_dom_2 in Hn. }
  split; [done|].
  exists (merge_existing now2 m2 n). rewrite lookup_insert_eq.
  split; [done|].
  assert (Hshape : ∀ x, n_id (merge_existing now2 m2 x) = n_id x ∧
                        n_type (merge_existing now2 m2 x) = n_type x ∧
                        n_content (merge_existing now2 m2 x) = n_content x ∧
                        accessCount (n_metadata (merge_existing now2 m2 x)) =
                          (accessCount (n_metadata x) + 1)%Z ∧
                        decay (merge_existing now2 m2 x) =
                          Qmin 1 (decay x + (1 # 10))).
  { intros x. unfold merge_existing.
    destruct (md_importance m2) as [v|]; simpl;
      [destruct (JS.truthyQ v && JS.Qltb (importance x) v)|]; simpl; done. }
  destruct (Hshape n) as (? & ? & ? & ? & ?).
  repeat (split; [done|]).
  by apply merge_existing_importance.
Qed.

(** ** Sets of identifiers and maps of sets *)

Lemma elem_of_set_delete (x y : string) (l : list string) :
  x ∈ set_delete y l ↔ x ∈ l ∧ x ≠ y.
Proof. unfold set_delete. rewrite list_elem_of_filter. tauto. Qed.

Lemma elem_of_set_add (x y : string) (l : list string) :
  x ∈ set_add y l ↔ x ∈ l ∨ x = y.
Proof.
  unfold set_add. destruct (decide (y ∈ l)) as [Hin|Hnin].
  - split; [tauto|]. intros [?| ->]; done.
  - rewrite elem_of_app, list_elem_of_singleton. tauto.
Qed.

Lemma adj_mem_alter (f : list string → list string)
    (m : gmap string (list string)) (k k' x : string) :
  adj_mem (alter f k m) k' x ↔
  ∃ ids, m !! k' = Some ids ∧ x ∈ (if decide (k = k') then f ids else ids).
Proof.
  unfold adj_mem. destruct (decide (k = k')) as [->|Hne].
  - rewrite lookup_alter_eq. split.
    + intros (ids' & Hl & Hx). destruct (m !! k') as [ids|]; [|done].
      simpl in Hl. injection Hl as <-. eauto.
    + intros (ids & -> & Hx). simpl. eauto.
  - rewrite lookup_alter_ne by done. done.
Qed.

Lemma adj_mem_adj_delete (m : gmap string (list string)) (k y k' x : string) :
  adj_mem (adj_delete k y m) k' x ↔ adj_mem m k' x ∧ ¬ (k = k' ∧ x = y).
Proof.
  unfold adj_delete. rewrite adj_mem_alter. unfold adj_mem. split.
  - intros (ids & Hl & Hx). destruct (decide (k = k')) as [->|Hne].
    + apply elem_of_set_delete in Hx as [Hx Hxy]. split; [eauto|tauto].
    + split; [eauto|tauto].
  - intros [(ids & Hl & Hx) Hno]. exists ids. split; [done|].
    destruct (decide (k = k')) as [->|Hne]; [|done].
    apply elem_of_set_delete. split; [done|]. intros ->. tauto.
Qed.

Lemma adj_mem_adj_add (m : gmap string (list string)) (k y k' x : string) :
  adj_mem (adj_add k y m) k' x ↔
  adj_mem m k' x ∨ (k = k' ∧ x = y ∧ is_Some (m !! k)).
Proof.
  unfold adj_add. rewrite adj_mem_alter. unfold adj_mem. split.
  - intros (ids & Hl & Hx). destruct (decide (k = k')) as [->|Hne].
    + apply elem_of_set_add in Hx as [Hx| ->]; [left; eauto|].
      right. eauto.
    + left; eauto.
  - intros [(ids & Hl & Hx)|(-> & -> & [ids Hl])].
    + exists ids. split; [done|]. destruct (decide (k = k')); [|done].
      apply elem_of_set_add. tauto.
    + exists ids. split; [done|]. rewrite decide_True by done.
      apply elem_of_set_add. tauto.
Qed.

Lemma adj_mem_index_add (m : gmap string (list string)) (k y k' x : string) :
  adj_mem (index_add k y m) k' x ↔ adj_mem m k' x ∨ (k = k' ∧ x = y).
Proof.
  unfold index_add, adj_mem. destruct (decide (k = k')) as [->|Hne].
  - rewrite lookup_insert_eq. split.
    + intros (ids & Hl & Hx). injection Hl as <-.
      apply elem_of_set_add in Hx as [Hx| ->]; [|tauto].
      left. destruct (m !! k') as [ids|]; simpl in Hx; [eauto|].
      by apply elem_of_nil in Hx.
    + intros H. eexists. split; [done|]. apply elem_of_set_add.
      destruct H as [(ids & -> & Hx)|[_ ->]]; simpl; tauto.
  - rewrite lookup_insert_ne by done. split; [tauto|].
    intros [H|[? _]]; done.
Qed.

Lemma adj_mem_insert_nil (m : gmap string (list string)) (k k' x : string) :
  adj_mem (<[k := []]> m) k' x ↔ k ≠ k' ∧ adj_mem m k' x.
Proof.
  unfold adj_mem. destruct (decide (k = k')) as [->|Hne].
  - rewrite lookup_insert_eq. split; [|tauto].
    intros (ids & Hl & Hx). injection Hl as <-. by apply elem_of_nil in Hx.
  - rewrite lookup_insert_ne by done. tauto.
Qed.

Lemma adj_mem_delete (m : gmap string (list string)) (k k' x : string) :
  adj_mem (delete k m) k' x ↔ k ≠ k' ∧ adj_mem m k' x.
Proof.
  unfold adj_mem. destruct (decide (k = k')) as [->|Hne].
  - rewrite lookup_delete_eq. split; [|tauto]. intros (ids & Hl & _). done.
  - rewrite lookup_delete_ne by done. tauto.
Qed.

Lemma is_Some_alter {A} (f : A → A) (m : gmap string A) (k k' : string) :
  is_Some (alter f k m !! k') ↔ is_Some (m !! k').
Proof.
  destruct (decide (k = k')) as [->|Hne].
  - rewrite lookup_alter_eq. by rewrite fmap_is_Some.
  - by rewrite lookup_alter_ne.
Qed.

(** ** Removing edges *)

Section RemoveEdge.

Variables (edgeId : string) (g : MemoryGraph).

Lemma removeEdge_frame :
  nodes (_removeEdgeInternal edgeId g) = nodes g ∧
  nodesByType (_removeEdgeInternal edgeId g) = nodesByType g ∧
  contentIndex (_removeEdgeInternal edgeId g) = contentIndex g ∧
  sessions (_removeEdgeInternal edgeId g) = sessions g ∧
  activeSession (_removeEdgeInternal edgeId g) = activeSession g.
Proof. unfold _removeEdgeInternal. by destruct (edges g !! edgeId). Qed.

Lemma removeEdge_edges :
  edges (_removeEdgeInternal edgeId g) = delete edgeId (edges g).
Proof.
  unfold _removeEdgeInternal.
  destruct (edges g !! edgeId) eqn:Hl; simpl; [done|].
  by rewrite delete_id.
Qed.

Lemma removeEdge_outgoing_mem (k x : string) :
  (adj_mem (outgoing (_removeEdgeInternal edgeId g)) k x →
   adj_mem (outgoing g) k x) ∧
  (x ≠ edgeId → adj_mem (outgoing g) k x →
   adj_mem (outgoing (_removeEdgeInternal edgeId g)) k x).
Proof.
  unfold _removeEdgeInternal.
  destruct (edges g !! edgeId) as [e|]; simpl; [|tauto].
  destruct (bidirectional e); rewrite !adj_mem_adj_delete; tauto.
Qed.

Lemma removeEdge_incoming_mem (k x : string) :
  (adj_mem (incoming (_removeEdgeInternal edgeId g)) k x →
   adj_mem (incoming g) k x) ∧
  (x ≠ edgeId → adj_mem (incoming g) k x →
   adj_mem (incoming (_removeEdgeInternal edgeId g)) k x).
Proof.
  unfold _removeEdgeInternal.
  destruct (edges g !! edgeId) as [e|]; simpl; [|tauto].
  destruct (bidirectional e); rewrite !adj_mem_adj_delete; tauto.
Qed.

Lemma removeEdge_adjacency_dom (k : string) :
  (is_Some (outgoing (_removeEdgeInternal edgeId g) !! k) ↔
   is_Some (outgoing g !! k)) ∧
  (is_Some (incoming (_removeEdgeInternal edgeId g) !! k) ↔
   is_Some (incoming g !! k)).
Proof.
  unfold _removeEdgeInternal.
  destruct (edges g !! edgeId) as [e|]; simpl; [|tauto].
  unfold adj_delete. destruct (bidirectional e); rewrite !is_Some_alter; tauto.
Qed.

End RemoveEdge.

Lemma removeEdges_cons (k : string) (ids : list string) (g : MemoryGraph) :
  removeEdges (k :: ids) g = removeEdges ids (_removeEdgeInternal k g).
Proof. reflexivity. Qed.

Lemma removeEdges_frame (ids : list string) (g : MemoryGraph) :
  nodes (removeEdges ids g) = nodes g ∧
  nodesByType (removeEdges ids g) = nodesByType g ∧
  contentIndex (removeEdges ids g) = contentIndex g ∧
  sessions (removeEdges ids g) = sessions g ∧
  activeSession (removeEdges ids g) = activeSession g.
Proof.
  revert g. induction ids as [|k ids IH]; intros g; [done|].
  rewrite removeEdges_cons.
  destruct (IH (_removeEdgeInternal k g)) as (-> & -> & -> & -> & ->).
  apply removeEdge_frame.
Qed.

Lemma removeEdges_edges (ids : list string) (g : MemoryGraph) (k : string)
    (e : MemoryEdge) :
  edges (removeEdges ids g) !! k = Some e ↔ edges g !! k = Some e ∧ k ∉ ids.
Proof.
  revert g. induction ids as [|k' ids IH]; intros g.
  - simpl. split; [|tauto]. intros H. split; [done|]. apply not_elem_of_nil.
  - rewrite removeEdges_cons, IH, removeEdge_edges, lookup_delete_Some.
    rewrite not_elem_of_cons. intuition congruence.
Qed.

Lemma removeEdges_outgoing_mem (ids : list string) (g : MemoryGraph)
    (k x : string) :
  (adj_mem (outgoing (removeEdges ids g)) k x → adj_mem (outgoing g) k x) ∧
  (x ∉ ids → adj_mem (outgoing g) k x →
   adj_mem (outgoing (removeEdges ids g)) k x).
Proof.
  revert g. induction ids as [|k' ids IH]; intros g; [done|].
  rewrite removeEdges_cons, not_elem_of_cons.
  destruct (IH (_removeEdgeInternal k' g)) as [IH1 IH2].
  destruct (removeEdge_outgoing_mem k' g k x) as [H1 H2].
  split; [tauto|]. intros [Hne Hnin] Hmem. auto.
Qed.

Lemma removeEdges_incoming_mem (ids : list string) (g : MemoryGraph)
    (k x : string) :
  (adj_mem (incoming (removeEdges ids g)) k x → adj_mem (incoming g) k x) ∧
  (x ∉ ids → adj_mem (incoming g) k x →
   adj_mem (incoming (removeEdges ids g)) k x).
Proof.
  revert g. induction ids as [|k' ids IH]; intros g; [done|].
  rewrite removeEdges_cons, not_elem_of_cons.
  destruct (IH (_removeEdgeInternal k' g)) as [IH1 IH2].
  destruct (removeEdge_incoming_mem k' g k x) as [H1 H2].
  split; [tauto|]. intros [Hne Hnin] Hmem. auto.
Qed.

Lemma removeEdges_adjacency_dom (ids : list string) (g : MemoryGraph)
    (k : string) :
  (is_Some (outgoing (removeEdges ids g) !! k) ↔ is_Some (outgoing g !! k)) ∧
  (is_Some (incoming (removeEdges ids g) !! k) ↔ is_Some (incoming g !! k)).
Proof.
  revert g. induction ids as [|k' ids IH]; intros g; [done|].
  rewrite removeEdges_cons.
  destruct (IH (_removeEdgeInternal k' g)) as [-> ->].
  apply removeEdge_adjacency_dom.
Qed.

Lemma adj_mem_default (m : gmap string (list string)) (k x : string) :
  adj_mem m k x ↔ x ∈ default [] (m !! k).
Proof.
  unfold adj_mem. destruct (m !! k) as [ids|]; simpl.
  - split; [|eauto]. by intros (? & [= <-] & ?).
  - split; [by intros (? & ? & ?)|]. intros H. by apply elem_of_nil in H.
Qed.

(** ** [removeNode] *)

Section RemoveNode.

Variables (now : Z) (nodeId : string) (g : MemoryGraph) (node : MemoryNode).
Hypothesis Hwf : graph_wf g.
Hypothesis Hnode : nodes g !! nodeId = Some node.

Let outEdges := default [] (outgoing g !! nodeId).
Let g1 := removeEdges outEdges g.
Let inEdges := default [] (incoming g1 !! nodeId).
Let g2 := removeEdges inEdges g1.

Lemma removeNode_unfold :
  removeNode now nodeId g =
  (true,
   {| nodes := delete nodeId (nodes g2);
      edges := edges g2;
      outgoing := delete nodeId (outgoing g2);
      incoming := delete nodeId (incoming g2);
      nodesByType := adj_delete (n_type node) nodeId (nodesByType g2);
      edgesByType := edgesByType g2;
      contentIndex :=
        delete (_hashContent (n_type node) (n_content node)) (contentIndex g2);
      sessions := session_removeNode nodeId <$> sessions g2;
      activeSession := activeSession g2;
      stats := {| totalNodes := totalNodes (stats g2) - 1;
                  totalEdges := totalEdges (stats g2);
                  st_createdAt := st_createdAt (stats g2);
                  lastModified := now |} |}).
Proof. unfold removeNode. rewrite Hnode. reflexivity. Qed.

Lemma removeNode_g2_frame :
  nodes g2 = nodes g ∧ nodesByType g2 = nodesByType g ∧
  contentIndex g2 = contentIndex g ∧ sessions g2 = sessions g.
Proof.
  unfold g2.
  destruct (removeEdges_frame inEdges g1) as (-> & -> & -> & -> & _).
  unfold g1.
  destruct (removeEdges_frame outEdges g) as (-> & -> & -> & -> & _).
  done.
Qed.

(** The edges that survive both loops are edges of [g] that do not touch
    the removed node. *)
Lemma removeNode_surviving_edge (k : string) (e : MemoryEdge) :
  edges g2 !! k = Some e →
  edges g !! k = Some e ∧ sourceId e ≠ nodeId ∧ targetId e ≠ nodeId.
Proof.
  intros H2. apply removeEdges_edges in H2 as [H1 Hin].
  apply removeEdges_edges in H1 as [H0 Hout].
  destruct (wf_edges_listed g Hwf k e H0) as [Hsrc Htgt].
  split; [done|]. split.
  - intros Heq. rewrite Heq in Hsrc. apply adj_mem_default in Hsrc. done.
  - intros Heq. rewrite Heq in Htgt.
    apply (removeEdges_incoming_mem outEdges g nodeId k) in Htgt; [|done].
    apply adj_mem_default in Htgt. done.
Qed.

End RemoveNode.

Lemma removeNode_absent (now : Z) (nodeId : string) (g : MemoryGraph) :
  nodes g !! nodeId = None → removeNode now nodeId g = (false, g).
Proof. intros H. unfold removeNode. by rewrite H. Qed.

(** C2.  In a graph whose indices are consistent, removing a live node [n]
    leaves no edge with source or target [n] (an edge marked bidirectional
    is such an edge whichever end [n] is), no session whose node set has [n],
    and no entry for [n] in the type index or the content index; removing
    [n] again returns false and changes nothing. *)
Theorem removeNode_clears_every_reference
    (g : MemoryGraph) (now : Z) (n : string) :
  graph_wf g →
  is_Some (nodes g !! n) →
  let r := removeNode now n g in
  r.1 = true ∧
  nodes r.2 !! n = None ∧
  outgoing r.2 !! n = None ∧
  incoming r.2 !! n = None ∧
  (∀ k e, edges r.2 !! k = Some e → sourceId e ≠ n ∧ targetId e ≠ n) ∧
  (∀ k s, sessions r.2 !! k = Some s → n ∉ nodeIds s) ∧
  (∀ t, ¬ adj_mem (nodesByType r.2) t n) ∧
  (∀ h, contentIndex r.2 !! h ≠ Some n) ∧
  (∀ now', removeNode now' n r.2 = (false, r.2)).
Proof.
  intros Hwf [node Hnode] r. subst r.
  rewrite (removeNode_unfold now n g node Hnode). simpl.
  destruct (removeNode_g2_frame n g) as (Hn & Ht & Hc & Hs).
  rewrite Ht, Hc, Hs.
  split; [done|]. rewrite !lookup_delete_eq. do 3 (split; [done|]).
  split.
  { intros k e He.
    by destruct (removeNode_surviving_edge n g Hwf k e He) as (_ & ? & ?). }
  split.
  { intros k s Hl. apply lookup_fmap_Some in Hl as (s0 & <- & _). simpl.
    rewrite elem_of_set_delete. tauto. }
  split.
  { intros t Hmem. apply adj_mem_adj_delete in Hmem as [Hmem Hno].
    destruct (wf_type_index g Hwf t n Hmem) as (n0 & Hl & Hty).
    rewrite Hnode in Hl. injection Hl as <-. tauto. }
  split.
  { intros h Hl. apply lookup_delete_Some in Hl as [Hne Hl].
    destruct (wf_content_index g Hwf h n Hl) as (n0 & Hl0 & Hh).
    rewrite Hnode in Hl0. injection Hl0 as <-. done. }
  intros now'. apply removeNode_absent. cbn [nodes]. apply lookup_delete_eq.
Qed.

(** ** The invariant holds in every reachable graph *)

Lemma graph_wf_new (now : Z) : graph_wf (MemoryGraph_new now).
Proof.
  split; simpl.
  - intros k [? H]. by rewrite lookup_empty in H.
  - intros k e H. by rewrite lookup_empty in H.
  - intros k e H. by rewrite lookup_empty in H.
  - intros t k (ids & H & _). by rewrite lookup_empty in H.
  - intros h k H. by rewrite lookup_empty in H.
Qed.

(** Operations that keep the edges, the adjacency and the type index, and
    keep every node alive under its type. *)
Lemma graph_wf_transfer (g g' : MemoryGraph) :
  graph_wf g →
  edges g' = edges g → outgoing g' = outgoing g → incoming g' = incoming g →
  nodesByType g' = nodesByType g →
  (∀ k, is_Some (nodes g' !! k) → is_Some (nodes g !! k)) →
  (∀ k n, nodes g !! k = Some n →
          ∃ n', nodes g' !! k = Some n' ∧ n_type n' = n_type n) →
  (∀ h k, contentIndex g' !! h = Some k →
          ∃ n, nodes g' !! k = Some n ∧
               _hashContent (n_type n) (n_content n) = h) →
  graph_wf g'.
Proof.
  intros Hwf He Ho Hi Ht Hback Hfwd Hci.
  assert (Hlive : ∀ k, is_Some (nodes g !! k) → is_Some (nodes g' !! k)).
  { intros k [n Hn]. destruct (Hfwd k n Hn) as (n' & -> & _). eauto. }
  split.
  - intros k Hk. rewrite Ho, Hi. apply (wf_adjacency g Hwf), Hback, Hk.
  - intros k e Hk. rewrite He in Hk.
    destruct (wf_endpoints g Hwf k e Hk). split; by apply Hlive.
  - intros k e Hk. rewrite He in Hk. rewrite Ho, Hi.
    by apply (wf_edges_listed g Hwf).
  - intros t k Hmem. rewrite Ht in Hmem.
    destruct (wf_type_index g Hwf t k Hmem) as (n & Hn & <-).
    destruct (Hfwd k n Hn) as (n' & Hn' & Hty). eauto.
  - done.
Qed.

Lemma graph_wf_removeNode (now : Z) (nodeId : string) (g : MemoryGraph) :
  graph_wf g → graph_wf (removeNode now nodeId g).2.
Proof.
  intros Hwf. destruct (nodes g !! nodeId) as [node|] eqn:Hnode.
  2:{ unfold removeNode. by rewrite Hnode. }
  rewrite (removeNode_unfold now nodeId g node Hnode). simpl.
  destruct (removeNode_g2_frame nodeId g) as (Hn & Ht & Hc & Hs).
  set (outEdges := default [] (outgoing g !! nodeId)) in *.
  set (g1 := removeEdges outEdges g) in *.
  set (inEdges := default [] (incoming g1 !! nodeId)) in *.
  set (g2 := removeEdges inEdges g1) in *.
  split; simpl.
  - intros k Hk. rewrite Hn in Hk.
    apply lookup_delete_is_Some in Hk as [Hne Hk].
    rewrite !lookup_delete_ne by done. unfold g2.
    destruct (removeEdges_adjacency_dom inEdges g1 k) as [-> ->]. unfold g1.
    destruct (removeEdges_adjacency_dom outEdges g k) as [-> ->].
    by apply (wf_adjacency g Hwf).
  - intros k e He.
    destruct (removeNode_surviving_edge nodeId g Hwf k e He) as (He0 & Hs0 & Ht0).
    destruct (wf_endpoints g Hwf k e He0).
    rewrite Hn, !lookup_delete_is_Some. done.
  - intros k e He.
    destruct (removeNode_surviving_edge nodeId g Hwf k e He) as (He0 & Hs0 & Ht0).
    apply removeEdges_edges in He as [He1 Hin].
    apply removeEdges_edges in He1 as [_ Hout].
    destruct (wf_edges_listed g Hwf k e He0) as [Hsrc Htgt].
    rewrite !adj_mem_delete. split; (split; [done|]).
    + by apply removeEdges_outgoing_mem, removeEdges_outgoing_mem.
    + by apply removeEdges_incoming_mem, removeEdges_incoming_mem.
  - intros t k Hmem. rewrite Ht in Hmem.
    apply adj_mem_adj_delete in Hmem as [Hmem Hno].
    destruct (wf_type_index g Hwf t k Hmem) as (n0 & Hl & Hty).
    exists n0. split; [|done]. rewrite Hn. apply lookup_delete_Some.
    split; [|done]. intros <-. rewrite Hnode in Hl. injection Hl as <-. tauto.
  - intros h k Hl. rewrite Hc in Hl. apply lookup_delete_Some in Hl as [Hne Hl].
    destruct (wf_content_index g Hwf h k Hl) as (n0 & Hl0 & Hh).
    exists n0. split; [|done]. rewrite Hn. apply lookup_delete_Some.
    split; [|done]. intros <-. rewrite Hnode in Hl0. injection Hl0 as <-. done.
Qed.

Lemma merge_existing_shape (now : Z) (m : Metadata) (n : MemoryNode) :
  n_type (merge_existing now m n) = n_type n ∧
  n_content (merge_existing now m n) = n_content n.
Proof.
  unfold merge_existing. destruct (md_importance m) as [v|]; simpl;
    [destruct (JS.truthyQ v && JS.Qltb (importance n) v)|]; done.
Qed.

Lemma graph_wf_addNode (now : Z) (fresh type content : string)
    (metadata : Metadata) (g : MemoryGraph) :
  graph_wf g → nodes g !! fresh = None →
  graph_wf (addNode now fresh type content metadata g).2.
Proof.
  intros Hwf Hfresh.
  destruct (contentIndex g !! _hashContent type content ≫= λ existingId,
              nodes g !! existingId ≫= λ existingNode,
                Some (existingId, existingNode)) as [[k n]|] eqn:Hex.
  - apply bind_Some in Hex as (k' & Hidx & Hex).
    apply bind_Some in Hex as (n' & Hnode & [= -> ->]).
    rewrite (addNode_existing now fresh type content metadata g k n Hidx Hnode).
    simpl. destruct (merge_existing_shape now metadata n) as [Hty Hco].
    apply (graph_wf_transfer g); simpl; try done.
    + intros k0. rewrite lookup_insert_is_Some. intros [<-|[_ ?]]; eauto.
    + intros k0 n0 Hn0. destruct (decide (k = k0)) as [<-|Hne].
      * rewrite lookup_insert_eq. rewrite Hnode in Hn0. injection Hn0 as <-.
        eauto.
      * rewrite lookup_insert_ne by done. eauto.
    + intros h k0 Hl. destruct (wf_content_index g Hwf h k0 Hl) as (n0 & Hn0 & Hh).
      destruct (decide (k = k0)) as [<-|Hne].
      * rewrite lookup_insert_eq. rewrite Hnode in Hn0. injection Hn0 as <-.
        eexists. split; [done|]. by rewrite Hty, Hco.
      * rewrite lookup_insert_ne by done. eauto.
  - unfold addNode. rewrite Hex. simpl.
    assert (Hnosrc : ∀ k e, edges g !! k = Some e →
                            sourceId e ≠ fresh ∧ targetId e ≠ fresh).
    { intros k e He. destruct (wf_endpoints g Hwf k e He) as [[? Hs] [? Ht]].
      split; intros Heq; rewrite Heq in *; congruence. }
    split; simpl.
    + intros k. rewrite !lookup_insert_is_Some.
      intros [<-|[Hne Hk]]; [split; by left|].
      destruct (wf_adjacency g Hwf k Hk). split; right; done.
    + intros k e He. destruct (wf_endpoints g Hwf k e He).
      rewrite !lookup_insert_is_Some.
      destruct (Hnosrc k e He). split; right; done.
    + intros k e He. destruct (wf_edges_listed g Hwf k e He).
      destruct (Hnosrc k e He). rewrite !adj_mem_insert_nil. done.
    + intros t k Hmem. apply adj_mem_index_add in Hmem as [Hmem|[<- ->]].
      * destruct (wf_type_index g Hwf t k Hmem) as (n & Hn & Hty).
        exists n. split; [|done]. rewrite lookup_insert_ne; [done|].
        intros <-. congruence.
      * rewrite lookup_insert_eq. eauto.
    + intros h k Hl. apply lookup_insert_Some in Hl as [[<- <-]|[Hne Hl]].
      * rewrite lookup_insert_eq. eauto.
      * destruct (wf_content_index g Hwf h k Hl) as (n & Hn & Hh).
        exists n. split; [|done]. rewrite lookup_insert_ne; [done|].
        intros <-. congruence.
Qed.

Lemma graph_wf_updateNode (now : Z) (nodeId : string) (updates : NodeUpdates)
    (g g' : MemoryGraph) :
  graph_wf g → updateNode now nodeId updates g = Some g' → graph_wf g'.
Proof.
  intros Hwf. unfold updateNode.
  destruct (nodes g !! nodeId) as [node|] eqn:Hnode; [|done].
  set (f2 := λ x, match u_importance updates with
                  | Some v => set_importance v x | None => x end).
  set (f3 := λ x, match u_confidence updates with
                  | Some v => set_confidence v x | None => x end).
  assert (Hf : ∀ x, n_type (f3 (f2 x)) = n_type x ∧
                    n_content (f3 (f2 x)) = n_content x).
  { intros x. unfold f2, f3.
    destruct (u_importance updates), (u_confidence updates); done. }
  destruct (u_content updates) as [c|]; intros [= <-].
  - destruct (Hf (updateContent now c node)) as [Hty Hco]. simpl in Hty, Hco.
    apply (graph_wf_transfer g); simpl; try done.
    + intros k. rewrite lookup_insert_is_Some. intros [<-|[_ ?]]; eauto.
    + intros k n Hn. destruct (decide (nodeId = k)) as [<-|Hne].
      * rewrite lookup_insert_eq. rewrite Hnode in Hn. injection Hn as <-.
        eexists. split; [done|]. exact Hty.
      * rewrite lookup_insert_ne by done. eauto.
    + intros h k Hl. apply lookup_insert_Some in Hl as [[<- <-]|[Hne Hl]].
      * rewrite lookup_insert_eq. eexists. split; [done|].
        fold (f2 (updateContent now c node)).
        fold (f3 (f2 (updateContent now c node))). by rewrite Hty, Hco.
      * apply lookup_delete_Some in Hl as [Hne' Hl].
        destruct (wf_content_index g Hwf h k Hl) as (n & Hn & Hh).
        exists n. split; [|done]. rewrite lookup_insert_ne; [done|].
        intros <-. rewrite Hnode in Hn. injection Hn as <-. done.
  - destruct (Hf node) as [Hty Hco].
    apply (graph_wf_transfer g); simpl; try done.
    + intros k. rewrite lookup_insert_is_Some. intros [<-|[_ ?]]; eauto.
    + intros k n Hn. destruct (decide (nodeId = k)) as [<-|Hne].
      * rewrite lookup_insert_eq. rewrite Hnode in Hn. injection Hn as <-.
        eexists. split; [done|]. exact Hty.
      * rewrite lookup_insert_ne by done. eauto.
    + intros h k Hl. destruct (wf_content_index g Hwf h k Hl) as (n & Hn & Hh).
      destruct (decide (nodeId = k)) as [<-|Hne].
      * rewrite lookup_insert_eq. rewrite Hnode in Hn. injection Hn as <-.
        eexists. split; [done|].
        fold (f2 node). fold (f3 (f2 node)). by rewrite Hty, Hco.
      * rewrite lookup_insert_ne by done. eauto.
Qed.

Lemma adj_mem_adj_add_mono (m : gmap string (list string)) (k y k' x : string) :
  adj_mem m k' x → adj_mem (adj_add k y m) k' x.
Proof. intros H. apply adj_mem_adj_add. by left. Qed.

Lemma adj_mem_adj_add_new (m : gmap string (list string)) (k y : string) :
  is_Some (m !! k) → adj_mem (adj_add k y m) k y.
Proof. intros H. apply adj_mem_adj_add. by right. Qed.

Lemma graph_wf_addEdge (now : Z) (fresh src tgt type : string)
    (metadata : EdgeOptions) (g : MemoryGraph) :
  graph_wf g → graph_wf (addEdge now fresh src tgt type metadata g).2.
Proof.
  intros Hwf. unfold addEdge.
  destruct (nodes g !! src) as [ns|] eqn:Hsrc; [|done].
  destruct (nodes g !! tgt) as [nt|] eqn:Htgt; [|done].
  destruct (findEdge src tgt type g) as [k|]; simpl.
  - assert (Hsame : ∀ k' e', alter (reinforce now) k (edges g) !! k' = Some e' →
                      ∃ e, edges g !! k' = Some e ∧
                           sourceId e' = sourceId e ∧ targetId e' = targetId e).
    { intros k' e' H. apply lookup_alter_Some in H as [(<- & e & He & ->)|[_ He]];
        eauto. }
    split; simpl.
    + apply (wf_adjacency g Hwf).
    + intros k' e' H. destruct (Hsame k' e' H) as (e & He & -> & ->).
      by apply (wf_endpoints g Hwf k').
    + intros k' e' H. destruct (Hsame k' e' H) as (e & He & -> & ->).
      by apply (wf_edges_listed g Hwf).
    + apply (wf_type_index g Hwf).
    + apply (wf_content_index g Hwf).
  - destruct (wf_adjacency g Hwf src) as [Hos His]; [eauto|].
    destruct (wf_adjacency g Hwf tgt) as [Hot Hit]; [eauto|].
    set (b := default false (eo_bidirectional metadata)).
    split; simpl.
    + intros k Hk. destruct (wf_adjacency g Hwf k Hk) as [Ho Hi].
      unfold adj_add. destruct b; rewrite !is_Some_alter; done.
    + intros k e He. apply lookup_insert_Some in He as [[<- <-]|[_ He]]; simpl.
      * rewrite Hsrc, Htgt. eauto.
      * by apply (wf_endpoints g Hwf k).
    + intros k e He. apply lookup_insert_Some in He as [[<- <-]|[_ He]]; simpl.
      * destruct b; split;
          repeat first [ by apply adj_mem_adj_add_new
                       | apply adj_mem_adj_add_mono ].
      * destruct (wf_edges_listed g Hwf k e He).
        destruct b; split; repeat apply adj_mem_adj_add_mono; done.
    + apply (wf_type_index g Hwf).
    + apply (wf_content_index g Hwf).
Qed.

Lemma graph_wf_endSession (now : Z) (g : MemoryGraph) :
  graph_wf g → graph_wf (endSession now g).
Proof.
  intros Hwf. unfold endSession. destruct (activeSession g); [|done].
  apply (graph_wf_transfer g); simpl; try done; [eauto|].
  apply (wf_content_index g Hwf).
Qed.

Lemma graph_wf_startSession (now : Z) (fresh : string)
    (metadata : SessionOptions) (g : MemoryGraph) :
  graph_wf g → graph_wf (startSession now fresh metadata g).2.
Proof.
  intros Hwf. apply (graph_wf_endSession now) in Hwf.
  apply (graph_wf_transfer (endSession now g)); simpl; try done; [eauto|].
  apply (wf_content_index _ Hwf).
Qed.

Lemma graph_wf_applyDecay (decayAmount : Q) (g : MemoryGraph) :
  graph_wf g → graph_wf (applyDecay decayAmount g).
Proof.
  intros Hwf. apply (graph_wf_transfer g); simpl; try done.
  - intros k. by rewrite lookup_fmap, fmap_is_Some.
  - intros k n Hn. rewrite lookup_fmap, Hn. simpl. eauto.
  - intros h k Hl. destruct (wf_content_index g Hwf h k Hl) as (n & Hn & Hh).
    rewrite lookup_fmap, Hn. simpl. eauto.
Qed.

Lemma graph_wf_removeNodes (now : Z) (ids : list string) (g : MemoryGraph) :
  graph_wf g →
  graph_wf (foldl (λ acc nodeId, (removeNode now nodeId acc).2) g ids).
Proof.
  revert g. induction ids as [|k ids IH]; intros g Hwf; [done|].
  simpl. by apply IH, graph_wf_removeNode.
Qed.

Lemma graph_wf_apply_op (op : GraphOp) (g : MemoryGraph) :
  graph_wf g → op_fresh op g → graph_wf (apply_op op g).
Proof.
  intros Hwf Hfresh. destruct op; simpl in *.
  - by apply graph_wf_addNode.
  - destruct (updateNode now nodeId updates g) as [g'|] eqn:Hu; simpl; [|done].
    by apply (graph_wf_updateNode now nodeId updates g).
  - by apply graph_wf_removeNode.
  - by apply graph_wf_addEdge.
  - by apply graph_wf_startSession.
  - by apply graph_wf_endSession.
  - by apply graph_wf_applyDecay.
  - by apply graph_wf_removeNodes.
Qed.

(** Every graph built by the mutation operations has consistent indices. *)
Lemma reachable_wf (g : MemoryGraph) : reachable g → graph_wf g.
Proof.
  induction 1 as [now|g op _ IH Hfresh].
  - apply graph_wf_new.
  - by apply graph_wf_apply_op.
Qed.

Lemma reachable_run (ops : list GraphOp) (g : MemoryGraph) :
  reachable g → ops_fresh ops g → reachable (run_ops ops g).
Proof.
  revert g. induction ops as [|op ops IH]; intros g Hg Hfresh; [done|].
  destruct Hfresh as [Hop Hrest]. apply IH; [|done]. by apply reachable_step.
Qed.

Lemma demo_graph_reachable : reachable demo_graph.
Proof.
  apply reachable_run; [apply reachable_new|].
  vm_compute. repeat split.
Qed.

Lemma addNode_same_content_touches_witness :
  let r1 := addNode 1001 "node_a" "topic" "alpha" no_metadata
                    (MemoryGraph_new 1000) in
  let r2 := addNode 1002 "node_b" "topic" "alpha" (with_importance (9 # 10))
                    r1.2 in
  r2.1 = "node_a" ∧
  ∃ n', nodes r2.2 !! "node_a" = Some n' ∧
        accessCount (n_metadata n') = 1%Z ∧
        (importance n' == 9 # 10)%Q.
Proof.
  intros r1 r2.
  destruct (addNode_same_content_touches
              (MemoryGraph_new 1000) "topic" "alpha" no_metadata
              (with_importance (9 # 10)) 1001 1002 "node_a" "node_b"
              (MemoryNode_new 1001 "node_a" "topic" "alpha" no_metadata))
    as (Hkey & _ & _ & n' & Hn' & _ & _ & _ & Hacc & _ & Himp).
  - vm_compute. reflexivity.
  - vm_compute. discriminate.
  - split; [exact Hkey|]. exists n'. split; [exact Hn'|].
    split; [exact Hacc|]. rewrite Himp. vm_compute. reflexivity.
Defined.

Lemma removeNode_clears_every_reference_witness :
  let r := removeNode 2000 "node_py" demo_graph in
  r.1 = true ∧
  (∀ k e, edges r.2 !! k = Some e →
          sourceId e ≠ "node_py" ∧ targetId e ≠ "node_py") ∧
  (∀ k s, sessions r.2 !! k = Some s → "node_py" ∉ nodeIds s).
Proof.
  intros r.
  destruct (removeNode_clears_every_reference demo_graph 2000 "node_py")
    as (Hret & _ & _ & _ & Hedges & Hsessions & _).
  - apply reachable_wf, demo_graph_reachable.
  - vm_compute. eexists. reflexivity.
  - split; [exact Hret|]. split; [exact Hedges|exact Hsessions].
Defined.

(** ** Objects are stored under their own ids *)

Lemma keyed_new (now : Z) : keyed_by_id (MemoryGraph_new now).
Proof.
  repeat split; intros k x H; simpl in H; by rewrite lookup_empty in H.
Qed.

Lemma keyed_addNode (now : Z) (fresh type content : string)
    (metadata : Metadata) (g : MemoryGraph) :
  keyed_by_id g → keyed_by_id (addNode now fresh type content metadata g).2.
Proof.
  intros (Hn & He & Hs).
  destruct (contentIndex g !! _hashContent type content ≫= λ existingId,
              nodes g !! existingId ≫= λ existingNode,
                Some (existingId, existingNode)) as [[k n]|] eqn:Hex.
  - apply bind_Some in Hex as (k' & Hidx & Hex).
    apply bind_Some in Hex as (n' & Hnode & [= -> ->]).
    rewrite (addNode_existing now fresh type content metadata g k n Hidx Hnode).
    split; [|by split]. cbn [snd nodes]. intros k0 n0 Hk.
    apply lookup_insert_Some in Hk as [[<- <-]|[_ Hk]]; [|by apply Hn].
    assert (Hid : n_id (merge_existing now metadata n) = n_id n).
    { unfold merge_existing. destruct (md_importance metadata) as [v|]; simpl;
        [destruct (JS.truthyQ v && JS.Qltb (importance n) v)|]; done. }
    rewrite Hid. by apply Hn.
  - unfold addNode. rewrite Hex. cbn [snd]. split; [|split]; cbn [nodes edges sessions].
    + intros k n Hk. apply lookup_insert_Some in Hk as [[<- <-]|[_ Hk]];
        [done|by apply Hn].
    + exact He.
    + intros k s Hk. destruct (activeSession g) as [a|]; [|by apply Hs].
      apply lookup_alter_Some in Hk as [(<- & s0 & Hs0 & ->)|[_ Hk]];
        [|by apply Hs].
      simpl. by apply Hs.
Qed.

Lemma keyed_updateNode (now : Z) (nodeId : string) (updates : NodeUpdates)
    (g g' : MemoryGraph) :
  keyed_by_id g → updateNode now nodeId updates g = Some g' → keyed_by_id g'.
Proof.
  intros (Hn & He & Hs). unfold updateNode.
  destruct (nodes g !! nodeId) as [node|] eqn:Hnode; [|done].
  assert (Hid : ∀ x : MemoryNode,
            n_id (match u_confidence updates with
                  | Some v => set_confidence v
                                (match u_importance updates with
                                 | Some w => set_importance w x | None => x end)
                  | None => match u_importance updates with
                            | Some w => set_importance w x | None => x end
                  end) = n_id x).
  { intros x. destruct (u_importance updates), (u_confidence updates); done. }
  destruct (u_content updates) as [c|]; intros [= <-];
    (split; [|by split]); cbn [nodes]; intros k n Hk;
    (apply lookup_insert_Some in Hk as [[<- <-]|[_ Hk]]; [|by apply Hn]);
    rewrite Hid; simpl; by apply Hn.
Qed.

Lemma keyed_removeNode (now : Z) (nodeId : string) (g : MemoryGraph) :
  keyed_by_id g → keyed_by_id (removeNode now nodeId g).2.
Proof.
  intros (Hn & He & Hs). destruct (nodes g !! nodeId) as [node|] eqn:Hnode.
  2:{ unfold removeNode. by rewrite Hnode. }
  rewrite (removeNode_unfold now nodeId g node Hnode). cbn [snd].
  destruct (removeNode_g2_frame nodeId g) as (Hn2 & _ & _ & Hs2).
  split; [|split]; cbn [nodes edges sessions].
  - intros k n Hk. rewrite Hn2 in Hk.
    apply lookup_delete_Some in Hk as [_ Hk]. by apply Hn.
  - intros k e Hk. apply removeEdges_edges in Hk as [Hk _].
    apply removeEdges_edges in Hk as [Hk _]. by apply He.
  - intros k s Hk. rewrite Hs2 in Hk.
    apply lookup_fmap_Some in Hk as (s0 & <- & Hk). simpl. by apply Hs.
Qed.

Lemma keyed_removeNodes (now : Z) (ids : list string) (g : MemoryGraph) :
  keyed_by_id g →
  keyed_by_id (foldl (λ acc nodeId, (removeNode now nodeId acc).2) g ids).
Proof.
  revert g. induction ids as [|k ids IH]; intros g Hk; [done|].
  simpl. by apply IH, keyed_removeNode.
Qed.

Lemma keyed_endSession (now : Z) (g : MemoryGraph) :
  keyed_by_id g → keyed_by_id (endSession now g).
Proof.
  intros (Hn & He & Hs). unfold endSession.
  destruct (activeSession g) as [a|]; [|done].
  split; [done|]. split; [done|]. cbn [sessions]. intros k s Hk.
  apply lookup_alter_Some in Hk as [(<- & s0 & Hs0 & ->)|[_ Hk]];
    [|by apply Hs].
  simpl. by apply Hs.
Qed.

Lemma keyed_apply_op (op : GraphOp) (g : MemoryGraph) :
  keyed_by_id g → keyed_by_id (apply_op op g).
Proof.
  intros Hk. destruct op; simpl.
  - by apply keyed_addNode.
  - destruct (updateNode now nodeId updates g) as [g'|] eqn:Hu; simpl; [|done].
    by apply (keyed_updateNode now nodeId updates g).
  - by apply keyed_removeNode.
  - destruct Hk as (Hn & He & Hs). unfold addEdge.
    destruct (nodes g !! src); [|done]. destruct (nodes g !! tgt); [|done].
    destruct (findEdge src tgt type g) as [k|]; cbn [snd];
      (split; [done|]); (split; [|done]); cbn [edges]; intros k0 e Hk0.
    + apply lookup_alter_Some in Hk0 as [(<- & e0 & He0 & ->)|[_ Hk0]];
        [|by apply He].
      simpl. by apply He.
    + apply lookup_insert_Some in Hk0 as [[<- <-]|[_ Hk0]];
        [done|by apply He].
  - apply (keyed_endSession now) in Hk. destruct Hk as (Hn & He & Hs).
    split; [done|]. split; [done|]. cbn [snd startSession sessions].
    intros k s Hk. apply lookup_insert_Some in Hk as [[<- <-]|[_ Hk]];
      [done|by apply Hs].
  - by apply keyed_endSession.
  - destruct Hk as (Hn & He & Hs). split; [|by split]. cbn [applyDecay nodes].
    intros k n Hk. apply lookup_fmap_Some in Hk as (n0 & <- & Hk).
    simpl. by apply Hn.
  - by apply keyed_removeNodes.
Qed.

Lemma reachable_keyed (g : MemoryGraph) : reachable g → keyed_by_id g.
Proof.
  induction 1 as [now|g op _ IH _]; [apply keyed_new|by apply keyed_apply_op].
Qed.

(** ** Serialization *)

(** A fold of insertions over the entries of a map rebuilds the map, with
    [f] applied to the values. *)
Lemma foldl_insert_lookup {A B} (f : A → B) (l : list (string * A))
    (acc : gmap string B) (k : string) :
  NoDup l.*1 →
  foldl (λ m kv, <[kv.1 := f kv.2]> m) acc l !! k =
  match (list_to_map l : gmap string A) !! k with
  | Some a => Some (f a)
  | None => acc !! k
  end.
Proof.
  revert acc. induction l as [|[k0 a0] l IH]; intros acc Hnd.
  - change ((list_to_map [] : gmap string A) !! k) with ((∅ : gmap string A) !! k).
    by rewrite (lookup_empty (M:=gmap string)).
  - rewrite fmap_cons in Hnd. apply NoDup_cons in Hnd as [Hk0 Hnd].
    cbn [foldl fst snd]. rewrite (IH _ Hnd), list_to_map_cons.
    destruct (decide (k0 = k)) as [<-|Hne].
    + by rewrite (not_elem_of_list_to_map_1 _ _ Hk0), !lookup_insert_eq.
    + by rewrite !lookup_insert_ne.
Qed.

Lemma foldl_insert_map_to_list {A B} (f : A → B) (m : gmap string A) :
  foldl (λ acc kv, <[kv.1 := f kv.2]> acc) ∅ (map_to_list m) = f <$> m.
Proof.
  apply map_eq. intros k.
  rewrite foldl_insert_lookup by apply NoDup_fst_map_to_list.
  rewrite list_to_map_to_list, lookup_fmap, lookup_empty.
  by destruct (m !! k).
Qed.

(** The same fold over the values alone, when each value knows its key. *)
Lemma foldl_insert_values {A B} (key : A → string) (f : A → B)
    (l : list (string * A)) (acc : gmap string B) :
  (∀ k a, (k, a) ∈ l → key a = k) →
  foldl (λ m a, <[key a := f a]> m) acc l.*2 =
  foldl (λ m kv, <[kv.1 := f kv.2]> m) acc l.
Proof.
  revert acc. induction l as [|[k0 a0] l IH]; intros acc Hkey; [done|].
  rewrite fmap_cons. cbn [foldl fst snd].
  rewrite (Hkey k0 a0) by apply list_elem_of_here.
  apply IH. intros k a Hin. apply Hkey. by apply list_elem_of_further.
Qed.

Lemma restore_values {A B} (key : A → string) (f : A → B) (m : gmap string A) :
  (∀ k a, m !! k = Some a → key a = k) →
  foldl (λ acc a, <[key a := f a]> acc) ∅ (map_to_list m).*2 = f <$> m.
Proof.
  intros Hkey. rewrite (foldl_insert_values key f).
  - apply foldl_insert_map_to_list.
  - intros k a Hin. by apply Hkey, elem_of_map_to_list.
Qed.

Section RoundTrip.

Variable now : Z.

Lemma restoreNode_maps (l : list MemoryNode) (g : MemoryGraph) :
  nodes (foldl (restoreNode now) g l) =
    foldl (λ m d, <[n_id d := MemoryNode_fromJSON now d]> m) (nodes g) l ∧
  edges (foldl (restoreNode now) g l) = edges g ∧
  sessions (foldl (restoreNode now) g l) = sessions g.
Proof.
  revert g. induction l as [|d l IH]; intros g; [done|].
  cbn [foldl]. destruct (IH (restoreNode now g d)) as (-> & -> & ->). done.
Qed.

Lemma restoreEdge_maps (l : list MemoryEdge) (g : MemoryGraph) :
  nodes (foldl (restoreEdge now) g l) = nodes g ∧
  edges (foldl (restoreEdge now) g l) =
    foldl (λ m d, <[e_id d := MemoryEdge_fromJSON now d]> m) (edges g) l ∧
  sessions (foldl (restoreEdge now) g l) = sessions g.
Proof.
  revert g. induction l as [|d l IH]; intros g; [done|].
  cbn [foldl]. destruct (IH (restoreEdge now g d)) as (-> & -> & ->). done.
Qed.

Lemma restoreSession_maps (l : list WorkSession) (g : MemoryGraph) :
  nodes (foldl (restoreSession now) g l) = nodes g ∧
  edges (foldl (restoreSession now) g l) = edges g ∧
  sessions (foldl (restoreSession now) g l) =
    foldl (λ m d, <[s_id d := WorkSession_fromJSON now d]> m) (sessions g) l.
Proof.
  revert g. induction l as [|d l IH]; intros g; [done|].
  cbn [foldl]. destruct (IH (restoreSession now g d)) as (-> & -> & ->). done.
Qed.

(** What the round trip does reproduce: the same keys, each node, edge and
    session rebuilt from its own JSON form. *)
Lemma fromJSON_toJSON_maps (g : MemoryGraph) :
  keyed_by_id g →
  nodes (fromJSON now (toJSON g)) = MemoryNode_fromJSON now <$> nodes g ∧
  edges (fromJSON now (toJSON g)) = MemoryEdge_fromJSON now <$> edges g ∧
  sessions (fromJSON now (toJSON g)) = WorkSession_fromJSON now <$> sessions g.
Proof.
  intros (Hn & He & Hs). unfold fromJSON, toJSON.
  cbn [j_nodes j_edges j_sessions nodes edges sessions].
  unfold MemoryNode_toJSON, MemoryEdge_toJSON, WorkSession_toJSON.
  rewrite !list_fmap_id.
  destruct (restoreSession_maps (map_to_list (sessions g)).*2
              (foldl (restoreEdge now)
                 (foldl (restoreNode now) (MemoryGraph_new now)
                    (map_to_list (nodes g)).*2)
                 (map_to_list (edges g)).*2)) as (-> & -> & ->).
  destruct (restoreEdge_maps (map_to_list (edges g)).*2
              (foldl (restoreNode now) (MemoryGraph_new now)
                 (map_to_list (nodes g)).*2)) as (-> & -> & ->).
  destruct (restoreNode_maps (map_to_list (nodes g)).*2 (MemoryGraph_new now))
    as (-> & -> & ->).
  cbn [nodes edges sessions MemoryGraph_new].
  rewrite (restore_values n_id), (restore_values e_id), (restore_values s_id);
    done.
Qed.

End RoundTrip.

(** In a reachable graph the round trip keeps every node but for the four
    metadata keys its constructor writes. *)
Lemma reachable_round_trip_nodes (now : Z) (g : MemoryGraph) (k : string)
    (n : MemoryNode) :
  reachable g → nodes g !! k = Some n →
  ∃ n', nodes (fromJSON now (toJSON g)) !! k = Some n' ∧
        n_id n' = n_id n ∧ n_type n' = n_type n ∧ n_content n' = n_content n ∧
        importance n' = importance n ∧ confidence n' = confidence n ∧
        decay n' = decay n ∧ n_source n' = n_source n ∧
        n_platform n' = n_platform n ∧ n_sessionId n' = n_sessionId n ∧
        nm_given (n_metadata n') = nm_given (n_metadata n) ∧
        n_metadata n' =
          {| nm_given := nm_given (n_metadata n); createdAt := now;
             updatedAt := now; accessCount := 0; lastAccessedAt := None |}.
Proof.
  intros Hr Hk. apply reachable_keyed in Hr.
  destruct (fromJSON_toJSON_maps now g Hr) as (Hn & _ & _).
  exists (MemoryNode_fromJSON now n). rewrite Hn, lookup_fmap, Hk. done.
Qed.


(** C3.  [fromJSON(toJSON(G))] does not reproduce the nodes of [G]: the node
    constructor that [MemoryNode.fromJSON] runs writes [createdAt],
    [updatedAt], [accessCount] and [lastAccessedAt] after the spread of the
    stored metadata, and nothing restores them.  For every node the four
    keys come back as the time of the load, zero and null; in the scenario
    the node python, touched once at 1006, comes back untouched and created
    at 5000.  Edge metadata is reset in the same way. *)
Theorem fromJSON_resets_node_metadata :
  (∀ now json,
     n_metadata (MemoryNode_fromJSON now (MemoryNode_toJSON json)) =
     {| nm_given := nm_given (n_metadata json); createdAt := now;
        updatedAt := now; accessCount := 0; lastAccessedAt := None |}) ∧
  (∀ now json,
     e_metadata (MemoryEdge_fromJSON now (MemoryEdge_toJSON json)) =
     {| em_given := em_given (e_metadata json); e_createdAt := now;
        e_updatedAt := now |}) ∧
  let g := fromJSON 5000 (toJSON demo_graph) in
  (n_metadata <$> nodes demo_graph !! "node_py") =
    Some {| nm_given := with_sessionId no_metadata (Some "session_1");
            createdAt := 1001; updatedAt := 1006; accessCount := 1;
            lastAccessedAt := Some 1006%Z |} ∧
  (n_metadata <$> nodes g !! "node_py") =
    Some {| nm_given := with_sessionId no_metadata (Some "session_1");
            createdAt := 5000; updatedAt := 5000; accessCount := 0;
            lastAccessedAt := None |} ∧
  nodes g ≠ nodes demo_graph.
Proof.
  split; [done|]. split; [done|].
  split; [vm_compute; reflexivity|]. split; [vm_compute; reflexivity|].
  intros Heq.
  assert (H : (accessCount <$> (n_metadata <$>
                 nodes (fromJSON 5000 (toJSON demo_graph)) !! "node_py")) =
              (accessCount <$> (n_metadata <$> nodes demo_graph !! "node_py")))
    by (by rewrite Heq).
  vm_compute in H. discriminate.
Qed.

(** ** Uniqueness by content *)

Lemma complete_index_unique (g : MemoryGraph) :
  index_complete g → unique_by_content g.
Proof.
  intros Hc k1 k2 n1 n2 H1 H2 _ Hhash.
  apply Hc in H1. apply Hc in H2. rewrite Hhash in H1. congruence.
Qed.

Lemma index_complete_new (now : Z) : index_complete (MemoryGraph_new now).
Proof. intros k n H. simpl in H. by rewrite lookup_empty in H. Qed.

(** Operations that keep the content index and the type and content of
    every node. *)
Lemma index_complete_transfer (g g' : MemoryGraph) :
  index_complete g →
  contentIndex g' = contentIndex g →
  (∀ k n', nodes g' !! k = Some n' →
           ∃ n, nodes g !! k = Some n ∧ n_type n' = n_type n ∧
                n_content n' = n_content n) →
  index_complete g'.
Proof.
  intros Hc Hci Hn k n' Hk. rewrite Hci.
  destruct (Hn k n' Hk) as (n & Hn0 & -> & ->). by apply Hc.
Qed.

Lemma index_complete_addNode (now : Z) (fresh type content : string)
    (metadata : Metadata) (g : MemoryGraph) :
  graph_wf g → index_complete g → nodes g !! fresh = None →
  index_complete (addNode now fresh type content metadata g).2.
Proof.
  intros Hwf Hc Hfresh.
  destruct (contentIndex g !! _hashContent type content ≫= λ existingId,
              nodes g !! existingId ≫= λ existingNode,
                Some (existingId, existingNode)) as [[k n]|] eqn:Hex.
  - apply bind_Some in Hex as (k' & Hidx & Hex).
    apply bind_Some in Hex as (n' & Hnode & [= -> ->]).
    rewrite (addNode_existing now fresh type content metadata g k n Hidx Hnode).
    simpl. destruct (merge_existing_shape now metadata n) as [Hty Hco].
    apply (index_complete_transfer g); simpl; [done|done|].
    intros k0 n0 Hn0. apply lookup_insert_Some in Hn0 as [[<- <-]|[_ Hn0]].
    + eauto.
    + eauto.
  - unfold addNode. rewrite Hex. simpl. intros k n Hk.
    cbn [nodes contentIndex] in *.
    apply lookup_insert_Some in Hk as [[<- <-]|[Hne Hk]]; simpl.
    + apply lookup_insert_eq.
    + rewrite lookup_insert_ne; [by apply Hc|].
      intros Heq. pose proof (Hc k n Hk) as Hidx. rewrite <- Heq in Hidx.
      rewrite Hidx in Hex. simpl in Hex. by rewrite Hk in Hex.
Qed.

Lemma index_complete_updateNode (now : Z) (nodeId : string)
    (updates : NodeUpdates) (g g' : MemoryGraph) :
  index_complete g →
  update_is_new (OpUpdateNode now nodeId updates) g →
  updateNode now nodeId updates g = Some g' → index_complete g'.
Proof.
  intros Hc Hnew. unfold updateNode. simpl in Hnew.
  destruct (nodes g !! nodeId) as [node|] eqn:Hnode; [|done].
  set (f2 := λ x, match u_importance updates with
                  | Some v => set_importance v x | None => x end).
  set (f3 := λ x, match u_confidence updates with
                  | Some v => set_confidence v x | None => x end).
  assert (Hf : ∀ x, n_type (f3 (f2 x)) = n_type x ∧
                    n_content (f3 (f2 x)) = n_content x).
  { intros x. unfold f2, f3.
    destruct (u_importance updates), (u_confidence updates); done. }
  destruct (u_content updates) as [c|]; intros [= <-].
  - destruct (Hf (updateContent now c node)) as [Hty Hco]. simpl in Hty, Hco.
    intros k n Hk. cbn [nodes contentIndex] in *.
    apply lookup_insert_Some in Hk as [[<- <-]|[Hne Hk]].
    + fold (f2 (updateContent now c node)).
      fold (f3 (f2 (updateContent now c node))).
      rewrite Hty, Hco. apply lookup_insert_eq.
    + pose proof (Hc k n Hk) as Hidx.
      rewrite lookup_insert_ne.
      * rewrite lookup_delete_ne; [done|]. intros Heq.
        pose proof (Hc nodeId node Hnode) as Hown. rewrite Heq in Hown.
        congruence.
      * intros Heq. rewrite <- Heq in Hidx. apply Hnew in Hidx. congruence.
  - destruct (Hf node) as [Hty Hco].
    apply (index_complete_transfer g); simpl; [done|done|].
    intros k n Hk. apply lookup_insert_Some in Hk as [[<- <-]|[_ Hk]].
    + fold (f2 node). fold (f3 (f2 node)). eauto.
    + eauto.
Qed.

Lemma index_complete_removeNode (now : Z) (nodeId : string) (g : MemoryGraph) :
  graph_wf g → index_complete g →
  index_complete (removeNode now nodeId g).2.
Proof.
  intros Hwf Hc. destruct (nodes g !! nodeId) as [node|] eqn:Hnode.
  2:{ unfold removeNode. by rewrite Hnode. }
  rewrite (removeNode_unfold now nodeId g node Hnode). simpl.
  destruct (removeNode_g2_frame nodeId g) as (Hn & _ & Hci & _).
  intros k n Hk. cbn [nodes contentIndex] in *. rewrite Hn in Hk. rewrite Hci.
  apply lookup_delete_Some in Hk as [Hne Hk].
  rewrite lookup_delete_ne; [by apply Hc|].
  intros Heq. pose proof (Hc k n Hk) as Hidx. rewrite <- Heq in Hidx.
  pose proof (Hc nodeId node Hnode) as Hown. congruence.
Qed.

Lemma invariants_removeNodes (now : Z) (ids : list string) (g : MemoryGraph) :
  graph_wf g → index_complete g →
  index_complete (foldl (λ acc nodeId, (removeNode now nodeId acc).2) g ids).
Proof.
  revert g. induction ids as [|k ids IH]; intros g Hwf Hc; [done|].
  simpl. apply IH; [by apply graph_wf_removeNode|].
  by apply index_complete_removeNode.
Qed.

Lemma index_complete_apply_op (op : GraphOp) (g : MemoryGraph) :
  graph_wf g → index_complete g → op_fresh op g → update_is_new op g →
  index_complete (apply_op op g).
Proof.
  intros Hwf Hc Hfresh Hnew. destruct op; simpl in Hfresh |- *.
  - by apply index_complete_addNode.
  - destruct (updateNode now nodeId updates g) as [g'|] eqn:Hu; simpl; [|done].
    by apply (index_complete_updateNode now nodeId updates g).
  - by apply index_complete_removeNode.
  - unfold addEdge.
    destruct (nodes g !! src); [|done]. destruct (nodes g !! tgt); [|done].
    destruct (findEdge src tgt type g); simpl;
      apply (index_complete_transfer g); simpl; eauto.
  - apply (index_complete_transfer g); simpl; [done| |].
    + unfold endSession. by destruct (activeSession g).
    + unfold endSession. destruct (activeSession g); simpl; eauto.
  - unfold endSession. destruct (activeSession g); [|done].
    apply (index_complete_transfer g); simpl; eauto.
  - apply (index_complete_transfer g); simpl; [done|done|].
    intros k n' Hk. rewrite lookup_fmap in Hk.
    destruct (nodes g !! k) as [n|]; [|done]. injection Hk as <-. eauto.
  - by apply invariants_removeNodes.
Qed.

(** As long as no [updateNode] sets the content of a node to that of
    another, no two live nodes share a type and content hash. *)
Lemma unique_without_collision (g : MemoryGraph) :
  reachable_without_collision g → unique_by_content g.
Proof.
  intros Hr. apply complete_index_unique.
  assert (H : graph_wf g ∧ index_complete g); [|tauto].
  induction Hr as [now|g op _ [Hwf Hc] Hfresh Hnew].
  - split; [apply graph_wf_new|apply index_complete_new].
  - split; [by apply graph_wf_apply_op|by apply index_complete_apply_op].
Qed.

(** C4.  The invariant fails in a reachable graph: after two topics are
    added and [updateNode] sets the content of the second to the content of
    the first, two live nodes have the same type and the same content hash.
    [updateNode] rewrites the content index without looking for a node that
    already has the new content. *)
Theorem updateNode_breaks_uniqueness :
  reachable collision_graph ∧
  (∃ a b, nodes collision_graph !! "node_a" = Some a ∧
          nodes collision_graph !! "node_b" = Some b ∧
          n_type a = n_type b ∧ n_content a = n_content b) ∧
  ¬ unique_by_content collision_graph.
Proof.
  split.
  { apply reachable_run; [apply reachable_new|]. vm_compute. repeat split. }
  assert (Ha : is_Some (nodes collision_graph !! "node_a"))
    by (vm_compute; eauto).
  assert (Hb : is_Some (nodes collision_graph !! "node_b"))
    by (vm_compute; eauto).
  destruct Ha as [a Ha], Hb as [b Hb].
  assert (Hty : n_type a = n_type b ∧ n_content a = n_content b).
  { vm_compute in Ha, Hb. injection Ha as <-. injection Hb as <-. done. }
  destruct Hty as [Hty Hco].
  split; [exists a, b; repeat split; assumption|].
  intros Huniq.
  assert (Heq : "node_a" = "node_b"); [|discriminate].
  apply (Huniq _ _ a b Ha Hb Hty). rewrite Hty, Hco. reflexivity.
Qed.

(** ** Conversation store *)

Section StorageFacts.

Variable parseURL : string → option URL.
Variable stringified_length : ConversationStore → Z.

(** A store of at most one conversation is within the caps. *)
Lemma enforce_caps_short (maxItems : nat) (maxBytes : Z)
    (store : ConversationStore) :
  (length (order store) ≤ 1)%nat → (1 ≤ maxItems)%nat →
  enforce_caps stringified_length maxItems maxBytes store = store.
Proof.
  intros Hlen Hmax. unfold enforce_caps.
  assert (Hc : evict_count (length (order store)) maxItems store = store).
  { destruct (length (order store)) as [|k] eqn:Hk; [done|]. simpl.
    rewrite Hk. replace (maxItems <? S k)%nat with false; [done|].
    symmetry. apply Nat.ltb_ge. lia. }
  rewrite Hc.
  destruct (length (order store)) as [|k] eqn:Hk; [done|]. simpl.
  rewrite Hk.
  replace (1 <? S k)%nat with false; [|symmetry; apply Nat.ltb_ge; lia].
  by rewrite andb_false_r.
Qed.

(** The count loop ends with at most [maxItems] ids. *)
Lemma evict_count_bound (turns maxItems : nat) (store : ConversationStore) :
  (length (order store) ≤ turns)%nat →
  (length (order (evict_count turns maxItems store))
   ≤ maxItems)%nat ∨
  length (order (evict_count turns maxItems store)) = 0%nat.
Proof.
  revert store. induction turns as [|k IH]; intros store Hlen; simpl.
  - right. lia.
  - destruct (maxItems <? length (order store))%nat eqn:Hlt.
    + apply IH. unfold pop_tail.
      destruct (last (order store)) as [drop|] eqn:Hlast; simpl.
      * destruct (order store) as [|x l] using rev_ind; [done|].
        rewrite removelast_last. rewrite length_app in Hlen. simpl in Hlen. lia.
      * apply last_None in Hlast. rewrite Hlast. simpl. lia.
    + left. apply Nat.ltb_ge in Hlt. lia.
Qed.

(** The byte loop ends within the byte cap or with at most one id. *)
Lemma evict_bytes_done (turns : nat) (maxBytes : Z) (store : ConversationStore) :
  (length (order store) ≤ turns)%nat →
  let store' := evict_bytes stringified_length turns maxBytes store in
  (approxSize stringified_length store' <= maxBytes)%Z ∨
  (length (order store') ≤ 1)%nat.
Proof.
  revert store. induction turns as [|k IH]; intros store Hlen; simpl.
  - right. lia.
  - destruct (maxBytes <? approxSize stringified_length store)%Z eqn:Hsize;
      simpl.
    + destruct (1 <? length (order store))%nat eqn:Hlt.
      * apply IH. unfold pop_tail.
        destruct (last (order store)) as [drop|] eqn:Hlast; simpl.
        -- destruct (order store) as [|x l] using rev_ind; [done|].
           rewrite removelast_last. rewrite length_app in Hlen.
           simpl in Hlen. lia.
        -- apply last_None in Hlast. rewrite Hlast. simpl. lia.
      * right. apply Nat.ltb_ge in Hlt. lia.
    + left. apply Z.ltb_ge in Hsize. lia.
Qed.

End StorageFacts.

(** C5.  On a URL parser that splits the address of the scenario into its
    origin and the path [/c/abc], saving a conversation with that URL under
    the id [tmp_x] and then under the id [c_abc], whatever their other
    fields, the clock and the size of the serialized store, leaves [byId]
    with the one key [c_abc] (so no [tmp_] record), its record carrying that
    id and URL, [urlToId] mapping the URL to [c_abc], and [order] equal to
    the list of [c_abc] alone. *)
Theorem save_tmp_then_canonical
    (parseURL : string → option URL) (len : ConversationStore → Z)
    (now1 now2 : Z) (base1 base2 : Conversation) :
  parseURL chat_url =
    Some {| origin := "https://chatgpt.com"; pathname := "/c/abc" |} →
  ∃ s1 s2,
    saveConversation parseURL len now1
      (conversation_with "tmp_x" chat_url base1) 80 8000000 empty_store
      = Returned s1 ∧
    saveConversation parseURL len now2
      (conversation_with "c_abc" chat_url base2) 80 8000000 s1
      = Returned s2 ∧
    dom (byId s2) = {["c_abc"]} ∧
    byId s2 !! "tmp_x" = None ∧
    (∃ rec, byId s2 !! "c_abc" = Some rec ∧ c_id rec = Some "c_abc" ∧
            c_url rec = Some chat_url) ∧
    urlToId s2 = {[chat_url := "c_abc"]} ∧
    order s2 = ["c_abc"].
Proof.
  intros Hparse.
  assert (Hnorm : normalizeUrl parseURL (Some chat_url) = chat_url).
  { unfold normalizeUrl. by rewrite Hparse. }
  assert (Hstable : stableIdFromUrl parseURL (Some chat_url) = Some "c_abc").
  { unfold stableIdFromUrl. simpl. by rewrite Hparse. }
  unfold saveConversation.
  cbn [c_url c_id conversation_with JS.or_null JS.truthy_string].
  rewrite Hnorm, Hstable. cbn [default].
  eexists. eexists. split.
  { rewrite enforce_caps_short; [reflexivity| |lia]. vm_compute. lia. }
  split.
  { rewrite enforce_caps_short; [reflexivity| |lia]. vm_compute. lia. }
  split; [vm_compute; reflexivity|].
  split; [vm_compute; reflexivity|].
  split; [|split; vm_compute; reflexivity].
  eexists. split; [vm_compute; reflexivity|]. done.
Qed.

Lemma save_tmp_then_canonical_witness :
  ∃ s1 s2,
    saveConversation simple_parseURL (λ _, 0%Z) 5
      (conversation_with "tmp_x" chat_url empty_conversation) 80 8000000
      empty_store = Returned s1 ∧
    saveConversation simple_parseURL (λ _, 0%Z) 9
      (conversation_with "c_abc" chat_url empty_conversation) 80 8000000 s1
      = Returned s2 ∧
    order s2 = ["c_abc"].
Proof.
  destruct (save_tmp_then_canonical simple_parseURL (λ _, 0%Z) 5 9
              empty_conversation empty_conversation)
    as (s1 & s2 & H1 & H2 & _ & _ & _ & _ & Horder).
  - vm_compute. reflexivity.
  - exists s1, s2. split; [exact H1|]. split; [exact H2|exact Horder].
Defined.

(** C9.  After [deleteConversation(id)] no key of [urlToId] maps to [id]:
    the entries that did are removed, every other entry is kept as it was,
    and [id] is gone from [byId] and [order]; so an entry of [urlToId] that
    pointed into [byId] before still does. *)
Theorem deleteConversation_cleans_urlToId
    (id : string) (store : ConversationStore) :
  let store' := deleteConversation id store in
  (∀ u, urlToId store' !! u ≠ Some id) ∧
  (∀ u v, urlToId store' !! u = Some v ↔
          urlToId store !! u = Some v ∧ v ≠ id) ∧
  byId store' !! id = None ∧
  (id ∉ order store') ∧
  (∀ u v, urlToId store !! u = Some v → is_Some (byId store !! v) →
          urlToId store' !! u = Some v → is_Some (byId store' !! v)).
Proof.
  simpl.
  assert (Hiff : ∀ u v,
            filter (λ uv : string * string, uv.2 ≠ id) (urlToId store) !! u
              = Some v ↔ urlToId store !! u = Some v ∧ v ≠ id).
  { intros u v. by rewrite map_lookup_filter_Some. }
  split; [|split; [|split; [|split]]].
  - intros u Hu. apply Hiff in Hu. tauto.
  - exact Hiff.
  - apply lookup_delete_eq.
  - rewrite list_elem_of_filter. tauto.
  - intros u v _ Hlive Hu. apply Hiff in Hu as [_ Hne].
    rewrite lookup_delete_ne; done.
Qed.

(** ** Strings *)

Lemma or_string_empty (s : string) : JS.or_string (Some s) EmptyString = s.
Proof. by destruct s. Qed.

Lemma toLowerCase_app (x y : string) :
  JS.toLowerCase (x ++ y) = JS.toLowerCase x ++ JS.toLowerCase y.
Proof. induction x as [|c x IH]; simpl; [done|]. by rewrite IH. Qed.

Lemma toLowerCase_take (n : nat) (s : string) :
  JS.toLowerCase (JS.take n s) = JS.take n (JS.toLowerCase s).
Proof.
  revert s. induction n as [|n IH]; intros [|c s]; simpl; try done.
  by rewrite IH.
Qed.

Lemma startsWith_app_l (x y t : string) :
  JS.startsWith x t = true → JS.startsWith (x ++ y) t = true.
Proof.
  revert x. induction t as [|c t IH]; intros x.
  - intros _. by destruct (x ++ y).
  - destruct x as [|a x]; simpl; [done|].
    intros H. apply andb_true_iff in H as [-> H]. simpl. by apply IH.
Qed.

Lemma includes_app_l (x y t : string) :
  JS.includes x t = true → JS.includes (x ++ y) t = true.
Proof.
  induction x as [|a x IH]; simpl.
  - rewrite orb_false_r. intros H. destruct t; [|done].
    by destruct y.
  - intros H. apply orb_true_iff in H as [H|H].
    + apply (startsWith_app_l (String a x) y) in H. simpl in H.
      rewrite H. done.
    + rewrite (IH H). apply orb_true_r.
Qed.

Lemma includes_app_r (x y t : string) :
  JS.includes y t = true → JS.includes (x ++ y) t = true.
Proof.
  intros H. induction x as [|a x IH]; simpl; [done|].
  rewrite IH. apply orb_true_r.
Qed.

Lemma startsWith_take (n : nat) (s t : string) :
  JS.startsWith (JS.take n s) t = true → JS.startsWith s t = true.
Proof.
  revert n s. induction t as [|c t IH]; intros n s; [by destruct s|].
  destruct n as [|n], s as [|a s]; simpl; try done.
  intros H. apply andb_true_iff in H as [-> H]. simpl. by apply (IH n).
Qed.

Lemma includes_take (n : nat) (s t : string) :
  JS.includes (JS.take n s) t = true → JS.includes s t = true.
Proof.
  revert n. induction s as [|a s IH]; intros n.
  - by destruct n.
  - destruct n as [|n].
    + simpl. rewrite orb_false_r. intros H. destruct t; done.
    + cbn [JS.take JS.includes]. intros H.
      apply orb_true_iff in H as [H|H].
      * apply (startsWith_take (S n) (String a s)) in H. by rewrite H.
      * rewrite (IH n H). apply orb_true_r.
Qed.

Lemma startsWith_app_sep (sep : ascii) (x y t : string) :
  free_of sep t = true → JS.startsWith x t = false →
  JS.startsWith (x ++ String sep y) t = false.
Proof.
  revert x. induction t as [|c t IH]; intros x Hfree Hx; [by destruct x|].
  simpl in Hfree. apply andb_true_iff in Hfree as [Hc Hfree].
  destruct x as [|a x]; simpl.
  - apply negb_true_iff in Hc. by rewrite Hc.
  - simpl in Hx. apply andb_false_iff in Hx as [->|Hx]; [done|].
    rewrite (IH x Hfree Hx). apply andb_false_r.
Qed.

(** A word without the separator does not straddle it. *)
Lemma includes_app_sep (sep : ascii) (x y t : string) :
  free_of sep t = true →
  JS.includes x t = false → JS.includes y t = false →
  JS.includes (x ++ String sep y) t = false.
Proof.
  intros Hfree Hx Hy. induction x as [|a x IH].
  - simpl in *. rewrite orb_false_r in Hx. rewrite Hy, orb_false_r.
    destruct t as [|c t]; [done|]. simpl in Hfree.
    apply andb_true_iff in Hfree as [Hc _]. apply negb_true_iff in Hc.
    simpl. by rewrite Hc.
  - cbn [JS.includes] in Hx. apply orb_false_iff in Hx as [Hs Hx].
    change (String a x ++ String sep y) with (String a (x ++ String sep y)).
    cbn [JS.includes]. rewrite (IH Hx), orb_false_r.
    by apply (startsWith_app_sep sep (String a x) y t).
Qed.

Lemma wordStart_from_includes (p : bool) (s t : string) :
  JS.wordStart_from p s t = true → JS.includes s t = true.
Proof.
  revert p. induction s as [|a s IH]; intros p; simpl.
  - rewrite !orb_false_r. intros H. by apply andb_true_iff in H as [_ H].
  - intros H. apply orb_true_iff in H as [H|H].
    + apply andb_true_iff in H as [_ ->]. done.
    + rewrite (IH _ H). apply orb_true_r.
Qed.

Lemma wordStart_absent (s t : string) :
  JS.includes s t = false → JS.wordStart s t = false.
Proof.
  intros H. destruct (JS.wordStart s t) eqn:Hw; [|done].
  apply wordStart_from_includes in Hw. congruence.
Qed.

(** ** Ranked search *)

(** One turn of the listing loop without filters, for a query that is not
    empty. *)
Lemma collect_step (now : Z) (store : ConversationStore) (qRaw q : string)
    (tokens : list string) (limit : nat) (id : string) (rest : list string)
    (items : list Scored) (c : Conversation) :
  byId store !! id = Some c → JS.truthy_string qRaw = true →
  collect now store no_filters qRaw q tokens limit (id :: rest) items =
  collect now store no_filters qRaw q tokens limit rest
    (if negb (JS.includes (haystack c) q) && negb (bool_decide (tokens = []))
        && negb (existsb (λ t, JS.includes (haystack c) t) tokens)
     then items
     else (items ++ [(c, scoreConversation now qRaw q tokens c)])%list).
Proof.
  intros Hc Hq. cbn [collect]. rewrite Hc.
  cbn [pinnedOnly hasCodeOnly no_filters since until f_tag f_tags andb
       JS.or_Z JS.truthyZ Z.eqb negb JS.or_string].
  change (JS.truthy_string (JS.trim (JS.toLowerCase EmptyString))) with false.
  cbn [andb]. rewrite Hq. cbn [negb].
  destruct (negb _ && _ && _); reflexivity.
Qed.

Lemma collect_keep (now : Z) (store : ConversationStore) (qRaw q : string)
    (tokens : list string) (limit : nat) (id : string) (rest : list string)
    (items : list Scored) (c : Conversation) :
  byId store !! id = Some c → JS.truthy_string qRaw = true →
  JS.includes (haystack c) q = true →
  collect now store no_filters qRaw q tokens limit (id :: rest) items =
  collect now store no_filters qRaw q tokens limit rest
    (items ++ [(c, scoreConversation now qRaw q tokens c)]).
Proof.
  intros Hc Hq Hhay. rewrite (collect_step _ _ _ _ _ _ _ _ _ c Hc Hq).
  by rewrite Hhay.
Qed.

(** A conversation whose haystack has none of the tokens is passed over. *)
Lemma collect_drop (now : Z) (store : ConversationStore) (qRaw q : string)
    (tokens : list string) (limit : nat) (id : string) (rest : list string)
    (items : list Scored) (c : Conversation) :
  byId store !! id = Some c → JS.truthy_string qRaw = true →
  JS.includes (haystack c) q = false → tokens ≠ [] →
  existsb (λ t, JS.includes (haystack c) t) tokens = false →
  collect now store no_filters qRaw q tokens limit (id :: rest) items =
  collect now store no_filters qRaw q tokens limit rest items.
Proof.
  intros Hc Hq Hhay Htok Hnone.
  rewrite (collect_step _ _ _ _ _ _ _ _ _ c Hc Hq).
  by rewrite Hhay, Hnone, bool_decide_eq_false_2.
Qed.

Lemma existsb_lower (w : string) (l : list string) :
  existsb (λ x, JS.includes x w) (JS.toLowerCase <$> l) = existsb (mentions w) l.
Proof.
  induction l as [|x l IH]; [done|].
  rewrite fmap_cons. cbn [existsb]. by rewrite IH.
Qed.

Lemma recency_boost_nonneg (now : Z) (c : Conversation) :
  (0 <= recency_boost now c)%Q.
Proof. unfold recency_boost. apply Q.le_max_l. Qed.

Section Ranking.

Variables (now : Z) (base : Conversation).
Variables (title0 titleA text0 textC : string) (tags0 tagsB : list string).

Let word := "django".
Let a := variant base "A" titleA text0 tags0.
Let b := variant base "B" title0 text0 tagsB.
Let c := variant base "C" title0 textC tags0.
Let score := scoreConversation now word word [word].

Hypothesis Htitle0 : mentions word title0 = false.
Hypothesis Htext0 : mentions word text0 = false.
Hypothesis Hurl : mentions word (JS.or_string (c_url base) EmptyString) = false.
Hypothesis Htags0 : existsb (mentions word) tags0 = false.
Hypothesis HtitleA : mentions word titleA = true.
Hypothesis HtextC : mentions word (JS.take (Z.to_nat 8000) textC) = true.
Hypothesis HtagsB : existsb (mentions word) tagsB = true.

Lemma body_mentions_word : mentions word textC = true.
Proof.
  unfold mentions in *. rewrite toLowerCase_take in HtextC.
  by apply includes_take in HtextC.
Qed.

Ltac eval_score :=
  unfold score, scoreConversation, a, b, c, word, lower_tags;
  cbn [JS.truthy_string negb andb foldl String.length Nat.leb variant
       c_title c_text c_url c_pinned c_tags from_option id];
  rewrite ?or_string_empty, ?existsb_lower;
  fold word;
  change (JS.includes (JS.toLowerCase titleA) word) with (mentions word titleA);
  change (JS.includes (JS.toLowerCase title0) word) with (mentions word title0);
  change (JS.includes (JS.toLowerCase text0) word) with (mentions word text0);
  change (JS.includes (JS.toLowerCase textC) word) with (mentions word textC);
  change (JS.includes (JS.toLowerCase (JS.or_string (c_url base) EmptyString)) word)
    with (mentions word (JS.or_string (c_url base) EmptyString));
  rewrite ?Htitle0, ?Htext0, ?Hurl, ?Htags0, ?HtitleA, ?body_mentions_word,
          ?HtagsB;
  rewrite ?(wordStart_absent _ _ Htitle0), ?(wordStart_absent _ _ Htext0).

(** The scores: title above body, tag not above body. *)
Lemma score_ranking : (score c < score a)%Q ∧ (score b <= score c)%Q.
Proof.
  pose proof (recency_boost_nonneg now base) as Ha.
  assert (Hsame : ∀ id t x g, recency_boost now (variant base id t x g)
                            = recency_boost now base) by done.
  split.
  - eval_score. rewrite !Hsame.
    destruct (JS.wordStart (JS.toLowerCase titleA) word),
             (JS.wordStart (JS.toLowerCase textC) word),
             (default false (c_pinned base)); lra.
  - eval_score. rewrite !Hsame.
    destruct (JS.wordStart (JS.toLowerCase textC) word),
             (default false (c_pinned base)); lra.
Qed.

Lemma haystack_variant (id t x : string) (g : list string) :
  haystack (variant base id t x g) =
  JS.toLowerCase t ++
  String (ascii_of_nat 10)
    (JS.toLowerCase (JS.or_string (c_url base) EmptyString) ++
     String (ascii_of_nat 10) (JS.toLowerCase (JS.take (Z.to_nat 8000) x))).
Proof.
  unfold haystack. cbn [variant c_title c_url c_text].
  rewrite !or_string_empty, !toLowerCase_app. reflexivity.
Qed.

Lemma haystack_a : JS.includes (haystack a) word = true.
Proof. unfold a. rewrite haystack_variant. by apply includes_app_l. Qed.

Lemma haystack_c : JS.includes (haystack c) word = true.
Proof.
  unfold c. rewrite haystack_variant.
  apply includes_app_r, (includes_app_r (String _ EmptyString)).
  apply includes_app_r, (includes_app_r (String _ EmptyString)). exact HtextC.
Qed.

(** The haystack has no line for the tags. *)
Lemma haystack_b : JS.includes (haystack b) word = false.
Proof.
  unfold b. rewrite haystack_variant.
  apply includes_app_sep; [done|exact Htitle0|].
  apply includes_app_sep; [done|exact Hurl|].
  destruct (JS.includes _ word) eqn:H; [|done].
  rewrite toLowerCase_take in H. apply includes_take in H.
  unfold mentions in Htext0. congruence.
Qed.

Lemma listing_of_three :
  listConversations now word 200 no_filters "relevance" (three_store a b c)
  = [a; c].
Proof.
  unfold listConversations.
  change (JS.trim word) with word. change (JS.toLowerCase word) with word.
  change (tokenize word) with [word]. cbn [order three_store].
  rewrite (collect_keep _ _ _ _ _ _ "A" _ _ a); [|done|done|apply haystack_a].
  rewrite (collect_drop _ _ _ _ _ _ "B" _ _ b);
    [|done|done|apply haystack_b|done|cbn [existsb]; by rewrite haystack_b].
  rewrite (collect_keep _ _ _ _ _ _ "C" _ _ c); [|done|done|apply haystack_c].
  cbn [collect app]. change (JS.truthy_string word) with true. cbn [negb orb].
  rewrite bool_decide_eq_false_2 by done.
  fold score. destruct score_ranking as [Hlt _].
  unfold sort_by. cbn [foldr sort_insert].
  assert (Hcmp : JS.Qltb (compare_relevance (c, score c) (a, score a)) 0 = false).
  { unfold compare_relevance. cbn [fst snd].
    assert (Hds : (0 < score a - score c)%Q) by lra.
    replace (JS.truthyQ (score a - score c)) with true.
    - destruct (JS.Qltb (score a - score c) 0) eqn:Hb; [|done].
      apply Qltb_lt in Hb. lra.
    - symmetry. unfold JS.truthyQ. apply negb_true_iff.
      destruct (Qeq_bool (score a - score c) 0) eqn:Hb; [|done].
      apply Qeq_bool_iff in Hb. lra. }
  rewrite Hcmp. reflexivity.
Qed.

End Ranking.

(** C7 (amended).  Three saved conversations that are equal but for the
    place of the word django: in the title of A, in a tag of B, in the
    searched part of the text of C.  For the query django sorted by
    relevance, the score of A is strictly above the score of C, the score of
    B is not above the score of C (a body match earns the phrase bonus 10 and
    the token weight 4, a tag match the token weight 14 alone), and the
    listing returns A first and C after it. *)
Theorem title_match_ranks_above_body_match
    (now : Z) (base : Conversation)
    (title0 titleA text0 textC : string) (tags0 tagsB : list string) :
  let word := "django" in
  let a := variant base "A" titleA text0 tags0 in
  let b := variant base "B" title0 text0 tagsB in
  let c := variant base "C" title0 textC tags0 in
  let score := scoreConversation now word word [word] in
  mentions word title0 = false →
  mentions word text0 = false →
  mentions word (JS.or_string (c_url base) EmptyString) = false →
  existsb (mentions word) tags0 = false →
  mentions word titleA = true →
  mentions word (JS.take (Z.to_nat 8000) textC) = true →
  existsb (mentions word) tagsB = true →
  (score c < score a)%Q ∧
  (score b <= score c)%Q ∧
  ∃ rest,
    listConversations now word 200 no_filters "relevance" (three_store a b c)
      = a :: rest ∧
    c ∈ rest.
Proof.
  intros word a b c score H1 H2 H3 H4 H5 H6 H7.
  destruct (score_ranking now base title0 titleA text0 textC tags0 tagsB
              H1 H2 H3 H4 H5 H6 H7) as [Hac Hbc].
  split; [exact Hac|]. split; [exact Hbc|].
  exists [c]. split; [|apply list_elem_of_singleton; reflexivity].
  exact (listing_of_three now base title0 titleA text0 textC tags0 tagsB
           H1 H2 H3 H4 H5 H6 H7).
Qed.

Lemma title_match_ranks_above_body_match_witness :
  ∃ rest,
    listConversations 2000 "django" 200 no_filters "relevance" search_store
      = variant search_base "A" "django notes" "hello world" ["work"] :: rest ∧
    variant search_base "C" "notes" "hello django world" ["work"] ∈ rest.
Proof.
  destruct (title_match_ranks_above_body_match 2000 search_base
              "notes" "django notes" "hello world" "hello django world"
              ["work"] ["django"])
    as (_ & _ & rest & Hlist & Hin); try (vm_compute; reflexivity).
  exists rest. split; [exact Hlist|exact Hin].
Defined.

(** C7 as stated fails on the scenario: the listing is A, C; B is not in it,
    and the score of B is strictly below the score of C. *)
Lemma tag_match_not_ranked_between :
  let ids :=
    c_id <$> listConversations 2000 "django" 200 no_filters "relevance"
                               search_store in
  let score := scoreConversation 2000 "django" "django" ["django"] in
  ids = [Some "A"; Some "C"] ∧
  ¬ (ranked_above ids "A" "B" ∧ ranked_above ids "B" "C") ∧
  (score (variant search_base "B" "notes" "hello world" ["django"]) <
   score (variant search_base "C" "notes" "hello django world" ["work"]))%Q.
Proof.
  assert (Hids : c_id <$> listConversations 2000 "django" 200 no_filters
                            "relevance" search_store
                 = [Some "A"; Some "C"]) by (vm_compute; reflexivity).
  cbv zeta. rewrite Hids. split; [reflexivity|]. split.
  - intros [(i & j & Hi & Hj & _) _].
    destruct j as [|[|j]]; simpl in Hj; discriminate.
  - vm_compute. reflexivity.
Qed.

(** ** Webhook dispatcher *)

Lemma or_Z_self (a : Z) : JS.or_Z (Some a) 0 = a.
Proof.
  unfold JS.or_Z, JS.truthyZ. destruct (Z.eqb_spec a 0) as [->|]; done.
Qed.

Lemma error_text_nonempty (e : JSError) : error_text e ≠ EmptyString.
Proof.
  unfold error_text. destruct (err_message e) as [|c m] eqn:Hm; simpl.
  - by destruct (err_class e) as [|[]].
  - done.
Qed.

Lemma updateJob_lookup (now : Z) (id : string) (patch : JobPatch)
    (jobs : JobStore) (j : Job) :
  jobs_byId jobs !! id = Some j →
  jobs_byId (updateJob now id patch jobs) !! id = Some (patch_job now patch j).
Proof. intros H. unfold updateJob. rewrite H. simpl. apply lookup_insert_eq. Qed.

(** One failed delivery. *)
Lemma deliver_failed (env : JobEnv) (id : string) (j : Job) (jobs : JobStore) :
  jobs_byId jobs !! id = Some j →
  delivery_failed (send env) →
  ∃ j', jobs_byId (deliver env id j jobs) !! id = Some j' ∧
        attempts j' = (attempts j + 1)%Z ∧
        nextRunAt j' =
          Some (t_handled env + Z.min (60000 * (attempts j + 1)) 600000)%Z ∧
        status j' = (if (5 <=? attempts j + 1)%Z then Failed else Queued) ∧
        ∃ msg, error j' = Some msg ∧ msg ≠ EmptyString.
Proof.
  intros Hj Hfail. unfold deliver. rewrite or_Z_self.
  set (running := {| p_status := Some Running;
                     p_attempts := Some (attempts j + 1)%Z; p_error := None;
                     p_lastResponse := None; p_nextRunAt := None;
                     p_result := None |}).
  pose proof (updateJob_lookup (t_running env) id running jobs j Hj) as H1.
  destruct (send env) as [http_status text|e]; simpl in Hfail.
  - rewrite Hfail.
    eexists. split; [by apply updateJob_lookup|]. simpl.
    repeat (split; [reflexivity|]). eexists. split; [reflexivity|]. done.
  - eexists. split; [by apply updateJob_lookup|]. simpl.
    repeat (split; [reflexivity|]). eexists. split; [reflexivity|].
    apply error_text_nonempty.
Qed.

(** C6.  A job whose POST ends without a 2xx response, by a status outside
    200-299 or by an exception, has its attempt counter [a] raised by one,
    [nextRunAt] set to the clock reading plus min(60000 a, 600000), and the
    status failed when [a] is at least 5 and queued otherwise, with an error
    text that is not empty; the same holds after each of a run of such
    deliveries, so a job that starts with no attempt and fails five times in
    a row ends failed. *)
Theorem failed_deliveries_back_off
    (envs : list JobEnv) (env : JobEnv) (id : string) (j : Job)
    (jobs : JobStore) :
  jobs_byId jobs !! id = Some j →
  Forall (λ e, delivery_failed (send e)) (envs ++ [env]) →
  ∃ j', jobs_byId (redeliver (envs ++ [env]) id jobs) !! id = Some j' ∧
        attempts j' = (attempts j + Z.of_nat (length envs) + 1)%Z ∧
        nextRunAt j' =
          Some (t_handled env + Z.min (60000 * attempts j') 600000)%Z ∧
        status j' = (if (5 <=? attempts j')%Z then Failed else Queued) ∧
        (∃ msg, error j' = Some msg ∧ msg ≠ EmptyString) ∧
        (attempts j = 0%Z → length envs = 4%nat → status j' = Failed).
Proof.
  revert j jobs. induction envs as [|e envs IH]; intros j jobs Hj Hall.
  - cbn [app] in *.
    apply Forall_cons in Hall as [Hall _].
    destruct (deliver_failed env id j jobs Hj Hall)
      as (j' & Hj' & Hatt & Hnext & Hstatus & Herr).
    exists j'. simpl. rewrite Hj. split; [exact Hj'|].
    rewrite Hatt. split; [lia|]. split; [exact Hnext|].
    split; [exact Hstatus|]. split; [exact Herr|]. intros _ [=].
  - cbn [app] in *.
    apply Forall_cons in Hall as [He Hall].
    destruct (deliver_failed e id j jobs Hj He) as (j1 & Hj1 & Hatt1 & _).
    destruct (IH j1 (deliver e id j jobs) Hj1 Hall)
      as (j' & Hj' & Hatt & Hnext & Hstatus & Herr & _).
    exists j'. cbn [redeliver]. rewrite Hj. split; [exact Hj'|].
    assert (Hcount : attempts j' =
                     (attempts j + Z.of_nat (length (e :: envs)) + 1)%Z).
    { rewrite Hatt, Hatt1. cbn [length]. lia. }
    split; [exact Hcount|]. split; [exact Hnext|]. split; [exact Hstatus|].
    split; [exact Herr|].
    intros H0 Hlen. rewrite Hstatus, Hcount, H0, Hlen. reflexivity.
Qed.

Lemma failed_deliveries_back_off_witness :
  ∃ j', jobs_byId (redeliver five_failures "job_1" demo_jobs) !! "job_1"
          = Some j' ∧
        attempts j' = 5%Z ∧ status j' = Failed ∧
        nextRunAt j' = Some (700002 + 300000)%Z.
Proof.
  destruct (failed_deliveries_back_off
              (take 4 five_failures)
              (failing_env 700000
                 (Rejected {| err_class := TypeError;
                              err_message := "Failed to fetch" |}))
              "job_1" demo_job demo_jobs)
    as (j' & Hj' & Hatt & Hnext & _ & _ & Hfailed).
  - vm_compute. reflexivity.
  - repeat constructor; vm_compute; reflexivity.
  - exists j'. split; [exact Hj'|]. split; [exact Hatt|].
    split; [apply Hfailed; reflexivity|].
    rewrite Hnext, Hatt. reflexivity.
Defined.

Section PumpFacts.

Variable parseURL : string → option URL.

(** The pump hands a runnable job with a usable connector to [deliver]. *)
Lemma pump_turn_delivers (connectorById : gmap string Connector)
    (env : JobEnv) (snapshot jobs : JobStore) (id : string) (j : Job)
    (connector : Connector) :
  jobs_byId snapshot !! id = Some j →
  status j = Queued ∨ status j = Failed →
  match nextRunAt j with Some t => (t <= t_now env)%Z | None => True end →
  connectorById !! connectorId j = Some connector →
  cn_enabled connector = true → cn_url connector ≠ EmptyString →
  permission env ≠ Denied →
  pump_turn parseURL connectorById env snapshot id jobs =
    (true, deliver env id j jobs).
Proof.
  intros Hj Hst Hnext Hc Hen Hurl Hperm. unfold pump_turn.
  rewrite Hj, Hc, Hen.
  replace (JS.truthyZ (JS.or_Z (nextRunAt j) 0) &&
           (t_now env <? JS.or_Z (nextRunAt j) 0)%Z) with false.
  2:{ symmetry. destruct (nextRunAt j) as [t|]; [|done].
      rewrite or_Z_self. apply andb_false_intro2, Z.ltb_ge. exact Hnext. }
  replace (JS.truthy_string (cn_url connector)) with true
    by (by destruct (cn_url connector)).
  simpl.
  replace (match permission env with Denied => true | _ => false end)
    with false by (by destruct (permission env)).
  rewrite andb_false_r. by destruct Hst as [-> | ->].
Qed.

End PumpFacts.

(** ** Sync: remote node messages *)

(** C8.  No remote node is ever applied.  [_applyNodeData] begins with
    [require('./memory-graph.js')], which throws in this module, so a
    [node_added] or [node_updated] message from another tab ends in a
    [ReferenceError], before anything is written to the graph, on exactly
    the paths that were to apply the node: [node_added] for an absent id or
    a strictly newer payload, [node_updated] for a present id and a payload
    that is not older.  On every other path the handler returns and the tab
    is as it was.  So a [node_added] for an id the graph does not hold
    throws, and so does a [node_updated] whose [updatedAt] equals the local
    one. *)
Theorem remote_node_is_never_applied :
  (∀ now sender nodeData self,
     _handleMessage now sender (NODE_ADDED nodeData) self =
     if bool_decide (sender = tabId self) then Returned self
     else match sync_graph self with
          | None => Returned self
          | Some g =>
              match nodes g !! n_id nodeData with
              | Some existing =>
                  if (updatedAt (n_metadata existing)
                      <? updatedAt (n_metadata nodeData))%Z
                  then Thrown require_error else Returned self
              | None => Thrown require_error
              end
          end) ∧
  (∀ now sender nodeData self,
     _handleMessage now sender (NODE_UPDATED nodeData) self =
     if bool_decide (sender = tabId self) then Returned self
     else match sync_graph self with
          | None => Returned self
          | Some g =>
              match nodes g !! n_id nodeData with
              | Some existing =>
                  if (updatedAt (n_metadata existing)
                      <=? updatedAt (n_metadata nodeData))%Z
                  then Thrown require_error else Returned self
              | None => Returned self
              end
          end) ∧
  nodes (MemoryGraph_new 0) !! n_id remote_node = None ∧
  _handleMessage 9 "tab_2" (NODE_ADDED remote_node)
                 (local_sync (MemoryGraph_new 0)) = Thrown require_error ∧
  (updatedAt <$> (n_metadata <$> nodes local_graph !! n_id remote_node)) =
    Some (updatedAt (n_metadata remote_node)) ∧
  _handleMessage 9 "tab_2" (NODE_UPDATED remote_node)
                 (local_sync local_graph) = Thrown require_error.
Proof.
  split; [|split].
  - intros now sender nodeData [graph tab]. unfold _handleMessage.
    cbn [sync_graph tabId]. case_bool_decide; [done|].
    unfold _handleRemoteNodeAdded. destruct graph as [g|]; [|done].
    destruct (nodes g !! n_id nodeData) as [existing|]; [|done].
    by destruct (_ <? _)%Z.
  - intros now sender nodeData [graph tab]. unfold _handleMessage.
    cbn [sync_graph tabId]. case_bool_decide; [done|].
    unfold _handleRemoteNodeUpdated. destruct graph as [g|]; [|done].
    destruct (nodes g !! n_id nodeData) as [existing|]; [|done].
    by destruct (_ <=? _)%Z.
  - repeat split; vm_compute; reflexivity.
Qed.

(** ** Extractor *)

(** C10.  For a text that is missing, empty or shorter than 20 characters,
    [extract] returns null and leaves the extractor, and with it the graph
    and its sessions, as they were, whatever the pattern passes would do. *)
Theorem extract_ignores_short_text
    (detectPlatform : string)
    (languages frameworks codeBlocks errors topics entities goals :
       string → Metadata → Extraction * MemoryGraph → Extraction * MemoryGraph)
    (relationships : Extraction * MemoryGraph → Extraction * MemoryGraph)
    (now : Z) (text : option string) (metadata : Metadata)
    (self : MemoryExtractor) :
  match text with
  | Some s => (String.length s < 20)%nat
  | None => True
  end →
  extract detectPlatform languages codeBlocks frameworks errors topics
          entities goals relationships now text metadata self
    = (None, self).
Proof.
  intros Hshort. unfold extract. destruct text as [s|]; [|reflexivity].
  apply Nat.ltb_lt in Hshort. rewrite Hshort, orb_true_r. reflexivity.
Qed.

Lemma extract_ignores_short_text_witness :
  extract "chatgpt" (λ _ _ s, s) (λ _ _ s, s) (λ _ _ s, s) (λ _ _ s, s)
          (λ _ _ s, s) (λ _ _ s, s) (λ _ _ s, s) (λ s, s)
          7 (Some "TypeError in main") no_metadata
          {| x_graph := demo_graph; lastExtraction := None;
             extractionCount := 0 |}
    = (None, {| x_graph := demo_graph; lastExtraction := None;
                extractionCount := 0 |}).
Proof.
  apply extract_ignores_short_text. vm_compute. lia.
Defined.

Section PumpScenario.

Variable parseURL : string → option URL.

Lemma pumpJobs_single (connectorById : gmap string Connector)
    (env : string → JobEnv) (jobs : JobStore) (id : string) :
  jobs_order jobs = [id] →
  pumpJobs parseURL connectorById env jobs =
    (pump_turn parseURL connectorById (env id) jobs id jobs).2.
Proof.
  intros Horder. unfold pumpJobs. rewrite Horder. cbn [rev app pump_loop Nat.leb].
  by destruct (pump_turn parseURL connectorById (env id) jobs id jobs).
Qed.

End PumpScenario.

(** Five pump invocations on the scenario are the five deliveries. *)
Lemma five_pumps_fail_the_job :
  foldl (λ jobs env, pumpJobs simple_parseURL demo_connectors (λ _, env) jobs)
        demo_jobs five_failures
  = redeliver five_failures "job_1" demo_jobs.
Proof. vm_compute. reflexivity. Qed.


(** * Further properties of the memory graph *)

(** ** The indices are exact in every reachable graph *)

Lemma exact_new (now : Z) : index_exact (MemoryGraph_new now).
Proof.
  split; simpl.
  - intros k n H. by rewrite lookup_empty in H.
  - intros k e H. by rewrite lookup_empty in H.
  - intros t k (ids & H & _). by rewrite lookup_empty in H.
  - intros k e H. by rewrite lookup_empty in H.
  - intros n k (ids & H & _). by rewrite lookup_empty in H.
  - intros n k (ids & H & _). by rewrite lookup_empty in H.
Qed.

(** Operations that keep the edges and every index but the content index,
    and keep the type of every node. *)
Lemma exact_transfer (g g' : MemoryGraph) :
  index_exact g →
  edges g' = edges g → outgoing g' = outgoing g → incoming g' = incoming g →
  nodesByType g' = nodesByType g → edgesByType g' = edgesByType g →
  (∀ k n', nodes g' !! k = Some n' →
           ∃ n, nodes g !! k = Some n ∧ n_type n = n_type n') →
  index_exact g'.
Proof.
  intros Hex He Ho Hi Ht Het Hback. split.
  - intros k n' Hk. rewrite Ht. destruct (Hback k n' Hk) as (n & Hn & <-).
    by apply (ex_nodes_typed g Hex).
  - rewrite He, Het. apply (ex_edges_typed g Hex).
  - rewrite He, Het. apply (ex_edge_types g Hex).
  - rewrite He, Ho, Hi. apply (ex_bidirectional g Hex).
  - rewrite He, Ho. apply (ex_outgoing g Hex).
  - rewrite He, Hi. apply (ex_incoming g Hex).
Qed.

Section RemoveEdgeExact.

Variables (edgeId : string) (g : MemoryGraph) (e : MemoryEdge).
Hypothesis He : edges g !! edgeId = Some e.

Lemma removeEdge_outgoing_exact (k x : string) :
  adj_mem (outgoing (_removeEdgeInternal edgeId g)) k x ↔
  adj_mem (outgoing g) k x ∧
  ¬ (x = edgeId ∧
     (sourceId e = k ∨ (bidirectional e = true ∧ targetId e = k))).
Proof.
  unfold _removeEdgeInternal. rewrite He. simpl.
  destruct (bidirectional e); rewrite !adj_mem_adj_delete;
    intuition congruence.
Qed.

Lemma removeEdge_incoming_exact (k x : string) :
  adj_mem (incoming (_removeEdgeInternal edgeId g)) k x ↔
  adj_mem (incoming g) k x ∧
  ¬ (x = edgeId ∧
     (targetId e = k ∨ (bidirectional e = true ∧ sourceId e = k))).
Proof.
  unfold _removeEdgeInternal. rewrite He. simpl.
  destruct (bidirectional e); rewrite !adj_mem_adj_delete;
    intuition congruence.
Qed.

Lemma removeEdge_edgesByType_exact (t x : string) :
  adj_mem (edgesByType (_removeEdgeInternal edgeId g)) t x ↔
  adj_mem (edgesByType g) t x ∧ ¬ (e_type e = t ∧ x = edgeId).
Proof.
  unfold _removeEdgeInternal. rewrite He. simpl.
  by rewrite adj_mem_adj_delete.
Qed.

End RemoveEdgeExact.

(** [_removeEdgeInternal] keeps the graph consistent. *)
Lemma consistent_removeEdge (edgeId : string) (g : MemoryGraph) :
  graph_wf g → index_exact g →
  graph_wf (_removeEdgeInternal edgeId g) ∧
  index_exact (_removeEdgeInternal edgeId g).
Proof.
  intros Hwf Hex.
  destruct (edges g !! edgeId) as [e|] eqn:He.
  2:{ unfold _removeEdgeInternal. by rewrite He. }
  destruct (removeEdge_frame edgeId g) as (Hn & Ht & Hc & Hs & Ha).
  pose proof (removeEdge_edges edgeId g) as Hed.
  assert (Hold : ∀ k e0, edges (_removeEdgeInternal edgeId g) !! k = Some e0 →
                         k ≠ edgeId ∧ edges g !! k = Some e0).
  { intros k e0. rewrite Hed, lookup_delete_Some. intros [? ?].
    split; [congruence|done]. }
  split; split.
  - intros k. rewrite Hn. intros Hk.
    destruct (removeEdge_adjacency_dom edgeId g k) as [-> ->].
    by apply (wf_adjacency g Hwf).
  - intros k e0 H0. apply Hold in H0 as [_ H0]. rewrite Hn.
    by apply (wf_endpoints g Hwf k).
  - intros k e0 H0. apply Hold in H0 as [Hne H0].
    destruct (wf_edges_listed g Hwf k e0 H0).
    rewrite (removeEdge_outgoing_exact edgeId g e He),
            (removeEdge_incoming_exact edgeId g e He). tauto.
  - rewrite Hn, Ht. apply (wf_type_index g Hwf).
  - rewrite Hn, Hc. apply (wf_content_index g Hwf).
  - rewrite Hn, Ht. apply (ex_nodes_typed g Hex).
  - intros k e0 H0. apply Hold in H0 as [Hne H0].
    rewrite (removeEdge_edgesByType_exact edgeId g e He).
    split; [by apply (ex_edges_typed g Hex)|tauto].
  - intros t k. rewrite (removeEdge_edgesByType_exact edgeId g e He).
    intros [Hmem Hno]. destruct (ex_edge_types g Hex t k Hmem) as (e0 & H0 & Hty).
    exists e0. split; [|done]. rewrite Hed. apply lookup_delete_Some.
    split; [|done]. intros <-. rewrite He in H0. injection H0 as <-. tauto.
  - intros k e0 H0 Hb. apply Hold in H0 as [Hne H0].
    destruct (ex_bidirectional g Hex k e0 H0 Hb).
    rewrite (removeEdge_outgoing_exact edgeId g e He),
            (removeEdge_incoming_exact edgeId g e He). tauto.
  - intros n k. rewrite (removeEdge_outgoing_exact edgeId g e He).
    intros [Hmem Hno]. destruct (ex_outgoing g Hex n k Hmem) as (e0 & H0 & Hor).
    exists e0. split; [|done]. rewrite Hed. apply lookup_delete_Some.
    split; [|done]. intros <-. rewrite He in H0. injection H0 as <-. tauto.
  - intros n k. rewrite (removeEdge_incoming_exact edgeId g e He).
    intros [Hmem Hno]. destruct (ex_incoming g Hex n k Hmem) as (e0 & H0 & Hor).
    exists e0. split; [|done]. rewrite Hed. apply lookup_delete_Some.
    split; [|done]. intros <-. rewrite He in H0. injection H0 as <-. tauto.
Qed.

Lemma consistent_removeEdges (ids : list string) (g : MemoryGraph) :
  graph_wf g → index_exact g →
  graph_wf (removeEdges ids g) ∧ index_exact (removeEdges ids g).
Proof.
  revert g. induction ids as [|k ids IH]; intros g Hwf Hex; [done|].
  rewrite removeEdges_cons.
  destruct (consistent_removeEdge k g Hwf Hex). by apply IH.
Qed.

Lemma exact_removeNode (now : Z) (nodeId : string) (g : MemoryGraph) :
  graph_wf g → index_exact g → index_exact (removeNode now nodeId g).2.
Proof.
  intros Hwf Hex. destruct (nodes g !! nodeId) as [node|] eqn:Hnode.
  2:{ unfold removeNode. by rewrite Hnode. }
  rewrite (removeNode_unfold now nodeId g node Hnode). cbn [snd].
  destruct (removeNode_g2_frame nodeId g) as (Hn & Ht & Hc & Hs).
  pose proof (removeNode_surviving_edge nodeId g Hwf) as Hsurv.
  set (outEdges := default [] (outgoing g !! nodeId)) in *.
  set (g1 := removeEdges outEdges g) in *.
  set (inEdges := default [] (incoming g1 !! nodeId)) in *.
  set (g2 := removeEdges inEdges g1) in *.
  assert (Hex2 : index_exact g2).
  { destruct (consistent_removeEdges outEdges g Hwf Hex) as [Hwf1 Hex1].
    by destruct (consistent_removeEdges inEdges g1 Hwf1 Hex1). }
  split; cbn [nodes edges outgoing incoming nodesByType edgesByType].
  - intros k n Hk. rewrite Hn in Hk. apply lookup_delete_Some in Hk as [Hne Hk].
    rewrite Ht. apply adj_mem_adj_delete.
    split; [by apply (ex_nodes_typed g Hex)|]. intros [_ ?]. congruence.
  - apply (ex_edges_typed g2 Hex2).
  - apply (ex_edge_types g2 Hex2).
  - intros k e Hk Hb. destruct (Hsurv k e Hk) as (_ & Hs0 & Ht0).
    destruct (ex_bidirectional g2 Hex2 k e Hk Hb).
    rewrite !adj_mem_delete. split; split; congruence.
  - intros n k Hmem. apply adj_mem_delete in Hmem as [_ Hmem].
    by apply (ex_outgoing g2 Hex2).
  - intros n k Hmem. apply adj_mem_delete in Hmem as [_ Hmem].
    by apply (ex_incoming g2 Hex2).
Qed.

Lemma exact_addNode (now : Z) (fresh type content : string)
    (metadata : Metadata) (g : MemoryGraph) :
  graph_wf g → index_exact g → nodes g !! fresh = None →
  index_exact (addNode now fresh type content metadata g).2.
Proof.
  intros Hwf Hex Hfresh.
  destruct (contentIndex g !! _hashContent type content ≫= λ existingId,
              nodes g !! existingId ≫= λ existingNode,
                Some (existingId, existingNode)) as [[k n]|] eqn:Hexi.
  - apply bind_Some in Hexi as (k' & Hidx & Hexi).
    apply bind_Some in Hexi as (n' & Hnode & [= -> ->]).
    rewrite (addNode_existing now fresh type content metadata g k n Hidx Hnode).
    destruct (merge_existing_shape now metadata n) as [Hty Hco].
    apply (exact_transfer g); simpl; try done.
    intros k0 n0 Hk0.
    apply lookup_insert_Some in Hk0 as [[<- <-]|[_ Hk0]]; eauto.
  - unfold addNode. rewrite Hexi. cbn [snd].
    assert (Hnosrc : ∀ k e, edges g !! k = Some e →
                            sourceId e ≠ fresh ∧ targetId e ≠ fresh).
    { intros k e He. destruct (wf_endpoints g Hwf k e He) as [[? Hs] [? Ht]].
      split; intros Heq; rewrite Heq in *; congruence. }
    split; simpl.
    + intros k n Hk. apply adj_mem_index_add.
      apply lookup_insert_Some in Hk as [[<- <-]|[_ Hk]]; [by right|].
      left. by apply (ex_nodes_typed g Hex).
    + apply (ex_edges_typed g Hex).
    + apply (ex_edge_types g Hex).
    + intros k e Hk Hb. destruct (Hnosrc k e Hk).
      destruct (ex_bidirectional g Hex k e Hk Hb).
      rewrite !adj_mem_insert_nil. split; split; congruence.
    + intros n k Hmem. apply adj_mem_insert_nil in Hmem as [_ Hmem].
      by apply (ex_outgoing g Hex).
    + intros n k Hmem. apply adj_mem_insert_nil in Hmem as [_ Hmem].
      by apply (ex_incoming g Hex).
Qed.

Lemma exact_updateNode (now : Z) (nodeId : string) (updates : NodeUpdates)
    (g g' : MemoryGraph) :
  index_exact g → updateNode now nodeId updates g = Some g' → index_exact g'.
Proof.
  intros Hex. unfold updateNode.
  destruct (nodes g !! nodeId) as [node|] eqn:Hnode; [|done].
  destruct (u_content updates) as [c|]; intros [= <-];
    (apply (exact_transfer g); simpl; try done;
     intros k n' Hk;
     apply lookup_insert_Some in Hk as [[<- <-]|[_ Hk]]; [|by eauto];
     exists node; split; [done|];
     destruct (u_importance updates), (u_confidence updates); done).
Qed.

Lemma exact_addEdge (now : Z) (fresh src tgt type : string)
    (metadata : EdgeOptions) (g : MemoryGraph) :
  graph_wf g → index_exact g → edges g !! fresh = None →
  index_exact (addEdge now fresh src tgt type metadata g).2.
Proof.
  intros Hwf Hex Hfresh. unfold addEdge.
  destruct (nodes g !! src) as [ns|] eqn:Hsrc; [|done].
  destruct (nodes g !! tgt) as [nt|] eqn:Htgt; [|done].
  destruct (findEdge src tgt type g) as [k|]; cbn [snd].
  - assert (Hsame : ∀ k' e', alter (reinforce now) k (edges g) !! k' = Some e' →
                      ∃ e, edges g !! k' = Some e ∧
                           sourceId e' = sourceId e ∧ targetId e' = targetId e ∧
                           e_type e' = e_type e ∧
                           bidirectional e' = bidirectional e).
    { intros k' e' H. apply lookup_alter_Some in H as [(<- & e & He & ->)|[_ He]];
        eauto 10. }
    assert (Hfwd : ∀ k' e, edges g !! k' = Some e →
                      ∃ e', alter (reinforce now) k (edges g) !! k' = Some e' ∧
                           sourceId e' = sourceId e ∧ targetId e' = targetId e ∧
                           e_type e' = e_type e ∧
                           bidirectional e' = bidirectional e).
    { intros k' e He. destruct (decide (k = k')) as [<-|Hne].
      - rewrite lookup_alter_eq, He. simpl. eauto 10.
      - rewrite lookup_alter_ne by done. eauto 10. }
    split; cbn [nodes edges outgoing incoming nodesByType edgesByType].
    + apply (ex_nodes_typed g Hex).
    + intros k' e' H. destruct (Hsame k' e' H) as (e & He & _ & _ & -> & _).
      by apply (ex_edges_typed g Hex).
    + intros t k' Hmem. destruct (ex_edge_types g Hex t k' Hmem) as (e & He & <-).
      destruct (Hfwd k' e He) as (e' & He' & _ & _ & Hty & _). eauto.
    + intros k' e' H Hb. destruct (Hsame k' e' H) as (e & He & -> & -> & _ & Hbb).
      apply (ex_bidirectional g Hex k' e He). congruence.
    + intros n k' Hmem. destruct (ex_outgoing g Hex n k' Hmem) as (e & He & Hor).
      destruct (Hfwd k' e He) as (e' & He' & Hs' & Ht' & _ & Hb').
      exists e'. split; [done|]. by rewrite Hs', Ht', Hb'.
    + intros n k' Hmem. destruct (ex_incoming g Hex n k' Hmem) as (e & He & Hor).
      destruct (Hfwd k' e He) as (e' & He' & Hs' & Ht' & _ & Hb').
      exists e'. split; [done|]. by rewrite Hs', Ht', Hb'.
  - destruct (wf_adjacency g Hwf src) as [Hos His]; [eauto|].
    destruct (wf_adjacency g Hwf tgt) as [Hot Hit]; [eauto|].
    cbn [MemoryEdge_new e_id bidirectional].
    set (b := default false (eo_bidirectional metadata)).
    set (edge := MemoryEdge_new now fresh src tgt type metadata).
    assert (Hother : ∀ k e, edges g !! k = Some e → k ≠ fresh).
    { intros k e He ->. congruence. }
    split; cbn [nodes edges outgoing incoming nodesByType edgesByType].
    + apply (ex_nodes_typed g Hex).
    + intros k e He. apply adj_mem_index_add.
      apply lookup_insert_Some in He as [[<- <-]|[_ He]]; [by right|].
      left. by apply (ex_edges_typed g Hex).
    + intros t k Hmem. apply adj_mem_index_add in Hmem as [Hmem|[<- ->]].
      * destruct (ex_edge_types g Hex t k Hmem) as (e & He & Hty).
        exists e. split; [|done]. rewrite lookup_insert_ne; [done|].
        intros <-. congruence.
      * rewrite lookup_insert_eq. eauto.
    + intros k e He Hb.
      apply lookup_insert_Some in He as [[<- <-]|[_ He]].
      * cbn [bidirectional edge MemoryEdge_new] in Hb. fold b in Hb.
        rewrite Hb. cbn [targetId sourceId edge MemoryEdge_new].
        split; apply adj_mem_adj_add_new; unfold adj_add;
          by rewrite is_Some_alter.
      * destruct (ex_bidirectional g Hex k e He Hb).
        destruct b; split; repeat apply adj_mem_adj_add_mono; done.
    + intros n k Hmem.
      assert (Hcases : adj_mem (outgoing g) n k ∨
                       (k = fresh ∧ (n = src ∨ (b = true ∧ n = tgt)))).
      { destruct b; repeat (apply adj_mem_adj_add in Hmem as [Hmem|Hmem]);
          try tauto; destruct Hmem as (<- & -> & _); tauto. }
      destruct Hcases as [Hold|[-> Hn]].
      * destruct (ex_outgoing g Hex n k Hold) as (e & He & Hor).
        exists e. split; [|done]. rewrite lookup_insert_ne; [done|].
        intros <-. congruence.
      * exists edge. rewrite lookup_insert_eq. split; [done|].
        cbn [edge MemoryEdge_new sourceId targetId bidirectional]. fold b.
        destruct Hn as [->|[-> ->]]; tauto.
    + intros n k Hmem.
      assert (Hcases : adj_mem (incoming g) n k ∨
                       (k = fresh ∧ (n = tgt ∨ (b = true ∧ n = src)))).
      { destruct b; repeat (apply adj_mem_adj_add in Hmem as [Hmem|Hmem]);
          try tauto; destruct Hmem as (<- & -> & _); tauto. }
      destruct Hcases as [Hold|[-> Hn]].
      * destruct (ex_incoming g Hex n k Hold) as (e & He & Hor).
        exists e. split; [|done]. rewrite lookup_insert_ne; [done|].
        intros <-. congruence.
      * exists edge. rewrite lookup_insert_eq. split; [done|].
        cbn [edge MemoryEdge_new sourceId targetId bidirectional]. fold b.
        destruct Hn as [->|[-> ->]]; tauto.
Qed.

Lemma exact_endSession (now : Z) (g : MemoryGraph) :
  index_exact g → index_exact (endSession now g).
Proof.
  intros Hex. unfold endSession. destruct (activeSession g); [|done].
  apply (exact_transfer g); simpl; try done. eauto.
Qed.

Lemma exact_startSession (now : Z) (fresh : string)
    (metadata : SessionOptions) (g : MemoryGraph) :
  index_exact g → index_exact (startSession now fresh metadata g).2.
Proof.
  intros Hex. apply (exact_endSession now) in Hex.
  apply (exact_transfer (endSession now g)); simpl; try done. eauto.
Qed.

Lemma exact_applyDecay (decayAmount : Q) (g : MemoryGraph) :
  index_exact g → index_exact (applyDecay decayAmount g).
Proof.
  intros Hex. apply (exact_transfer g); simpl; try done.
  intros k n' Hk. rewrite lookup_fmap in Hk.
  destruct (nodes g !! k) as [n|]; [|done]. injection Hk as <-. eauto.
Qed.

Lemma consistent_removeNodes (now : Z) (ids : list string) (g : MemoryGraph) :
  graph_wf g → index_exact g →
  index_exact (foldl (λ acc nodeId, (removeNode now nodeId acc).2) g ids).
Proof.
  revert g. induction ids as [|k ids IH]; intros g Hwf Hex; [done|].
  simpl. apply IH; [by apply graph_wf_removeNode|by apply exact_removeNode].
Qed.

Lemma exact_apply_op (op : GraphOp) (g : MemoryGraph) :
  graph_wf g → index_exact g → op_fresh op g → index_exact (apply_op op g).
Proof.
  intros Hwf Hex Hfresh. destruct op; simpl in *.
  - by apply exact_addNode.
  - destruct (updateNode now nodeId updates g) as [g'|] eqn:Hu; simpl; [|done].
    by apply (exact_updateNode now nodeId updates g).
  - by apply exact_removeNode.
  - by apply exact_addEdge.
  - by apply exact_startSession.
  - by apply exact_endSession.
  - by apply exact_applyDecay.
  - by apply consistent_removeNodes.
Qed.

Lemma reachable_exact (g : MemoryGraph) : reachable g → index_exact g.
Proof.
  intros Hr. assert (H : graph_wf g ∧ index_exact g); [|tauto].
  induction Hr as [now|g op _ [Hwf Hex] Hfresh].
  - split; [apply graph_wf_new|apply exact_new].
  - split; [by apply graph_wf_apply_op|by apply exact_apply_op].
Qed.


(** ** Sets without repetition *)

Lemma NoDup_set_add (x : string) (l : list string) :
  NoDup l → NoDup (set_add x l).
Proof.
  intros Hl. unfold set_add. destruct (decide (x ∈ l)) as [Hin|Hnin]; [done|].
  apply NoDup_app. split; [done|]. split; [|apply NoDup_singleton].
  intros y Hy Hy'. apply list_elem_of_singleton in Hy' as ->. done.
Qed.

Lemma NoDup_set_delete (x : string) (l : list string) :
  NoDup l → NoDup (set_delete x l).
Proof. apply NoDup_filter. Qed.

Lemma nodup_alter (f : list string → list string)
    (k : string) (m : gmap string (list string)) :
  (∀ l, NoDup l → NoDup (f l)) → nodup_sets m → nodup_sets (alter f k m).
Proof.
  intros Hf Hm k' ids H.
  apply lookup_alter_Some in H as [(<- & l & Hl & ->)|[_ Hl]]; eauto.
Qed.

Lemma nodup_adj_add (k x : string) (m : gmap string (list string)) :
  nodup_sets m → nodup_sets (adj_add k x m).
Proof. apply nodup_alter. intros l. apply NoDup_set_add. Qed.

Lemma nodup_adj_delete (k x : string) (m : gmap string (list string)) :
  nodup_sets m → nodup_sets (adj_delete k x m).
Proof. apply nodup_alter. intros l. apply NoDup_set_delete. Qed.

Lemma nodup_index_add (k x : string) (m : gmap string (list string)) :
  nodup_sets m → nodup_sets (index_add k x m).
Proof.
  intros Hm k' ids H. unfold index_add in H.
  apply lookup_insert_Some in H as [[<- <-]|[_ Hl]]; [|eauto].
  apply NoDup_set_add. destruct (m !! k) as [l|] eqn:Hl; simpl; [eauto|].
  apply NoDup_nil_2.
Qed.

Lemma nodup_insert_nil (k : string) (m : gmap string (list string)) :
  nodup_sets m → nodup_sets (<[k := []]> m).
Proof.
  intros Hm k' ids H.
  apply lookup_insert_Some in H as [[<- <-]|[_ Hl]]; [apply NoDup_nil_2|eauto].
Qed.

Lemma nodup_delete (k : string) (m : gmap string (list string)) :
  nodup_sets m → nodup_sets (delete k m).
Proof. intros Hm k' ids H. apply lookup_delete_Some in H as [_ H]. eauto. Qed.

Lemma nodup_new (now : Z) : sets_nodup (MemoryGraph_new now).
Proof.
  repeat split; intros k x H; simpl in H; by rewrite lookup_empty in H.
Qed.

Lemma nodup_removeEdge (edgeId : string) (g : MemoryGraph) :
  sets_nodup g → sets_nodup (_removeEdgeInternal edgeId g).
Proof.
  intros (Ho & Hi & Hn & He & Hs). unfold _removeEdgeInternal.
  destruct (edges g !! edgeId) as [e|]; [|done].
  repeat split; simpl; try done.
  - destruct (bidirectional e); repeat apply nodup_adj_delete; done.
  - destruct (bidirectional e); repeat apply nodup_adj_delete; done.
  - by apply nodup_adj_delete.
Qed.

Lemma nodup_removeEdges (ids : list string) (g : MemoryGraph) :
  sets_nodup g → sets_nodup (removeEdges ids g).
Proof.
  revert g. induction ids as [|k ids IH]; intros g H; [done|].
  rewrite removeEdges_cons. by apply IH, nodup_removeEdge.
Qed.

Lemma nodup_removeNode (now : Z) (nodeId : string) (g : MemoryGraph) :
  sets_nodup g → sets_nodup (removeNode now nodeId g).2.
Proof.
  intros H. destruct (nodes g !! nodeId) as [node|] eqn:Hnode.
  2:{ unfold removeNode. by rewrite Hnode. }
  rewrite (removeNode_unfold now nodeId g node Hnode). cbn [snd].
  set (g2 := removeEdges _ (removeEdges _ g)).
  assert (H2 : sets_nodup g2) by (by do 2 apply nodup_removeEdges).
  destruct H2 as (Ho & Hi & Hn & He & Hs).
  repeat split; simpl; try done.
  - by apply nodup_delete.
  - by apply nodup_delete.
  - by apply nodup_adj_delete.
  - intros k s Hk. rewrite lookup_fmap in Hk.
    destruct (sessions g2 !! k) as [s0|] eqn:Hs0; [|done].
    injection Hk as <-. simpl. apply NoDup_set_delete. eauto.
Qed.

Lemma nodup_removeNodes (now : Z) (ids : list string) (g : MemoryGraph) :
  sets_nodup g →
  sets_nodup (foldl (λ acc nodeId, (removeNode now nodeId acc).2) g ids).
Proof.
  revert g. induction ids as [|k ids IH]; intros g H; [done|].
  simpl. by apply IH, nodup_removeNode.
Qed.

Lemma nodup_addNode (now : Z) (fresh type content : string)
    (metadata : Metadata) (g : MemoryGraph) :
  sets_nodup g → sets_nodup (addNode now fresh type content metadata g).2.
Proof.
  intros (Ho & Hi & Hn & He & Hs). unfold addNode.
  destruct (contentIndex g !! _hashContent type content ≫= _) as [[k n]|];
    [done|].
  repeat split; simpl; try done.
  - by apply nodup_insert_nil.
  - by apply nodup_insert_nil.
  - by apply nodup_index_add.
  - intros k s Hk. destruct (activeSession g) as [a|]; [|eauto].
    apply lookup_alter_Some in Hk as [(<- & s0 & Hs0 & ->)|[_ Hk]]; [|eauto].
    simpl. apply NoDup_set_add. eauto.
Qed.

Lemma nodup_addEdge (now : Z) (fresh src tgt type : string)
    (metadata : EdgeOptions) (g : MemoryGraph) :
  sets_nodup g → sets_nodup (addEdge now fresh src tgt type metadata g).2.
Proof.
  intros (Ho & Hi & Hn & He & Hs). unfold addEdge.
  destruct (nodes g !! src); [|done]. destruct (nodes g !! tgt); [|done].
  destruct (findEdge src tgt type g); [done|].
  repeat split; simpl; try done.
  - destruct (default false (eo_bidirectional metadata));
      repeat apply nodup_adj_add; done.
  - destruct (default false (eo_bidirectional metadata));
      repeat apply nodup_adj_add; done.
  - by apply nodup_index_add.
Qed.

Lemma nodup_endSession (now : Z) (g : MemoryGraph) :
  sets_nodup g → sets_nodup (endSession now g).
Proof.
  intros (Ho & Hi & Hn & He & Hs). unfold endSession.
  destruct (activeSession g) as [a|]; [|done].
  repeat split; simpl; try done.
  intros k s Hk.
  apply lookup_alter_Some in Hk as [(<- & s0 & Hs0 & ->)|[_ Hk]];
    [simpl|]; eauto.
Qed.

Lemma nodup_apply_op (op : GraphOp) (g : MemoryGraph) :
  sets_nodup g → sets_nodup (apply_op op g).
Proof.
  intros H. destruct op; simpl.
  - by apply nodup_addNode.
  - unfold updateNode. destruct (nodes g !! nodeId) as [node|]; [|done].
    destruct (u_content updates); done.
  - by apply nodup_removeNode.
  - by apply nodup_addEdge.
  - apply (nodup_endSession now) in H. destruct H as (Ho & Hi & Hn & He & Hs).
    repeat split; simpl; try done.
    intros k s Hk. apply lookup_insert_Some in Hk as [[<- <-]|[_ Hk]]; [|eauto].
    apply NoDup_nil_2.
  - by apply nodup_endSession.
  - done.
  - by apply nodup_removeNodes.
Qed.

Lemma reachable_nodup (g : MemoryGraph) : reachable g → sets_nodup g.
Proof.
  induction 1 as [now|g op _ IH _]; [apply nodup_new|by apply nodup_apply_op].
Qed.


(** ** The counters of [stats] *)

Lemma size_alter {A} (f : A → A) (k : string) (m : gmap string A) :
  size (alter f k m) = size m.
Proof.
  rewrite <-(size_dom (D:=gset string) (alter f k m)).
  rewrite <-(size_dom (D:=gset string) m). by rewrite dom_alter_L.
Qed.

Lemma size_delete_Z {A} (k : string) (m : gmap string A) :
  is_Some (m !! k) →
  Z.of_nat (size (delete k m)) = (Z.of_nat (size m) - 1)%Z.
Proof.
  intros [x Hx]. rewrite <-(insert_delete_id m k x Hx) at 2.
  rewrite map_size_insert_None by apply lookup_delete_eq. lia.
Qed.

Lemma size_insert_Z {A} (k : string) (x : A) (m : gmap string A) :
  m !! k = None →
  Z.of_nat (size (<[k := x]> m)) = (Z.of_nat (size m) + 1)%Z.
Proof. intros H. rewrite map_size_insert_None by done. lia. Qed.

Lemma stats_removeEdge (edgeId : string) (g : MemoryGraph) :
  stats_agree g → stats_agree (_removeEdgeInternal edgeId g).
Proof.
  intros [Hn He]. unfold _removeEdgeInternal.
  destruct (edges g !! edgeId) as [e|] eqn:H; [|done].
  split; simpl; [done|]. rewrite size_delete_Z by eauto. lia.
Qed.

Lemma stats_removeEdges (ids : list string) (g : MemoryGraph) :
  stats_agree g → stats_agree (removeEdges ids g).
Proof.
  revert g. induction ids as [|k ids IH]; intros g H; [done|].
  rewrite removeEdges_cons. by apply IH, stats_removeEdge.
Qed.

Lemma stats_removeNode (now : Z) (nodeId : string) (g : MemoryGraph) :
  stats_agree g → stats_agree (removeNode now nodeId g).2.
Proof.
  intros H. destruct (nodes g !! nodeId) as [node|] eqn:Hnode.
  2:{ unfold removeNode. by rewrite Hnode. }
  rewrite (removeNode_unfold now nodeId g node Hnode). cbn [snd].
  destruct (removeNode_g2_frame nodeId g) as (Hn & _).
  set (g2 := removeEdges _ (removeEdges _ g)) in *.
  assert (H2 : stats_agree g2) by (by do 2 apply stats_removeEdges).
  destruct H2 as [H2n H2e]. split; simpl; [|done].
  rewrite size_delete_Z; [lia|]. rewrite Hn. eauto.
Qed.

Lemma stats_removeNodes (now : Z) (ids : list string) (g : MemoryGraph) :
  stats_agree g →
  stats_agree (foldl (λ acc nodeId, (removeNode now nodeId acc).2) g ids).
Proof.
  revert g. induction ids as [|k ids IH]; intros g H; [done|].
  simpl. by apply IH, stats_removeNode.
Qed.

Lemma stats_addNode (now : Z) (fresh type content : string)
    (metadata : Metadata) (g : MemoryGraph) :
  stats_agree g → nodes g !! fresh = None →
  stats_agree (addNode now fresh type content metadata g).2.
Proof.
  intros [Hn He] Hfresh.
  destruct (contentIndex g !! _hashContent type content ≫= λ existingId,
              nodes g !! existingId ≫= λ existingNode,
                Some (existingId, existingNode)) as [[k n]|] eqn:Hexi.
  - apply bind_Some in Hexi as (k' & Hidx & Hexi).
    apply bind_Some in Hexi as (n' & Hnode & [= -> ->]).
    rewrite (addNode_existing now fresh type content metadata g k n Hidx Hnode).
    split; simpl; [|done]. rewrite map_size_insert_Some; eauto.
  - unfold addNode. rewrite Hexi. split; simpl; [|done].
    rewrite size_insert_Z by done. lia.
Qed.

Lemma stats_updateNode (now : Z) (nodeId : string) (updates : NodeUpdates)
    (g g' : MemoryGraph) :
  stats_agree g → updateNode now nodeId updates g = Some g' → stats_agree g'.
Proof.
  intros [Hn He]. unfold updateNode.
  destruct (nodes g !! nodeId) as [node|] eqn:Hnode; [|done].
  destruct (u_content updates); intros [= <-]; split; simpl; try done;
    rewrite map_size_insert_Some; eauto.
Qed.

Lemma stats_addEdge (now : Z) (fresh src tgt type : string)
    (metadata : EdgeOptions) (g : MemoryGraph) :
  stats_agree g → edges g !! fresh = None →
  stats_agree (addEdge now fresh src tgt type metadata g).2.
Proof.
  intros [Hn He] Hfresh. unfold addEdge.
  destruct (nodes g !! src); [|done]. destruct (nodes g !! tgt); [|done].
  destruct (findEdge src tgt type g); split; simpl; try done.
  - by rewrite size_alter.
  - rewrite size_insert_Z by done. lia.
Qed.

Lemma stats_endSession (now : Z) (g : MemoryGraph) :
  stats_agree g → stats_agree (endSession now g).
Proof. intros H. unfold endSession. by destruct (activeSession g). Qed.

Lemma stats_apply_op (op : GraphOp) (g : MemoryGraph) :
  stats_agree g → op_fresh op g → stats_agree (apply_op op g).
Proof.
  intros H Hfresh. destruct op; simpl in *.
  - by apply stats_addNode.
  - destruct (updateNode now nodeId updates g) as [g'|] eqn:Hu; simpl; [|done].
    by apply (stats_updateNode now nodeId updates g).
  - by apply stats_removeNode.
  - by apply stats_addEdge.
  - by apply (stats_endSession now) in H.
  - by apply stats_endSession.
  - destruct H as [Hn He]. split; simpl; [|done]. by rewrite map_size_fmap.
  - by apply stats_removeNodes.
Qed.

Lemma reachable_stats (g : MemoryGraph) : reachable g → stats_agree g.
Proof.
  induction 1 as [now|g op _ IH Hfresh]; [done|by apply stats_apply_op].
Qed.

(** ** No two edges with the same ends and type *)

Lemma unique_transfer (g g' : MemoryGraph) :
  edges_unique g →
  (∀ k e', edges g' !! k = Some e' →
           ∃ e, edges g !! k = Some e ∧ sourceId e' = sourceId e ∧
                targetId e' = targetId e ∧ e_type e' = e_type e) →
  edges_unique g'.
Proof.
  intros Hu Hback k1 k2 e1 e2 H1 H2 Hs Ht Hty.
  destruct (Hback k1 e1 H1) as (x1 & Hx1 & Hs1 & Ht1 & Hy1).
  destruct (Hback k2 e2 H2) as (x2 & Hx2 & Hs2 & Ht2 & Hy2).
  apply (Hu k1 k2 x1 x2); congruence.
Qed.

(** [findEdge] finds an edge from [src] to [tgt] of the given type when
    there is one. *)
Lemma findEdge_None (src tgt type : string) (g : MemoryGraph) :
  graph_wf g → findEdge src tgt type g = None →
  ∀ k e, edges g !! k = Some e →
         ¬ (sourceId e = src ∧ targetId e = tgt ∧ e_type e = type).
Proof.
  intros Hwf Hf k e He (<- & <- & <-).
  destruct (wf_edges_listed g Hwf k e He) as [(ids & Hids & Hin) _].
  unfold findEdge in Hf. rewrite Hids in Hf.
  apply find_none with (x := k) in Hf; [|by apply list_elem_of_In].
  rewrite He in Hf. by rewrite !bool_decide_eq_true_2 in Hf.
Qed.

Lemma findEdge_Some (src tgt type k : string) (g : MemoryGraph) :
  findEdge src tgt type g = Some k →
  adj_mem (outgoing g) src k ∧
  ∃ e, edges g !! k = Some e ∧ targetId e = tgt ∧ e_type e = type.
Proof.
  unfold findEdge. destruct (outgoing g !! src) as [ids|] eqn:Hids; [|done].
  intros Hf. apply find_some in Hf as [Hin Hp].
  split; [exists ids; split; [done|by apply list_elem_of_In]|].
  destruct (edges g !! k) as [e|]; [|done].
  apply andb_true_iff in Hp as [H1 H2].
  apply bool_decide_eq_true in H1, H2. eauto.
Qed.

Lemma unique_removeEdges (ids : list string) (g : MemoryGraph) :
  edges_unique g → edges_unique (removeEdges ids g).
Proof.
  intros Hu. apply (unique_transfer g); [done|].
  intros k e' H. apply removeEdges_edges in H as [H _]. eauto.
Qed.

Lemma unique_removeNode (now : Z) (nodeId : string) (g : MemoryGraph) :
  edges_unique g → edges_unique (removeNode now nodeId g).2.
Proof.
  intros Hu. destruct (nodes g !! nodeId) as [node|] eqn:Hnode.
  2:{ unfold removeNode. by rewrite Hnode. }
  rewrite (removeNode_unfold now nodeId g node Hnode). cbn [snd].
  apply (unique_transfer g); [done|]. cbn [edges].
  intros k e' H. apply removeEdges_edges in H as [H _].
  apply removeEdges_edges in H as [H _]. eauto.
Qed.

Lemma unique_removeNodes (now : Z) (ids : list string) (g : MemoryGraph) :
  edges_unique g →
  edges_unique (foldl (λ acc nodeId, (removeNode now nodeId acc).2) g ids).
Proof.
  revert g. induction ids as [|k ids IH]; intros g H; [done|].
  simpl. by apply IH, unique_removeNode.
Qed.

Lemma unique_addEdge (now : Z) (fresh src tgt type : string)
    (metadata : EdgeOptions) (g : MemoryGraph) :
  graph_wf g → edges_unique g →
  edges_unique (addEdge now fresh src tgt type metadata g).2.
Proof.
  intros Hwf Hu. unfold addEdge.
  destruct (nodes g !! src); [|done]. destruct (nodes g !! tgt); [|done].
  destruct (findEdge src tgt type g) as [k|] eqn:Hf; cbn [snd].
  - apply (unique_transfer g); [done|]. cbn [edges]. intros k' e' H.
    apply lookup_alter_Some in H as [(<- & e & He & ->)|[_ He]]; eauto 10.
  - pose proof (findEdge_None src tgt type g Hwf Hf) as Hnone.
    intros k1 k2 e1 e2 H1 H2 Hs Ht Hty. cbn [edges] in H1, H2.
    apply lookup_insert_Some in H1 as [[<- <-]|[Hne1 H1]];
      apply lookup_insert_Some in H2 as [[<- <-]|[Hne2 H2]].
    + done.
    + simpl in Hs, Ht, Hty. exfalso. apply (Hnone k2 e2 H2). done.
    + simpl in Hs, Ht, Hty. exfalso. apply (Hnone k1 e1 H1). done.
    + by apply (Hu k1 k2 e1 e2).
Qed.

Lemma unique_apply_op (op : GraphOp) (g : MemoryGraph) :
  graph_wf g → edges_unique g → edges_unique (apply_op op g).
Proof.
  intros Hwf Hu. destruct op; simpl.
  - unfold addNode.
    destruct (contentIndex g !! _hashContent type content ≫= _) as [[k n]|];
      done.
  - unfold updateNode. destruct (nodes g !! nodeId) as [node|]; [|done].
    destruct (u_content updates); done.
  - by apply unique_removeNode.
  - by apply unique_addEdge.
  - unfold startSession, endSession. by destruct (activeSession g).
  - unfold endSession. by destruct (activeSession g).
  - done.
  - by apply unique_removeNodes.
Qed.

Lemma reachable_edges_unique (g : MemoryGraph) : reachable g → edges_unique g.
Proof.
  intros Hr. assert (H : graph_wf g ∧ edges_unique g); [|tauto].
  induction Hr as [now|g op _ [Hwf Hu] Hfresh].
  - split; [apply graph_wf_new|]. intros k1 k2 e1 e2 H. simpl in H.
    by rewrite lookup_empty in H.
  - split; [by apply graph_wf_apply_op|by apply unique_apply_op].
Qed.

(** ** The range of the decay *)

Lemma touch_decay_range (now : Z) (n : MemoryNode) :
  (1 # 10 <= decay n)%Q → (decay n <= 1)%Q →
  (1 # 10 <= decay (touch now n))%Q ∧ (decay (touch now n) <= 1)%Q.
Proof.
  intros Hlo Hhi. simpl.
  destruct (Q.min_spec 1 (decay n + (1 # 10))) as [[Hlt ->]|[Hle ->]]; lra.
Qed.

Lemma merge_existing_decay (now : Z) (m : Metadata) (n : MemoryNode) :
  decay (merge_existing now m n) = decay (touch now n).
Proof.
  unfold merge_existing. destruct (md_importance m) as [v|]; [|done].
  by destruct (JS.truthyQ v && JS.Qltb (importance (touch now n)) v).
Qed.

Lemma decay_removeNode (now : Z) (nodeId : string) (g : MemoryGraph) :
  decay_in_range g → decay_in_range (removeNode now nodeId g).2.
Proof.
  intros H. destruct (nodes g !! nodeId) as [node|] eqn:Hnode.
  2:{ unfold removeNode. by rewrite Hnode. }
  rewrite (removeNode_unfold now nodeId g node Hnode). cbn [snd].
  destruct (removeNode_g2_frame nodeId g) as (Hn & _).
  intros k n Hk. cbn [nodes] in Hk. rewrite Hn in Hk.
  apply lookup_delete_Some in Hk as [_ Hk]. eauto.
Qed.

Lemma decay_apply_op (op : GraphOp) (g : MemoryGraph) :
  decay_amount_nonneg op → decay_in_range g → decay_in_range (apply_op op g).
Proof.
  intros Hop H. destruct op; simpl in *.
  - unfold addNode.
    destruct (contentIndex g !! _hashContent type content ≫= _)
      as [[k n]|] eqn:Hexi; cbn [snd].
    + apply bind_Some in Hexi as (k' & Hidx & Hexi).
      apply bind_Some in Hexi as (n' & Hnode & [= -> ->]).
      intros k0 n0 Hk0. cbn [nodes] in Hk0.
      apply lookup_insert_Some in Hk0 as [[<- <-]|[_ Hk0]]; [|eauto].
      rewrite merge_existing_decay.
      destruct (H k n Hnode). by apply touch_decay_range.
    + intros k0 n0 Hk0. cbn [nodes] in Hk0.
      apply lookup_insert_Some in Hk0 as [[<- <-]|[_ Hk0]]; [|eauto].
      simpl. lra.
  - unfold updateNode. destruct (nodes g !! nodeId) as [node|] eqn:Hnode;
      [|done].
    assert (Hd : ∀ x, decay
              (match u_confidence updates with
               | Some v => set_confidence v
                   (match u_importance updates with
                    | Some v0 => set_importance v0 x | None => x end)
               | None => match u_importance updates with
                         | Some v0 => set_importance v0 x | None => x end
               end) = decay x).
    { intros x. by destruct (u_importance updates), (u_confidence updates). }
    destruct (u_content updates) as [c|]; simpl;
      intros k0 n0 Hk0; cbn [nodes] in Hk0;
      (apply lookup_insert_Some in Hk0 as [[<- <-]|[_ Hk0]]; [|by eauto]);
      rewrite Hd; simpl; eauto.
  - by apply decay_removeNode.
  - unfold addEdge. destruct (nodes g !! src); [|done].
    destruct (nodes g !! tgt); [|done].
    by destruct (findEdge src tgt type g).
  - unfold endSession. by destruct (activeSession g).
  - unfold endSession. by destruct (activeSession g).
  - intros k n Hk. cbn [nodes applyDecay] in Hk. rewrite lookup_fmap in Hk.
    destruct (nodes g !! k) as [n0|] eqn:Hn0; [|done]. injection Hk as <-.
    destruct (H k n0 Hn0) as [Hlo Hhi]. simpl.
    destruct (Q.max_spec (1 # 10) (decay n0 - decayAmount))
      as [[Hlt ->]|[Hle ->]]; lra.
  - generalize (n_id <$> filter
       (λ node, (minAge < now - createdAt (n_metadata node))%Z ∧
                JS.Qltb (score node now) minRelevance = true)
       (snd <$> map_to_list (nodes g))).
    intros ids. revert g H. induction ids as [|k ids IH]; intros g H; [done|].
    simpl. by apply IH, decay_removeNode.
Qed.

Lemma decay_run_ops (ops : list GraphOp) (g : MemoryGraph) :
  Forall decay_amount_nonneg ops → decay_in_range g →
  decay_in_range (run_ops ops g).
Proof.
  revert g. induction ops as [|op ops IH]; intros g Hops H; [done|].
  apply Forall_cons in Hops as [Hop Hops]. simpl.
  by apply IH, decay_apply_op.
Qed.


(** ** Sessions *)

Lemma sessions_new (now : Z) : sessions_consistent (MemoryGraph_new now).
Proof.
  split; simpl; done.
Qed.

(** Operations that keep the sessions and the session id of every node. *)
Lemma sessions_transfer (g g' : MemoryGraph) :
  sessions_consistent g →
  sessions g' = sessions g → activeSession g' = activeSession g →
  (∀ k n, nodes g !! k = Some n →
          ∃ n', nodes g' !! k = Some n' ∧ n_sessionId n' = n_sessionId n) →
  (∀ k n', nodes g' !! k = Some n' →
           ∃ n, nodes g !! k = Some n ∧ n_sessionId n = n_sessionId n') →
  sessions_consistent g'.
Proof.
  intros Hsc Hs Ha Hfwd Hback. split.
  - rewrite Hs, Ha. apply (sc_active g Hsc).
  - rewrite Hs, Ha. apply (sc_single g Hsc).
  - rewrite Hs. intros k s x Hk Hx.
    destruct (sc_listed_live g Hsc k s x Hk Hx) as (n & Hn & Hid).
    destruct (Hfwd x n Hn) as (n' & Hn' & Hid'). exists n'.
    split; [done|]. congruence.
  - rewrite Hs. intros k n' sid Hk Hid.
    destruct (Hback k n' Hk) as (n & Hn & Hid').
    apply (sc_node_listed g Hsc k n sid Hn). congruence.
Qed.

Lemma sessions_removeNode (now : Z) (nodeId : string) (g : MemoryGraph) :
  sessions_consistent g → sessions_consistent (removeNode now nodeId g).2.
Proof.
  intros Hsc. destruct (nodes g !! nodeId) as [node|] eqn:Hnode.
  2:{ unfold removeNode. by rewrite Hnode. }
  rewrite (removeNode_unfold now nodeId g node Hnode). cbn [snd].
  destruct (removeNode_g2_frame nodeId g) as (Hn & _ & _ & Hs).
  assert (Ha : activeSession
                 (removeEdges
                    (default [] (incoming
                       (removeEdges (default [] (outgoing g !! nodeId)) g)
                       !! nodeId))
                    (removeEdges (default [] (outgoing g !! nodeId)) g))
               = activeSession g).
  { destruct (removeEdges_frame
                (default [] (incoming
                   (removeEdges (default [] (outgoing g !! nodeId)) g)
                   !! nodeId))
                (removeEdges (default [] (outgoing g !! nodeId)) g))
      as (_ & _ & _ & _ & ->).
    by destruct (removeEdges_frame (default [] (outgoing g !! nodeId)) g)
      as (_ & _ & _ & _ & ->). }
  set (g2 := removeEdges _ (removeEdges _ g)) in *.
  assert (Hlook : ∀ k s', (session_removeNode nodeId <$> sessions g) !! k
                            = Some s' →
                    ∃ s, sessions g !! k = Some s ∧
                         s' = session_removeNode nodeId s).
  { intros k s' H. rewrite lookup_fmap in H.
    destruct (sessions g !! k) as [s|]; [|done]. injection H as <-. eauto. }
  split; cbn [nodes sessions activeSession]; rewrite ?Hn, ?Hs, ?Ha.
  - intros k Hk. destruct (sc_active g Hsc k Hk) as (s & Hsk & Hact & Hend).
    exists (session_removeNode nodeId s). rewrite lookup_fmap, Hsk. done.
  - intros k s' Hk Hact. destruct (Hlook k s' Hk) as (s & Hsk & ->).
    by apply (sc_single g Hsc k s).
  - intros k s' x Hk Hx. destruct (Hlook k s' Hk) as (s & Hsk & ->).
    simpl in Hx. apply elem_of_set_delete in Hx as [Hx Hne].
    destruct (sc_listed_live g Hsc k s x Hsk Hx) as (n & Hnx & Hid).
    exists n. by rewrite lookup_delete_ne.
  - intros k n sid Hk Hid. apply lookup_delete_Some in Hk as [Hne Hk].
    destruct (sc_node_listed g Hsc k n sid Hk Hid) as (s & Hsk & Hin).
    exists (session_removeNode nodeId s). rewrite lookup_fmap, Hsk.
    split; [done|]. simpl. apply elem_of_set_delete. done.
Qed.

Lemma sessions_removeNodes (now : Z) (ids : list string) (g : MemoryGraph) :
  sessions_consistent g →
  sessions_consistent
    (foldl (λ acc nodeId, (removeNode now nodeId acc).2) g ids).
Proof.
  revert g. induction ids as [|k ids IH]; intros g H; [done|].
  simpl. by apply IH, sessions_removeNode.
Qed.

Lemma merge_existing_sessionId (now : Z) (m : Metadata) (n : MemoryNode) :
  n_sessionId (merge_existing now m n) = n_sessionId n.
Proof.
  unfold merge_existing. destruct (md_importance m) as [v|]; [|done].
  by destruct (JS.truthyQ v && JS.Qltb (importance (touch now n)) v).
Qed.

Lemma sessions_addNode (now : Z) (fresh type content : string)
    (metadata : Metadata) (g : MemoryGraph) :
  keyed_by_id g → sessions_consistent g → nodes g !! fresh = None →
  sessions_consistent (addNode now fresh type content metadata g).2.
Proof.
  intros (_ & _ & Hkey) Hsc Hfresh.
  destruct (contentIndex g !! _hashContent type content ≫= λ existingId,
              nodes g !! existingId ≫= λ existingNode,
                Some (existingId, existingNode)) as [[k n]|] eqn:Hexi.
  - apply bind_Some in Hexi as (k' & Hidx & Hexi).
    apply bind_Some in Hexi as (n' & Hnode & [= -> ->]).
    rewrite (addNode_existing now fresh type content metadata g k n Hidx Hnode).
    apply (sessions_transfer g); simpl; try done.
    + intros k0 n0 Hk0. destruct (decide (k = k0)) as [<-|Hne].
      * rewrite lookup_insert_eq. eexists. split; [done|].
        rewrite merge_existing_sessionId. congruence.
      * rewrite lookup_insert_ne by done. eauto.
    + intros k0 n0 Hk0.
      apply lookup_insert_Some in Hk0 as [[<- <-]|[_ Hk0]]; [|eauto].
      exists n. by rewrite merge_existing_sessionId.
  - unfold addNode. rewrite Hexi. cbn [snd].
    set (node := MemoryNode_new now fresh type content
                   (with_sessionId metadata (s_id <$> activeSessionObj g))).
    assert (Hid : n_id node = fresh) by done.
    assert (Hsid : n_sessionId node = JS.or_null (s_id <$> activeSessionObj g))
      by done.
    rewrite Hid. clearbody node.
    destruct (activeSession g) as [a|] eqn:Ha.
    + destruct (sc_active g Hsc a Ha) as (sa & Hsa & Hact & Hend).
      assert (Hobj : activeSessionObj g = Some sa).
      { unfold activeSessionObj. rewrite Ha. simpl. done. }
      rewrite Hobj in Hsid. simpl in Hsid. rewrite (Hkey a sa Hsa) in Hsid.
      split; cbn [nodes sessions activeSession].
      * intros k [= <-]. exists (session_addNode fresh sa).
        rewrite lookup_alter_eq, Hsa. done.
      * intros k s Hk Hs.
        apply lookup_alter_Some in Hk as [(<- & s0 & Hs0 & ->)|[_ Hk]]; [done|].
        rewrite <-Ha. by apply (sc_single g Hsc k s).
      * intros k s x Hk Hx.
        assert (Hcases : x = fresh ∧ k = a ∨
                         ∃ s0, sessions g !! k = Some s0 ∧ x ∈ nodeIds s0).
        { apply lookup_alter_Some in Hk as [(<- & s0 & Hs0 & ->)|[_ Hk]];
            [|eauto].
          simpl in Hx. apply elem_of_set_add in Hx as [Hx| ->]; eauto. }
        destruct Hcases as [[-> ->]|(s0 & Hs0 & Hx0)].
        -- exists node. by rewrite lookup_insert_eq.
        -- destruct (sc_listed_live g Hsc k s0 x Hs0 Hx0) as (n & Hn & Hnid).
           exists n. split; [|done]. rewrite lookup_insert_ne; [done|].
           intros <-. congruence.
      * intros k n sid Hk Hnid.
        apply lookup_insert_Some in Hk as [[<- <-]|[Hne Hk]].
        -- rewrite Hsid in Hnid. unfold JS.or_null in Hnid.
           destruct (JS.truthy_string a); [|done]. injection Hnid as <-.
           exists (session_addNode fresh sa). rewrite lookup_alter_eq, Hsa.
           split; [done|]. simpl. apply elem_of_set_add. by right.
        -- destruct (sc_node_listed g Hsc k n sid Hk Hnid) as (s & Hs & Hin).
           destruct (decide (a = sid)) as [<-|Hna].
           ++ exists (session_addNode fresh s). rewrite lookup_alter_eq, Hs.
              split; [done|]. simpl. apply elem_of_set_add. by left.
           ++ exists s. by rewrite lookup_alter_ne.
    + assert (Hobj : activeSessionObj g = None).
      { unfold activeSessionObj. by rewrite Ha. }
      rewrite Hobj in Hsid. simpl in Hsid.
      split; cbn [nodes sessions activeSession].
      * done.
      * intros k s Hk Hs. rewrite <-Ha. by apply (sc_single g Hsc k s).
      * intros k s x Hk Hx.
        destruct (sc_listed_live g Hsc k s x Hk Hx) as (n & Hn & Hnid).
        exists n. split; [|done]. rewrite lookup_insert_ne; [done|].
        intros <-. congruence.
      * intros k n sid Hk Hnid.
        apply lookup_insert_Some in Hk as [[<- <-]|[Hne Hk]]; [congruence|].
        by apply (sc_node_listed g Hsc k n sid).
Qed.

Lemma sessions_updateNode (now : Z) (nodeId : string) (updates : NodeUpdates)
    (g g' : MemoryGraph) :
  sessions_consistent g → updateNode now nodeId updates g = Some g' →
  sessions_consistent g'.
Proof.
  intros Hsc. unfold updateNode.
  destruct (nodes g !! nodeId) as [node|] eqn:Hnode; [|done].
  assert (Hd : ∀ x, n_sessionId
              (match u_confidence updates with
               | Some v => set_confidence v
                   (match u_importance updates with
                    | Some v0 => set_importance v0 x | None => x end)
               | None => match u_importance updates with
                         | Some v0 => set_importance v0 x | None => x end
               end) = n_sessionId x).
  { intros x. by destruct (u_importance updates), (u_confidence updates). }
  destruct (u_content updates) as [c|]; intros [= <-];
    (apply (sessions_transfer g); simpl; try done;
     [ intros k n Hk; destruct (decide (nodeId = k)) as [<-|Hne];
       [ rewrite lookup_insert_eq; eexists; split; [done|];
         rewrite Hd; simpl; congruence
       | rewrite lookup_insert_ne by done; eauto ]
     | intros k n' Hk;
       apply lookup_insert_Some in Hk as [[<- <-]|[_ Hk]]; [|by eauto];
       exists node; split; [done|]; by rewrite Hd ]).
Qed.

Lemma sessions_endSession (now : Z) (g : MemoryGraph) :
  sessions_consistent g →
  sessions_consistent (endSession now g) ∧ activeSession (endSession now g) = None.
Proof.
  intros Hsc. unfold endSession. destruct (activeSession g) as [a|] eqn:Ha.
  2:{ done. }
  split; [|done]. split; cbn [nodes sessions activeSession].
  - done.
  - intros k s Hk Hact.
    apply lookup_alter_Some in Hk as [(<- & s0 & Hs0 & ->)|[Hne Hk]]; [done|].
    pose proof (sc_single g Hsc k s Hk Hact). congruence.
  - intros k s x Hk Hx.
    apply lookup_alter_Some in Hk as [(<- & s0 & Hs0 & ->)|[Hne Hk]];
      by eapply (sc_listed_live g Hsc).
  - intros k n sid Hk Hnid.
    destruct (sc_node_listed g Hsc k n sid Hk Hnid) as (s & Hs & Hin).
    destruct (decide (a = sid)) as [<-|Hna].
    + exists (session_end now s). by rewrite lookup_alter_eq, Hs.
    + exists s. by rewrite lookup_alter_ne.
Qed.

Lemma sessions_startSession (now : Z) (fresh : string)
    (metadata : SessionOptions) (g : MemoryGraph) :
  sessions_consistent g → sessions g !! fresh = None →
  sessions_consistent (startSession now fresh metadata g).2.
Proof.
  intros Hsc Hfresh.
  destruct (sessions_endSession now g Hsc) as [Hsc1 Hnone].
  assert (Hfresh1 : sessions (endSession now g) !! fresh = None).
  { unfold endSession. destruct (activeSession g) as [a|]; [|done].
    cbn [sessions]. destruct (decide (a = fresh)) as [->|Hne].
    - by rewrite lookup_alter_eq, Hfresh.
    - by rewrite lookup_alter_ne. }
  unfold startSession. cbn [snd WorkSession_new s_id].
  split; cbn [nodes sessions activeSession].
  - intros k [= <-]. rewrite lookup_insert_eq. eauto.
  - intros k s Hk Hact.
    apply lookup_insert_Some in Hk as [[<- <-]|[Hne Hk]]; [done|].
    pose proof (sc_single _ Hsc1 k s Hk Hact). congruence.
  - intros k s x Hk Hx.
    apply lookup_insert_Some in Hk as [[<- <-]|[Hne Hk]].
    + simpl in Hx. by apply elem_of_nil in Hx.
    + by apply (sc_listed_live _ Hsc1 k s).
  - intros k n sid Hk Hnid.
    destruct (sc_node_listed _ Hsc1 k n sid Hk Hnid) as (s & Hs & Hin).
    exists s. split; [|done]. rewrite lookup_insert_ne; [done|].
    intros <-. congruence.
Qed.

Lemma sessions_apply_op (op : GraphOp) (g : MemoryGraph) :
  keyed_by_id g → sessions_consistent g → op_fresh op g →
  sessions_consistent (apply_op op g).
Proof.
  intros Hkey Hsc Hfresh. destruct op; simpl in *.
  - by apply sessions_addNode.
  - destruct (updateNode now nodeId updates g) as [g'|] eqn:Hu; simpl; [|done].
    by apply (sessions_updateNode now nodeId updates g).
  - by apply sessions_removeNode.
  - unfold addEdge. destruct (nodes g !! src); [|done].
    destruct (nodes g !! tgt); [|done].
    destruct (findEdge src tgt type g); cbn [snd];
      apply (sessions_transfer g); simpl; eauto.
  - by apply sessions_startSession.
  - by apply sessions_endSession.
  - apply (sessions_transfer g); simpl; try done.
    + intros k n Hk. rewrite lookup_fmap, Hk. simpl. eauto.
    + intros k n' Hk. apply lookup_fmap_Some in Hk as (n & <- & Hk). eauto.
  - by apply sessions_removeNodes.
Qed.

Lemma reachable_sessions (g : MemoryGraph) :
  reachable g → sessions_consistent g.
Proof.
  intros Hr. assert (H : keyed_by_id g ∧ sessions_consistent g); [|tauto].
  induction Hr as [now|g op _ [Hkey Hsc] Hfresh].
  - split; [apply keyed_new|apply sessions_new].
  - split; [by apply keyed_apply_op|by apply sessions_apply_op].
Qed.

(** The sessions marked active, counted over the entries of the map. *)
Lemma count_active (a : option string) (l : list (string * WorkSession)) :
  NoDup l.*1 →
  (∀ k s, (k, s) ∈ l → isActive s = true ↔ a = Some k) →
  length (filter (λ s, isActive s = true) l.*2) =
    match a with
    | Some k => if decide (k ∈ l.*1) then 1%nat else 0%nat
    | None => 0%nat
    end.
Proof.
  induction l as [|[k s] l IH]; intros Hnd Hact.
  - destruct a as [k|]; [|done].
    case_decide as H; [by apply elem_of_nil in H|done].
  - rewrite fmap_cons in Hnd. apply NoDup_cons in Hnd as [Hk Hnd].
    assert (IH' := IH Hnd (λ k0 s0 Hin,
                      Hact k0 s0 (list_elem_of_further _ _ _ Hin))).
    pose proof (Hact k s (list_elem_of_here _ _)) as Hks.
    rewrite !fmap_cons. cbn [fst snd]. rewrite filter_cons.
    destruct (decide (isActive s = true)) as [Hs|Hs].
    + apply Hks in Hs as ->. rewrite decide_True by apply list_elem_of_here.
      rewrite decide_False in IH' by done. simpl. by rewrite IH'.
    + rewrite IH'. destruct a as [a|]; [|done].
      assert (a ≠ k) by (intros ->; tauto).
      destruct (decide (a ∈ l.*1)) as [Hin|Hnin].
      * rewrite decide_True; [done|]. by apply list_elem_of_further.
      * rewrite decide_False; [done|]. rewrite not_elem_of_cons. done.
Qed.


(** ** What holds in every graph the operations build *)

Lemma NoDup_omap_inj {A} (f : string → option A) (l : list string) :
  NoDup l → (∀ x y a, f x = Some a → f y = Some a → x = y) →
  NoDup (omap f l).
Proof.
  induction 1 as [|x l Hx Hl IH]; intros Hinj; simpl; [constructor|].
  destruct (f x) as [a|] eqn:Hf; [|by apply IH].
  constructor; [|by apply IH]. rewrite list_elem_of_omap.
  intros (y & Hy & Hfy). assert (x = y) by eauto. congruence.
Qed.

(** X1.  In every graph built from a new graph by [addNode], [updateNode],
    [removeNode], [addEdge], [startSession], [endSession], [applyDecay] and
    [prune] (generated ids not colliding), no reference dangles: both ends
    of every edge are live nodes, every live node has its two adjacency
    sets, every entry of the content index leads to a live node with that
    hash, and nodes, edges and sessions are stored under their own ids. *)
Theorem reachable_graph_has_no_dangling_reference (g : MemoryGraph) :
  reachable g →
  (∀ k e, edges g !! k = Some e →
          e_id e = k ∧ is_Some (nodes g !! sourceId e) ∧
          is_Some (nodes g !! targetId e)) ∧
  (∀ k n, nodes g !! k = Some n →
          n_id n = k ∧ is_Some (outgoing g !! k) ∧ is_Some (incoming g !! k)) ∧
  (∀ h k, contentIndex g !! h = Some k →
          ∃ n, nodes g !! k = Some n ∧
               _hashContent (n_type n) (n_content n) = h) ∧
  (∀ k s, sessions g !! k = Some s → s_id s = k).
Proof.
  intros Hr. pose proof (reachable_wf g Hr) as Hwf.
  destruct (reachable_keyed g Hr) as (Hn & He & Hs).
  split; [|split; [|split]].
  - intros k e Hk. split; [by apply He|]. by apply (wf_endpoints g Hwf k).
  - intros k n Hk. split; [by apply Hn|]. apply (wf_adjacency g Hwf). eauto.
  - apply (wf_content_index g Hwf).
  - exact Hs.
Qed.

Lemma reachable_graph_has_no_dangling_reference_witness :
  reachable demo_graph ∧
  ∀ k e, edges demo_graph !! k = Some e →
         e_id e = k ∧ is_Some (nodes demo_graph !! sourceId e) ∧
         is_Some (nodes demo_graph !! targetId e).
Proof.
  split; [apply demo_graph_reachable|].
  apply (reachable_graph_has_no_dangling_reference demo_graph).
  apply demo_graph_reachable.
Defined.

(** X2.  In every such graph [getNodesByType(t)] returns exactly the live
    nodes of type [t], each of them once. *)
Theorem getNodesByType_is_exact (g : MemoryGraph) (type : string) :
  reachable g →
  NoDup (getNodesByType type g) ∧
  ∀ n, n ∈ getNodesByType type g ↔
       ∃ k, nodes g !! k = Some n ∧ n_type n = type.
Proof.
  intros Hr. pose proof (reachable_wf g Hr) as Hwf.
  pose proof (reachable_exact g Hr) as Hex.
  destruct (reachable_keyed g Hr) as (Hkey & _ & _).
  destruct (reachable_nodup g Hr) as (_ & _ & Hnd & _).
  unfold getNodesByType. split.
  - destruct (nodesByType g !! type) as [ids|] eqn:Hids; [|constructor].
    apply NoDup_omap_inj; [by apply (Hnd type)|].
    intros x y a Hx Hy. rewrite <-(Hkey x a Hx). by apply Hkey.
  - intros n. split.
    + destruct (nodesByType g !! type) as [ids|] eqn:Hids.
      2:{ intros H. by apply elem_of_nil in H. }
      rewrite list_elem_of_omap. intros (k & Hk & Hn). exists k.
      split; [done|].
      destruct (wf_type_index g Hwf type k) as (n0 & Hn0 & Hty);
        [by exists ids|]. congruence.
    + intros (k & Hk & <-).
      destruct (ex_nodes_typed g Hex k n Hk) as (ids & -> & Hin).
      apply list_elem_of_omap. eauto.
Qed.

Lemma getNodesByType_is_exact_witness :
  reachable demo_graph ∧
  NoDup (getNodesByType "language" demo_graph) ∧
  n_content <$> getNodesByType "language" demo_graph = ["python"; "javascript"].
Proof.
  split; [apply demo_graph_reachable|]. split.
  - apply (getNodesByType_is_exact demo_graph "language"), demo_graph_reachable.
  - vm_compute. reflexivity.
Defined.

(** X3.  In every such graph [getOutgoingEdges(n)] returns exactly the live
    edges whose source is [n], and the bidirectional ones whose target is
    [n]; [getIncomingEdges(n)] exactly the live edges whose target is [n],
    and the bidirectional ones whose source is [n]. *)
Theorem adjacency_lists_are_exact (g : MemoryGraph) (nodeId : string) :
  reachable g →
  (∀ e, e ∈ getOutgoingEdges nodeId g ↔
        ∃ k, edges g !! k = Some e ∧
             (sourceId e = nodeId ∨
              (bidirectional e = true ∧ targetId e = nodeId))) ∧
  (∀ e, e ∈ getIncomingEdges nodeId g ↔
        ∃ k, edges g !! k = Some e ∧
             (targetId e = nodeId ∨
              (bidirectional e = true ∧ sourceId e = nodeId))).
Proof.
  intros Hr. pose proof (reachable_wf g Hr) as Hwf.
  pose proof (reachable_exact g Hr) as Hex.
  unfold getOutgoingEdges, getIncomingEdges. split; intros e; split.
  - destruct (outgoing g !! nodeId) as [ids|] eqn:Hids.
    2:{ intros H. by apply elem_of_nil in H. }
    rewrite list_elem_of_omap. intros (k & Hk & He). exists k. split; [done|].
    destruct (ex_outgoing g Hex nodeId k) as (e0 & He0 & Hor);
      [by exists ids|]. congruence.
  - intros (k & Hk & Hor).
    assert (Hmem : adj_mem (outgoing g) nodeId k).
    { destruct Hor as [<-|[Hb <-]].
      - by apply (wf_edges_listed g Hwf k e).
      - by apply (ex_bidirectional g Hex k e). }
    destruct Hmem as (ids & -> & Hin). apply list_elem_of_omap. eauto.
  - destruct (incoming g !! nodeId) as [ids|] eqn:Hids.
    2:{ intros H. by apply elem_of_nil in H. }
    rewrite list_elem_of_omap. intros (k & Hk & He). exists k. split; [done|].
    destruct (ex_incoming g Hex nodeId k) as (e0 & He0 & Hor);
      [by exists ids|]. congruence.
  - intros (k & Hk & Hor).
    assert (Hmem : adj_mem (incoming g) nodeId k).
    { destruct Hor as [<-|[Hb <-]].
      - by apply (wf_edges_listed g Hwf k e).
      - by apply (ex_bidirectional g Hex k e). }
    destruct Hmem as (ids & -> & Hin). apply list_elem_of_omap. eauto.
Qed.

Lemma adjacency_lists_are_exact_witness :
  reachable demo_graph ∧
  e_id <$> getOutgoingEdges "node_py" demo_graph = ["edge_2"] ∧
  ∀ e, e ∈ getOutgoingEdges "node_js" demo_graph ↔
       ∃ k, edges demo_graph !! k = Some e ∧
            (sourceId e = "node_js" ∨
             (bidirectional e = true ∧ targetId e = "node_js")).
Proof.
  split; [apply demo_graph_reachable|]. split; [vm_compute; reflexivity|].
  apply (adjacency_lists_are_exact demo_graph "node_js"), demo_graph_reachable.
Defined.

(** X4.  In every such graph the counters [stats.totalNodes] and
    [stats.totalEdges] are the numbers of stored nodes and edges. *)
Theorem stats_count_nodes_and_edges (g : MemoryGraph) :
  reachable g →
  totalNodes (stats g) = Z.of_nat (size (nodes g)) ∧
  totalEdges (stats g) = Z.of_nat (size (edges g)).
Proof. apply reachable_stats. Qed.

Lemma stats_count_nodes_and_edges_witness :
  reachable demo_graph ∧
  totalNodes (stats demo_graph) = 3%Z ∧
  totalNodes (stats demo_graph) = Z.of_nat (size (nodes demo_graph)).
Proof.
  split; [apply demo_graph_reachable|]. split; [vm_compute; reflexivity|].
  apply (stats_count_nodes_and_edges demo_graph), demo_graph_reachable.
Defined.

(** X5.  In every such graph no two edges have the same source, the same
    target and the same type. *)
Theorem no_two_edges_with_the_same_ends_and_type (g : MemoryGraph)
    (k1 k2 : string) (e1 e2 : MemoryEdge) :
  reachable g →
  edges g !! k1 = Some e1 → edges g !! k2 = Some e2 →
  sourceId e1 = sourceId e2 → targetId e1 = targetId e2 →
  e_type e1 = e_type e2 →
  k1 = k2.
Proof. intros Hr. by apply reachable_edges_unique. Qed.

Lemma no_two_edges_with_the_same_ends_and_type_witness :
  reachable demo_graph ∧
  ∃ e, edges demo_graph !! "edge_2" = Some e ∧ "edge_2" = "edge_2".
Proof.
  split; [apply demo_graph_reachable|].
  destruct (edges demo_graph !! "edge_2") as [e|] eqn:He;
    [|vm_compute in He; discriminate].
  exists e. split; [reflexivity|].
  apply (no_two_edges_with_the_same_ends_and_type demo_graph
           "edge_2" "edge_2" e e demo_graph_reachable He He);
    reflexivity.
Defined.

(** X6.  In every such graph, [addEdge] with the source, target and type of
    a stored edge (not a loop) creates no edge: it returns that edge, whose
    weight becomes [min(2, weight + 0.1)] and whose [updatedAt] the clock
    reading; every other edge, the adjacency, the type index and the
    counters stay as they are. *)
Theorem addEdge_of_a_stored_edge_reinforces_it
    (g : MemoryGraph) (now : Z) (fresh k : string) (e : MemoryEdge)
    (metadata : EdgeOptions) :
  reachable g → edges g !! k = Some e → sourceId e ≠ targetId e →
  let r := addEdge now fresh (sourceId e) (targetId e) (e_type e) metadata g in
  r.1 = Some k ∧
  (∃ e', edges r.2 !! k = Some e' ∧
         weight e' = Qmin 2 (weight e + (1 # 10)) ∧
         e_updatedAt (e_metadata e') = now ∧
         e_createdAt (e_metadata e') = e_createdAt (e_metadata e) ∧
         sourceId e' = sourceId e ∧ targetId e' = targetId e ∧
         e_type e' = e_type e ∧ bidirectional e' = bidirectional e) ∧
  (∀ k', k' ≠ k → edges r.2 !! k' = edges g !! k') ∧
  size (edges r.2) = size (edges g) ∧
  nodes r.2 = nodes g ∧ outgoing r.2 = outgoing g ∧
  incoming r.2 = incoming g ∧ edgesByType r.2 = edgesByType g ∧
  stats r.2 = stats g.
Proof.
  intros Hr He Hloop. pose proof (reachable_wf g Hr) as Hwf.
  pose proof (reachable_exact g Hr) as Hex.
  pose proof (reachable_edges_unique g Hr) as Hu.
  destruct (wf_endpoints g Hwf k e He) as [[ns Hns] [nt Hnt]].
  unfold addEdge. rewrite Hns, Hnt.
  destruct (findEdge (sourceId e) (targetId e) (e_type e) g) as [k'|] eqn:Hf.
  2:{ exfalso. by apply (findEdge_None _ _ _ g Hwf Hf k e He). }
  apply findEdge_Some in Hf as (Hmem & e' & He' & Ht' & Hty').
  assert (k' = k) as ->.
  { destruct (ex_outgoing g Hex _ _ Hmem) as (e0 & He0 & Hor).
    assert (e0 = e') as -> by congruence.
    destruct Hor as [Hs'|[_ Hts]]; [|congruence].
    by apply (Hu k' k e' e). }
  cbn [fst snd edges nodes outgoing incoming edgesByType stats].
  split; [done|]. split; [|split; [|split]].
  - exists (reinforce now e). rewrite lookup_alter_eq, He. done.
  - intros k0 Hne. by rewrite lookup_alter_ne.
  - apply size_alter.
  - done.
Qed.

Lemma addEdge_of_a_stored_edge_reinforces_it_witness :
  reachable demo_graph ∧
  ∃ e, edges demo_graph !! "edge_1" = Some e ∧
       (addEdge 2000 "edge_9" (sourceId e) (targetId e) (e_type e)
                no_edge_options demo_graph).1 = Some "edge_1".
Proof.
  split; [apply demo_graph_reachable|].
  destruct (edges demo_graph !! "edge_1") as [e|] eqn:He;
    [|vm_compute in He; discriminate].
  exists e. split; [reflexivity|].
  apply (addEdge_of_a_stored_edge_reinforces_it demo_graph 2000 "edge_9"
           "edge_1" e no_edge_options demo_graph_reachable He).
  vm_compute in He. injection He as <-. vm_compute. discriminate.
Defined.

(** X7.  As long as no [updateNode] sets the content of a node to the
    content of another node of its type, the deduplication of [addNode]
    keeps the nodes unique: no two live nodes have the same type and the
    same content hash. *)
Theorem addNode_keeps_nodes_unique_by_content (g : MemoryGraph)
    (k1 k2 : string) (n1 n2 : MemoryNode) :
  reachable_without_collision g →
  nodes g !! k1 = Some n1 → nodes g !! k2 = Some n2 →
  n_type n1 = n_type n2 →
  _hashContent (n_type n1) (n_content n1) =
    _hashContent (n_type n2) (n_content n2) →
  k1 = k2.
Proof. intros Hr. by apply unique_without_collision. Qed.

Lemma demo_graph_without_collision : reachable_without_collision demo_graph.
Proof.
  unfold demo_graph, demo_ops, run_ops. cbn [foldl].
  repeat (apply without_collision_step; [|by vm_compute|exact I]).
  apply without_collision_new.
Qed.

Lemma addNode_keeps_nodes_unique_by_content_witness :
  reachable_without_collision demo_graph ∧
  ∃ n, nodes demo_graph !! "node_py" = Some n ∧ "node_py" = "node_py".
Proof.
  split; [apply demo_graph_without_collision|].
  destruct (nodes demo_graph !! "node_py") as [n|] eqn:Hn;
    [|vm_compute in Hn; discriminate].
  exists n. split; [reflexivity|].
  apply (addNode_keeps_nodes_unique_by_content demo_graph
           "node_py" "node_py" n n demo_graph_without_collision Hn Hn);
    reflexivity.
Defined.

(** X8.  Whatever the operations, as long as no [applyDecay] is given a
    negative amount, the decay of every node stays between 0.1 and 1. *)
Theorem decay_stays_between_floor_and_one
    (now : Z) (ops : list GraphOp) (k : string) (n : MemoryNode) :
  Forall decay_amount_nonneg ops →
  nodes (run_ops ops (MemoryGraph_new now)) !! k = Some n →
  (1 # 10 <= decay n)%Q ∧ (decay n <= 1)%Q.
Proof.
  intros Hops. apply (decay_run_ops ops (MemoryGraph_new now) Hops).
  intros k0 n0 H. simpl in H. by rewrite lookup_empty in H.
Qed.

Lemma decay_stays_between_floor_and_one_witness :
  Forall decay_amount_nonneg decay_ops ∧
  ∃ n, nodes (run_ops decay_ops (MemoryGraph_new 999)) !! "node_py" = Some n ∧
       (1 # 10 <= decay n)%Q ∧ (decay n <= 1)%Q.
Proof.
  assert (Hops : Forall decay_amount_nonneg decay_ops).
  { unfold decay_ops, demo_ops. repeat constructor. simpl. lra. }
  split; [exact Hops|].
  destruct (nodes (run_ops decay_ops (MemoryGraph_new 999)) !! "node_py")
    as [n|] eqn:Hn; [|vm_compute in Hn; discriminate].
  exists n. split; [reflexivity|].
  exact (decay_stays_between_floor_and_one 999 decay_ops "node_py" n Hops Hn).
Defined.

(** X9.  In every such graph at most one session is marked active: the
    session [activeSession] refers to is stored, is marked active and has
    no end time, no other session is marked active, and the count
    [activeSessions] of [getStats] is 1 when a session is active and 0
    otherwise. *)
Theorem at_most_one_active_session (g : MemoryGraph) :
  reachable g →
  (∀ k, activeSession g = Some k →
        ∃ s, sessions g !! k = Some s ∧ isActive s = true ∧
             endedAt s = None) ∧
  (∀ k s, sessions g !! k = Some s → isActive s = true →
          activeSession g = Some k) ∧
  activeSessions g = match activeSession g with Some _ => 1 | None => 0 end%nat.
Proof.
  intros Hr. pose proof (reachable_sessions g Hr) as Hsc.
  split; [apply (sc_active g Hsc)|]. split; [apply (sc_single g Hsc)|].
  unfold activeSessions.
  rewrite (count_active (activeSession g) (map_to_list (sessions g))).
  - destruct (activeSession g) as [a|] eqn:Ha; [|done].
    destruct (sc_active g Hsc a Ha) as (s & Hs & _).
    rewrite decide_True; [done|].
    apply list_elem_of_fmap. exists (a, s). split; [done|].
    by apply elem_of_map_to_list.
  - apply NoDup_fst_map_to_list.
  - intros k s Hin. apply elem_of_map_to_list in Hin. split.
    + by apply (sc_single g Hsc).
    + intros Ha. destruct (sc_active g Hsc k Ha) as (s' & Hs' & Hact & _).
      congruence.
Qed.

Lemma at_most_one_active_session_witness :
  reachable demo_graph ∧ activeSession demo_graph = Some "session_1" ∧
  activeSessions demo_graph = 1%nat.
Proof.
  split; [apply demo_graph_reachable|]. split; [vm_compute; reflexivity|].
  destruct (at_most_one_active_session demo_graph demo_graph_reachable)
    as (_ & _ & ->).
  vm_compute. reflexivity.
Defined.

(** X10.  In every such graph a session (with a non-empty id) lists exactly
    the live nodes that were created while it was the active session: [x]
    is in its [nodeIds] if and only if [x] is a live node whose [sessionId]
    is the id of the session. *)
Theorem session_lists_its_live_nodes (g : MemoryGraph)
    (k : string) (s : WorkSession) (x : string) :
  reachable g → sessions g !! k = Some s → k ≠ "" →
  x ∈ nodeIds s ↔ ∃ n, nodes g !! x = Some n ∧ n_sessionId n = Some k.
Proof.
  intros Hr Hs Hk. pose proof (reachable_sessions g Hr) as Hsc. split.
  - intros Hx. destruct (sc_listed_live g Hsc k s x Hs Hx) as (n & Hn & Hid).
    exists n. split; [done|]. rewrite Hid. by destruct k.
  - intros (n & Hn & Hid).
    destruct (sc_node_listed g Hsc x n k Hn Hid) as (s' & Hs' & Hin).
    congruence.
Qed.

Lemma session_lists_its_live_nodes_witness :
  reachable demo_graph ∧
  ∃ s, sessions demo_graph !! "session_1" = Some s ∧
       ("node_dj" ∈ nodeIds s ↔
        ∃ n, nodes demo_graph !! "node_dj" = Some n ∧
             n_sessionId n = Some "session_1").
Proof.
  split; [apply demo_graph_reachable|].
  destruct (sessions demo_graph !! "session_1") as [s|] eqn:Hs;
    [|vm_compute in Hs; discriminate].
  exists s. split; [reflexivity|].
  apply (session_lists_its_live_nodes demo_graph "session_1" s "node_dj"
           demo_graph_reachable Hs).
  discriminate.
Defined.


(** * Further properties of the conversation store *)

(** ** The order list and the records stay in step *)

Lemma store_wf_weaken (to : string) (store : ConversationStore) :
  store_wf store → store_wf_but to store.
Proof.
  intros (Hnd & Hiff & Hne). repeat split; try done.
  - intros id. apply Hiff.
  - intros id H. left. by apply Hiff.
Qed.

Lemma wf_but_migrate (from to : string) (store : ConversationStore) :
  from ≠ to → store_wf_but to store → store_wf_but to (migrate from to store).
Proof.
  intros Hft (Hnd & Hin & Hout & Hne). unfold migrate.
  set (moved := match byId store !! from, byId store !! to with
                | Some rec, None => <[to := rec]> (byId store)
                | _, _ => byId store
                end).
  assert (Hmoved : ∀ id, is_Some (moved !! id) ↔
                         is_Some (byId store !! id) ∨
                         (id = to ∧ is_Some (moved !! to))).
  { intros id. unfold moved.
    destruct (byId store !! from) as [rec|];
      [|split; [tauto|intros [?|[-> ?]]; done]].
    destruct (byId store !! to) as [x|] eqn:Hto;
      [split; [tauto|intros [?|[-> ?]]; done]|].
    rewrite lookup_insert_is_Some. split.
    - intros [<-|[_ H]]; [|tauto]. right. split; [done|].
      rewrite lookup_insert_eq. eauto.
    - intros [H|[-> H]]; [|by left].
      destruct (decide (to = id)) as [->|Hn]; [by left|right; done]. }
  repeat split; cbn [byId order].
  - by apply NoDup_filter.
  - intros id Hid. apply list_elem_of_filter in Hid as [Hn Hid].
    rewrite lookup_delete_is_Some. split; [done|]. apply Hmoved. left. auto.
  - intros id Hid. apply lookup_delete_is_Some in Hid as [Hn Hid].
    apply Hmoved in Hid as [Hid|[-> _]]; [|by right].
    destruct (Hout id Hid) as [Ho| ->]; [|by right].
    left. apply list_elem_of_filter. done.
  - rewrite list_elem_of_filter. tauto.
Qed.

Lemma wf_write_canonical (now : Z) (normalizedUrl canonicalId : string)
    (conversation : Conversation) (store : ConversationStore) :
  canonicalId ≠ "" → store_wf_but canonicalId store →
  store_wf (write_canonical now normalizedUrl canonicalId conversation store).
Proof.
  intros Hc (Hnd & Hin & Hout & Hne). unfold write_canonical.
  repeat split; cbn [byId order].
  - apply NoDup_cons. split; [|by apply NoDup_filter].
    rewrite list_elem_of_filter. tauto.
  - intros Hid. rewrite lookup_insert_is_Some.
    apply elem_of_cons in Hid as [->|Hid]; [by left|].
    apply list_elem_of_filter in Hid as [Hn Hid]. right. split; [done|]. auto.
  - intros Hid. apply lookup_insert_is_Some in Hid as [<-|[Hn Hid]].
    + apply list_elem_of_here.
    + apply list_elem_of_further, list_elem_of_filter. split; [done|].
      destruct (Hout id Hid) as [Ho| ->]; done.
  - rewrite not_elem_of_cons, list_elem_of_filter. split; [done|tauto].
Qed.

Lemma wf_pop_tail (store : ConversationStore) :
  store_wf store → store_wf (pop_tail store).
Proof.
  intros (Hnd & Hiff & Hne). unfold pop_tail.
  destruct (last (order store)) as [drop|] eqn:Hlast; [|done].
  destruct (order store) as [|x l] eqn:Ho using rev_ind; [done|]. clear IHl.
  rewrite last_snoc in Hlast. injection Hlast as <-.
  rewrite removelast_last.
  assert (Hx : x ≠ "").
  { intros ->. apply Hne. apply elem_of_app. right. apply list_elem_of_here. }
  apply NoDup_app in Hnd as (Hl & Hdisj & _).
  assert (Hxl : x ∉ l).
  { intros Hin. apply (Hdisj x Hin). apply list_elem_of_here. }
  replace (JS.truthy_string x) with true by (by destruct x).
  repeat split; cbn [byId order].
  - done.
  - intros Hid. rewrite lookup_delete_is_Some. split; [by intros ->|].
    apply Hiff. apply elem_of_app. by left.
  - intros Hid. apply lookup_delete_is_Some in Hid as [Hn Hid].
    apply Hiff in Hid. apply elem_of_app in Hid as [Hid|Hid]; [done|].
    apply list_elem_of_singleton in Hid. congruence.
  - intros Hin. apply Hne. apply elem_of_app. by left.
Qed.

Lemma wf_evict_count (turns maxItems : nat) (store : ConversationStore) :
  store_wf store → store_wf (evict_count turns maxItems store).
Proof.
  revert store. induction turns as [|k IH]; intros store H; [done|].
  simpl. destruct (maxItems <? length (order store))%nat; [|done].
  by apply IH, wf_pop_tail.
Qed.

Section StoreInvariant.

Variable parseURL : string → option URL.
Variable stringified_length : ConversationStore → Z.

Lemma wf_evict_bytes (turns : nat) (maxBytes : Z) (store : ConversationStore) :
  store_wf store →
  store_wf (evict_bytes stringified_length turns maxBytes store).
Proof.
  revert store. induction turns as [|k IH]; intros store H; [done|].
  simpl. destruct (_ && _); [|done]. by apply IH, wf_pop_tail.
Qed.

Lemma stableId_nonempty (u : option string) (id : string) :
  stableIdFromUrl parseURL u = Some id → id ≠ "".
Proof.
  unfold stableIdFromUrl. destruct (u ≫= parseURL) as [url|]; [|done].
  destruct (match_c_segment (pathname url)); [|done]. by intros [= <-].
Qed.

Lemma wf_saveConversation (now : Z) (conversation : Conversation)
    (maxItems : nat) (maxBytes : Z) (store store' : ConversationStore) :
  store_wf store →
  saveConversation parseURL stringified_length now conversation
    maxItems maxBytes store = Returned store' →
  store_wf store'.
Proof.
  intros Hwf. unfold saveConversation.
  destruct (JS.or_null (c_id conversation)) as [incomingId|] eqn:Hid; [|done].
  intros [= <-].
  set (stable := stableIdFromUrl parseURL (c_url conversation)).
  set (canonicalId := default incomingId stable).
  assert (Hcan : canonicalId ≠ "").
  { unfold canonicalId. destruct stable as [s|] eqn:Hs; simpl.
    - by apply (stableId_nonempty (c_url conversation)).
    - unfold JS.or_null in Hid. destruct (c_id conversation) as [i|]; [|done].
      destruct i; [done|]. by injection Hid as <-. }
  unfold enforce_caps. apply wf_evict_bytes, wf_evict_count.
  apply wf_write_canonical; [done|].
  assert (H1 : store_wf_but canonicalId
                 (migrate_previous
                    (normalizeUrl parseURL (c_url conversation)) stable
                    canonicalId store)).
  { unfold migrate_previous.
    destruct (JS.or_null (urlToId store !! _)) as [prevForUrl|];
      [|by apply store_wf_weaken].
    destruct stable; [|by apply store_wf_weaken].
    destruct (bool_decide (prevForUrl ≠ canonicalId)) eqn:Hne;
      [|by apply store_wf_weaken].
    apply bool_decide_eq_true in Hne.
    by apply wf_but_migrate, store_wf_weaken. }
  unfold migrate_incoming.
  destruct (bool_decide (incomingId ≠ canonicalId)) eqn:Hne; [|done].
  apply bool_decide_eq_true in Hne.
  destruct (bool_decide _); [|done]. by apply wf_but_migrate.
Qed.

End StoreInvariant.

Lemma wf_deleteConversation (id : string) (store : ConversationStore) :
  store_wf store → store_wf (deleteConversation id store).
Proof.
  intros (Hnd & Hiff & Hne). unfold deleteConversation.
  repeat split; cbn [byId order].
  - by apply NoDup_filter.
  - intros Hid. apply list_elem_of_filter in Hid as [Hn Hid].
    rewrite lookup_delete_is_Some. split; [done|]. by apply Hiff.
  - intros Hid. apply lookup_delete_is_Some in Hid as [Hn Hid].
    apply list_elem_of_filter. split; [done|]. by apply Hiff.
  - rewrite list_elem_of_filter. tauto.
Qed.

Lemma wf_updateConversationMeta (now : Z) (id : string) (patch : MetaPatch)
    (store : ConversationStore) :
  store_wf store → store_wf (updateConversationMeta now id patch store).2.
Proof.
  intros (Hnd & Hiff & Hne). unfold updateConversationMeta.
  destruct (byId store !! id) as [c|] eqn:Hc; [|done].
  assert (Hin : id ∈ order store) by (apply Hiff; eauto).
  repeat split; cbn [snd byId order].
  - apply NoDup_cons. split; [|by apply NoDup_filter].
    rewrite list_elem_of_filter. tauto.
  - intros Hid. rewrite lookup_insert_is_Some.
    apply elem_of_cons in Hid as [->|Hid]; [by left|].
    apply list_elem_of_filter in Hid as [Hn Hid]. right.
    split; [done|]. by apply Hiff.
  - intros Hid. apply lookup_insert_is_Some in Hid as [<-|[Hn Hid]].
    + apply list_elem_of_here.
    + apply list_elem_of_further, list_elem_of_filter. split; [done|].
      by apply Hiff.
  - rewrite not_elem_of_cons, list_elem_of_filter. split; [|tauto].
    intros <-. done.
Qed.

(** X11.  The conversation store stays in step under its three writers: if
    [order] lists, once each, exactly the ids that have a record in [byId]
    (none of them empty), then so it does after [saveConversation] with
    any caps, after [deleteConversation] and after
    [updateConversationMeta]. *)
Theorem store_writers_keep_order_and_records_in_step
    (parseURL : string → option URL) (len : ConversationStore → Z)
    (now : Z) (store : ConversationStore) :
  store_wf store →
  (∀ conversation maxItems maxBytes store',
     saveConversation parseURL len now conversation maxItems maxBytes store
       = Returned store' → store_wf store') ∧
  (∀ id, store_wf (deleteConversation id store)) ∧
  (∀ id patch, store_wf (updateConversationMeta now id patch store).2).
Proof.
  intros Hwf. split; [|split].
  - intros conversation maxItems maxBytes store'.
    by apply wf_saveConversation.
  - intros id. by apply wf_deleteConversation.
  - intros id patch. by apply wf_updateConversationMeta.
Qed.

Lemma three_store_wf (a b c : Conversation) : store_wf (three_store a b c).
Proof.
  unfold three_store. split; [|split]; cbn [order byId].
  - repeat (apply NoDup_cons; split;
            [rewrite ?elem_of_cons, elem_of_nil; intros H;
             repeat destruct H as [H|H]; done|]).
    constructor.
  - intros id. rewrite !elem_of_cons, elem_of_nil. split.
    + intros [->|[->|[->|[]]]]; vm_compute; eauto.
    + intros [x H].
      apply lookup_insert_Some in H as [[<- _]|[_ H]]; [tauto|].
      apply lookup_insert_Some in H as [[<- _]|[_ H]]; [tauto|].
      apply lookup_singleton_Some in H as [<- _]. tauto.
  - rewrite !elem_of_cons, elem_of_nil. intros H.
    repeat destruct H as [H|H]; done.
Qed.

Lemma store_writers_keep_order_and_records_in_step_witness :
  store_wf search_store ∧
  ∃ s', saveConversation simple_parseURL (λ _, 0%Z) 5
          (conversation_with "tmp_x" chat_url empty_conversation) 80 8000000
          search_store = Returned s' ∧
        store_wf s'.
Proof.
  assert (Hwf : store_wf search_store) by apply three_store_wf.
  split; [exact Hwf|].
  destruct (saveConversation simple_parseURL (λ _, 0%Z) 5
              (conversation_with "tmp_x" chat_url empty_conversation)
              80 8000000 search_store) as [s'|m] eqn:Hs;
    [|vm_compute in Hs; discriminate].
  exists s'. split; [reflexivity|].
  destruct (store_writers_keep_order_and_records_in_step simple_parseURL
              (λ _, 0%Z) 5 search_store Hwf) as [Hsave _].
  exact (Hsave _ _ _ _ Hs).
Defined.

(** ** The conversation just saved survives the caps *)

Section Caps.

Variable stringified_length : ConversationStore → Z.
Variables (x : string) (rec : Conversation) (U : gmap string string).

(** [x] is at the head of the order and nowhere else in it, with the
    record [rec]; the URL map is [U]. *)
Let headed (store : ConversationStore) : Prop :=
  ∃ rest, order store = x :: rest ∧ (x ∉ rest) ∧
          byId store !! x = Some rec ∧ urlToId store = U.

Lemma headed_pop_tail (store : ConversationStore) :
  headed store → (1 < length (order store))%nat → headed (pop_tail store).
Proof.
  intros (rest & Ho & Hx & Hrec & Hu) Hlen. unfold pop_tail. rewrite Ho in *.
  destruct rest as [|y l] using rev_ind; [simpl in Hlen; lia|]. clear IHl.
  rewrite app_comm_cons, last_snoc, removelast_last.
  exists l. cbn [order byId urlToId].
  apply not_elem_of_app in Hx as [Hxl Hxy].
  apply not_elem_of_cons in Hxy as [Hxy _].
  repeat split; try done.
  destruct (JS.truthy_string y); [|done]. by rewrite lookup_delete_ne.
Qed.

Lemma headed_evict_count (turns maxItems : nat) (store : ConversationStore) :
  (1 ≤ maxItems)%nat → headed store →
  headed (evict_count turns maxItems store).
Proof.
  intros Hmax. revert store. induction turns as [|k IH]; intros store H; [done|].
  simpl. destruct (maxItems <? length (order store))%nat eqn:Hlt; [|done].
  apply Nat.ltb_lt in Hlt. apply IH, headed_pop_tail; [done|lia].
Qed.

Lemma headed_evict_bytes (turns : nat) (maxBytes : Z)
    (store : ConversationStore) :
  headed store → headed (evict_bytes stringified_length turns maxBytes store).
Proof.
  revert store. induction turns as [|k IH]; intros store H; [done|].
  simpl. destruct (maxBytes <? _)%Z; simpl; [|done].
  destruct (1 <? length (order store))%nat eqn:Hlt; [|done].
  apply Nat.ltb_lt in Hlt. by apply IH, headed_pop_tail.
Qed.

Lemma headed_enforce_caps (maxItems : nat) (maxBytes : Z)
    (store : ConversationStore) :
  (1 ≤ maxItems)%nat → headed store →
  headed (enforce_caps stringified_length maxItems maxBytes store).
Proof.
  intros Hmax H. unfold enforce_caps.
  by apply headed_evict_bytes, headed_evict_count.
Qed.

End Caps.

Lemma pop_tail_length (store : ConversationStore) :
  (length (order (pop_tail store)) ≤ length (order store))%nat.
Proof.
  unfold pop_tail. destruct (last (order store)) as [drop|]; [|done].
  cbn [order]. destruct (order store) as [|y l] using rev_ind; [done|].
  rewrite removelast_last, length_app. lia.
Qed.

Lemma evict_bytes_length (len : ConversationStore → Z) (turns : nat)
    (maxBytes : Z) (store : ConversationStore) :
  (length (order (evict_bytes len turns maxBytes store))
   ≤ length (order store))%nat.
Proof.
  revert store. induction turns as [|k IH]; intros store; [done|].
  simpl. destruct (_ && _); [|done].
  etrans; [apply IH|apply pop_tail_length].
Qed.

Lemma enforce_caps_length (len : ConversationStore → Z) (maxItems : nat)
    (maxBytes : Z) (store : ConversationStore) :
  (length (order (enforce_caps len maxItems maxBytes store)) ≤ maxItems)%nat.
Proof.
  unfold enforce_caps. etrans; [apply evict_bytes_length|].
  destruct (evict_count_bound (length (order store)) maxItems store); lia.
Qed.

(** X12.  A conversation saved with a non-empty id and a URL the platform
    can parse is found again: with a count cap of at least one, whatever
    the byte cap and the store before, [saveConversation] returns a store in
    which [getConversationIdForUrl] of that URL is the canonical id (the
    stable id of the URL if it has one, the given id otherwise),
    [getConversationById] of it is a record with that id, that URL and the
    time of the save, the id stands first in [order], and [order] holds at
    most [maxItems] ids. *)
Theorem saved_conversation_is_found_by_its_url
    (parseURL : string → option URL) (len : ConversationStore → Z)
    (now : Z) (conversation : Conversation) (id u : string) (url : URL)
    (maxItems : nat) (maxBytes : Z) (store : ConversationStore) :
  c_id conversation = Some id → id ≠ "" →
  c_url conversation = Some u → parseURL u = Some url →
  origin url ++ pathname url ≠ "" →
  (1 ≤ maxItems)%nat →
  ∃ store' rec,
    let canonical := default id (stableIdFromUrl parseURL (Some u)) in
    saveConversation parseURL len now conversation maxItems maxBytes store
      = Returned store' ∧
    getConversationIdForUrl parseURL u store' = Some canonical ∧
    getConversationById canonical store' = Some rec ∧
    c_id rec = Some canonical ∧ c_url rec = Some u ∧
    c_updatedAt rec = Some now ∧
    head (order store') = Some canonical ∧
    (length (order store') ≤ maxItems)%nat.
Proof.
  intros Hid Hne Hurl Hparse Hnorm Hmax. unfold saveConversation.
  rewrite Hid, Hurl. cbn [JS.or_null].
  replace (JS.truthy_string id) with true by (by destruct id).
  set (canonical := default id (stableIdFromUrl parseURL (Some u))).
  assert (Hcan : canonical ≠ "").
  { unfold canonical.
    destruct (stableIdFromUrl parseURL (Some u)) as [s|] eqn:Hs; simpl;
      [by apply (stableId_nonempty parseURL (Some u))|done]. }
  assert (Hn : normalizeUrl parseURL (Some u) = origin url ++ pathname url).
  { unfold normalizeUrl. by rewrite Hparse. }
  rewrite Hn.
  set (store1 := migrate_incoming id canonical
                   (migrate_previous (origin url ++ pathname url)
                      (stableIdFromUrl parseURL (Some u)) canonical store)).
  set (prev := default empty_conversation (byId store1 !! canonical)).
  set (rec := merge_conversation now canonical prev conversation).
  set (U := <[origin url ++ pathname url := canonical]> (urlToId store1)).
  destruct (headed_enforce_caps len canonical rec U maxItems maxBytes
              (write_canonical now (origin url ++ pathname url) canonical
                 conversation store1) Hmax)
    as (rest & Ho & Hx & Hrec & Hu).
  { exists (filter (λ y, y ≠ canonical) (order store1)).
    unfold write_canonical. cbn [order byId urlToId].
    split; [done|]. split; [rewrite list_elem_of_filter; tauto|].
    split; [by rewrite lookup_insert_eq|].
    by replace (JS.truthy_string (origin url ++ pathname url)) with true
      by (by destruct (origin url ++ pathname url)). }
  eexists. exists rec. cbn zeta. split; [reflexivity|].
  split; [|split; [|split; [|split; [|split; [|split]]]]].
  - unfold getConversationIdForUrl. rewrite Hparse, Hu. unfold U.
    rewrite lookup_insert_eq. simpl. by destruct canonical.
  - exact Hrec.
  - done.
  - unfold rec. simpl. by rewrite Hurl.
  - done.
  - by rewrite Ho.
  - apply enforce_caps_length.
Qed.

Lemma saved_conversation_is_found_by_its_url_witness :
  ∃ store' rec,
    saveConversation simple_parseURL (λ _, 0%Z) 7
      (conversation_with "tmp_x" chat_url empty_conversation) 80 8000000
      search_store = Returned store' ∧
    getConversationIdForUrl simple_parseURL chat_url store' = Some "c_abc" ∧
    getConversationById "c_abc" store' = Some rec.
Proof.
  destruct (saved_conversation_is_found_by_its_url simple_parseURL (λ _, 0%Z) 7
              (conversation_with "tmp_x" chat_url empty_conversation)
              "tmp_x" chat_url
              {| origin := "https://chatgpt.com"; pathname := "/c/abc" |}
              80 8000000 search_store)
    as (store' & rec & Hs & Hu & Hr & _); try done.
  - lia.
  - exists store', rec. split; [exact Hs|]. split; [exact Hu|exact Hr].
Defined.

(** X13.  An autosave keeps what the user attached to a conversation: when a
    conversation is saved again under the id of a stored record and brings
    no [tags], [pinned] or [notes] of its own, the record written keeps the
    tags, the pin and the notes of the stored one (an unpinned, untagged
    default when it had none), keeps its creation time, and gets the time
    of the save as [updatedAt]. *)
Theorem autosave_keeps_tags_pin_and_notes
    (parseURL : string → option URL) (len : ConversationStore → Z)
    (now : Z) (conversation prev : Conversation) (id : string)
    (maxItems : nat) (maxBytes : Z) (store : ConversationStore) :
  byId store !! id = Some prev →
  c_id conversation = Some id → id ≠ "" →
  default id (stableIdFromUrl parseURL (c_url conversation)) = id →
  c_tags conversation = None → c_pinned conversation = None →
  c_notes conversation = None →
  (1 ≤ maxItems)%nat →
  ∃ store' rec,
    saveConversation parseURL len now conversation maxItems maxBytes store
      = Returned store' ∧
    byId store' !! id = Some rec ∧
    c_tags rec = Some (default [] (c_tags prev)) ∧
    c_pinned rec = Some (default false (c_pinned prev)) ∧
    c_notes rec = c_notes prev ∧
    (∀ t, c_createdAt prev = Some t → t ≠ 0%Z → c_createdAt rec = Some t) ∧
    c_updatedAt rec = Some now.
Proof.
  intros Hprev Hid Hne Hcan Htags Hpin Hnotes Hmax. unfold saveConversation.
  rewrite Hid. cbn [JS.or_null].
  replace (JS.truthy_string id) with true by (by destruct id).
  rewrite Hcan.
  set (nurl := normalizeUrl parseURL (c_url conversation)).
  set (stable := stableIdFromUrl parseURL (c_url conversation)).
  set (store1 := migrate_incoming id id (migrate_previous nurl stable id store)).
  assert (H1 : byId store1 !! id = Some prev).
  { unfold store1, migrate_incoming. rewrite bool_decide_eq_false_2 by tauto.
    cbn [andb]. unfold migrate_previous.
    destruct (JS.or_null (urlToId store !! nurl)) as [p|]; [|done].
    destruct stable; [|done].
    destruct (bool_decide (p ≠ id)) eqn:Hp; [|done].
    apply bool_decide_eq_true in Hp. unfold migrate. cbn [byId].
    rewrite lookup_delete_ne by done. rewrite Hprev.
    by destruct (byId store !! p). }
  set (rec := merge_conversation now id prev conversation).
  destruct (headed_enforce_caps len id rec
              (urlToId (write_canonical now nurl id conversation store1))
              maxItems maxBytes
              (write_canonical now nurl id conversation store1) Hmax)
    as (rest & Ho & Hx & Hrec & Hu).
  { exists (filter (λ y, y ≠ id) (order store1)).
    unfold write_canonical. cbn [order byId urlToId].
    split; [done|]. split; [rewrite list_elem_of_filter; tauto|].
    split; [|done]. rewrite lookup_insert_eq, H1. done. }
  eexists. exists rec. split; [reflexivity|]. split; [exact Hrec|].
  unfold rec, merge_conversation. cbn [c_tags c_pinned c_notes c_createdAt
                                       c_updatedAt].
  rewrite Htags, Hpin, Hnotes. repeat split.
  intros t Ht Ht0. rewrite Ht. unfold JS.or_Z at 1.
  replace (JS.truthyZ t) with true; [done|].
  unfold JS.truthyZ. symmetry. apply negb_true_iff, Z.eqb_neq. done.
Qed.

Lemma autosave_keeps_tags_pin_and_notes_witness :
  ∃ store' rec,
    saveConversation simple_parseURL (λ _, 0%Z) 7 autosave_update 80 8000000
      search_store = Returned store' ∧
    byId store' !! "B" = Some rec ∧
    c_tags rec = Some ["django"] ∧ c_title rec = Some "renamed".
Proof.
  destruct (autosave_keeps_tags_pin_and_notes simple_parseURL (λ _, 0%Z) 7
              autosave_update
              (variant search_base "B" "notes" "hello world" ["django"])
              "B" 80 8000000 search_store)
    as (store' & rec & Hs & Hr & Ht & _); try done.
  - lia.
  - exists store', rec. split; [exact Hs|]. split; [exact Hr|].
    split; [exact Ht|].
    vm_compute in Hs. injection Hs as <-. vm_compute in Hr.
    injection Hr as <-. reflexivity.
Defined.

(** ** Saving and deleting *)






(** ** The listing *)

Lemma sort_insert_perm (cmp : Scored → Scored → Q) (x : Scored)
    (l : list Scored) :
  sort_insert cmp x l ≡ₚ x :: l.
Proof.
  induction l as [|y l IH]; [done|]. simpl.
  destruct (JS.Qltb (cmp y x) 0); [|done].
  rewrite IH. apply Permutation_swap.
Qed.

Lemma sort_by_perm (cmp : Scored → Scored → Q) (l : list Scored) :
  sort_by cmp l ≡ₚ l.
Proof.
  unfold sort_by. induction l as [|x l IH]; [done|]. simpl.
  by rewrite sort_insert_perm, IH.
Qed.

Lemma or_Z_zero (o : option Z) (t : Z) :
  o = Some t → JS.or_Z o 0 = t.
Proof.
  intros ->. unfold JS.or_Z, JS.truthyZ.
  destruct (t =? 0)%Z eqn:Ht; [|done]. apply Z.eqb_eq in Ht. by subst.
Qed.

Lemma truthyZ_true (z : Z) : z ≠ 0%Z → JS.truthyZ z = true.
Proof. intros H. unfold JS.truthyZ. by apply negb_true_iff, Z.eqb_neq. Qed.

Lemma truthy_string_true (s : string) : s ≠ "" → JS.truthy_string s = true.
Proof. by destruct s. Qed.

(** What the six filter tests of one turn establish when none of them
    passes the conversation over. *)
Lemma filters_admit (filters : Filters) (c : Conversation) :
  pinnedOnly filters && negb (default false (c_pinned c)) = false →
  hasCodeOnly filters && negb (hasCode c) = false →
  JS.truthyZ (JS.or_Z (since filters) 0) && JS.truthyZ (conv_updatedAt c)
    && (conv_updatedAt c <? JS.or_Z (since filters) 0)%Z = false →
  JS.truthyZ (JS.or_Z (until filters) 0) && JS.truthyZ (conv_updatedAt c)
    && (JS.or_Z (until filters) 0 <? conv_updatedAt c)%Z = false →
  JS.truthy_string
      (JS.trim (JS.toLowerCase (JS.or_string (f_tag filters) EmptyString)))
    && negb (bool_decide
               (JS.trim (JS.toLowerCase
                           (JS.or_string (f_tag filters) EmptyString))
                ∈ lower_tags c)) = false →
  match f_tags filters with
  | Some wantTags =>
      negb (forallb (λ t, bool_decide (JS.toLowerCase t ∈ lower_tags c))
                    wantTags)
  | None => false
  end = false →
  admitted filters c.
Proof.
  intros H1 H2 H3 H4 H5 H6. repeat split.
  - intros Hp. rewrite Hp in H1. simpl in H1. by apply negb_false_iff in H1.
  - intros Hp. rewrite Hp in H2. simpl in H2. by apply negb_false_iff in H2.
  - intros t Ht Ht0 Hu0. rewrite (or_Z_zero _ t Ht) in H3.
    rewrite !truthyZ_true in H3 by done. simpl in H3.
    apply Z.ltb_ge in H3. lia.
  - intros t Ht Ht0 Hu0. rewrite (or_Z_zero _ t Ht) in H4.
    rewrite !truthyZ_true in H4 by done. simpl in H4.
    apply Z.ltb_ge in H4. lia.
  - intros t Ht Hne. rewrite Ht, or_string_empty in H5.
    rewrite truthy_string_true in H5 by done. simpl in H5.
    apply negb_false_iff in H5. by apply bool_decide_eq_true in H5.
  - intros ts Hts t Hin. rewrite Hts in H6. apply negb_false_iff in H6.
    apply Is_true_true, forallb_True in H6.
    rewrite Forall_forall in H6. specialize (H6 t Hin).
    by apply bool_decide_unpack in H6.
Qed.

Lemma collect_elem (now : Z) (store : ConversationStore) (filters : Filters)
    (qRaw q : string) (tokens : list string) (limit : nat)
    (ids : list string) (items : list Scored) (x : Scored) :
  x ∈ collect now store filters qRaw q tokens limit ids items →
  x ∈ items ∨
  ∃ id, id ∈ ids ∧ byId store !! id = Some x.1 ∧ admitted filters x.1.
Proof.
  revert items. induction ids as [|id rest IH]; intros items Hx; [by left|].
  assert (Hskip : ∀ its,
            x ∈ collect now store filters qRaw q tokens limit rest its →
            x ∈ its ∨
            ∃ id0, id0 ∈ id :: rest ∧ byId store !! id0 = Some x.1 ∧
                   admitted filters x.1).
  { intros its H. destruct (IH its H) as [?|(id' & ? & ? & ?)]; [by left|].
    right. exists id'. split; [by apply list_elem_of_further|done]. }
  cbn [collect] in Hx.
  destruct (byId store !! id) as [c|] eqn:Hc; [|by apply Hskip].
  destruct (pinnedOnly filters && negb (default false (c_pinned c))) eqn:H1;
    [by apply Hskip|].
  destruct (hasCodeOnly filters && negb (hasCode c)) eqn:H2;
    [by apply Hskip|].
  destruct (JS.truthyZ (JS.or_Z (since filters) 0) &&
            JS.truthyZ (conv_updatedAt c) &&
            (conv_updatedAt c <? JS.or_Z (since filters) 0)%Z) eqn:H3;
    [by apply Hskip|].
  destruct (JS.truthyZ (JS.or_Z (until filters) 0) &&
            JS.truthyZ (conv_updatedAt c) &&
            (JS.or_Z (until filters) 0 <? conv_updatedAt c)%Z) eqn:H4;
    [by apply Hskip|].
  destruct (JS.truthy_string
              (JS.trim (JS.toLowerCase
                          (JS.or_string (f_tag filters) EmptyString))) &&
            negb (bool_decide
                    (JS.trim (JS.toLowerCase
                                (JS.or_string (f_tag filters) EmptyString))
                     ∈ lower_tags c))) eqn:H5;
    [by apply Hskip|].
  destruct (match f_tags filters with
            | Some wantTags =>
                negb (forallb
                        (λ t, bool_decide (JS.toLowerCase t ∈ lower_tags c))
                        wantTags)
            | None => false
            end) eqn:H6;
    [by apply Hskip|].
  pose proof (filters_admit filters c H1 H2 H3 H4 H5 H6) as Hadm.
  assert (Hnew : ∀ sc its, x ∈ (its ++ [(c, sc)])%list →
            x ∈ its ∨
            ∃ id0, id0 ∈ id :: rest ∧ byId store !! id0 = Some x.1 ∧
                   admitted filters x.1).
  { intros sc its H. apply elem_of_app in H as [H|H]; [by left|].
    apply list_elem_of_singleton in H as ->. right. exists id.
    split; [apply list_elem_of_here|done]. }
  destruct (negb (JS.truthy_string qRaw)).
  - destruct (limit <=? length (items ++ [(c, 0%Q)]))%nat.
    + by apply (Hnew 0%Q).
    + destruct (Hskip _ Hx) as [H|H]; [by apply (Hnew 0%Q)|by right].
  - destruct (negb (JS.includes (haystack c) q) &&
              negb (bool_decide (tokens = [])) &&
              negb (existsb (λ t, JS.includes (haystack c) t) tokens));
      [by apply Hskip|].
    destruct (Hskip _ Hx) as [H|H]; [by eapply Hnew|by right].
Qed.

(** X15.  [listConversations] returns at most [limit] conversations, and
    each of them is a record of the store, stored under an id of [order],
    that passes every filter given: pinned if [pinnedOnly], with code if
    [hasCode], changed within [since] and [until], tagged with [tag] and
    with each of [tags]. *)
Theorem listing_returns_stored_conversations_that_pass_the_filters
    (now : Z) (query : string) (limit : nat) (filters : Filters)
    (sort : string) (store : ConversationStore) :
  let r := listConversations now query limit filters sort store in
  (length r ≤ limit)%nat ∧
  ∀ c, c ∈ r →
       admitted filters c ∧
       ∃ id, id ∈ order store ∧ byId store !! id = Some c.
Proof.
  cbn zeta. unfold listConversations. split.
  - rewrite length_fmap, length_take. lia.
  - intros c Hc. apply list_elem_of_fmap in Hc as ([c' sc] & -> & Hin).
    apply elem_of_take in Hin as (i & Hin & _).
    apply list_elem_of_lookup_2 in Hin.
    assert (Hitems : (c', sc) ∈
              collect now store filters (JS.trim query)
                (JS.toLowerCase (JS.trim query))
                (tokenize (JS.toLowerCase (JS.trim query))) limit
                (order store) []).
    { destruct (negb _ || _); by rewrite sort_by_perm in Hin. }
    apply collect_elem in Hitems as [H|(id & Hid & Hrec & Hadm)].
    + by apply elem_of_nil in H.
    + split; [done|]. eauto.
Qed.

(** ** The recent order *)

Lemma compare_recent_lt (a b : Scored) :
  JS.Qltb (compare_recent a b) 0 = true →
  (pinned_rank b.1 < pinned_rank a.1)%Z ∨
  (pinned_rank a.1 = pinned_rank b.1 ∧
   (conv_updatedAt b.1 < conv_updatedAt a.1)%Z).
Proof.
  intros H. apply Qltb_lt in H. unfold compare_recent in H.
  destruct (pinned_rank b.1 =? pinned_rank a.1)%Z eqn:Hp; simpl in H.
  - apply Z.eqb_eq in Hp. right. split; [done|].
    change 0%Q with (inject_Z 0) in H. rewrite <-Zlt_Qlt in H. lia.
  - left. change 0%Q with (inject_Z 0) in H. rewrite <-Zlt_Qlt in H. lia.
Qed.

Lemma compare_recent_ge (a b : Scored) :
  JS.Qltb (compare_recent a b) 0 = false → recent_before b.1 a.1.
Proof.
  intros H. assert (Hn : ¬ (compare_recent a b < 0)%Q).
  { intros Hlt. apply Qltb_lt in Hlt. congruence. }
  unfold recent_before. unfold compare_recent in Hn.
  destruct (pinned_rank b.1 =? pinned_rank a.1)%Z eqn:Hp; simpl in Hn.
  - apply Z.eqb_eq in Hp. right. split; [done|].
    change 0%Q with (inject_Z 0) in Hn. rewrite <-Zlt_Qlt in Hn. lia.
  - apply Z.eqb_neq in Hp. left.
    change 0%Q with (inject_Z 0) in Hn. rewrite <-Zlt_Qlt in Hn. lia.
Qed.

Lemma recent_before_trans (a b c : Conversation) :
  recent_before a b → recent_before b c → recent_before a c.
Proof. unfold recent_before. lia. Qed.

Lemma ordered_sort_insert (x : Scored) (l : list Scored) :
  ordered (λ a b, recent_before a.1 b.1) l →
  ordered (λ a b, recent_before a.1 b.1) (sort_insert compare_recent x l).
Proof.
  induction l as [|y l IH]; intros Hl; [done|].
  destruct Hl as [Hy Hl]. simpl.
  destruct (JS.Qltb (compare_recent y x) 0) eqn:Hlt.
  - split; [|by apply IH].
    rewrite sort_insert_perm. constructor; [|done].
    apply compare_recent_lt in Hlt. unfold recent_before. lia.
  - apply compare_recent_ge in Hlt. split; [|by split].
    constructor; [done|]. eapply Forall_impl; [exact Hy|].
    intros z Hz. by apply (recent_before_trans _ y.1).
Qed.

Lemma ordered_sort_by (l : list Scored) :
  ordered (λ a b, recent_before a.1 b.1) (sort_by compare_recent l).
Proof.
  unfold sort_by. induction l as [|x l IH]; [done|].
  simpl. by apply ordered_sort_insert.
Qed.

Lemma ordered_take {A} (R : A → A → Prop) (n : nat) (l : list A) :
  ordered R l → ordered R (take n l).
Proof.
  revert n. induction l as [|x l IH]; intros [|n] Hl; try done.
  destruct Hl as [Hx Hl]. simpl. split; [by apply Forall_take|by apply IH].
Qed.

Lemma ordered_fmap {A B} (f : A → B) (R : B → B → Prop) (l : list A) :
  ordered (λ a b, R (f a) (f b)) l → ordered R (f <$> l).
Proof.
  induction l as [|x l IH]; intros Hl; [done|].
  destruct Hl as [Hx Hl]. rewrite fmap_cons. split; [|by apply IH].
  by apply Forall_fmap.
Qed.

Lemma ordered_lookup {A} (R : A → A → Prop) (l : list A) (i j : nat)
    (a b : A) :
  ordered R l → (i < j)%nat → l !! i = Some a → l !! j = Some b → R a b.
Proof.
  revert i j. induction l as [|x l IH]; intros i j Hl Hij Hi Hj; [done|].
  destruct Hl as [Hx Hl]. destruct j as [|j]; [lia|]. simpl in Hj.
  destruct i as [|i].
  - injection Hi as <-. by apply (Forall_lookup_1 _ _ _ _ Hx Hj).
  - simpl in Hi. apply (IH i j); [done|lia|done|done].
Qed.

(** X16.  When the query is empty or the sort is [recent], the listing is
    in the recent order: of two conversations returned, the earlier one is
    pinned if the later one is, and when both are pinned or both are not,
    the earlier one was changed no earlier than the later one. *)
Theorem recent_listing_has_pinned_first_then_newest
    (now : Z) (query : string) (limit : nat) (filters : Filters)
    (sort : string) (store : ConversationStore) (i j : nat)
    (a b : Conversation) :
  JS.trim query = "" ∨ sort = "recent" →
  (i < j)%nat →
  listConversations now query limit filters sort store !! i = Some a →
  listConversations now query limit filters sort store !! j = Some b →
  recent_before a b.
Proof.
  intros Hmode. apply ordered_lookup. unfold listConversations.
  assert (Hsel : negb (JS.truthy_string (JS.trim query)) ||
                 bool_decide (sort = "recent") = true).
  { destruct Hmode as [->| ->]; [done|].
    rewrite bool_decide_eq_true_2 by done. apply orb_true_r. }
  rewrite Hsel. apply ordered_fmap, ordered_take, ordered_sort_by.
Qed.

Lemma recent_listing_has_pinned_first_then_newest_witness :
  ∃ a b,
    listConversations 2000 "" 10 no_filters "relevance" pinned_store !! 0%nat
      = Some a ∧
    listConversations 2000 "" 10 no_filters "relevance" pinned_store !! 1%nat
      = Some b ∧
    c_id a = Some "B" ∧ c_id b = Some "A" ∧ recent_before a b.
Proof.
  destruct (listConversations 2000 "" 10 no_filters "relevance" pinned_store
              !! 0%nat) as [a|] eqn:Ha; [|vm_compute in Ha; discriminate].
  destruct (listConversations 2000 "" 10 no_filters "relevance" pinned_store
              !! 1%nat) as [b|] eqn:Hb; [|vm_compute in Hb; discriminate].
  exists a, b. split; [reflexivity|]. split; [reflexivity|].
  split; [vm_compute in Ha; injection Ha as <-; reflexivity|].
  split; [vm_compute in Hb; injection Hb as <-; reflexivity|].
  apply (recent_listing_has_pinned_first_then_newest 2000 "" 10 no_filters
           "relevance" pinned_store 0 1 a b); [by left|lia|done|done].
Defined.


(** * Further properties of the job queue and the pump *)

Lemma updateJob_other (now : Z) (id id0 : string) (patch : JobPatch)
    (jobs : JobStore) :
  id ≠ id0 →
  jobs_byId (updateJob now id patch jobs) !! id0 = jobs_byId jobs !! id0.
Proof.
  intros Hne. unfold updateJob. destruct (jobs_byId jobs !! id); [|done].
  simpl. by rewrite lookup_insert_ne.
Qed.

Lemma updateJob_shape (now : Z) (id : string) (patch : JobPatch)
    (jobs : JobStore) :
  jobs_order (updateJob now id patch jobs) = jobs_order jobs ∧
  ∀ id0, is_Some (jobs_byId (updateJob now id patch jobs) !! id0) ↔
         is_Some (jobs_byId jobs !! id0).
Proof.
  unfold updateJob. destruct (jobs_byId jobs !! id) as [j|] eqn:Hj; [|done].
  simpl. split; [done|]. intros id0. rewrite lookup_insert_is_Some.
  split; [intros [<-|[_ H]]; eauto|].
  intros H. destruct (decide (id = id0)); [by left|by right].
Qed.

Lemma deliver_other (env : JobEnv) (id id0 : string) (j : Job)
    (jobs : JobStore) :
  id ≠ id0 →
  jobs_byId (deliver env id j jobs) !! id0 = jobs_byId jobs !! id0.
Proof.
  intros Hne. unfold deliver.
  destruct (send env) as [st text|e]; [destruct (response_ok st)|];
    by rewrite !updateJob_other.
Qed.

Lemma deliver_shape (env : JobEnv) (id : string) (j : Job) (jobs : JobStore) :
  jobs_order (deliver env id j jobs) = jobs_order jobs ∧
  ∀ id0, is_Some (jobs_byId (deliver env id j jobs) !! id0) ↔
         is_Some (jobs_byId jobs !! id0).
Proof.
  unfold deliver.
  destruct (send env) as [st text|e]; [destruct (response_ok st)|];
    (match goal with
     | |- context [updateJob ?t2 id ?p2 (updateJob ?t1 id ?p1 jobs)] =>
         destruct (updateJob_shape t2 id p2 (updateJob t1 id p1 jobs))
           as [-> H2];
         destruct (updateJob_shape t1 id p1 jobs) as [-> H1]
     end);
    (split; [done|]); intros id0; by rewrite H2, H1.
Qed.

Section PumpFrame.

Variable parseURL : string → option URL.
Variable connectorById : gmap string Connector.

Lemma pump_turn_other (env : JobEnv) (snapshot jobs : JobStore)
    (id id0 : string) :
  id ≠ id0 →
  jobs_byId (pump_turn parseURL connectorById env snapshot id jobs).2 !! id0
  = jobs_byId jobs !! id0.
Proof.
  intros Hne. unfold pump_turn.
  destruct (jobs_byId snapshot !! id) as [j|]; [|done].
  destruct (status j); try done;
    (destruct (_ && _); [done|]);
    (destruct (connectorById !! connectorId j) as [c|];
       [|by apply updateJob_other]);
    (destruct (cn_enabled c && _); [|by apply updateJob_other]);
    (destruct (_ && _); [by apply updateJob_other|by apply deliver_other]).
Qed.

Lemma pump_turn_shape (env : JobEnv) (snapshot jobs : JobStore) (id : string) :
  let jobs' := (pump_turn parseURL connectorById env snapshot id jobs).2 in
  jobs_order jobs' = jobs_order jobs ∧
  ∀ id0, is_Some (jobs_byId jobs' !! id0) ↔ is_Some (jobs_byId jobs !! id0).
Proof.
  cbn zeta. unfold pump_turn.
  destruct (jobs_byId snapshot !! id) as [j|]; [|done].
  destruct (status j); try done;
    (destruct (_ && _); [done|]);
    (destruct (connectorById !! connectorId j) as [c|];
       [|by apply updateJob_shape]);
    (destruct (cn_enabled c && _); [|by apply updateJob_shape]);
    (destruct (_ && _); [by apply updateJob_shape|by apply deliver_shape]).
Qed.

Lemma pump_turn_uncounted (env : JobEnv) (snapshot jobs : JobStore)
    (id : string) :
  (pump_turn parseURL connectorById env snapshot id jobs).1 = false →
  (pump_turn parseURL connectorById env snapshot id jobs).2 = jobs.
Proof.
  unfold pump_turn.
  destruct (jobs_byId snapshot !! id) as [j|]; [|done].
  destruct (status j); try done;
    (destruct (_ && _); [done|]);
    (destruct (connectorById !! connectorId j) as [c|]; [|done]);
    (destruct (cn_enabled c && _); [|done]);
    (destruct (_ && _); done).
Qed.

Lemma pump_turn_passes_over (env : JobEnv) (snapshot jobs : JobStore)
    (id : string) (j : Job) :
  jobs_byId snapshot !! id = Some j → passed_over (t_now env) j →
  pump_turn parseURL connectorById env snapshot id jobs = (false, jobs).
Proof.
  intros Hj Hp. unfold pump_turn. rewrite Hj.
  destruct Hp as [->|[->|[Ht Hlt]]]; [done|done|].
  rewrite Ht. apply Z.ltb_lt in Hlt. rewrite Hlt. simpl.
  by destruct (status j).
Qed.

Lemma pump_loop_unfold (env : string → JobEnv) (snapshot : JobStore)
    (id : string) (rest : list string) (processed : nat) (jobs : JobStore) :
  pump_loop parseURL connectorById env snapshot (id :: rest) processed jobs =
  if (3 <=? processed)%nat then jobs
  else pump_loop parseURL connectorById env snapshot rest
         (if (pump_turn parseURL connectorById (env id) snapshot id jobs).1
          then S processed else processed)
         (pump_turn parseURL connectorById (env id) snapshot id jobs).2.
Proof.
  cbn [pump_loop].
  by destruct (pump_turn parseURL connectorById (env id) snapshot id jobs).
Qed.

Lemma pump_loop_other (env : string → JobEnv) (snapshot : JobStore)
    (ids : list string) (processed : nat) (jobs : JobStore) (id0 : string) :
  (id0 ∉ ids ∨
   ∃ j, jobs_byId snapshot !! id0 = Some j ∧ passed_over (t_now (env id0)) j) →
  jobs_byId (pump_loop parseURL connectorById env snapshot ids processed jobs)
    !! id0 = jobs_byId jobs !! id0.
Proof.
  revert processed jobs. induction ids as [|id rest IH];
    intros processed jobs Hid; [done|].
  rewrite pump_loop_unfold. destruct (3 <=? processed)%nat; [done|].
  rewrite IH.
  - destruct (decide (id = id0)) as [->|Hne]; [|by apply pump_turn_other].
    destruct Hid as [Hnin|(j & Hj & Hp)].
    + exfalso. apply Hnin, list_elem_of_here.
    + by rewrite (pump_turn_passes_over _ _ _ _ j Hj Hp).
  - destruct Hid as [Hnin|H]; [left|by right].
    by apply not_elem_of_cons in Hnin as [_ ?].
Qed.

Lemma pump_loop_shape (env : string → JobEnv) (snapshot : JobStore)
    (ids : list string) (processed : nat) (jobs : JobStore) :
  let jobs' := pump_loop parseURL connectorById env snapshot ids processed
                 jobs in
  jobs_order jobs' = jobs_order jobs ∧
  ∀ id0, is_Some (jobs_byId jobs' !! id0) ↔ is_Some (jobs_byId jobs !! id0).
Proof.
  cbn zeta. revert processed jobs. induction ids as [|id rest IH];
    intros processed jobs; [done|].
  rewrite pump_loop_unfold. destruct (3 <=? processed)%nat; [done|].
  destruct (IH (if (pump_turn parseURL connectorById (env id) snapshot id
                      jobs).1 then S processed else processed)
               (pump_turn parseURL connectorById (env id) snapshot id jobs).2)
    as [-> H].
  destruct (pump_turn_shape (env id) snapshot jobs id) as [-> H'].
  split; [done|]. intros id0. by rewrite H, H'.
Qed.

Lemma pump_loop_budget (env : string → JobEnv) (snapshot : JobStore)
    (ids : list string) (processed : nat) (jobs : JobStore) :
  (processed ≤ 3)%nat →
  ∃ touched : list string,
    (length touched + processed ≤ 3)%nat ∧
    (∀ id, id ∈ touched → id ∈ ids) ∧
    ∀ id, id ∉ touched →
          jobs_byId (pump_loop parseURL connectorById env snapshot ids
                       processed jobs) !! id
          = jobs_byId jobs !! id.
Proof.
  revert processed jobs. induction ids as [|id rest IH];
    intros processed jobs Hp.
  - exists []. simpl. split; [lia|]. split; [|done].
    intros id H. by apply elem_of_nil in H.
  - rewrite pump_loop_unfold.
    destruct (3 <=? processed)%nat eqn:H3.
    { exists []. simpl. split; [lia|]. split; [|done].
      intros id0 H. by apply elem_of_nil in H. }
    apply Nat.leb_gt in H3.
    destruct (pump_turn parseURL connectorById (env id) snapshot id jobs).1
      eqn:Hcount.
    + destruct (IH (S processed)
                  (pump_turn parseURL connectorById (env id) snapshot id
                     jobs).2) as (touched & Hlen & Hsub & Hsame); [lia|].
      exists (id :: touched). simpl. split; [lia|]. split.
      * intros id0 Hin. apply elem_of_cons in Hin as [->|Hin];
          [apply list_elem_of_here|by apply list_elem_of_further, Hsub].
      * intros id0 Hnin. apply not_elem_of_cons in Hnin as [Hne Hnin].
        rewrite Hsame by done. by apply pump_turn_other.
    + rewrite (pump_turn_uncounted _ _ _ _ Hcount).
      destruct (IH processed jobs) as (touched & Hlen & Hsub & Hsame); [lia|].
      exists touched. split; [done|]. split; [|done].
      intros id0 Hin. by apply list_elem_of_further, Hsub.
Qed.

End PumpFrame.

Lemma elem_of_rev {A} (x : A) (l : list A) : x ∈ rev l ↔ x ∈ l.
Proof. by rewrite !list_elem_of_In, <-in_rev. Qed.

(** X17.  [pumpJobs] leaves alone every job that is done, that is marked
    running, or whose [nextRunAt] lies after the clock reading of its turn:
    its record after the pump is the record before. *)
Theorem pump_passes_over_done_running_and_waiting_jobs
    (parseURL : string → option URL) (connectorById : gmap string Connector)
    (env : string → JobEnv) (jobs : JobStore) (id : string) (j : Job) :
  jobs_byId jobs !! id = Some j →
  passed_over (t_now (env id)) j →
  jobs_byId (pumpJobs parseURL connectorById env jobs) !! id = Some j.
Proof.
  intros Hj Hp. unfold pumpJobs. rewrite pump_loop_other; [done|].
  right. eauto.
Qed.

Lemma pump_passes_over_done_running_and_waiting_jobs_witness :
  passed_over 500 waiting_job ∧
  jobs_byId (pumpJobs simple_parseURL demo_connectors
               (λ _, failing_env 500 (Responded 500 "boom")) waiting_jobs)
    !! "job_2" = Some waiting_job.
Proof.
  assert (Hp : passed_over 500 waiting_job).
  { right. right. split; [reflexivity|]. vm_compute. reflexivity. }
  split; [exact Hp|].
  apply (pump_passes_over_done_running_and_waiting_jobs simple_parseURL
           demo_connectors (λ _, failing_env 500 (Responded 500 "boom"))
           waiting_jobs "job_2" waiting_job); [reflexivity|exact Hp].
Defined.

(** X18.  One invocation of [pumpJobs] changes at most three job records,
    all of them listed in [order]; it adds no job, removes none and leaves
    [order] as it is. *)
Theorem pump_changes_at_most_three_jobs
    (parseURL : string → option URL) (connectorById : gmap string Connector)
    (env : string → JobEnv) (jobs : JobStore) :
  let jobs' := pumpJobs parseURL connectorById env jobs in
  jobs_order jobs' = jobs_order jobs ∧
  (∀ id, is_Some (jobs_byId jobs' !! id) ↔ is_Some (jobs_byId jobs !! id)) ∧
  ∃ touched : list string,
    (length touched ≤ 3)%nat ∧
    (∀ id, id ∈ touched → id ∈ jobs_order jobs) ∧
    ∀ id, id ∉ touched → jobs_byId jobs' !! id = jobs_byId jobs !! id.
Proof.
  cbn zeta. unfold pumpJobs.
  destruct (pump_loop_shape parseURL connectorById env jobs
              (rev (jobs_order jobs)) 0 jobs) as [Ho Hd].
  split; [done|]. split; [done|].
  destruct (pump_loop_budget parseURL connectorById env jobs
              (rev (jobs_order jobs)) 0 jobs) as (touched & Hlen & Hsub & Hsame);
    [lia|].
  exists touched. split; [lia|]. split; [|done].
  intros id Hin. apply Hsub in Hin. by apply elem_of_rev.
Qed.

(** X19.  The status failed does not end a job: the pump passes over done
    and running jobs only.  When the oldest job of the queue (the last id
    of [order]) is queued or failed and due, its connector enabled with a
    URL and the host permission not denied, the pump sends it; a 2xx answer
    then makes it done, with one more attempt, the answer's status as
    result and an empty error. *)
Theorem pump_sends_a_failed_job_again
    (parseURL : string → option URL) (connectorById : gmap string Connector)
    (env : string → JobEnv) (jobs : JobStore) (newer : list string)
    (id : string) (j : Job) (connector : Connector)
    (http_status : Z) (text : string) :
  jobs_order jobs = (newer ++ [id])%list → id ∉ newer →
  jobs_byId jobs !! id = Some j →
  status j = Queued ∨ status j = Failed →
  match nextRunAt j with
  | Some t => (t <= t_now (env id))%Z
  | None => True
  end →
  connectorById !! connectorId j = Some connector →
  cn_enabled connector = true → cn_url connector ≠ "" →
  permission (env id) ≠ Denied →
  send (env id) = Responded http_status text →
  response_ok http_status = true →
  ∃ j', jobs_byId (pumpJobs parseURL connectorById env jobs) !! id = Some j' ∧
        status j' = Done ∧ attempts j' = (attempts j + 1)%Z ∧
        result j' = Some http_status ∧ error j' = Some "" ∧
        j_updatedAt j' = t_final (env id).
Proof.
  intros Ho Hnin Hj Hst Hdue Hc Hen Hurl Hperm Hsend Hok.
  unfold pumpJobs. rewrite Ho, rev_app_distr. cbn [rev app].
  rewrite pump_loop_unfold. cbn [Nat.leb].
  rewrite (pump_turn_delivers parseURL connectorById (env id) jobs jobs id j
             connector Hj Hst Hdue Hc Hen Hurl Hperm).
  cbn [fst snd].
  rewrite pump_loop_other by (left; by rewrite elem_of_rev).
  unfold deliver. rewrite Hsend, Hok, or_Z_self.
  eexists. split.
  { apply updateJob_lookup. by apply updateJob_lookup. }
  done.
Qed.

Lemma pump_sends_a_failed_job_again_witness :
  ∃ j', jobs_byId (pumpJobs simple_parseURL demo_connectors
                     (λ _, failing_env 900000 (Responded 200 "ok"))
                     failed_jobs) !! "job_1" = Some j' ∧
        status j' = Done ∧ attempts j' = 6%Z.
Proof.
  destruct (pump_sends_a_failed_job_again simple_parseURL demo_connectors
              (λ _, failing_env 900000 (Responded 200 "ok")) failed_jobs
              ["job_2"] "job_1" failed_job
              {| cn_url := "https://hooks.example.com/in"; cn_secret := "s";
                 cn_headers := []; cn_enabled := true |} 200 "ok")
    as (j' & Hj' & Hst & Hatt & _).
  all: try done.
  all: try (exists j'; split; [exact Hj'|]; split; [exact Hst|exact Hatt]).
  all: try (rewrite list_elem_of_singleton; discriminate).
  all: try (by right).
  all: try (vm_compute; discriminate).
Defined.

(** ** The queue stays in step *)

Lemma jobs_wf_updateJob (now : Z) (id : string) (patch : JobPatch)
    (jobs : JobStore) :
  jobs_wf jobs → jobs_wf (updateJob now id patch jobs).
Proof.
  intros [Hnd Hiff]. destruct (updateJob_shape now id patch jobs) as [Ho Hd].
  split; rewrite Ho; [done|]. intros id0. by rewrite Hd.
Qed.

(** X20.  The job queue stays in step under its writers: if [order] lists,
    once each, exactly the ids that have a record, then so it does after
    [enqueueJob], [updateJob], [removeJob] and [pumpJobs]; the job that
    [enqueueJob] returns, called as the router calls it, stands first,
    queued and with no attempt, and [removeJob] leaves no record under the
    id. *)
Theorem job_queue_writers_keep_order_and_records_in_step
    (parseURL : string → option URL) (connectorById : gmap string Connector)
    (env : string → JobEnv) (now : Z) (jobs : JobStore) :
  jobs_wf jobs →
  (∀ fresh connector body hdrs knd,
     let r := enqueueJob now fresh connector body hdrs knd jobs in
     jobs_wf r.2 ∧ head (jobs_order r.2) = Some fresh ∧
     jobs_byId r.2 !! fresh = Some r.1 ∧
     status r.1 = Queued ∧ attempts r.1 = 0%Z) ∧
  (∀ id patch, jobs_wf (updateJob now id patch jobs)) ∧
  (∀ id, jobs_wf (removeJob id jobs) ∧
         jobs_byId (removeJob id jobs) !! id = None) ∧
  jobs_wf (pumpJobs parseURL connectorById env jobs).
Proof.
  intros [Hnd Hiff]. split; [|split; [|split]].
  - intros fresh connector body hdrs knd. cbn zeta. unfold enqueueJob.
    cbn [fst snd jobs_order jobs_byId status attempts head].
    split; [|by rewrite lookup_insert_eq].
    split; cbn [jobs_order jobs_byId].
    + apply NoDup_cons. split; [|by apply NoDup_filter].
      rewrite list_elem_of_filter. tauto.
    + intros id. rewrite lookup_insert_is_Some, elem_of_cons,
        list_elem_of_filter, Hiff.
      destruct (decide (fresh = id)) as [->|Hne]; [tauto|].
      split; [intros [->|[? ?]]; [done|by right]|intros [->|[? ?]]; [done|]].
      right. split; [congruence|done].
  - intros id patch. by apply jobs_wf_updateJob.
  - intros id. unfold removeJob. split; [|apply lookup_delete_eq].
    split; cbn [jobs_order jobs_byId].
    + by apply NoDup_filter.
    + intros id0. rewrite list_elem_of_filter, lookup_delete_is_Some, Hiff.
      split; intros [? ?]; split; congruence.
  - unfold pumpJobs.
    destruct (pump_loop_shape parseURL connectorById env jobs
                (rev (jobs_order jobs)) 0 jobs) as [Ho Hd].
    split; rewrite Ho; [done|]. intros id. by rewrite Hd.
Qed.

Lemma job_queue_writers_keep_order_and_records_in_step_witness :
  jobs_wf demo_jobs ∧
  jobs_wf (pumpJobs simple_parseURL demo_connectors
             (λ _, failing_env 100 (Responded 500 "boom")) demo_jobs).
Proof.
  assert (Hwf : jobs_wf demo_jobs).
  { split; [apply NoDup_singleton|]. intros id. simpl.
    rewrite list_elem_of_singleton. unfold demo_jobs. simpl.
    rewrite lookup_singleton_is_Some. split; congruence. }
  split; [exact Hwf|].
  apply (job_queue_writers_keep_order_and_records_in_step simple_parseURL
           demo_connectors (λ _, failing_env 100 (Responded 500 "boom")) 0
           demo_jobs Hwf).
Defined.

(** ** Listing the jobs *)

Lemma listJobs_loop_take (limit : nat) (byId : gmap string Job)
    (ids : list string) (out : list Job) :
  (length out < max limit 1)%nat →
  listJobs_loop limit byId ids out =
  (out ++ take (max limit 1 - length out) (omap (λ id, byId !! id) ids))%list.
Proof.
  revert out. induction ids as [|id rest IH]; intros out Hlen.
  - simpl. by rewrite take_nil, app_nil_r.
  - cbn [listJobs_loop omap list_omap].
    destruct (byId !! id) as [j|]; [|by apply IH].
    rewrite length_app. cbn [length].
    destruct (limit <=? length out + 1)%nat eqn:Hl.
    + apply Nat.leb_le in Hl.
      replace (max limit 1 - length out)%nat with 1%nat by lia.
      simpl. by rewrite take_0.
    + apply Nat.leb_gt in Hl. rewrite IH by (rewrite length_app; simpl; lia).
      rewrite length_app. cbn [length].
      replace (max limit 1 - length out)%nat
        with (S (max limit 1 - (length out + 1)))%nat by lia.
      simpl. by rewrite <-app_assoc.
Qed.

(** X21.  [listJobs({limit})] returns the jobs in the order of [order],
    newest first, skipping the ids that have no record, up to [limit] of
    them; because the limit is tested after a job is pushed, a limit of 0
    returns one job, as a limit of 1 does. *)
Theorem listJobs_returns_the_first_jobs_in_order
    (limit : nat) (jobs : JobStore) :
  listJobs limit jobs =
  take (max limit 1) (omap (λ id, jobs_byId jobs !! id) (jobs_order jobs)).
Proof.
  unfold listJobs. rewrite listJobs_loop_take by (simpl; lia).
  simpl. by rewrite Nat.sub_0_r.
Qed.


(** * Script matching, conversation keys, hashes and leader election *)

Lemma append_cons (x : ascii) (a b : string) :
  String x a ++ b = String x (a ++ b).
Proof. reflexivity. Qed.

Lemma append_empty (b : string) : "" ++ b = b.
Proof. reflexivity. Qed.

Lemma string_append_assoc (a b c : string) : (a ++ b) ++ c = a ++ b ++ c.
Proof.
  induction a as [|x a IH]; [done|]. rewrite !append_cons. by rewrite IH.
Qed.

Lemma string_length_append (a b : string) :
  String.length (a ++ b) = (String.length a + String.length b)%nat.
Proof.
  induction a as [|x a IH]; [done|]. rewrite append_cons. simpl.
  by rewrite IH.
Qed.

Lemma rev_string_append (a b acc : string) :
  JS.rev_string (a ++ b) acc = JS.rev_string b (JS.rev_string a acc).
Proof.
  revert acc. induction a as [|x a IH]; intros acc; [done|].
  rewrite append_cons. simpl. apply IH.
Qed.

Lemma endsWith_slash_star (x : string) : endsWith (x ++ "/*") "/*" = true.
Proof.
  unfold endsWith. rewrite rev_string_append. simpl.
  by destruct (JS.rev_string x "").
Qed.

Lemma take_prefix (x y : string) : JS.take (String.length x) (x ++ y) = x.
Proof.
  induction x as [|c x IH]; [by destruct y|].
  rewrite append_cons. simpl. by rewrite IH.
Qed.

Lemma drop_last_slash_star (x : string) : drop_last (x ++ "/*") = x ++ "/".
Proof.
  unfold drop_last.
  replace (x ++ "/*") with ((x ++ "/") ++ "*")
    by (by rewrite string_append_assoc).
  rewrite string_length_append. simpl String.length.
  replace (String.length (x ++ "/") + 1 - 1)%nat
    with (String.length (x ++ "/")) by lia.
  apply take_prefix.
Qed.

Lemma startsWith_delimited (sep : ascii) (a b r r' : string) :
  free_of sep a = true → free_of sep b = true →
  JS.startsWith (a ++ String sep r) (b ++ String sep r') = true →
  a = b ∧ JS.startsWith r r' = true.
Proof.
  revert b. induction a as [|x a IH]; intros [|y b]; simpl.
  - intros _ _ H. by apply andb_true_iff in H as [_ H].
  - intros _ Hb H. apply andb_true_iff in Hb as [Hy _].
    apply andb_true_iff in H as [H _]. by rewrite H in Hy.
  - intros Ha _ H. apply andb_true_iff in Ha as [Hx _].
    apply andb_true_iff in H as [H _].
    rewrite Ascii.eqb_sym in H. by rewrite H in Hx.
  - intros Ha Hb H. apply andb_true_iff in Ha as [_ Ha].
    apply andb_true_iff in Hb as [_ Hb].
    apply andb_true_iff in H as [Hyx H]. apply Ascii.eqb_eq in Hyx as ->.
    by destruct (IH b Ha Hb H) as [-> ?].
Qed.

Lemma startsWith_same_prefix (a r r' : string) :
  JS.startsWith (a ++ r) (a ++ r') = JS.startsWith r r'.
Proof.
  induction a as [|x a IH]; simpl; [done|]. by rewrite Ascii.eqb_refl.
Qed.

Lemma startsWith_free_of (c : ascii) (p s : string) :
  JS.startsWith s p = true → free_of c s = true → free_of c p = true.
Proof.
  revert s. induction p as [|x p IH]; intros [|y s]; simpl; try done.
  intros H Hs. apply andb_true_iff in H as [Hxy H].
  apply Ascii.eqb_eq in Hxy as ->. apply andb_true_iff in Hs as [-> Hs].
  simpl. by apply (IH s).
Qed.

(** X22.  A pattern of the form [protocol//host/*] matches exactly the
    addresses of that protocol and that host, whatever their path, query
    and fragment: neither a longer host that begins with the pattern's host
    nor a subdomain of it matches.  (The protocol and the host of a parsed
    address hold no slash, and its path begins with one.) *)
Theorem host_pattern_matches_exactly_that_host
    (parseLocation : string → option Location) (url : string) (u : Location)
    (proto h : string) :
  parseLocation url = Some u →
  free_of "/" (protocol u) = true → free_of "/" (host u) = true →
  JS.startsWith (l_pathname u) "/" = true →
  free_of "/" proto = true → free_of "/" h = true →
  urlMatches parseLocation url [proto ++ "//" ++ h ++ "/*"] = true
  ↔ protocol u = proto ∧ host u = h.
Proof.
  intros Hp Hfp Hfh Hpath Hfproto Hfhh. unfold urlMatches. rewrite Hp.
  cbn [existsb]. rewrite orb_false_r.
  assert (E : proto ++ "//" ++ h ++ "/*" = (proto ++ "//" ++ h) ++ "/*")
    by (by rewrite !string_append_assoc).
  rewrite E, endsWith_slash_star. cbn [negb]. rewrite drop_last_slash_star.
  destruct (l_pathname u) as [|c path]; [done|].
  cbn [JS.startsWith] in Hpath. apply andb_true_iff in Hpath as [Hc _].
  apply Ascii.eqb_eq in Hc as <-.
  rewrite !string_append_assoc.
  change (JS.startsWith
            (protocol u ++ String "/" (String "/" (host u ++ String "/" path)))
            (proto ++ String "/" (String "/" (h ++ String "/" ""))) = true
          ↔ protocol u = proto ∧ host u = h).
  split.
  - intros H. apply startsWith_delimited in H as [-> H]; [|done..].
    cbn [JS.startsWith] in H. rewrite Ascii.eqb_refl in H. cbn [andb] in H.
    by apply startsWith_delimited in H as [-> _].
  - intros [<- <-]. rewrite startsWith_same_prefix. cbn [JS.startsWith].
    rewrite !Ascii.eqb_refl. cbn [andb].
    rewrite startsWith_same_prefix. cbn [JS.startsWith].
    rewrite Ascii.eqb_refl. by destruct path.
Qed.

Lemma host_pattern_matches_exactly_that_host_witness :
  urlMatches simple_parseLocation chat_url ["https://chatgpt.com/*"] = true ∧
  urlMatches simple_parseLocation "https://chatgpt.com.evil.example/c/abc"
    ["https://chatgpt.com/*"] = false.
Proof.
  split.
  - apply (host_pattern_matches_exactly_that_host simple_parseLocation
             chat_url
             {| protocol := "https:"; host := "chatgpt.com";
                l_pathname := "/c/abc" |} "https:" "chatgpt.com");
      try reflexivity. by split.
  - destruct (urlMatches simple_parseLocation
                "https://chatgpt.com.evil.example/c/abc"
                ["https://chatgpt.com/*"]) eqn:H; [|reflexivity].
    apply (host_pattern_matches_exactly_that_host simple_parseLocation
             "https://chatgpt.com.evil.example/c/abc"
             {| protocol := "https:"; host := "chatgpt.com.evil.example";
                l_pathname := "/c/abc" |} "https:" "chatgpt.com") in H;
      try reflexivity.
    destruct H as [_ H]. discriminate H.
Defined.

(** X23.  A star is a wildcard only as the last character of a pattern that
    ends in a slash and a star.  Anywhere else it is compared as a
    character: when each pattern of a list holds a star in the part that is
    compared, no address without a star in its protocol, host and path
    matches the list. *)
Theorem star_is_a_wildcard_only_after_a_final_slash
    (parseLocation : string → option Location) (url : string) (u : Location)
    (patterns : list string) :
  parseLocation url = Some u →
  free_of star (candidate u) = true →
  Forall (λ p, free_of star (matched_prefix p) = false) patterns →
  urlMatches parseLocation url patterns = false.
Proof.
  intros Hp Hfree Hall. unfold urlMatches. rewrite Hp. cbn zeta.
  fold (candidate u).
  induction Hall as [|p l Hstar _ IH]; [done|].
  cbn [existsb]. rewrite IH, orb_false_r.
  unfold matched_prefix in Hstar.
  destruct (endsWith p "/*"); cbn [negb];
    (destruct (JS.startsWith (candidate u) _) eqn:Hs; [|done]);
    apply (startsWith_free_of star) in Hs; congruence.
Qed.

Lemma star_is_a_wildcard_only_after_a_final_slash_witness :
  urlMatches simple_parseLocation "https://www.bing.com/chat?q=1"
    ["https://www.bing.com/chat*"; "https://x.com/i/grok*"] = false.
Proof.
  apply (star_is_a_wildcard_only_after_a_final_slash simple_parseLocation _
           {| protocol := "https:"; host := "www.bing.com";
              l_pathname := "/chat" |}); [reflexivity|reflexivity|].
  repeat constructor.
Defined.

Lemma key_nonempty (parseURL : string → option URL) (search : string → string)
    (now : Z) (url : string) :
  getConversationKeyFromUrl parseURL search now url ≠ "".
Proof.
  unfold getConversationKeyFromUrl.
  destruct (parseURL url) as [u|]; [|done].
  by destruct (match_c_segment (pathname u)).
Qed.

Lemma key_is_canonical (parseURL : string → option URL)
    (search : string → string) (now : Z) (url : string) :
  let key := getConversationKeyFromUrl parseURL search now url in
  default key (stableIdFromUrl parseURL (Some url)) = key.
Proof.
  unfold getConversationKeyFromUrl, stableIdFromUrl. simpl.
  destruct (parseURL url) as [u|]; [|done].
  by destruct (match_c_segment (pathname u)).
Qed.

(** X24.  The key the content script computes from the address of the page
    is the id the store files the conversation under: a conversation that
    carries [getConversationKeyFromUrl(url)] as its id and [url] as its
    address is saved, with a count cap of at least one, under exactly that
    key (which is never empty), whether the address holds a conversation
    id, does not, or cannot be parsed; the key then stands first in
    [order]. *)
Theorem extracted_conversation_is_saved_under_its_key
    (parseURL : string → option URL) (search : string → string)
    (len : ConversationStore → Z) (clock now : Z) (url : string)
    (conversation : Conversation) (maxItems : nat) (maxBytes : Z)
    (store : ConversationStore) :
  let key := getConversationKeyFromUrl parseURL search clock url in
  extracted_from key url conversation →
  (1 ≤ maxItems)%nat →
  ∃ store' rec,
    saveConversation parseURL len now conversation maxItems maxBytes store
      = Returned store' ∧
    getConversationById key store' = Some rec ∧
    c_id rec = Some key ∧ c_url rec = Some url ∧
    head (order store') = Some key.
Proof.
  intros key [Hid Hurl] Hmax. unfold saveConversation.
  rewrite Hid, Hurl. cbn [JS.or_null].
  assert (Hne : key ≠ "") by apply key_nonempty.
  replace (JS.truthy_string key) with true by (by destruct key).
  assert (Hcan : default key (stableIdFromUrl parseURL (Some url)) = key)
    by apply key_is_canonical.
  rewrite Hcan.
  set (nurl := normalizeUrl parseURL (Some url)).
  set (stable := stableIdFromUrl parseURL (Some url)).
  set (store1 := migrate_incoming key key
                   (migrate_previous nurl stable key store)).
  set (prev := default empty_conversation (byId store1 !! key)).
  set (rec := merge_conversation now key prev conversation).
  destruct (headed_enforce_caps len key rec
              (urlToId (write_canonical now nurl key conversation store1))
              maxItems maxBytes
              (write_canonical now nurl key conversation store1) Hmax)
    as (rest & Ho & Hx & Hrec & Hu).
  { exists (filter (λ y, y ≠ key) (order store1)).
    unfold write_canonical. cbn [order byId urlToId].
    split; [done|]. split; [rewrite list_elem_of_filter; tauto|].
    split; [by rewrite lookup_insert_eq|done]. }
  eexists. exists rec. split; [reflexivity|].
  split; [exact Hrec|]. split; [done|].
  split; [unfold rec; simpl; by rewrite Hurl|by rewrite Ho].
Qed.

Lemma extracted_conversation_is_saved_under_its_key_witness :
  ∃ store' rec,
    saveConversation simple_parseURL (λ _, 0%Z) 7
      (conversation_with "tmp__" "https://chatgpt.com/" empty_conversation)
      80 8000000 search_store = Returned store' ∧
    getConversationById "tmp__" store' = Some rec.
Proof.
  destruct (extracted_conversation_is_saved_under_its_key simple_parseURL
              (λ _, "") (λ _, 0%Z) 3 7 "https://chatgpt.com/"
              (conversation_with "tmp__" "https://chatgpt.com/"
                 empty_conversation) 80 8000000 search_store)
    as (store' & rec & Hs & Hr & _).
  - split; reflexivity.
  - lia.
  - exists store', rec. split; [exact Hs|exact Hr].
Defined.

Lemma toInt32_mod (z : Z) :
  (JS.toInt32 z mod 4294967296 = z mod 4294967296)%Z.
Proof.
  unfold JS.toInt32.
  rewrite Zminus_mod, Zmod_mod, <- Zminus_mod. f_equal. lia.
Qed.

Lemma lxor_mod (a b : Z) :
  (Z.lxor a b mod 2 ^ 32 = Z.lxor (a mod 2 ^ 32) (b mod 2 ^ 32))%Z.
Proof.
  apply Z.bits_inj'. intros n Hn.
  rewrite Z.testbit_mod_pow2, !Z.lxor_spec, !Z.testbit_mod_pow2 by lia.
  by destruct (n <? 32)%Z.
Qed.

Lemma fnv_loop_snoc (s : string) (c : ascii) (h : Z) :
  fnv_loop (s ++ String c "") h =
  imul (Z.lxor (JS.toInt32 (fnv_loop s h)) (JS.toInt32 (JS.charCode c)))
       16777619.
Proof. revert h. induction s as [|x s IH]; intros h; simpl; [done|apply IH]. Qed.

Lemma charCode_range (c : ascii) : (0 ≤ JS.charCode c < 256)%Z.
Proof.
  unfold JS.charCode. pose proof (nat_ascii_bounded c). lia.
Qed.

(** X25.  [hashConversation] computes the 32-bit FNV-1a hash that its
    comment names, in unsigned arithmetic, although the loop runs on signed
    32-bit values: the hash of the empty text is the offset basis
    2166136261, each further code unit is combined by exclusive or and the
    result multiplied by the prime 16777619 modulo 2^32, and the value
    printed in base 16 lies in [0, 2^32).  A conversation without messages
    hashes to 811c9dc5. *)
Theorem hashConversation_is_fnv1a_32 :
  hash_value "" = 2166136261%Z ∧
  (∀ s c, hash_value (s ++ String c "") =
          (Z.lxor (hash_value s) (JS.charCode c) * 16777619 mod 2 ^ 32)%Z) ∧
  (∀ s, (0 ≤ hash_value s < 2 ^ 32)%Z) ∧
  hashConversation empty_conversation = "811c9dc5".
Proof.
  split; [reflexivity|]. split; [|split; [|reflexivity]].
  - intros s c. unfold hash_value. rewrite fnv_loop_snoc. unfold imul.
    change 4294967296%Z with (2 ^ 32)%Z.
    pose proof toInt32_mod as Hm. change 4294967296%Z with (2 ^ 32)%Z in Hm.
    rewrite Hm, Zmult_mod, !Hm, <- Zmult_mod.
    rewrite <- Zmult_mod_idemp_l, lxor_mod, !Hm.
    rewrite (Z.mod_small (JS.charCode c)) by (pose proof (charCode_range c); lia).
    done.
  - intros s. unfold hash_value. apply Z.mod_pos_bound. lia.
Qed.

Lemma ltb_antisym (a b : string) :
  a ≠ b → String.ltb a b = negb (String.ltb b a).
Proof.
  intros Hab. unfold String.ltb. rewrite String.compare_antisym.
  destruct (String.compare b a) eqn:E; simpl; try done.
  apply String.compare_eq_iff in E. congruence.
Qed.

Lemma ltb_irrefl (a : string) : String.ltb a a = false.
Proof.
  unfold String.ltb. pose proof (String.compare_antisym a a) as H.
  by destruct (String.compare a a).
Qed.

(** X26.  When two tabs with different ids claim leadership at the same
    time and each receives the claim of the other, the tab with the smaller
    id (as strings compare) is the leader and the other is not, and both
    record the smaller id as [leaderId]; the heartbeat runs in the leader
    only. *)
Theorem simultaneous_claims_leave_the_smaller_id_as_leader
    (now : Z) (a b : Leader.state) :
  Leader.tabId a ≠ Leader.tabId b →
  let winner :=
    if String.ltb (Leader.tabId a) (Leader.tabId b)
    then Leader.tabId a else Leader.tabId b in
  let '(a', b') := Leader.claim_both now a b in
  Leader.isLeader a' = bool_decide (Leader.tabId a = winner) ∧
  Leader.isLeader b' = bool_decide (Leader.tabId b = winner) ∧
  Leader.leaderId a' = Some winner ∧ Leader.leaderId b' = Some winner ∧
  Leader.heartbeat a' = Leader.isLeader a' ∧
  Leader.heartbeat b' = Leader.isLeader b'.
Proof.
  intros Hab. unfold Leader.claim_both, Leader._claimLeadership,
    Leader.handle_all, Leader._handleMessage, Leader._handleLeaderClaim.
  simpl.
  rewrite (bool_decide_eq_false_2 (Leader.tabId b = Leader.tabId a))
    by congruence.
  rewrite (bool_decide_eq_false_2 (Leader.tabId a = Leader.tabId b))
    by congruence.
  rewrite (ltb_antisym (Leader.tabId b) (Leader.tabId a)) by congruence.
  destruct (String.ltb (Leader.tabId a) (Leader.tabId b)); simpl;
    repeat case_bool_decide; try congruence; done.
Qed.

Lemma simultaneous_claims_leave_the_smaller_id_as_leader_witness :
  let '(a', b') :=
    Leader.claim_both 5 (Leader.init "tab_1_zz") (Leader.init "tab_1_ab") in
  Leader.isLeader a' = false ∧ Leader.isLeader b' = true ∧
  Leader.leaderId a' = Some "tab_1_ab".
Proof.
  pose proof (simultaneous_claims_leave_the_smaller_id_as_leader 5
                (Leader.init "tab_1_zz") (Leader.init "tab_1_ab")) as H.
  simpl in H. destruct H as (Ha & Hb & Hl & _); [done|].
  split; [exact Ha|]. split; [exact Hb|exact Hl].
Defined.

Lemma handle_step (now : Z) (m : Leader.message) (self : Leader.state) :
  Leader.tabId (Leader._handleMessage now m self).1 = Leader.tabId self ∧
  Leader.isLeader (Leader._handleMessage now m self).1 =
    Leader.isLeader self && negb (Leader.challenges (Leader.tabId self) m).
Proof.
  unfold Leader._handleMessage, Leader.challenges.
  case_bool_decide as Hs.
  - simpl. split; [done|]. rewrite Hs.
    destruct (Leader.type m); rewrite ?ltb_irrefl; simpl;
      by rewrite ?andb_true_r.
  - destruct (Leader.type m); simpl.
    + unfold Leader._handleLeaderClaim.
      destruct (Leader.isLeader self) eqn:Hl; simpl;
        [destruct (String.ltb _ _); simpl; by rewrite ?Hl|done].
    + rewrite (bool_decide_eq_false_2 (Leader.tabId self = Leader.sender m))
        by congruence.
      destruct (Leader.isLeader self), (String.ltb _ _); done.
    + by rewrite andb_true_r.
    + case_bool_decide; simpl; by rewrite andb_true_r.
Qed.

(** X27.  A tab loses leadership only to a smaller id, and never gains it
    by a message: after any sequence of election and heartbeat messages, a
    tab is the leader exactly when it was the leader before and none of the
    messages was a claim or an announcement by a tab with a smaller id. *)
Theorem leadership_is_lost_only_to_a_smaller_id
    (msgs : list (Z * Leader.message)) (self : Leader.state) :
  Leader.isLeader (Leader.handle_all msgs self) =
  Leader.isLeader self &&
  forallb (λ tm, negb (Leader.challenges (Leader.tabId self) tm.2)) msgs.
Proof.
  unfold Leader.handle_all. revert self.
  induction msgs as [|[now m] msgs IH]; intros self; simpl.
  - by rewrite andb_true_r.
  - destruct (handle_step now m self) as [Ht Hl].
    rewrite IH, Ht, Hl. by rewrite andb_assoc.
Qed.


(** * Merging and reloading a graph *)

(** A fold that stores the entries whose key is not yet there is a union
    in which the map that was there wins. *)
Lemma foldl_absent_insert {A} (l : list (string * A)) (m : gmap string A) :
  NoDup l.*1 →
  foldl (λ acc kv, match acc !! kv.1 with
                   | Some _ => acc
                   | None => <[kv.1 := kv.2]> acc
                   end) m l = m ∪ list_to_map l.
Proof.
  revert m. induction l as [|[k0 a0] l IH]; intros m Hnd.
  - simpl. by rewrite (right_id_L ∅ (∪)).
  - rewrite fmap_cons in Hnd. apply NoDup_cons in Hnd as [Hk0 Hnd].
    cbn [foldl fst snd]. rewrite (IH _ Hnd), list_to_map_cons.
    destruct (m !! k0) as [x|] eqn:Hm.
    + apply map_eq. intros k. rewrite !lookup_union.
      destruct (decide (k = k0)) as [->|Hne].
      * rewrite lookup_insert_eq, Hm.
        by destruct (list_to_map l !! k0).
      * by rewrite lookup_insert_ne.
    + by rewrite <- insert_union_l, insert_union_r.
Qed.

Lemma merge_node_frame (l : list (string * MemoryNode)) (g : MemoryGraph) :
  nodes (foldl merge_node g l) =
    foldl (λ acc kv, match acc !! kv.1 with
                     | Some _ => acc
                     | None => <[kv.1 := kv.2]> acc
                     end) (nodes g) l ∧
  edges (foldl merge_node g l) = edges g ∧
  sessions (foldl merge_node g l) = sessions g ∧
  activeSession (foldl merge_node g l) = activeSession g.
Proof.
  revert g. induction l as [|[id node] l IH]; intros g; [done|].
  cbn [foldl]. destruct (IH (merge_node g (id, node))) as (-> & -> & -> & ->).
  unfold merge_node. cbn [fst snd]. by destruct (nodes g !! id).
Qed.

Lemma merge_edge_frame (l : list (string * MemoryEdge)) (g : MemoryGraph) :
  nodes (foldl merge_edge g l) = nodes g ∧
  edges (foldl merge_edge g l) =
    foldl (λ acc kv, match acc !! kv.1 with
                     | Some _ => acc
                     | None => <[kv.1 := kv.2]> acc
                     end) (edges g) l ∧
  sessions (foldl merge_edge g l) = sessions g ∧
  activeSession (foldl merge_edge g l) = activeSession g.
Proof.
  revert g. induction l as [|[id edge] l IH]; intros g; [done|].
  cbn [foldl]. destruct (IH (merge_edge g (id, edge))) as (-> & -> & -> & ->).
  unfold merge_edge. cbn [fst snd]. by destruct (edges g !! id).
Qed.

Lemma merge_session_frame (l : list (string * WorkSession)) (g : MemoryGraph) :
  nodes (foldl merge_session g l) = nodes g ∧
  edges (foldl merge_session g l) = edges g ∧
  sessions (foldl merge_session g l) =
    foldl (λ acc kv, match acc !! kv.1 with
                     | Some _ => acc
                     | None => <[kv.1 := kv.2]> acc
                     end) (sessions g) l ∧
  activeSession (foldl merge_session g l) = activeSession g ∧
  outgoing (foldl merge_session g l) = outgoing g ∧
  incoming (foldl merge_session g l) = incoming g ∧
  nodesByType (foldl merge_session g l) = nodesByType g ∧
  contentIndex (foldl merge_session g l) = contentIndex g.
Proof.
  revert g. induction l as [|[id s] l IH]; intros g; [done|].
  cbn [foldl].
  destruct (IH (merge_session g (id, s)))
    as (-> & -> & -> & -> & -> & -> & -> & ->).
  unfold merge_session. cbn [fst snd]. by destruct (sessions g !! id).
Qed.

Lemma wf_merge_node (g : MemoryGraph) (entry : string * MemoryNode) :
  graph_wf g → graph_wf (merge_node g entry).
Proof.
  intros Hwf. destruct entry as [id node]. unfold merge_node.
  destruct (nodes g !! id) as [?|] eqn:Hfresh; [done|].
  assert (Hnosrc : ∀ k e, edges g !! k = Some e →
                          sourceId e ≠ id ∧ targetId e ≠ id).
  { intros k e He. destruct (wf_endpoints g Hwf k e He) as [[? Hs] [? Ht]].
    split; intros Heq; rewrite Heq in *; congruence. }
  split; simpl.
  - intros k. rewrite !lookup_insert_is_Some.
    intros [<-|[Hne Hk]]; [split; by left|].
    destruct (wf_adjacency g Hwf k Hk). split; right; done.
  - intros k e He. destruct (wf_endpoints g Hwf k e He).
    rewrite !lookup_insert_is_Some.
    destruct (Hnosrc k e He). split; right; done.
  - intros k e He. destruct (wf_edges_listed g Hwf k e He).
    destruct (Hnosrc k e He). rewrite !adj_mem_insert_nil. done.
  - intros t k Hmem. apply adj_mem_index_add in Hmem as [Hmem|[<- ->]].
    + destruct (wf_type_index g Hwf t k Hmem) as (n & Hn & Hty).
      exists n. split; [|done]. rewrite lookup_insert_ne; [done|].
      intros <-. congruence.
    + rewrite lookup_insert_eq. eauto.
  - intros h k Hl. apply lookup_insert_Some in Hl as [[<- <-]|[Hne Hl]].
    + rewrite lookup_insert_eq. eauto.
    + destruct (wf_content_index g Hwf h k Hl) as (n & Hn & Hh).
      exists n. split; [|done]. rewrite lookup_insert_ne; [done|].
      intros <-. congruence.
Qed.

Lemma wf_merge_edge (g : MemoryGraph) (id : string) (e : MemoryEdge) :
  graph_wf g →
  is_Some (nodes g !! sourceId e) → is_Some (nodes g !! targetId e) →
  graph_wf (merge_edge g (id, e)).
Proof.
  intros Hwf Hsrc Htgt. unfold merge_edge.
  destruct (edges g !! id) as [?|] eqn:Hfresh; [done|].
  destruct (wf_adjacency g Hwf _ Hsrc) as [Hos His].
  destruct (wf_adjacency g Hwf _ Htgt) as [Hot Hit].
  split; simpl.
  - intros k Hk. destruct (wf_adjacency g Hwf k Hk) as [Ho Hi].
    unfold adj_add. destruct (bidirectional e); rewrite !is_Some_alter; done.
  - intros k e' He. apply lookup_insert_Some in He as [[<- <-]|[_ He]];
      [done|]. by apply (wf_endpoints g Hwf k).
  - intros k e' He. apply lookup_insert_Some in He as [[<- <-]|[_ He]].
    + destruct (bidirectional e); split;
        repeat first [ by apply adj_mem_adj_add_new
                     | apply adj_mem_adj_add_mono ].
    + destruct (wf_edges_listed g Hwf k e' He).
      destruct (bidirectional e); split;
        repeat apply adj_mem_adj_add_mono; done.
  - apply (wf_type_index g Hwf).
  - apply (wf_content_index g Hwf).
Qed.

Lemma wf_merge_nodes (l : list (string * MemoryNode)) (g : MemoryGraph) :
  graph_wf g → graph_wf (foldl merge_node g l).
Proof.
  revert g. induction l as [|x l IH]; intros g Hwf; [done|].
  cbn [foldl]. by apply IH, wf_merge_node.
Qed.

Lemma merge_edge_nodes (g : MemoryGraph) (entry : string * MemoryEdge) :
  nodes (merge_edge g entry) = nodes g.
Proof.
  destruct entry as [id e]. unfold merge_edge. by destruct (edges g !! id).
Qed.

Lemma wf_merge_edges (l : list (string * MemoryEdge)) (g : MemoryGraph) :
  graph_wf g →
  (∀ id e, (id, e) ∈ l →
           is_Some (nodes g !! sourceId e) ∧ is_Some (nodes g !! targetId e)) →
  graph_wf (foldl merge_edge g l).
Proof.
  revert g. induction l as [|[id e] l IH]; intros g Hwf Hends; [done|].
  cbn [foldl]. apply IH.
  - destruct (Hends id e (list_elem_of_here _ _)). by apply wf_merge_edge.
  - intros id' e' Hin. rewrite merge_edge_nodes.
    apply (Hends id'). by apply list_elem_of_further.
Qed.

Lemma wf_restamp (g : MemoryGraph) (st : Stats) :
  graph_wf g →
  graph_wf {| nodes := nodes g; edges := edges g; outgoing := outgoing g;
              incoming := incoming g; nodesByType := nodesByType g;
              edgesByType := edgesByType g; contentIndex := contentIndex g;
              sessions := sessions g; activeSession := activeSession g;
              stats := st |}.
Proof.
  intros Hwf. apply (graph_wf_transfer g); simpl; try done; [eauto|].
  apply (wf_content_index g Hwf).
Qed.

(** X28.  [_mergeGraph] never overwrites: a node, an edge or a session of
    the memory's graph stays as it is, and one of the source graph is taken
    over exactly when its id was not in use (each of the three maps becomes
    the union in which the memory's own entries win); the active session is
    not touched.  When neither graph has a dangling reference, the merged
    graph has none either, and its stats count its nodes and edges. *)
Theorem merge_adds_what_is_missing_and_stays_consistent
    (sourceGraph graph : MemoryGraph) :
  graph_wf graph → graph_wf sourceGraph →
  let merged := _mergeGraph sourceGraph graph in
  nodes merged = nodes graph ∪ nodes sourceGraph ∧
  edges merged = edges graph ∪ edges sourceGraph ∧
  sessions merged = sessions graph ∪ sessions sourceGraph ∧
  activeSession merged = activeSession graph ∧
  graph_wf merged ∧ stats_agree merged.
Proof.
  intros Hwf Hsrc. unfold _mergeGraph.
  set (g1 := foldl merge_node graph (map_to_list (nodes sourceGraph))).
  set (g2 := foldl merge_edge g1 (map_to_list (edges sourceGraph))).
  set (g3 := foldl merge_session g2 (map_to_list (sessions sourceGraph))).
  destruct (merge_node_frame (map_to_list (nodes sourceGraph)) graph)
    as (Hn1 & He1 & Hs1 & Ha1). fold g1 in Hn1, He1, Hs1, Ha1.
  destruct (merge_edge_frame (map_to_list (edges sourceGraph)) g1)
    as (Hn2 & He2 & Hs2 & Ha2). fold g2 in Hn2, He2, Hs2, Ha2.
  destruct (merge_session_frame (map_to_list (sessions sourceGraph)) g2)
    as (Hn3 & He3 & Hs3 & Ha3 & Ho3 & Hi3 & Ht3 & Hc3).
  fold g3 in Hn3, He3, Hs3, Ha3, Ho3, Hi3, Ht3, Hc3.
  rewrite foldl_absent_insert, list_to_map_to_list in Hn1
    by apply NoDup_fst_map_to_list.
  rewrite foldl_absent_insert, list_to_map_to_list in He2
    by apply NoDup_fst_map_to_list.
  rewrite foldl_absent_insert, list_to_map_to_list in Hs3
    by apply NoDup_fst_map_to_list.
  assert (Hwf1 : graph_wf g1) by by apply wf_merge_nodes.
  assert (Hwf2 : graph_wf g2).
  { apply wf_merge_edges; [done|]. intros id e Hin.
    apply elem_of_map_to_list in Hin.
    destruct (wf_endpoints _ Hsrc id e Hin) as [[ns Hs] [nt Ht]].
    rewrite Hn1, !lookup_union, Hs, Ht.
    split; [by destruct (nodes graph !! sourceId e)
           |by destruct (nodes graph !! targetId e)]. }
  assert (Hwf3 : graph_wf g3).
  { apply (graph_wf_transfer g2); try done.
    - rewrite Hn3. eauto.
    - intros k n Hk. rewrite Hn3. eauto.
    - intros h k Hk. rewrite Hc3 in Hk. rewrite Hn3.
      by apply (wf_content_index g2 Hwf2). }
  cbn zeta. cbn [nodes edges sessions activeSession].
  split; [by rewrite Hn3, Hn2, Hn1|].
  split; [by rewrite He3, He2, He1|].
  split; [by rewrite Hs3, Hs2, Hs1|].
  split; [by rewrite Ha3, Ha2, Ha1|].
  split; [by apply wf_restamp|done].
Qed.

Lemma merge_adds_what_is_missing_and_stays_consistent_witness :
  let merged := _mergeGraph collision_graph overlapping_graph in
  nodes merged = nodes overlapping_graph ∪ nodes collision_graph ∧
  nodes merged !! "node_a" = nodes overlapping_graph !! "node_a" ∧
  nodes merged !! "node_b" = nodes collision_graph !! "node_b" ∧
  graph_wf merged ∧ stats_agree merged.
Proof.
  destruct (merge_adds_what_is_missing_and_stays_consistent collision_graph
              overlapping_graph) as (Hn & _ & _ & _ & Hwf & Hst).
  - apply reachable_wf, reachable_step; [apply demo_graph_reachable|].
    vm_compute. reflexivity.
  - apply reachable_wf, reachable_run; [apply reachable_new|].
    vm_compute. repeat split.
  - cbn zeta. split; [exact Hn|]. rewrite Hn.
    split; [vm_compute; reflexivity|].
    split; [vm_compute; reflexivity|]. split; [exact Hwf|exact Hst].
Defined.

(** ** Reloading *)

Lemma restoreNode_fresh (now : Z) (g : MemoryGraph) (nd : MemoryNode) :
  nodes g !! n_id nd = None →
  restoreNode now g nd = merge_node g (n_id nd, MemoryNode_fromJSON now nd).
Proof. intros H. unfold restoreNode, merge_node. by rewrite H. Qed.

Lemma restoreEdge_fresh (now : Z) (g : MemoryGraph) (ed : MemoryEdge) :
  edges g !! e_id ed = None →
  restoreEdge now g ed = merge_edge g (e_id ed, MemoryEdge_fromJSON now ed).
Proof. intros H. unfold restoreEdge, merge_edge. by rewrite H. Qed.

Lemma wf_restore_nodes (now : Z) (l : list MemoryNode) (g : MemoryGraph) :
  NoDup (n_id <$> l) → (∀ n, n ∈ l → nodes g !! n_id n = None) →
  graph_wf g → graph_wf (foldl (restoreNode now) g l).
Proof.
  revert g. induction l as [|a l IH]; intros g Hnd Hfresh Hwf; [done|].
  rewrite fmap_cons in Hnd. apply NoDup_cons in Hnd as [Ha Hnd].
  cbn [foldl]. rewrite restoreNode_fresh by apply Hfresh, list_elem_of_here.
  apply IH; [done| |by apply wf_merge_node].
  intros n Hn. unfold merge_node.
  rewrite (Hfresh a) by apply list_elem_of_here. cbn [nodes].
  rewrite lookup_insert_ne; [by apply Hfresh, list_elem_of_further|].
  intros Heq. apply Ha. rewrite Heq. by apply list_elem_of_fmap_2.
Qed.

Lemma wf_restore_edges (now : Z) (l : list MemoryEdge) (g : MemoryGraph) :
  NoDup (e_id <$> l) → (∀ e, e ∈ l → edges g !! e_id e = None) →
  (∀ e, e ∈ l →
        is_Some (nodes g !! sourceId e) ∧ is_Some (nodes g !! targetId e)) →
  graph_wf g → graph_wf (foldl (restoreEdge now) g l).
Proof.
  revert g. induction l as [|a l IH]; intros g Hnd Hfresh Hends Hwf; [done|].
  rewrite fmap_cons in Hnd. apply NoDup_cons in Hnd as [Ha Hnd].
  cbn [foldl]. rewrite restoreEdge_fresh by apply Hfresh, list_elem_of_here.
  apply IH; [done| | |].
  - intros e He. unfold merge_edge.
    rewrite (Hfresh a) by apply list_elem_of_here. cbn [edges].
    rewrite lookup_insert_ne; [by apply Hfresh, list_elem_of_further|].
    intros Heq. apply Ha. rewrite Heq. by apply list_elem_of_fmap_2.
  - intros e He. rewrite merge_edge_nodes.
    by apply Hends, list_elem_of_further.
  - destruct (Hends a (list_elem_of_here _ _)). by apply wf_merge_edge.
Qed.

Lemma keys_of_values {A} (key : A → string) (m : gmap string A) :
  (∀ k a, m !! k = Some a → key a = k) →
  key <$> (map_to_list m).*2 = (map_to_list m).*1.
Proof.
  intros Hkey. rewrite <- list_fmap_compose.
  apply list_fmap_ext. intros i [k a] Hi. simpl.
  apply Hkey, elem_of_map_to_list. by apply list_elem_of_lookup_2 in Hi.
Qed.

Lemma restoreSession_frame (now : Z) (l : list WorkSession) (g : MemoryGraph) :
  outgoing (foldl (restoreSession now) g l) = outgoing g ∧
  incoming (foldl (restoreSession now) g l) = incoming g ∧
  nodesByType (foldl (restoreSession now) g l) = nodesByType g ∧
  contentIndex (foldl (restoreSession now) g l) = contentIndex g ∧
  activeSession (foldl (restoreSession now) g l) = activeSession g.
Proof.
  revert g. induction l as [|d l IH]; intros g; [done|].
  cbn [foldl].
  destruct (IH (restoreSession now g d)) as (-> & -> & -> & -> & ->). done.
Qed.

Lemma restore_keeps_no_session (now : Z) (g : MemoryGraph) :
  (∀ l, activeSession (foldl (restoreNode now) g l) = activeSession g) ∧
  (∀ l, activeSession (foldl (restoreEdge now) g l) = activeSession g).
Proof.
  split; intros l; revert g; induction l as [|d l IH]; intros g; try done;
    cbn [foldl]; by rewrite IH.
Qed.

(** X29.  Saving and loading rebuilds a consistent graph: for every graph
    built by the mutation operations, [fromJSON(toJSON(g))] holds the same
    node, edge and session ids as [g], has no dangling reference (every
    edge joins stored nodes and stands in their adjacency sets, the type
    index and the content index lead to stored nodes of that type and
    hash), and its stats count its nodes and edges. *)
Theorem reloaded_graph_is_consistent (now : Z) (g : MemoryGraph) :
  reachable g →
  let g' := fromJSON now (toJSON g) in
  graph_wf g' ∧ stats_agree g' ∧
  dom (nodes g') = dom (nodes g) ∧ dom (edges g') = dom (edges g) ∧
  dom (sessions g') = dom (sessions g).
Proof.
  intros Hr. pose proof (reachable_wf g Hr) as Hwf.
  pose proof (reachable_keyed g Hr) as Hkeyed.
  destruct (fromJSON_toJSON_maps now g Hkeyed) as (Hn & He & Hs).
  cbn zeta. split; [|split; [done|]].
  2:{ rewrite Hn, He, Hs, !dom_fmap_L. done. }
  destruct Hkeyed as (Hkn & Hke & Hks).
  unfold fromJSON, toJSON. cbn [j_nodes j_edges j_sessions j_stats].
  unfold MemoryNode_toJSON, MemoryEdge_toJSON, WorkSession_toJSON.
  rewrite !list_fmap_id.
  set (g1 := foldl (restoreNode now) (MemoryGraph_new now)
               (map_to_list (nodes g)).*2).
  set (g2 := foldl (restoreEdge now) g1 (map_to_list (edges g)).*2).
  set (g3 := foldl (restoreSession now) g2 (map_to_list (sessions g)).*2).
  destruct (restoreNode_maps now (map_to_list (nodes g)).*2
              (MemoryGraph_new now)) as (Hn1 & He1 & _).
  cbn [nodes edges MemoryGraph_new] in Hn1, He1.
  rewrite (restore_values n_id) in Hn1 by done. fold g1 in Hn1, He1.
  assert (Hwf1 : graph_wf g1).
  { apply wf_restore_nodes; [| |apply graph_wf_new].
    - rewrite (keys_of_values n_id) by done. apply NoDup_fst_map_to_list.
    - intros n _. apply lookup_empty. }
  assert (Hwf2 : graph_wf g2).
  { apply wf_restore_edges; [| | |done].
    - rewrite (keys_of_values e_id) by done. apply NoDup_fst_map_to_list.
    - intros e _. rewrite He1. apply lookup_empty.
    - intros e Hin. apply list_elem_of_fmap in Hin as ([k e'] & -> & Hin).
      apply elem_of_map_to_list in Hin. simpl.
      destruct (wf_endpoints g Hwf k e' Hin) as [[ns Hsrc] [nt Htgt]].
      rewrite Hn1, !lookup_fmap, Hsrc, Htgt. eauto. }
  destruct (restoreSession_maps now (map_to_list (sessions g)).*2 g2)
    as (Hn3 & He3 & _). fold g3 in Hn3, He3.
  destruct (restoreSession_frame now (map_to_list (sessions g)).*2 g2)
    as (Ho3 & Hi3 & Ht3 & Hc3 & _). fold g3 in Ho3, Hi3, Ht3, Hc3.
  assert (Hwf3 : graph_wf g3).
  { apply (graph_wf_transfer g2); try done.
    - rewrite Hn3. eauto.
    - intros k n Hk. rewrite Hn3. eauto.
    - intros h k Hk. rewrite Hc3 in Hk. rewrite Hn3.
      by apply (wf_content_index g2 Hwf2). }
  by apply wf_restamp.
Qed.

Lemma reloaded_graph_is_consistent_witness :
  graph_wf (fromJSON 5000 (toJSON demo_graph)) ∧
  dom (nodes (fromJSON 5000 (toJSON demo_graph))) = dom (nodes demo_graph).
Proof.
  destruct (reloaded_graph_is_consistent 5000 demo_graph demo_graph_reachable)
    as (Hwf & _ & Hd & _).
  split; [exact Hwf|exact Hd].
Defined.

Lemma filter_fmap_length {A} (P : A → Prop) `{∀ x, Decision (P x)}
    (f : A → A) (l : list A) :
  (∀ x, P (f x) ↔ P x) →
  length (filter P (f <$> l)) = length (filter P l).
Proof.
  intros Hf. induction l as [|a l IH]; [done|].
  rewrite fmap_cons, !filter_cons.
  destruct (decide (P (f a))) as [Hy|Hn], (decide (P a)) as [Hy'|Hn'];
    simpl; rewrite ?IH; try done.
  - exfalso. by apply Hn', Hf.
  - exfalso. by apply Hn, Hf.
Qed.

Lemma activeSessions_count (g : MemoryGraph) :
  sessions_consistent g →
  activeSessions g =
    match activeSession g with Some _ => 1 | None => 0 end%nat.
Proof.
  intros Hsc. unfold activeSessions.
  rewrite (count_active (activeSession g) (map_to_list (sessions g))).
  - destruct (activeSession g) as [a|] eqn:Ha; [|done].
    destruct (sc_active g Hsc a Ha) as (s & Hs & _).
    rewrite decide_True; [done|].
    apply list_elem_of_fmap. exists (a, s). split; [done|].
    by apply elem_of_map_to_list.
  - apply NoDup_fst_map_to_list.
  - intros k s Hin. apply elem_of_map_to_list in Hin. split.
    + by apply (sc_single g Hsc).
    + intros Ha. destruct (sc_active g Hsc k Ha) as (s' & Hs' & Hact & _).
      congruence.
Qed.

(** X30.  Which session is active does not survive saving and loading.
    When a graph built by the mutation operations has an active session,
    [fromJSON(toJSON(g))] has no [activeSession], yet the session is stored
    still marked active and without an end time; [endSession] does nothing
    on the loaded graph, and a [startSession] leaves the old session marked
    active beside the new one, so that [getStats] counts two active
    sessions. *)
Theorem reload_forgets_the_active_session (now : Z) (g : MemoryGraph)
    (k : string) :
  reachable g → activeSession g = Some k →
  let g' := fromJSON now (toJSON g) in
  activeSession g' = None ∧
  (∃ s, sessions g' !! k = Some s ∧ isActive s = true ∧ endedAt s = None) ∧
  (∀ t, endSession t g' = g') ∧
  (∀ t fresh metadata,
     sessions g !! fresh = None →
     let g'' := (startSession t fresh metadata g').2 in
     (∃ s, sessions g'' !! k = Some s ∧ isActive s = true) ∧
     activeSessions g'' = 2%nat).
Proof.
  intros Hr Hact. pose proof (reachable_keyed g Hr) as Hkeyed.
  pose proof (reachable_sessions g Hr) as Hsc.
  destruct (fromJSON_toJSON_maps now g Hkeyed) as (_ & _ & Hs).
  destruct (sc_active g Hsc k Hact) as (s & Hks & Hsa & Hse).
  cbn zeta.
  assert (Hnone : activeSession (fromJSON now (toJSON g)) = None).
  { unfold fromJSON. cbn [activeSession].
    destruct (restore_keeps_no_session now (MemoryGraph_new now)) as [Hn _].
    destruct (restoreSession_frame now (j_sessions (toJSON g))
                (foldl (restoreEdge now)
                   (foldl (restoreNode now) (MemoryGraph_new now)
                      (j_nodes (toJSON g))) (j_edges (toJSON g))))
      as (_ & _ & _ & _ & ->).
    destruct (restore_keeps_no_session now
                (foldl (restoreNode now) (MemoryGraph_new now)
                   (j_nodes (toJSON g)))) as [_ ->].
    by rewrite Hn. }
  assert (Hend : ∀ t, endSession t (fromJSON now (toJSON g))
                      = fromJSON now (toJSON g)).
  { intros t. unfold endSession. by rewrite Hnone. }
  split; [done|]. split; [|split; [done|]].
  - exists (WorkSession_fromJSON now s). by rewrite Hs, lookup_fmap, Hks.
  - intros t fresh metadata Hfresh. unfold startSession. rewrite Hend.
    cbn [snd sessions WorkSession_new s_id]. rewrite Hs. split.
    + exists (WorkSession_fromJSON now s).
      rewrite lookup_insert_ne by congruence.
      by rewrite lookup_fmap, Hks.
    + unfold activeSessions. cbn [sessions].
      rewrite map_to_list_insert by (by rewrite lookup_fmap, Hfresh).
      rewrite map_to_list_fmap, fmap_cons, filter_cons. cbn [snd isActive].
      rewrite decide_True by done. cbn [length]. f_equal.
      rewrite <- list_fmap_compose.
      change (snd ∘ prod_map id (WorkSession_fromJSON now))
        with (WorkSession_fromJSON now ∘ (snd : string * WorkSession → _)).
      rewrite list_fmap_compose, filter_fmap_length by done.
      pose proof (activeSessions_count g Hsc) as Hc.
      unfold activeSessions in Hc. by rewrite Hc, Hact.
Qed.

Lemma reload_forgets_the_active_session_witness :
  activeSession demo_graph = Some "session_1" ∧
  activeSession (fromJSON 5000 (toJSON demo_graph)) = None ∧
  activeSessions
    (startSession 5001 "session_2" no_session_options
       (fromJSON 5000 (toJSON demo_graph))).2 = 2%nat.
Proof.
  split; [vm_compute; reflexivity|].
  destruct (reload_forgets_the_active_session 5000 demo_graph "session_1"
              demo_graph_reachable) as (Hn & _ & _ & Hs);
    [vm_compute; reflexivity|].
  split; [exact Hn|].
  destruct (Hs 5001%Z "session_2" no_session_options) as [_ Hc];
    [vm_compute; reflexivity|exact Hc].
Defined.
